(** * TableGen language support: a shallow embedding of the server core

    The development follows the TypeScript sources of the language server:
    - [types.ts]            : positions, ranges, AST nodes, symbols;
    - [parser.ts]           : [Lexer] and [Parser];
    - [symbols.ts]          : [SymbolTable], [SymbolCollector],
                              [TypeSystem] and [TypeCollector];
    - [includeGraph.ts]     : [IncludeGraph];
    - [resolutionHelpers.ts]: composite [defm] symbols, [defvar] lookup
                              and the type of a [!cast];
    - [server.ts]           : the server's private copy of the composite
                              symbols, and its scope lookup by position.

    JavaScript [Map]s keyed by strings are modelled as [gmap string _],
    [Set]s of strings as [gset string], arrays as lists.  Mutation of an
    object is modelled by explicit state passing.  A recursion that the
    source leaves unbounded is modelled with a fuel argument; running out
    of fuel ([None], or [OutOfFuel] in the parser) stands for a computation
    that does not return: it goes on for ever or, where the fuel bounds
    how deep calls nest ([nextToken], [parseStatement],
    [parseExpression]), it needs a deeper call stack than the fuel stands
    for, and the engine ends it with a [RangeError].  A parser method
    that reads a property of [undefined] is modelled as [Throw].  A
    string is modelled by its one-byte characters, which is exact for a
    text of ASCII characters. *)

From Stdlib Require Import ZArith Ascii String List Lia Bool Arith Sorted.
From stdpp Require Import gmap strings list fin_maps sets pretty.

Set Warnings "-register-all,-clear-no-such-hyp".

Open Scope string_scope.
Open Scope list_scope.

(* ===================================================================== *)
(** * types.ts *)
(* ===================================================================== *)

Record Position := mkPosition { line : nat; character : nat }.

Record Range := mkRange { r_start : Position; r_end : Position }.

Record Location := mkLocation { loc_uri : string; loc_range : Range }.

Inductive SymbolKind :=
| SKclass | SKdef | SKdefm | SKmulticlass | SKdefset | SKdefvar
| SKfield | SKtemplateArg | SKforeachVar | SKletBinding.

(** [scope] and [isForwardDeclaration] are optional in the source: an
    absent scope and the empty string are both falsy, and are the only
    falsy values a string-typed field can take. *)
Record Symbol := mkSymbol {
  sym_name : string;
  sym_kind : SymbolKind;
  sym_location : Location;
  sym_scope : option string;
  sym_isForwardDeclaration : option bool
}.

Record SymbolReference := mkSymbolReference {
  ref_name : string;
  ref_location : Location;
  ref_scope : option string
}.

(* ===================================================================== *)
(** * types.ts: AST nodes *)
(* ===================================================================== *)

Record Identifier := mkIdentifier { id_name : string; id_range : Range }.

(** Expressions.  A [NumberLiteral] keeps the token text; its [value] in
    the source is [parseInt] of that text.  [BinaryExpr] and
    [TernaryExpr] belong to the type but no parser rule builds them. *)
Inductive Expression :=
| EIdentifier (id : Identifier)
| ENumberLiteral (text : string) (range : Range)
| EStringLiteral (value : string) (range : Range)
| ECodeLiteral (value : string) (range : Range)
| EListExpr (elements : list Expression) (range : Range)
| EDagExpr (operator : Expression)
           (args : list (Expression * option Identifier * Range))
           (range : Range)
| EBangOperator (operator : string) (typeArgText : option string)
                (args : list Expression) (range : Range)
| EBinaryExpr (operator : string) (left right : Expression) (range : Range)
| ETernaryExpr (condition thenExpr elseExpr : Expression) (range : Range)
| EFieldAccess (object : Expression) (field : Identifier) (range : Range)
| EClassRef (name : Identifier) (args : list Expression) (range : Range).

Record ClassRef := mkClassRef {
  cr_name : Identifier;
  cr_args : list Expression;
  cr_range : Range
}.

Record TemplateArg := mkTemplateArg {
  ta_argType : string;
  ta_name : Identifier;
  ta_defaultValue : option Expression;
  ta_range : Range
}.

Record LetBinding := mkLetBinding {
  lb_name : Identifier;
  lb_value : Expression;
  lb_range : Range
}.

(** The statement nodes, each over the type [S] of the statements in its
    body. *)
Record ClassDef_ (S : Type) := mkClassDef {
  cd_name : Identifier;
  cd_templateArgs : list TemplateArg;
  cd_parentClasses : list ClassRef;
  cd_body : list S;
  cd_isForwardDeclaration : bool;
  cd_range : Range
}.

Record RecordDef_ (S : Type) := mkRecordDef {
  rd_name : option Identifier;
  rd_parentClasses : list ClassRef;
  rd_body : list S;
  rd_range : Range
}.

Record MultiClassDef_ (S : Type) := mkMultiClassDef {
  mc_name : Identifier;
  mc_templateArgs : list TemplateArg;
  mc_parentClasses : list ClassRef;
  mc_body : list S;
  mc_range : Range
}.

Record DefmDef := mkDefmDef {
  dm_name : option Identifier;
  dm_parentClasses : list ClassRef;
  dm_range : Range
}.

Record DefsetDef_ (S : Type) := mkDefsetDef {
  ds_valueType : string;
  ds_name : Identifier;
  ds_body : list S;
  ds_range : Range
}.

Record DefvarDef := mkDefvarDef {
  dv_name : Identifier;
  dv_value : Expression;
  dv_range : Range
}.

Record FieldDef := mkFieldDef {
  fd_fieldType : string;
  fd_name : Identifier;
  fd_value : option Expression;
  fd_range : Range
}.

Record LetStatement_ (S : Type) := mkLetStatement {
  ls_bindings : list LetBinding;
  ls_body : list S;
  ls_range : Range
}.

Record ForeachStatement_ (S : Type) := mkForeachStatement {
  fe_variable : Identifier;
  fe_iterRange : Expression;
  fe_body : list S;
  fe_range : Range
}.

Record IfStatement_ (S : Type) := mkIfStatement {
  if_condition : Expression;
  if_thenBody : list S;
  if_elseBody : list S;
  if_range : Range
}.

Record IncludeStatement := mkIncludeStatement {
  inc_path : string;
  inc_range : Range
}.

Record AssertStatement := mkAssertStatement {
  as_condition : Expression;
  as_message : Expression;
  as_range : Range
}.

Arguments mkClassDef {S}. Arguments cd_name {S}. Arguments cd_templateArgs {S}.
Arguments cd_parentClasses {S}. Arguments cd_body {S}.
Arguments cd_isForwardDeclaration {S}. Arguments cd_range {S}.
Arguments mkRecordDef {S}. Arguments rd_name {S}. Arguments rd_parentClasses {S}.
Arguments rd_body {S}. Arguments rd_range {S}.
Arguments mkMultiClassDef {S}. Arguments mc_name {S}. Arguments mc_templateArgs {S}.
Arguments mc_parentClasses {S}. Arguments mc_body {S}. Arguments mc_range {S}.
Arguments mkDefsetDef {S}. Arguments ds_valueType {S}. Arguments ds_name {S}.
Arguments ds_body {S}. Arguments ds_range {S}.
Arguments mkLetStatement {S}. Arguments ls_bindings {S}. Arguments ls_body {S}.
Arguments ls_range {S}.
Arguments mkForeachStatement {S}. Arguments fe_variable {S}.
Arguments fe_iterRange {S}. Arguments fe_body {S}. Arguments fe_range {S}.
Arguments mkIfStatement {S}. Arguments if_condition {S}. Arguments if_thenBody {S}.
Arguments if_elseBody {S}. Arguments if_range {S}.

Inductive Statement :=
| SClassDef (s : ClassDef_ Statement)
| SRecordDef (s : RecordDef_ Statement)
| SMultiClassDef (s : MultiClassDef_ Statement)
| SDefmDef (s : DefmDef)
| SDefsetDef (s : DefsetDef_ Statement)
| SDefvarDef (s : DefvarDef)
| SFieldDef (s : FieldDef)
| SLetStatement (s : LetStatement_ Statement)
| SForeachStatement (s : ForeachStatement_ Statement)
| SIfStatement (s : IfStatement_ Statement)
| SIncludeStatement (s : IncludeStatement)
| SAssertStatement (s : AssertStatement).

Abbreviation ClassDef := (ClassDef_ Statement).
Abbreviation RecordDef := (RecordDef_ Statement).
Abbreviation MultiClassDef := (MultiClassDef_ Statement).
Abbreviation DefsetDef := (DefsetDef_ Statement).
Abbreviation LetStatement := (LetStatement_ Statement).
Abbreviation ForeachStatement := (ForeachStatement_ Statement).
Abbreviation IfStatement := (IfStatement_ Statement).

Record ParseError := mkParseError { pe_message : string; pe_range : Range }.

Record ParsedFile := mkParsedFile {
  pf_uri : string;
  pf_statements : list Statement;
  pf_includes : list IncludeStatement;
  pf_errors : list ParseError
}.

(* ===================================================================== *)
(** * parser.ts: the lexer *)
(* ===================================================================== *)

Inductive TokenType :=
| TTkeyword | TTidentifier | TTnumber | TTstring | TTcode
| TToperator | TTpunctuation | TTcomment | TTeof.

Global Instance TokenType_eq_dec : EqDecision TokenType.
Proof. solve_decision. Defined.

Record Token := mkToken {
  tok_type : TokenType;
  tok_value : string;
  tok_range : Range
}.

Definition KEYWORDS : list string :=
  ["class"; "def"; "defm"; "defset"; "defvar"; "multiclass";
   "let"; "in"; "foreach"; "if"; "then"; "else";
   "include"; "field"; "bit"; "bits"; "int"; "string";
   "list"; "dag"; "code"; "assert"].

Module Lexer.

(** The text is a string of one-byte characters; for ASCII sources this is
    the indexing of the JavaScript string. *)
Record t := mk { lx_pos : nat; lx_line : nat; lx_character : nat }.

Definition init : t := {| lx_pos := 0; lx_line := 0; lx_character := 0 |}.

Section WithText.
Variable text : string.

Definition currentPos (lx : t) : Position :=
  {| line := lx_line lx; character := lx_character lx |}.

(** [this.text[this.pos + offset] || '']: [None] is the empty string. *)
Definition peek (offset : nat) (lx : t) : option ascii :=
  String.get (lx_pos lx + offset) text.

(** [advance] returns [this.text[this.pos++]], [undefined] past the end. *)
Definition advance (lx : t) : option ascii * t :=
  let ch := String.get (lx_pos lx) text in
  (ch,
   match ch with
   | Some "010"%char =>
       {| lx_pos := S (lx_pos lx); lx_line := S (lx_line lx); lx_character := 0 |}
   | _ => {| lx_pos := S (lx_pos lx); lx_line := lx_line lx;
             lx_character := S (lx_character lx) |}
   end).

(** [value += this.advance()]: string concatenation turns [undefined]
    into the text "undefined". *)
Definition append_advance (value : string) (lx : t) : string * t :=
  let (ch, lx1) := advance lx in
  (match ch with
   | Some c => value +:+ String c EmptyString
   | None => value +:+ "undefined"
   end, lx1).

Definition in_range (lo hi c : ascii) : bool :=
  (nat_of_ascii lo <=? nat_of_ascii c)%nat && (nat_of_ascii c <=? nat_of_ascii hi)%nat.

(** The double quote character (code 34). *)
Definition double_quote : ascii := "034"%char.

Definition is_digit (c : ascii) : bool := in_range "0" "9" c.
Definition is_hex (c : ascii) : bool :=
  in_range "0" "9" c || in_range "A" "F" c || in_range "a" "f" c.
Definition is_bin (c : ascii) : bool := in_range "0" "1" c.
Definition is_letter (c : ascii) : bool := in_range "a" "z" c || in_range "A" "Z" c.
Definition is_ident_start (c : ascii) : bool := is_letter c || Ascii.eqb c "_".
Definition is_ident_char (c : ascii) : bool :=
  is_letter c || is_digit c || Ascii.eqb c "_".

Definition peek_is (offset : nat) (c : ascii) (lx : t) : bool :=
  match peek offset lx with Some c' => Ascii.eqb c' c | None => false end.

Definition peek_test (p : ascii -> bool) (offset : nat) (lx : t) : bool :=
  match peek offset lx with Some c => p c | None => false end.

Definition at_end (lx : t) : bool := (String.length text <=? lx_pos lx)%nat.

(** [while (cond) { this.advance(); }] *)
Fixpoint skip_while (fuel : nat) (cond : t -> bool) (lx : t) : option t :=
  match fuel with
  | O => None
  | S fuel' =>
      if cond lx then skip_while fuel' cond (advance lx).2 else Some lx
  end.

(** [while (cond) { value += this.advance(); }] *)
Fixpoint read_while (fuel : nat) (cond : t -> bool) (value : string) (lx : t)
  : option (string * t) :=
  match fuel with
  | O => None
  | S fuel' =>
      if cond lx
      then let (value1, lx1) := append_advance value lx in
           read_while fuel' cond value1 lx1
      else Some (value, lx)
  end.

(** The inner loop of a block comment. *)
Fixpoint skipBlockComment (fuel : nat) (lx : t) : option t :=
  match fuel with
  | O => None
  | S fuel' =>
      if at_end lx then Some lx
      else if peek_is 0 "*" lx && peek_is 1 "/" lx
           then Some (advance (advance lx).2).2
           else skipBlockComment fuel' (advance lx).2
  end.

Definition is_space (c : ascii) : bool :=
  Ascii.eqb c " " || Ascii.eqb c "009" || Ascii.eqb c "013" || Ascii.eqb c "010".

Fixpoint skipWhitespace (fuel : nat) (lx : t) : option t :=
  match fuel with
  | O => None
  | S fuel' =>
      if at_end lx then Some lx
      else if peek_test is_space 0 lx then skipWhitespace fuel' (advance lx).2
      else if peek_is 0 "/" lx && peek_is 1 "/" lx then
        match skip_while (S (String.length text))
                (fun lx => negb (at_end lx) && negb (peek_is 0 "010" lx)) lx with
        | Some lx1 => skipWhitespace fuel' lx1
        | None => None
        end
      else if peek_is 0 "/" lx && peek_is 1 "*" lx then
        match skipBlockComment (S (String.length text))
                (advance (advance lx).2).2 with
        | Some lx1 => skipWhitespace fuel' lx1
        | None => None
        end
      else Some lx
  end.

Fixpoint readString_loop (fuel : nat) (value : string) (lx : t)
  : option (string * t) :=
  match fuel with
  | O => None
  | S fuel' =>
      if negb (at_end lx) && negb (peek_is 0 double_quote lx) then
        if peek_is 0 "\" lx
        then let (value1, lx1) := append_advance value (advance lx).2 in
             readString_loop fuel' value1 lx1
        else let (value1, lx1) := append_advance value lx in
             readString_loop fuel' value1 lx1
      else Some (value, lx)
  end.

Definition readString (lx : t) : option (Token * t) :=
  let start := currentPos lx in
  match readString_loop (S (String.length text)) "" (advance lx).2 with
  | Some (value, lx1) =>
      let lx2 := (advance lx1).2 in
      Some ({| tok_type := TTstring; tok_value := value;
               tok_range := {| r_start := start; r_end := currentPos lx2 |} |}, lx2)
  | None => None
  end.

Fixpoint readCode_loop (fuel : nat) (value : string) (lx : t)
  : option (string * t) :=
  match fuel with
  | O => None
  | S fuel' =>
      if at_end lx then Some (value, lx)
      else if peek_is 0 "}" lx && peek_is 1 "]" lx
           then Some (value, (advance (advance lx).2).2)
           else let (value1, lx1) := append_advance value lx in
                readCode_loop fuel' value1 lx1
  end.

Definition readCode (lx : t) : option (Token * t) :=
  let start := currentPos lx in
  match readCode_loop (S (String.length text)) "" (advance (advance lx).2).2 with
  | Some (value, lx1) =>
      Some ({| tok_type := TTcode; tok_value := value;
               tok_range := {| r_start := start; r_end := currentPos lx1 |} |}, lx1)
  | None => None
  end.

Definition readNumber (lx : t) : option (Token * t) :=
  let start := currentPos lx in
  let (value0, lx0) :=
    if peek_is 0 "-" lx then append_advance "" lx else ("", lx) in
  let digits :=
    if peek_is 0 "0" lx0 && (peek_is 1 "x" lx0 || peek_is 1 "X" lx0) then
      let (v1, l1) := append_advance value0 lx0 in
      let (v2, l2) := append_advance v1 l1 in
      read_while (S (String.length text)) (peek_test is_hex 0) v2 l2
    else if peek_is 0 "0" lx0 && (peek_is 1 "b" lx0 || peek_is 1 "B" lx0) then
      let (v1, l1) := append_advance value0 lx0 in
      let (v2, l2) := append_advance v1 l1 in
      read_while (S (String.length text)) (peek_test is_bin 0) v2 l2
    else read_while (S (String.length text)) (peek_test is_digit 0) value0 lx0 in
  match digits with
  | Some (value, lx1) =>
      Some ({| tok_type := TTnumber; tok_value := value;
               tok_range := {| r_start := start; r_end := currentPos lx1 |} |}, lx1)
  | None => None
  end.

Definition readIdentifier (lx : t) : option (Token * t) :=
  let start := currentPos lx in
  match read_while (S (String.length text)) (peek_test is_ident_char 0) "" lx with
  | Some (value, lx1) =>
      Some ({| tok_type := if bool_decide (value ∈ KEYWORDS)
                           then TTkeyword else TTidentifier;
               tok_value := value;
               tok_range := {| r_start := start; r_end := currentPos lx1 |} |}, lx1)
  | None => None
  end.

Definition punctuation : list ascii :=
  ["{"; "}"; "["; "]"; "("; ")"; "<"; ">"; ":"; ";"; ","; "="; "."]%char.

(** [nextToken] calls itself after a character that it skips, so a run
    of such characters nests one call in the other; [fuel] bounds this
    depth, which the call stack of the engine bounds for the code.  The
    loops have a budget of their own, which they never use up. *)
Fixpoint nextToken (fuel : nat) (lx : t) : option (Token * t) :=
  match fuel with
  | O => None
  | S fuel' =>
      match skipWhitespace (S (String.length text)) lx with
      | None => None
      | Some lx =>
          if at_end lx then
            Some ({| tok_type := TTeof; tok_value := "";
                     tok_range := {| r_start := currentPos lx;
                                     r_end := currentPos lx |} |}, lx)
          else
            let start := currentPos lx in
            if peek_is 0 double_quote lx then readString lx
            else if peek_is 0 "[" lx && peek_is 1 "{" lx then readCode lx
            else if peek_test is_digit 0 lx
                    || (peek_is 0 "-" lx && peek_test is_digit 1 lx)
                 then readNumber lx
            else if peek_test is_ident_start 0 lx then readIdentifier lx
            else if peek_is 0 "!" lx then
              match read_while (S (String.length text)) (peek_test is_letter 0)
                      "" (advance lx).2 with
              | Some (op, lx1) =>
                  Some ({| tok_type := TToperator; tok_value := "!" +:+ op;
                           tok_range := {| r_start := start;
                                           r_end := currentPos lx1 |} |}, lx1)
              | None => None
              end
            else if peek_is 0 "#" lx then
              let lx1 := (advance lx).2 in
              Some ({| tok_type := TToperator; tok_value := "#";
                       tok_range := {| r_start := start;
                                       r_end := currentPos lx1 |} |}, lx1)
            else
              match peek 0 lx with
              | Some ch =>
                  if bool_decide (ch ∈ punctuation) then
                    let lx1 := (advance lx).2 in
                    Some ({| tok_type := TTpunctuation;
                             tok_value := String ch EmptyString;
                             tok_range := {| r_start := start;
                                             r_end := currentPos lx1 |} |}, lx1)
                  else nextToken fuel' (advance lx).2
              | None => nextToken fuel' (advance lx).2
              end
      end
  end.

(** The loop of [tokenize], where [nextToken] may nest to [depth]. *)
Fixpoint tokenize_loop (depth fuel : nat) (tokens : list Token) (lx : t)
  : option (list Token) :=
  match fuel with
  | O => None
  | S fuel' =>
      match nextToken depth lx with
      | None => None
      | Some (token, lx1) =>
          if decide (tok_type token = TTeof) then Some (tokens ++ [token])
          else tokenize_loop depth fuel' (tokens ++ [token]) lx1
      end
  end.

(** [tokenize] on a call stack that admits [depth] nested calls of
    [nextToken]; [None] is a run that needs more (the engine ends it with
    a [RangeError]).  Every token but the last takes at least one
    character, which bounds the iterations of the loop. *)
Definition tokenize_within (depth : nat) : option (list Token) :=
  tokenize_loop depth (S (String.length text)) [] init.

(** One nested call for each character is always enough: [tokenize] is
    the run on a call stack that admits this. *)
Definition tokenize : option (list Token) :=
  tokenize_within (S (String.length text)).

End WithText.
End Lexer.

(* ===================================================================== *)
(** * parser.ts: the parser *)
(* ===================================================================== *)

Module Parser.

(** The mutable fields of a [Parser] object. *)
Record state := mk { pos : nat; errors : list ParseError }.

(** A method call returns a value and the new state, throws (a property
    of [undefined] was read), or runs out of fuel. *)
Inductive result (A : Type) :=
| Ok (a : A) (st : state)
| Throw
| OutOfFuel.
Arguments Ok {A}. Arguments Throw {A}. Arguments OutOfFuel {A}.

Definition M (A : Type) : Type := state -> result A.

Definition ret {A} (a : A) : M A := fun st => Ok a st.

Definition bind {A B} (m : M A) (k : A -> M B) : M B :=
  fun st => match m st with
            | Ok a st1 => k a st1
            | Throw => Throw
            | OutOfFuel => OutOfFuel
            end.

Definition throw {A} : M A := fun _ => Throw.
Definition out_of_fuel {A} : M A := fun _ => OutOfFuel.

Notation "'do' x <- m ; k" := (bind m (fun x => k))
  (at level 10, x name, m at level 100, k at level 200).
Notation "'seq' m ; k" := (bind m (fun _ => k))
  (at level 10, m at level 100, k at level 200).

(** [if (c) { body }] for a body run for its effect. *)
Definition when (c : bool) (body : M unit) : M unit :=
  if c then body else ret tt.

(** A [while] loop: [step] runs one iteration from the loop variables [a]
    and either goes on ([inl]) or leaves the loop ([inr]), by its
    condition or by [break]. *)
Fixpoint loop {A B} (fuel : nat) (step : A -> M (A + B)) (a : A) : M B :=
  match fuel with
  | O => out_of_fuel
  | S fuel' =>
      do r <- step a ;
      match r with
      | inl a' => loop fuel' step a'
      | inr b => ret b
      end
  end.

Definition continue {A B} (a : A) : M (A + B) := ret (inl a).
Definition leave {A B} (b : B) : M (A + B) := ret (inr b).

(** The one-character string of a double quote. *)
Definition quote : string := String "034"%char EmptyString.

Definition type_name (ty : TokenType) : string :=
  match ty with
  | TTkeyword => "keyword" | TTidentifier => "identifier"
  | TTnumber => "number" | TTstring => "string" | TTcode => "code"
  | TToperator => "operator" | TTpunctuation => "punctuation"
  | TTcomment => "comment" | TTeof => "eof"
  end.

(** [String.prototype.trim], for the ASCII white space. *)
Definition is_trim_space (c : ascii) : bool :=
  let n := nat_of_ascii c in
  (n =? 32)%nat || ((9 <=? n)%nat && (n <=? 13)%nat).

Fixpoint trim_left (s : string) : string :=
  match s with
  | String c s' => if is_trim_space c then trim_left s' else s
  | EmptyString => EmptyString
  end.

Fixpoint trim_right (s : string) : string :=
  match s with
  | String c s' =>
      match trim_right s' with
      | EmptyString => if is_trim_space c then EmptyString else String c EmptyString
      | r => String c r
      end
  | EmptyString => EmptyString
  end.

Definition trim (s : string) : string := trim_right (trim_left s).

Definition startsWith (s : string) (c : ascii) : bool :=
  match s with String c' _ => Ascii.eqb c' c | EmptyString => false end.

Definition range_of (e : Expression) : Range :=
  match e with
  | EIdentifier id => id_range id
  | ENumberLiteral _ r | EStringLiteral _ r | ECodeLiteral _ r
  | EListExpr _ r | EDagExpr _ _ r | EBangOperator _ _ _ r
  | EBinaryExpr _ _ _ r | ETernaryExpr _ _ _ r | EFieldAccess _ _ r
  | EClassRef _ _ r => r
  end.

Section WithTokens.
Variable tokens : list Token.
Variable uri : string.

(** [this.tokens[this.pos + offset] || this.tokens[this.tokens.length - 1]] *)
Definition peek_token (offset : nat) (st : state) : option Token :=
  match tokens !! (pos st + offset) with
  | Some t => Some t
  | None => last tokens
  end.

(** Every caller of [peek] reads a property of its result at once, so the
    model throws right here when the result is [undefined]. *)
Definition peek (offset : nat) : M Token :=
  fun st => match peek_token offset st with
            | Some t => Ok t st
            | None => Throw
            end.

(** [this.tokens[this.pos++]], which is [undefined] past the end. *)
Definition advance : M (option Token) :=
  fun st => Ok (tokens !! pos st) {| pos := S (pos st); errors := errors st |}.

(** [this.advance()] where a property of the result is read. *)
Definition advance_token : M Token :=
  do t <- advance ; match t with Some t => ret t | None => throw end.

Definition get_pos : M nat := fun st => Ok (pos st) st.

Definition push_error (e : ParseError) : M unit :=
  fun st => Ok tt {| pos := pos st; errors := errors st ++ [e] |}.

Definition token_is (ty : TokenType) (value : option string) (token : Token) : bool :=
  bool_decide (tok_type token = ty)
  && match value with
     | None => true
     | Some v => bool_decide (tok_value token = v)
     end.

Definition expect (ty : TokenType) (value : option string) : M (option Token) :=
  do token <- peek 0 ;
  seq when (negb (token_is ty value token))
        (push_error
           {| pe_message :=
                "Expected "
                +:+ match value with
                    | Some v => if decide (v = "") then type_name ty else v
                    | None => type_name ty
                    end
                +:+ ", got " +:+ tok_value token;
              pe_range := tok_range token |}) ;
  advance.

Definition match_ (ty : TokenType) (value : option string) : M bool :=
  do token <- peek 0 ; ret (token_is ty value token).

Definition matchP (v : string) : M bool := match_ TTpunctuation (Some v).
Definition matchEof : M bool := match_ TTeof (Some "").

(** [a || b] and [a && b] on method calls. *)
Definition orM (a b : M bool) : M bool :=
  do x <- a ; if x then ret true else b.
Definition andM (a b : M bool) : M bool :=
  do x <- a ; if x then b else ret false.
Definition notM (a : M bool) : M bool := do x <- a ; ret (negb x).

(** [!this.match('punctuation', close) && !this.match('eof', '')] *)
Definition before (close : string) : M bool :=
  andM (notM (matchP close)) (notM matchEof).

(** [if (this.match('punctuation', v)) { this.advance(); }] *)
Definition skip_if (v : string) : M unit :=
  do b <- matchP v ; when b (seq advance ; ret tt).

Definition start_here : M Position :=
  do t <- peek 0 ; ret (r_start (tok_range t)).

Definition parseIdentifier : M Identifier :=
  do token <- advance_token ;
  ret {| id_name := tok_value token; id_range := tok_range token |}.

(* --------------------------------------------------------------------- *)
(** ** Expressions *)
(* --------------------------------------------------------------------- *)

Section Expressions.
(** [fuel] bounds the loops of one call; [parseExpression] is the
    recursive call. *)
Variable fuel : nat.
Variable parseExpression : M Expression.

(** The loop [while (!match(close) && !match(eof)) { args.push(
    parseExpression()); if (match(',')) advance(); }]. *)
Definition expression_list (close : string) : M (list Expression) :=
  loop fuel (fun args : list Expression =>
    do go <- before close ;
    if go then
      do e <- parseExpression ;
      seq skip_if "," ;
      continue (args ++ [e])
    else leave args) [].

Definition parseBangTypeArgumentText : M (option string) :=
  do b <- matchP "<" ;
  if negb b then ret None
  else
    seq advance ;
    do typeTokens <-
      loop fuel (fun '(angleDepth, typeTokens) =>
        do go <- andM (ret (0 <? angleDepth)%nat) (notM matchEof) ;
        if go then
          do token <- advance_token ;
          if token_is TTpunctuation (Some "<") token then
            continue (S angleDepth, typeTokens ++ [tok_value token])
          else if token_is TTpunctuation (Some ">") token then
            if (angleDepth - 1 =? 0)%nat then leave typeTokens
            else continue (angleDepth - 1, typeTokens ++ [tok_value token])
          else
            continue (angleDepth,
                      typeTokens ++
                        [if bool_decide (tok_type token = TTstring)
                         then quote +:+ tok_value token +:+ quote
                         else tok_value token])
        else leave typeTokens) (1, []) ;
    let typeArgText := trim (foldr String.append "" typeTokens) in
    ret (if (0 <? String.length typeArgText)%nat then Some typeArgText else None).

Definition parseBangOperator : M Expression :=
  do start <- start_here ;
  do opToken <- advance_token ;
  let operator := tok_value opToken in
  do typeArgText <- parseBangTypeArgumentText ;
  do b <- matchP "(" ;
  do args <- (if b then
             seq advance ;
             do args <- expression_list ")" ;
             seq skip_if ")" ;
             ret args
           else ret []) ;
  do end_ <- start_here ;
  ret (EBangOperator operator typeArgText args {| r_start := start; r_end := end_ |}).

Definition parseList : M Expression :=
  do start <- start_here ;
  seq advance ;
  do elements <- expression_list "]" ;
  do t <- peek 0 ;
  let end_ := r_end (tok_range t) in
  seq skip_if "]" ;
  ret (EListExpr elements {| r_start := start; r_end := end_ |}).

Definition parseDag : M Expression :=
  do start <- start_here ;
  seq advance ;
  do operator <- parseExpression ;
  do args <-
    loop fuel (fun args : list (Expression * option Identifier * Range) =>
      do go <- before ")" ;
      if go then
        do value <- parseExpression ;
        do colon <- matchP ":" ;
        do name <-
          (if colon then
             seq advance ;
             do t <- peek 0 ;
             if startsWith (tok_value t) "$" then
               do token <- advance_token ;
               ret (Some {| id_name := tok_value token;
                            id_range := tok_range token |})
             else ret None
           else ret None) ;
        seq skip_if "," ;
        continue (args ++ [(value, name, range_of value)])
      else leave args) [] ;
  do t <- peek 0 ;
  let end_ := r_end (tok_range t) in
  seq skip_if ")" ;
  ret (EDagExpr operator args {| r_start := start; r_end := end_ |}).

Definition parsePrimaryExpression : M Expression :=
  do token <- peek 0 ;
  if bool_decide (tok_type token = TToperator) && startsWith (tok_value token) "!"
  then parseBangOperator
  else if bool_decide (tok_type token = TTnumber) then
    seq advance ; ret (ENumberLiteral (tok_value token) (tok_range token))
  else if bool_decide (tok_type token = TTstring) then
    seq advance ; ret (EStringLiteral (tok_value token) (tok_range token))
  else if bool_decide (tok_type token = TTcode) then
    seq advance ; ret (ECodeLiteral (tok_value token) (tok_range token))
  else
    do isList <- matchP "[" ;
    if isList then parseList
    else
      do isDag <- matchP "(" ;
      if isDag then parseDag
      else if bool_decide (tok_type token = TTidentifier) then
        do id <- parseIdentifier ;
        do lt <- matchP "<" ;
        if lt then
          seq advance ;
          do args <-
            loop fuel (fun args : list Expression =>
              do go <- before ">" ;
              if go then
                do e <- parseExpression ;
                do comma <- matchP "," ;
                if comma then seq advance ; continue (args ++ [e])
                else
                  do close <- matchP ">" ;
                  if negb close then leave (args ++ [e])
                  else continue (args ++ [e])
              else leave args) [] ;
          seq skip_if ">" ;
          do end_ <- start_here ;
          ret (EClassRef id args
                 {| r_start := r_start (id_range id); r_end := end_ |})
        else
          do dot <- matchP "." ;
          if dot then
            seq advance ;
            do field <- parseIdentifier ;
            ret (EFieldAccess (EIdentifier id) field
                   {| r_start := r_start (id_range id);
                      r_end := r_end (id_range field) |})
          else ret (EIdentifier id)
      else
        seq advance ;
        ret (EIdentifier {| id_name := ""; id_range := tok_range token |}).

End Expressions.

Fixpoint parseExpression (fuel : nat) : M Expression :=
  match fuel with
  | O => out_of_fuel
  | S fuel' => parsePrimaryExpression fuel' (parseExpression fuel')
  end.

(* --------------------------------------------------------------------- *)
(** ** Class references and template arguments *)
(* --------------------------------------------------------------------- *)

Section Statements.
(** [fuel] bounds the loops and the expressions of one call;
    [parseStatement] is the recursive call. *)
Variable fuel : nat.
Variable parseStatement : M (option Statement).

Definition matchT (ty : TokenType) : M bool := match_ ty None.
Definition matchK (v : string) : M bool := match_ TTkeyword (Some v).

(** [if (this.match(...)) { text += this.advance().value; }] *)
Definition append_if (c : M bool) (text : string) : M string :=
  do b <- c ;
  if b then do t <- advance_token ; ret (text +:+ tok_value t) else ret text.

(** The [bits<n>] and [list<Type>] tails of a template argument type. *)
Definition compound_tail (head : string) (inner : M bool) (argType : string)
  : M string :=
  do c <- andM (ret (bool_decide (argType = head))) (matchP "<") ;
  if c then
    seq advance ;
    do argType1 <- append_if inner (argType +:+ "<") ;
    do gt <- matchP ">" ;
    if gt then seq advance ; ret (argType1 +:+ ">") else ret argType1
  else ret argType.

Definition parseTemplateArgs : M (list TemplateArg) :=
  do lt <- matchP "<" ;
  if negb lt then ret []
  else
    seq advance ;
    do args <-
      loop fuel (fun args : list TemplateArg =>
        do go <- before ">" ;
        if go then
          do startPos <- get_pos ;
          do start <- start_here ;
          do isType <- orM (matchT TTkeyword) (matchT TTidentifier) ;
          do argType <-
            (if isType then
               do t <- advance_token ;
               do argType1 <-
                 compound_tail "bits" (matchT TTnumber) (tok_value t) ;
               compound_tail "list"
                 (orM (matchT TTkeyword) (matchT TTidentifier)) argType1
             else ret "") ;
          do isName <- matchT TTidentifier ;
          do name <-
            (if isName then do id <- parseIdentifier ; ret (Some id)
             else ret None) ;
          do eq <- matchP "=" ;
          do defaultValue <-
            (if eq then seq advance ; do e <- parseExpression fuel ; ret (Some e)
             else ret None) ;
          do args1 <-
            (match name with
             | Some name =>
                 do end_ <- start_here ;
                 ret (args ++ [ {| ta_argType := argType; ta_name := name;
                                   ta_defaultValue := defaultValue;
                                   ta_range := {| r_start := start;
                                                  r_end := end_ |} |} ])
             | None => ret args
             end) ;
          do comma <- matchP "," ;
          if comma then seq advance ; continue args1
          else
            do p <- get_pos ;
            if (p =? startPos)%nat then seq advance ; continue args1
            else continue args1
        else leave args) [] ;
    seq skip_if ">" ;
    ret args.

Definition parseClassRef : M ClassRef :=
  do start <- start_here ;
  do name <- parseIdentifier ;
  do lt <- matchP "<" ;
  do args <-
    (if lt then
       seq advance ;
       do args <- expression_list fuel (parseExpression fuel) ">" ;
       seq skip_if ">" ;
       ret args
     else ret []) ;
  do end_ <- start_here ;
  ret {| cr_name := name; cr_args := args;
         cr_range := {| r_start := start; r_end := end_ |} |}.

Definition parseParentClasses : M (list ClassRef) :=
  do colon <- matchP ":" ;
  if negb colon then ret []
  else
    seq advance ;
    loop fuel (fun parents : list ClassRef =>
      do go <- matchT TTidentifier ;
      if go then
        do ref <- parseClassRef ;
        do comma <- matchP "," ;
        if comma then seq advance ; continue (parents ++ [ref])
        else leave (parents ++ [ref])
      else leave parents) [].

(* --------------------------------------------------------------------- *)
(** ** Statements *)
(* --------------------------------------------------------------------- *)

Definition parseBody : M (list Statement) :=
  do open <- matchP "{" ;
  if negb open then ret []
  else
    seq advance ;
    do statements <-
      loop fuel (fun statements : list Statement =>
        do go <- before "}" ;
        if go then
          do stmt <- parseStatement ;
          continue (match stmt with
                    | Some s => statements ++ [s]
                    | None => statements
                    end)
        else leave statements) [] ;
    seq skip_if "}" ;
    ret statements.

Definition parseClass : M ClassDef :=
  do start <- start_here ;
  seq advance ;
  do name <- parseIdentifier ;
  do templateArgs <- parseTemplateArgs ;
  do parentClasses <- parseParentClasses ;
  do hasBody <- matchP "{" ;
  let isForwardDeclaration :=
    negb hasBody
    && (length templateArgs =? 0)%nat
    && (length parentClasses =? 0)%nat in
  do body <- parseBody ;
  seq skip_if ";" ;
  do end_ <- start_here ;
  ret {| cd_name := name; cd_templateArgs := templateArgs;
         cd_parentClasses := parentClasses; cd_body := body;
         cd_isForwardDeclaration := isForwardDeclaration;
         cd_range := {| r_start := start; r_end := end_ |} |}.

(** [let name = null; if (this.match('identifier')) name =
    this.parseIdentifier();] *)
Definition optional_name : M (option Identifier) :=
  do isName <- matchT TTidentifier ;
  if isName then do id <- parseIdentifier ; ret (Some id) else ret None.

Definition parseDef : M RecordDef :=
  do start <- start_here ;
  seq advance ;
  do name <- optional_name ;
  do parentClasses <- parseParentClasses ;
  do body <- parseBody ;
  seq skip_if ";" ;
  do end_ <- start_here ;
  ret {| rd_name := name; rd_parentClasses := parentClasses; rd_body := body;
         rd_range := {| r_start := start; r_end := end_ |} |}.

Definition parseMulticlass : M MultiClassDef :=
  do start <- start_here ;
  seq advance ;
  do name <- parseIdentifier ;
  do templateArgs <- parseTemplateArgs ;
  do parentClasses <- parseParentClasses ;
  do body <- parseBody ;
  do end_ <- start_here ;
  ret {| mc_name := name; mc_templateArgs := templateArgs;
         mc_parentClasses := parentClasses; mc_body := body;
         mc_range := {| r_start := start; r_end := end_ |} |}.

Definition parseDefm : M DefmDef :=
  do start <- start_here ;
  seq advance ;
  do name <- optional_name ;
  do parentClasses <- parseParentClasses ;
  seq skip_if ";" ;
  do end_ <- start_here ;
  ret {| dm_name := name; dm_parentClasses := parentClasses;
         dm_range := {| r_start := start; r_end := end_ |} |}.

Definition parseDefset : M DefsetDef :=
  do start <- start_here ;
  seq advance ;
  do valueType <-
    loop fuel (fun '(valueType, bracketDepth) =>
      do lt <- matchP "<" ;
      if lt then
        do t <- advance_token ;
        continue (valueType +:+ tok_value t, (bracketDepth + 1)%Z)
      else
        do gt <- matchP ">" ;
        if gt then
          do t <- advance_token ;
          if (bracketDepth - 1 =? 0)%Z then leave (valueType +:+ tok_value t)
          else continue (valueType +:+ tok_value t, (bracketDepth - 1)%Z)
        else if (0 <? bracketDepth)%Z then
          do inside <- orM (matchT TTkeyword)
                           (orM (matchT TTidentifier) (matchP ",")) ;
          if inside then
            do t <- advance_token ;
            continue (valueType +:+ tok_value t, bracketDepth)
          else leave valueType
        else
          do kw <- matchT TTkeyword ;
          if kw then
            do t <- advance_token ;
            continue (valueType +:+ tok_value t, bracketDepth)
          else leave valueType) ("", 0%Z) ;
  do isName <- matchT TTidentifier ;
  do name <-
    (if isName then parseIdentifier
     else do token <- peek 0 ;
          ret {| id_name := ""; id_range := tok_range token |}) ;
  seq skip_if "=" ;
  do body <- parseBody ;
  do end_ <- start_here ;
  ret {| ds_valueType := trim valueType; ds_name := name; ds_body := body;
         ds_range := {| r_start := start; r_end := end_ |} |}.

Definition parseDefvar : M DefvarDef :=
  do start <- start_here ;
  seq advance ;
  do name <- parseIdentifier ;
  seq skip_if "=" ;
  do value <- parseExpression fuel ;
  seq skip_if ";" ;
  do end_ <- start_here ;
  ret {| dv_name := name; dv_value := value;
         dv_range := {| r_start := start; r_end := end_ |} |}.

(** The body after [in], [then] or [else]: a block, or one statement. *)
Definition block_or_statement : M (list Statement) :=
  do open <- matchP "{" ;
  if open then parseBody
  else
    do stmt <- parseStatement ;
    ret (match stmt with Some s => [s] | None => [] end).

Definition body_after (keyword : string) : M (list Statement) :=
  do kw <- matchK keyword ;
  if kw then seq advance ; block_or_statement else ret [].

Definition parseLet : M LetStatement :=
  do start <- start_here ;
  seq advance ;
  do bindings <-
    loop fuel (fun bindings : list LetBinding =>
      do go <- matchT TTidentifier ;
      if go then
        do bindingStart <- start_here ;
        do name <- parseIdentifier ;
        seq skip_if "=" ;
        do value <- parseExpression fuel ;
        do end_ <- start_here ;
        let binding :=
          {| lb_name := name; lb_value := value;
             lb_range := {| r_start := bindingStart; r_end := end_ |} |} in
        do comma <- matchP "," ;
        if comma then seq advance ; continue (bindings ++ [binding])
        else leave (bindings ++ [binding])
      else leave bindings) [] ;
  do body <- body_after "in" ;
  seq skip_if ";" ;
  do end_ <- start_here ;
  ret {| ls_bindings := bindings; ls_body := body;
         ls_range := {| r_start := start; r_end := end_ |} |}.

Definition parseForeach : M ForeachStatement :=
  do start <- start_here ;
  seq advance ;
  do variable <- parseIdentifier ;
  seq skip_if "=" ;
  do iterRange <- parseExpression fuel ;
  do body <- body_after "in" ;
  do end_ <- start_here ;
  ret {| fe_variable := variable; fe_iterRange := iterRange; fe_body := body;
         fe_range := {| r_start := start; r_end := end_ |} |}.

Definition parseIf : M IfStatement :=
  do start <- start_here ;
  seq advance ;
  do condition <- parseExpression fuel ;
  do thenBody <- body_after "then" ;
  do elseBody <- body_after "else" ;
  do end_ <- start_here ;
  ret {| if_condition := condition; if_thenBody := thenBody;
         if_elseBody := elseBody;
         if_range := {| r_start := start; r_end := end_ |} |}.

Definition parseInclude : M IncludeStatement :=
  do start <- start_here ;
  seq advance ;
  do path <- append_if (matchT TTstring) "" ;
  do end_ <- start_here ;
  ret {| inc_path := path; inc_range := {| r_start := start; r_end := end_ |} |}.

Definition parseAssert : M AssertStatement :=
  do start <- start_here ;
  seq advance ;
  do condition <- parseExpression fuel ;
  seq skip_if "," ;
  do message <- parseExpression fuel ;
  seq skip_if ";" ;
  do end_ <- start_here ;
  ret {| as_condition := condition; as_message := message;
         as_range := {| r_start := start; r_end := end_ |} |}.

Definition parseField : M FieldDef :=
  do start <- start_here ;
  do hasFieldKeyword <- matchK "field" ;
  seq when hasFieldKeyword (seq advance ; ret tt) ;
  do fieldType <-
    loop fuel (fun fieldType : string =>
      do go <- orM (matchT TTkeyword)
                 (orM (matchT TTidentifier)
                    (orM (matchP "<") (orM (matchP ">") (matchT TTnumber)))) ;
      if go then
        do token <- peek 0 ;
        do isName <-
          (if bool_decide (tok_type token = TTidentifier) then
             do next <- peek 1 ;
             ret (bool_decide (tok_value next = "=")
                  || bool_decide (tok_value next = ";"))
           else ret false) ;
        if isName then leave fieldType
        else do t <- advance_token ; continue (fieldType +:+ tok_value t)
      else leave fieldType) "" ;
  do name <- parseIdentifier ;
  do eq <- matchP "=" ;
  do value <-
    (if eq then seq advance ; do e <- parseExpression fuel ; ret (Some e)
     else ret None) ;
  seq skip_if ";" ;
  do end_ <- start_here ;
  ret {| fd_fieldType := trim fieldType; fd_name := name; fd_value := value;
         fd_range := {| r_start := start; r_end := end_ |} |}.

Definition field_keywords : list string :=
  ["field"; "bit"; "bits"; "int"; "string"; "list"; "dag"; "code"].

Definition some {A B} (f : A -> B) (m : M A) : M (option B) :=
  do a <- m ; ret (Some (f a)).

Definition parseStatement_body : M (option Statement) :=
  do token <- peek 0 ;
  if bool_decide (tok_type token = TTeof) then ret None
  else
    let other :=
      if bool_decide (tok_type token = TTidentifier) then some SFieldDef parseField
      else seq advance ; ret None in
    if bool_decide (tok_type token = TTkeyword) then
      let v := tok_value token in
      if decide (v = "class") then some SClassDef parseClass
      else if decide (v = "def") then some SRecordDef parseDef
      else if decide (v = "multiclass") then some SMultiClassDef parseMulticlass
      else if decide (v = "defm") then some SDefmDef parseDefm
      else if decide (v = "defset") then some SDefsetDef parseDefset
      else if decide (v = "defvar") then some SDefvarDef parseDefvar
      else if decide (v = "let") then some SLetStatement parseLet
      else if decide (v = "foreach") then some SForeachStatement parseForeach
      else if decide (v = "if") then some SIfStatement parseIf
      else if decide (v = "include") then some SIncludeStatement parseInclude
      else if decide (v = "assert") then some SAssertStatement parseAssert
      else if bool_decide (v ∈ field_keywords) then some SFieldDef parseField
      else other
    else other.

End Statements.

Fixpoint parseStatement (fuel : nat) : M (option Statement) :=
  match fuel with
  | O => out_of_fuel
  | S fuel' => parseStatement_body fuel' (parseStatement fuel')
  end.

Definition parse_loop (fuel : nat)
  : M (list Statement * list IncludeStatement) :=
  loop fuel (fun '(statements, includes) =>
    do stop <- matchEof ;
    if stop then leave (statements, includes)
    else
      do stmt <- parseStatement fuel ;
      continue
        (match stmt with
         | Some (SIncludeStatement i) => (statements ++ [SIncludeStatement i],
                                          includes ++ [i])
         | Some s => (statements ++ [s], includes)
         | None => (statements, includes)
         end)) ([], []).

(** [parse], on a budget: [fuel] bounds the depth to which
    [parseStatement] and [parseExpression] nest, which the call stack of
    the engine bounds for the code, and the iterations of each loop,
    which nothing bounds for the code.  [OutOfFuel] is a run that does
    not return a file within the budget: it goes on for ever, or it
    needs a deeper stack than the budget stands for (the engine ends
    such a run with a [RangeError]). *)
Definition parse (fuel : nat) : result ParsedFile :=
  match parse_loop fuel {| pos := 0; errors := [] |} with
  | Ok (statements, includes) st =>
      Ok {| pf_uri := uri; pf_statements := statements;
            pf_includes := includes; pf_errors := errors st |} st
  | Throw => Throw
  | OutOfFuel => OutOfFuel
  end.

(** On a token list of the lexer every iteration and every nested call
    takes a token, so this budget is enough for it. *)
Definition parse_fuel : nat := S (length tokens).

End WithTokens.
End Parser.

(** [parseTableGen]: tokenize, then parse.  Both run on the budget that
    the length of their input gives: [nextToken] may nest once for each
    character of the text, and the parser has [parse_fuel].  These are
    enough for every text, so what is computed here is the run of the
    code on a call stack that admits this nesting; on a text that nests
    deeper than the stack of the engine admits (a long run of characters
    that the lexer skips, deeply nested brackets) the code throws a
    [RangeError] instead.  [None] stands for a lexer that does not
    return. *)
Definition parseTableGen (text uri : string) : option (Parser.result ParsedFile) :=
  match Lexer.tokenize text with
  | Some tokens => Some (Parser.parse tokens uri (Parser.parse_fuel tokens))
  | None => None
  end.
(* ===================================================================== *)
(** * includeGraph.ts *)
(* ===================================================================== *)

Module IncludeGraph.

Record t := mk {
  rootFiles : gmap string (list string);
  forwardIncludes : gmap string (list string);
  reverseIncludes : gmap string (list string);
  fileToRoot : gmap string string;
  visibleFilesCache : gmap string (list string)
}.

Definition clear (g : t) : t :=
  {| rootFiles := ∅; forwardIncludes := ∅; reverseIncludes := ∅;
     fileToRoot := ∅; visibleFilesCache := ∅ |}.

(** [this.forwardIncludes.get(file) || []] *)
Definition includes (g : t) (file : string) : list string :=
  default [] (forwardIncludes g !! file).

Definition includers (g : t) (file : string) : list string :=
  default [] (reverseIncludes g !! file).

(** ** findRootFile *)

(** The [while] loop over [queue]: [Some None] is the source's
    [undefined], reached when the queue runs empty. *)
Fixpoint findRootFile_loop (fuel : nat) (g : t) (queue : list string)
    (visited : gset string) : option (option string * t) :=
  match fuel with
  | O => None
  | S fuel' =>
      match queue with
      | [] => Some (None, g)
      | current :: queue1 =>
          if bool_decide (current ∈ visited)
          then findRootFile_loop fuel' g queue1 visited
          else
            let visited1 := visited ∪ {[current]} in
            if bool_decide (is_Some (rootFiles g !! current))
            then
              Some (Some current,
                    {| rootFiles := rootFiles g;
                       forwardIncludes := forwardIncludes g;
                       reverseIncludes := reverseIncludes g;
                       fileToRoot :=
                         foldr (fun file m => <[file := current]> m)
                               (fileToRoot g) (elements visited1);
                       visibleFilesCache := visibleFilesCache g |})
            else
              let parents := includers g current in
              findRootFile_loop fuel' g
                (queue1 ++ List.filter (fun p => negb (bool_decide (p ∈ visited1))) parents)
                visited1
      end
  end.

(** Each iteration takes one entry off the queue, and a file puts its
    includers on the queue once only; this many iterations are enough. *)
Definition findRootFile_fuel (g : t) : nat :=
  S (S (map_fold (fun _ parents n => length parents + n) 0 (reverseIncludes g))).

Section WithPath.

(** [path.normalize] of the Node.js library. *)
Variable normalize : string -> string.

Definition findRootFile (g : t) (filePath : string) : option (option string * t) :=
  let normalizedPath := normalize filePath in
  match fileToRoot g !! normalizedPath with
  | Some root => Some (Some root, g)
  | None =>
      if bool_decide (is_Some (rootFiles g !! normalizedPath))
      then Some (Some normalizedPath,
                 {| rootFiles := rootFiles g;
                    forwardIncludes := forwardIncludes g;
                    reverseIncludes := reverseIncludes g;
                    fileToRoot := <[normalizedPath := normalizedPath]> (fileToRoot g);
                    visibleFilesCache := visibleFilesCache g |})
      else findRootFile_loop (findRootFile_fuel g) g [normalizedPath] ∅
  end.

(** ** getVisibleFiles *)

(** The array [visibleFiles] and the set [visited] that the two closures
    of [getVisibleFiles] share. *)
Record walk := mkWalk { visibleFiles : list string; visited : gset string }.

Definition visit (file : string) (w : walk) : walk :=
  {| visibleFiles := visibleFiles w ++ [file];
     visited := visited w ∪ {[file]} |}.

(** The [for] loop of [collectUpToTarget]: it stops at the first included
    file whose branch holds the target. *)
Definition collectUpToTarget_loop (rec : string -> walk -> option (bool * walk))
  : list string -> walk -> option (bool * walk) :=
  fix loop incs w :=
    match incs with
    | [] => Some (false, w)
    | includedFile :: incs' =>
        match rec includedFile w with
        | None => None
        | Some (true, w1) => Some (true, w1)
        | Some (false, w1) => loop incs' w1
        end
    end.

(** Phase 1, the closure [collectUpToTarget]. *)
Fixpoint collectUpToTarget (fuel : nat) (g : t) (target : string)
    (file : string) (w : walk) : option (bool * walk) :=
  match fuel with
  | O => None
  | S fuel' =>
      if bool_decide (file ∈ visited w) then Some (false, w)
      else
        let w1 := visit file w in
        if bool_decide (file = target) then Some (true, w1)
        else collectUpToTarget_loop (collectUpToTarget fuel' g target)
               (includes g file) w1
  end.

Definition collectAllIncludes_loop (rec : string -> walk -> option walk)
  : list string -> walk -> option walk :=
  fix loop incs w :=
    match incs with
    | [] => Some w
    | includedFile :: incs' =>
        if bool_decide (includedFile ∈ visited w) then loop incs' w
        else
          match rec includedFile (visit includedFile w) with
          | None => None
          | Some w1 => loop incs' w1
          end
    end.

(** Phase 2, the closure [collectAllIncludes]. *)
Fixpoint collectAllIncludes (fuel : nat) (g : t) (file : string) (w : walk)
  : option walk :=
  match fuel with
  | O => None
  | S fuel' =>
      collectAllIncludes_loop (collectAllIncludes fuel' g) (includes g file) w
  end.

(** Every file the walks can meet: the start file, the files with an
    entry in [forwardIncludes], and the files listed in one. *)
Definition known_files (g : t) : gset string :=
  dom (forwardIncludes g)
  ∪ map_fold (fun _ incs s => list_to_set incs ∪ s) ∅ (forwardIncludes g).

(** A walk enters each file at most once, so its depth stays below this. *)
Definition walk_fuel (g : t) : nat := S (S (size (known_files g))).

Definition getVisibleFiles (g : t) (filePath : string)
  : option (list string * t) :=
  let normalizedPath := normalize filePath in
  match visibleFilesCache g !! normalizedPath with
  | Some cached => Some (cached, g)
  | None =>
      match findRootFile g normalizedPath with
      | None => None
      | Some (None, g1) => Some ([], g1)
      | Some (Some rootFile, g1) =>
          let w0 := {| visibleFiles := []; visited := ∅ |} in
          match collectUpToTarget (walk_fuel g1) g1 normalizedPath rootFile w0 with
          | None => None
          | Some (_, w1) =>
              match collectAllIncludes (walk_fuel g1) g1 normalizedPath w1 with
              | None => None
              | Some w2 =>
                  Some (visibleFiles w2,
                        {| rootFiles := rootFiles g1;
                           forwardIncludes := forwardIncludes g1;
                           reverseIncludes := reverseIncludes g1;
                           fileToRoot := fileToRoot g1;
                           visibleFilesCache :=
                             <[normalizedPath := visibleFiles w2]>
                               (visibleFilesCache g1) |})
              end
          end
      end
  end.

End WithPath.

(** ** Reachability along include edges *)

(** [reach g a b]: [b] is [a] or is included by [a], directly or
    transitively. *)
Inductive reach (g : t) (a : string) : string -> Prop :=
| reach_refl : reach g a a
| reach_step b c : reach g a b -> c ∈ includes g b -> reach g a c.

(** The reading of the visible set as "the root-to-target path and the
    target's transitive includes": a file is on a path from the root to
    the target when the root reaches it and it reaches the target. *)
Definition on_root_path (g : t) (root target file : string) : Prop :=
  reach g root file /\ reach g file target.

Definition path_and_includes (g : t) (root target : string)
    (files : list string) : Prop :=
  forall file, file ∈ files <->
               on_root_path g root target file \/ reach g target file.

(** ** The depth-first order of the include graph *)

(** [preorder g target pending seen files]: the depth-first walk, in
    include order, that is still to enter the files [pending] (the first
    of them next) and has collected [seen] so far, ends with [files]
    collected.  A file already collected is passed over (first occurrence
    wins); a file entered is collected, and its includes come before what
    was pending; the walk ends when nothing is pending, or when it has
    collected the file [target] it was to stop at. *)
Inductive preorder (g : t) (target : option string)
  : list string -> list string -> list string -> Prop :=
| preorder_done seen : preorder g target [] seen seen
| preorder_skip file pending seen files :
    file ∈ seen ->
    preorder g target pending seen files ->
    preorder g target (file :: pending) seen files
| preorder_found file pending seen :
    file ∉ seen -> target = Some file ->
    preorder g target (file :: pending) seen (seen ++ [file])
| preorder_enter file pending seen files :
    file ∉ seen -> target <> Some file ->
    preorder g target (includes g file ++ pending) (seen ++ [file]) files ->
    preorder g target (file :: pending) seen files.

End IncludeGraph.

(* ===================================================================== *)
(** * symbols.ts: the symbol table *)
(* ===================================================================== *)

Module SymbolTable.

Record t := mk {
  globalSymbols : gmap string (list Symbol);
  scopedSymbols : gmap string (gmap string (list Symbol));
  references : list SymbolReference;
  fileSymbols : gmap string (list Symbol);
  fileReferences : gmap string (list SymbolReference)
}.

Definition empty : t :=
  {| globalSymbols := ∅; scopedSymbols := ∅; references := [];
     fileSymbols := ∅; fileReferences := ∅ |}.

Definition clear (st : t) : t := empty.

Definition sym_uri (s : Symbol) : string := loc_uri (sym_location s).
Definition ref_uri (r : SymbolReference) : string := loc_uri (ref_location r).

(** The test [if (sym.scope)]: an absent scope and the empty string are
    falsy. *)
Definition truthy_scope (s : Symbol) : option string :=
  match sym_scope s with
  | Some sc => if decide (sc = "") then None else Some sc
  | None => None
  end.

(** [const idx = syms.findIndex(s => s.location.uri === uri);
     if (idx >= 0) syms.splice(idx, 1);] *)
Fixpoint splice_first (uri : string) (syms : list Symbol) : list Symbol :=
  match syms with
  | [] => []
  | s :: syms' =>
      if decide (sym_uri s = uri) then syms' else s :: splice_first uri syms'
  end.

(** One iteration of the loop of [clearFile] over the file's old symbols.
    The arrays are changed in place when the maps hold them ([alter]
    leaves a map without the key as it is). *)
Definition clearFile_symbol (uri : string) (st : t) (sym : Symbol) : t :=
  match truthy_scope sym with
  | Some scope =>
      {| globalSymbols := globalSymbols st;
         scopedSymbols :=
           alter (alter (splice_first uri) (sym_name sym)) scope (scopedSymbols st);
         references := references st;
         fileSymbols := fileSymbols st;
         fileReferences := fileReferences st |}
  | None =>
      {| globalSymbols := alter (splice_first uri) (sym_name sym) (globalSymbols st);
         scopedSymbols := scopedSymbols st;
         references := references st;
         fileSymbols := fileSymbols st;
         fileReferences := fileReferences st |}
  end.

Definition clearFile (st : t) (uri : string) : t :=
  let oldSymbols := default [] (fileSymbols st !! uri) in
  let st1 := foldl (clearFile_symbol uri) st oldSymbols in
  {| globalSymbols := globalSymbols st1;
     scopedSymbols := scopedSymbols st1;
     references :=
       List.filter (fun r => negb (bool_decide (ref_uri r = uri))) (references st1);
     fileSymbols := delete uri (fileSymbols st1);
     fileReferences := delete uri (fileReferences st1) |}.

Definition addSymbol (st : t) (symbol : Symbol) : t :=
  if decide (sym_name symbol = "") then st
  else
    let uri := sym_uri symbol in
    let fileSymbols1 :=
      <[uri := default [] (fileSymbols st !! uri) ++ [symbol]]> (fileSymbols st) in
    match truthy_scope symbol with
    | Some scope =>
        let scopeMap := default ∅ (scopedSymbols st !! scope) in
        let syms := default [] (scopeMap !! sym_name symbol) in
        {| globalSymbols := globalSymbols st;
           scopedSymbols :=
             <[scope := <[sym_name symbol := syms ++ [symbol]]> scopeMap]>
               (scopedSymbols st);
           references := references st;
           fileSymbols := fileSymbols1;
           fileReferences := fileReferences st |}
    | None =>
        let syms := default [] (globalSymbols st !! sym_name symbol) in
        {| globalSymbols := <[sym_name symbol := syms ++ [symbol]]> (globalSymbols st);
           scopedSymbols := scopedSymbols st;
           references := references st;
           fileSymbols := fileSymbols1;
           fileReferences := fileReferences st |}
    end.

Definition addReference (st : t) (ref : SymbolReference) : t :=
  let uri := ref_uri ref in
  {| globalSymbols := globalSymbols st;
     scopedSymbols := scopedSymbols st;
     references := references st ++ [ref];
     fileSymbols := fileSymbols st;
     fileReferences :=
       <[uri := default [] (fileReferences st !! uri) ++ [ref]]> (fileReferences st) |}.

(** [syms.find(s => !s.isForwardDeclaration) || syms[0]] *)
Definition prefer_definition (syms : list Symbol) : option Symbol :=
  match List.find (fun s => negb (default false (sym_isForwardDeclaration s))) syms with
  | Some def => Some def
  | None => head syms
  end.

Definition findDefinition (st : t) (name : string) (scope : option string)
  : option Symbol :=
  let global :=
    match globalSymbols st !! name with
    | Some (s :: syms) => prefer_definition (s :: syms)
    | _ => None
    end in
  match scope with
  | Some sc =>
      if decide (sc = "") then global
      else
        match scopedSymbols st !! sc with
        | Some scopeMap =>
            match scopeMap !! name with
            | Some (s :: syms) => prefer_definition (s :: syms)
            | _ => global
            end
        | None => global
        end
  | None => global
  end.

Definition findReferences (st : t) (name : string) : list SymbolReference :=
  List.filter (fun r => bool_decide (ref_name r = name)) (references st).

Definition getAllSymbolsInFile (st : t) (uri : string) : list Symbol :=
  default [] (fileSymbols st !! uri).

(** The states a table goes through: it starts empty and changes by its
    public methods only. *)
Inductive reachable : t -> Prop :=
| reachable_empty : reachable empty
| reachable_addSymbol st s : reachable st -> reachable (addSymbol st s)
| reachable_addReference st r : reachable st -> reachable (addReference st r)
| reachable_clearFile st uri : reachable st -> reachable (clearFile st uri).

(** The symbols of a list that are not attributed to [uri]. *)
Definition other_files (uri : string) (syms : list Symbol) : list Symbol :=
  List.filter (fun s => negb (bool_decide (sym_uri s = uri))) syms.

(** ** Positions *)

(** [isPositionInRange]: both ends of the range are inside. *)
Definition isPositionInRange (l c : nat) (range : Range) : bool :=
  if (l <? line (r_start range))%nat || (line (r_end range) <? l)%nat then false
  else if (l =? line (r_start range))%nat
          && (c <? character (r_start range))%nat then false
  else if (l =? line (r_end range))%nat
          && (character (r_end range) <? c)%nat then false
  else true.

(** [getSymbolAtPosition]: the file's references are looked through
    first, then its symbols; each loop returns at the first hit. *)
Definition getSymbolAtPosition (st : t) (uri : string) (l c : nat)
  : option (string * option string) :=
  let refs := default [] (fileReferences st !! uri) in
  match List.find (fun ref =>
                     isPositionInRange l c (loc_range (ref_location ref))) refs with
  | Some ref => Some (ref_name ref, ref_scope ref)
  | None =>
      let symbols := default [] (fileSymbols st !! uri) in
      match List.find (fun sym =>
                         isPositionInRange l c (loc_range (sym_location sym)))
                      symbols with
      | Some sym => Some (sym_name sym, sym_scope sym)
      | None => None
      end
  end.

(** [importData]: [clear], then every symbol and every reference is
    added in turn. *)
Definition importData (st : t) (symbols : list Symbol)
    (refs : list SymbolReference) : t :=
  foldl addReference (foldl addSymbol (clear st) symbols) refs.

End SymbolTable.

(* ===================================================================== *)
(** * symbols.ts: the symbol collector *)
(* ===================================================================== *)

Module SymbolCollector.

(** The fields of a [SymbolCollector] that change: the table it fills and
    [currentScope]. *)
Record state := mk {
  table : SymbolTable.t;
  currentScope : option string
}.

Definition addSymbol (symbol : Symbol) (st : state) : state :=
  {| table := SymbolTable.addSymbol (table st) symbol;
     currentScope := currentScope st |}.

Definition addReference (ref : SymbolReference) (st : state) : state :=
  {| table := SymbolTable.addReference (table st) ref;
     currentScope := currentScope st |}.

Definition set_scope (scope : option string) (st : state) : state :=
  {| table := table st; currentScope := scope |}.

(** [for (const x of xs) { body }] *)
Definition for_all {A} (body : A -> state -> state) (xs : list A) (st : state)
  : state :=
  foldl (fun st x => body x st) st xs.

Section WithUri.
Variable uri : string.

Definition location (range : Range) : Location :=
  {| loc_uri := uri; loc_range := range |}.

(** A reference to [id] in the current scope. *)
Definition reference_to (id : Identifier) (st : state) : state :=
  addReference {| ref_name := id_name id; ref_location := location (id_range id);
                  ref_scope := currentScope st |} st.

Fixpoint collectExpression (expr : Expression) (st : state) : state :=
  match expr with
  | EIdentifier id => reference_to id st
  | EFieldAccess object _ _ => collectExpression object st
  | EClassRef name args _ =>
      for_all collectExpression args (reference_to name st)
  | EListExpr elements _ => for_all collectExpression elements st
  | EDagExpr operator args _ =>
      for_all (fun '(value, _, _) => collectExpression value) args
        (collectExpression operator st)
  | EBangOperator _ _ args _ => for_all collectExpression args st
  | EBinaryExpr _ lhs rhs _ =>
      collectExpression rhs (collectExpression lhs st)
  | ETernaryExpr condition thenExpr elseExpr _ =>
      collectExpression elseExpr
        (collectExpression thenExpr (collectExpression condition st))
  | _ => st
  end.

Definition collectClassRef (ref : ClassRef) (st : state) : state :=
  for_all collectExpression (cr_args ref) (reference_to (cr_name ref) st).

(** The symbol of a declaration: [scope] and [isForwardDeclaration] are
    the properties the object literal has or has not. *)
Definition symbol_of (kind : SymbolKind) (id : Identifier)
    (scope : option string) (forward : option bool) : Symbol :=
  {| sym_name := id_name id; sym_kind := kind;
     sym_location := location (id_range id);
     sym_scope := scope; sym_isForwardDeclaration := forward |}.

Definition collectTemplateArg (arg : TemplateArg) (st : state) : state :=
  addSymbol (symbol_of SKtemplateArg (ta_name arg) (currentScope st) None) st.

Definition collectDefm (stmt : DefmDef) (st : state) : state :=
  let st1 :=
    match dm_name stmt with
    | Some name => addSymbol (symbol_of SKdefm name None None) st
    | None => st
    end in
  for_all collectClassRef (dm_parentClasses stmt) st1.

Definition collectDefvar (stmt : DefvarDef) (st : state) : state :=
  collectExpression (dv_value stmt)
    (addSymbol (symbol_of SKdefvar (dv_name stmt) (currentScope st) None) st).

Definition collectField (stmt : FieldDef) (st : state) : state :=
  let st1 :=
    addSymbol (symbol_of SKfield (fd_name stmt) (currentScope st) None) st in
  match fd_value stmt with
  | Some value => collectExpression value st1
  | None => st1
  end.

Definition position_scope (prefix : string) (p : Position) : string :=
  prefix +:+ pretty (line p) +:+ ":" +:+ pretty (character p).

Definition collectLetBinding (binding : LetBinding) (st : state) : state :=
  collectExpression (lb_value binding) (reference_to (lb_name binding) st).

Fixpoint collectStatement (stmt : Statement) (st : state) : state :=
  match stmt with
  | SClassDef (mkClassDef name templateArgs parentClasses body forward _) =>
      let st1 := addSymbol (symbol_of SKclass name None (Some forward)) st in
      let previousScope := currentScope st1 in
      let st2 := set_scope (Some ("class:" +:+ id_name name)) st1 in
      let st3 := for_all collectTemplateArg templateArgs st2 in
      let st4 := for_all collectClassRef parentClasses st3 in
      let st5 := for_all collectStatement body st4 in
      set_scope previousScope st5
  | SRecordDef (mkRecordDef optName parentClasses body _) =>
      match optName with
      | Some name =>
          let st1 := addSymbol (symbol_of SKdef name None None) st in
          let previousScope := currentScope st1 in
          let st2 := set_scope (Some ("def:" +:+ id_name name)) st1 in
          let st3 := for_all collectClassRef parentClasses st2 in
          let st4 := for_all collectStatement body st3 in
          set_scope previousScope st4
      | None =>
          for_all collectStatement body
            (for_all collectClassRef parentClasses st)
      end
  | SMultiClassDef (mkMultiClassDef name templateArgs parentClasses body _) =>
      let st1 := addSymbol (symbol_of SKmulticlass name None None) st in
      let previousScope := currentScope st1 in
      let st2 := set_scope (Some ("multiclass:" +:+ id_name name)) st1 in
      let st3 := for_all collectTemplateArg templateArgs st2 in
      let st4 := for_all collectClassRef parentClasses st3 in
      let st5 := for_all collectStatement body st4 in
      set_scope previousScope st5
  | SDefmDef stmt => collectDefm stmt st
  | SDefsetDef (mkDefsetDef _ name body _) =>
      let st1 := addSymbol (symbol_of SKdefset name None None) st in
      let previousScope := currentScope st1 in
      let st2 := set_scope (Some ("defset:" +:+ id_name name)) st1 in
      let st3 := for_all collectStatement body st2 in
      set_scope previousScope st3
  | SDefvarDef stmt => collectDefvar stmt st
  | SFieldDef stmt => collectField stmt st
  | SLetStatement (mkLetStatement bindings body range) =>
      let st1 := for_all collectLetBinding bindings st in
      let previousScope := currentScope st1 in
      let letScope := position_scope "let:" (r_start range) in
      let st2 :=
        for_all (fun binding =>
                   addSymbol (symbol_of SKletBinding (lb_name binding)
                                (Some letScope) None))
                bindings st1 in
      let st3 := for_all collectStatement body st2 in
      set_scope previousScope st3
  | SForeachStatement (mkForeachStatement variable iterRange body _) =>
      let previousScope := currentScope st in
      let foreachScope :=
        position_scope "foreach:" (r_start (id_range variable)) in
      let st1 :=
        addSymbol (symbol_of SKforeachVar variable (Some foreachScope) None) st in
      let st2 := collectExpression iterRange st1 in
      let st3 := for_all collectStatement body st2 in
      set_scope previousScope st3
  | _ => st
  end.

(** [collect]: a collector is made for one file, with no current scope. *)
Definition collect (file : ParsedFile) (tbl : SymbolTable.t) : SymbolTable.t :=
  table (for_all collectStatement (pf_statements file)
           {| table := tbl; currentScope := None |}).

End WithUri.
End SymbolCollector.

(* ===================================================================== *)
(** * typeSystem.ts *)
(* ===================================================================== *)

Module TypeSystem.

Inductive TypeKind := TKbuiltin | TKclass | TKlist | TKbits | TKdag.

Inductive TypeInfo :=
| mkTypeInfo (kind : TypeKind) (name : string)
             (elementType : option TypeInfo) (bitWidth : option nat).

Record FieldInfo := mkFieldInfo {
  fi_name : string;
  fi_type : TypeInfo;
  fi_location : Location;
  fi_declaringClass : string
}.

Record ArgumentInfo := mkArgumentInfo {
  ai_name : string;
  ai_type : TypeInfo;
  ai_location : Location;
  ai_hasDefault : bool
}.

Inductive ClassKind := CKclass | CKmulticlass | CKdef | CKdefm.

Record ClassInfo := mkClassInfo {
  ci_name : string;
  ci_kind : ClassKind;
  ci_location : Location;
  ci_uri : string;
  ci_parentClasses : list string;
  ci_arguments : list ArgumentInfo;
  ci_fields : gmap string FieldInfo;
  ci_allFields : option (gmap string FieldInfo);
  ci_isForwardDeclaration : bool
}.

Definition set_allFields (v : option (gmap string FieldInfo)) (c : ClassInfo)
  : ClassInfo :=
  {| ci_name := ci_name c; ci_kind := ci_kind c; ci_location := ci_location c;
     ci_uri := ci_uri c; ci_parentClasses := ci_parentClasses c;
     ci_arguments := ci_arguments c; ci_fields := ci_fields c;
     ci_allFields := v;
     ci_isForwardDeclaration := ci_isForwardDeclaration c |}.

(** The state of a [TypeSystem] object. *)
Record t := mk {
  classes : gmap string ClassInfo;
  fileClasses : gmap string (gset string)
}.

Definition empty : t := {| classes := ∅; fileClasses := ∅ |}.

Definition clear (ts : t) : t := empty.

Definition clearFile (ts : t) (uri : string) : t :=
  match fileClasses ts !! uri with
  | Some classNames =>
      {| classes := foldr (fun n m => delete n m) (classes ts) (elements classNames);
         fileClasses := delete uri (fileClasses ts) |}
  | None => ts
  end.

(** [addClass]: the early return keeps a stored definition when a forward
    declaration arrives; otherwise the new record is stored, filed under
    its uri, and its cached merged view is reset. *)
Definition addClass (ts : t) (info : ClassInfo) : t :=
  let store :=
    {| classes := <[ci_name info := set_allFields None info]> (classes ts);
       fileClasses :=
         <[ci_uri info :=
             default ∅ (fileClasses ts !! ci_uri info) ∪ {[ci_name info]}]>
           (fileClasses ts) |} in
  match classes ts !! ci_name info with
  | Some existing =>
      if negb (ci_isForwardDeclaration existing) && ci_isForwardDeclaration info
      then ts
      else store
  | None => store
  end.

Definition getClass (ts : t) (name : string) : option ClassInfo :=
  classes ts !! name.

(** The loop of [getAllFields] over the parent names: each parent's merged
    view is written over what has been accumulated so far.  [rec] is the
    recursive call. *)
Definition getAllFields_parents
    (rec : t -> string -> option (gmap string FieldInfo * t))
  : list string -> gmap string FieldInfo -> t -> option (gmap string FieldInfo * t) :=
  fix parents ps allFields ts :=
    match ps with
    | [] => Some (allFields, ts)
    | parentName :: ps' =>
        match rec ts parentName with
        | None => None
        | Some (parentFields, ts1) => parents ps' (parentFields ∪ allFields) ts1
        end
    end.

(** [getAllFields] caches its result in the class record, so it returns
    the new state as well.  The recursion over parent names has no guard
    in the source; [fuel] bounds its depth. *)
Fixpoint getAllFields (fuel : nat) (ts : t) (className : string)
  : option (gmap string FieldInfo * t) :=
  match fuel with
  | O => None
  | S fuel' =>
      match classes ts !! className with
      | None => Some (∅, ts)
      | Some classInfo =>
          match ci_allFields classInfo with
          | Some cached => Some (cached, ts)
          | None =>
              match getAllFields_parents (getAllFields fuel')
                      (ci_parentClasses classInfo) ∅ ts with
              | None => None
              | Some (inherited, ts1) =>
                  let allFields := ci_fields classInfo ∪ inherited in
                  Some (allFields,
                        {| classes := alter (set_allFields (Some allFields))
                                            className (classes ts1);
                           fileClasses := fileClasses ts1 |})
              end
          end
      end
  end.

(** The loop of [findFieldDefinition] over the parent names: the first
    parent that resolves the field ends it. *)
Definition findFieldDefinition_parents (rec : string -> option (option FieldInfo))
  : list string -> option (option FieldInfo) :=
  fix parents ps :=
    match ps with
    | [] => Some None
    | parentName :: ps' =>
        match rec parentName with
        | None => None
        | Some (Some parentField) => Some (Some parentField)
        | Some None => parents ps'
        end
    end.

(** [findFieldDefinition] reads only; [None] is fuel exhaustion and
    [Some None] is the source's [undefined]. *)
Fixpoint findFieldDefinition (fuel : nat) (ts : t) (className fieldName : string)
  : option (option FieldInfo) :=
  match fuel with
  | O => None
  | S fuel' =>
      match classes ts !! className with
      | None => Some None
      | Some classInfo =>
          match ci_fields classInfo !! fieldName with
          | Some ownField => Some (Some ownField)
          | None =>
              findFieldDefinition_parents
                (fun parentName => findFieldDefinition fuel' ts parentName fieldName)
                (ci_parentClasses classInfo)
          end
      end
  end.

(** The arrays [parents] and [visited] that the closure [collect] of
    [getAllParentClasses] shares with its caller. *)
Definition collect_state : Type := list string * gset string.

Definition collect_loop (rec : string -> collect_state -> option collect_state)
  : list string -> collect_state -> option collect_state :=
  fix loop ps st :=
    match ps with
    | [] => Some st
    | parent :: ps' =>
        let parents1 :=
          if bool_decide (parent ∈ st.1) then st.1 else st.1 ++ [parent] in
        match rec parent (parents1, st.2) with
        | None => None
        | Some st1 => loop ps' st1
        end
    end.

Fixpoint collect (fuel : nat) (ts : t) (name : string) (st : collect_state)
  : option collect_state :=
  match fuel with
  | O => None
  | S fuel' =>
      match classes ts !! name with
      | None => Some st
      | Some classInfo =>
          if bool_decide (name ∈ st.2) then Some st
          else collect_loop (collect fuel' ts) (ci_parentClasses classInfo)
                 (st.1, {[name]} ∪ st.2)
      end
  end.

(** Every registered class is entered at most once, so a depth of one more
    than the number of classes is never exceeded. *)
Definition getAllParentClasses (ts : t) (className : string)
  : option (list string) :=
  fst <$> collect (S (size (classes ts))) ts className ([], ∅).

(** [findLetTargetField] is [findFieldDefinition] under another name. *)
Definition findLetTargetField (fuel : nat) (ts : t) (className fieldName : string)
  : option (option FieldInfo) :=
  findFieldDefinition fuel ts className fieldName.

Definition type_kind (ty : TypeInfo) : TypeKind :=
  match ty with mkTypeInfo kind _ _ _ => kind end.

Definition type_name (ty : TypeInfo) : string :=
  match ty with mkTypeInfo _ name _ _ => name end.

(** [resolveFieldAccess]: only a class type has fields. *)
Definition resolveFieldAccess (fuel : nat) (ts : t) (baseType : TypeInfo)
    (fieldName : string) : option (option FieldInfo) :=
  match type_kind baseType with
  | TKclass => findFieldDefinition fuel ts (type_name baseType) fieldName
  | _ => Some None
  end.

(** The loop of [getArgumentType] and [getArgumentLocation]: the first
    argument of the name. *)
Definition find_argument (ts : t) (className argName : string)
  : option ArgumentInfo :=
  match classes ts !! className with
  | None => None
  | Some classInfo =>
      List.find (fun arg => bool_decide (ai_name arg = argName))
                (ci_arguments classInfo)
  end.

Definition getArgumentType (ts : t) (className argName : string)
  : option TypeInfo :=
  ai_type <$> find_argument ts className argName.

Definition getArgumentLocation (ts : t) (className argName : string)
  : option Location :=
  ai_location <$> find_argument ts className argName.

(** The loop of [inheritsFrom] over the parent names: the first parent
    that inherits ends it. *)
Definition inheritsFrom_parents (rec : string -> option bool)
  : list string -> option bool :=
  fix parents ps :=
    match ps with
    | [] => Some false
    | parent :: ps' =>
        match rec parent with
        | None => None
        | Some true => Some true
        | Some false => parents ps'
        end
    end.

(** [inheritsFrom] has no guard against cycles; [None] is fuel
    exhaustion. *)
Fixpoint inheritsFrom (fuel : nat) (ts : t) (className parentName : string)
  : option bool :=
  match fuel with
  | O => None
  | S fuel' =>
      match classes ts !! className with
      | None => Some false
      | Some classInfo =>
          if bool_decide (parentName ∈ ci_parentClasses classInfo)
          then Some true
          else inheritsFrom_parents
                 (fun parent => inheritsFrom fuel' ts parent parentName)
                 (ci_parentClasses classInfo)
      end
  end.

(** ** The inheritance rules in the words of the specification *)

(** Field resolution: the class's own field first, else the first parent,
    in declaration order, that resolves it. *)
Inductive resolves (ts : t) (f : string) : string -> option FieldInfo -> Prop :=
| resolves_unknown c :
    classes ts !! c = None -> resolves ts f c None
| resolves_own c ci fi :
    classes ts !! c = Some ci -> ci_fields ci !! f = Some fi ->
    resolves ts f c (Some fi)
| resolves_parent c ci r :
    classes ts !! c = Some ci -> ci_fields ci !! f = None ->
    first_parent ts f (ci_parentClasses ci) r ->
    resolves ts f c r
with first_parent (ts : t) (f : string) : list string -> option FieldInfo -> Prop :=
| first_parent_nil : first_parent ts f [] None
| first_parent_hit p ps fi :
    resolves ts f p (Some fi) -> first_parent ts f (p :: ps) (Some fi)
| first_parent_miss p ps r :
    resolves ts f p None -> first_parent ts f ps r ->
    first_parent ts f (p :: ps) r.

(** Merged view: the parents' merged views written one over the other in
    declaration order, then the class's own fields over the result.  The
    rules read the parent names and own fields only, never a cache. *)
Inductive merged (cls : gmap string ClassInfo)
  : string -> gmap string FieldInfo -> Prop :=
| merged_unknown c : cls !! c = None -> merged cls c ∅
| merged_class c ci inherited :
    cls !! c = Some ci ->
    merged_parents cls (ci_parentClasses ci) inherited ->
    merged cls c (ci_fields ci ∪ inherited)
with merged_parents (cls : gmap string ClassInfo)
  : list string -> gmap string FieldInfo -> Prop :=
| merged_parents_nil : merged_parents cls [] ∅
| merged_parents_snoc ps p earlier pf :
    merged_parents cls ps earlier -> merged cls p pf ->
    merged_parents cls (ps ++ [p]) (pf ∪ earlier).

(** A state is coherent when every cached view is the merged view. *)
Definition coherent (ts : t) : Prop :=
  forall c ci m, classes ts !! c = Some ci -> ci_allFields ci = Some m ->
                 merged (classes ts) c m.

(** Two registries that differ in cached views only. *)
Definition same_classes (cls1 cls2 : gmap string ClassInfo) : Prop :=
  set_allFields None <$> cls1 = set_allFields None <$> cls2.

End TypeSystem.

(* ===================================================================== *)
(** * typeSystem.ts: [parseTypeString] and [TypeCollector] *)
(* ===================================================================== *)

Module TypeCollector.
Import TypeSystem.

Definition BUILTIN_TYPES : list string := ["bit"; "int"; "string"; "code"; "dag"].

Fixpoint strip_prefix (prefix l : list ascii) : option (list ascii) :=
  match prefix with
  | [] => Some l
  | c :: prefix' =>
      match l with
      | d :: l' => if Ascii.eqb c d then strip_prefix prefix' l' else None
      | [] => None
      end
  end.

(** The text between [opening] at the start and the [">"] that ends the
    text: the group of [/^bits<(...)>$/] and [/^list<(...)>$/]. *)
Definition between (opening : string) (l : list ascii) : option (list ascii) :=
  match strip_prefix (list_ascii_of_string opening) l with
  | Some rest =>
      match rev rest with
      | ">"%char :: inner => Some (rev inner)
      | _ => None
      end
  | None => None
  end.

(** [parseInt(digits, 10)] on decimal digits.  The value is exact as
    long as it is below 2^53, where a JavaScript number holds every
    integer; from there on [parseInt] returns the nearest number that a
    double holds, which this model does not follow. *)
Definition decimal (digits : list ascii) : nat :=
  foldl (fun n c => 10 * n + (nat_of_ascii c - 48)) 0 digits.

(** The group [\d+]. *)
Definition bits_width (l : list ascii) : option nat :=
  match between "bits<" l with
  | Some (d :: digits) =>
      if forallb Lexer.is_digit (d :: digits) then Some (decimal (d :: digits))
      else None
  | _ => None
  end.

(** [.] matches every character but a line terminator: line feed,
    carriage return, U+2028 and U+2029.  Among the one-byte characters
    of a text here these are line feed and carriage return, which is
    exact for a text of ASCII characters. *)
Definition is_line_terminator (c : ascii) : bool :=
  Ascii.eqb c "010" || Ascii.eqb c "013".

(** The group [.+]. *)
Definition list_element (l : list ascii) : option (list ascii) :=
  match between "list<" l with
  | Some (c :: inner) =>
      if forallb (fun c => negb (is_line_terminator c)) (c :: inner)
      then Some (c :: inner) else None
  | _ => None
  end.

Definition unknown_type : TypeInfo := mkTypeInfo TKbuiltin "unknown" None None.

(** The recursion of [parseTypeString] is on the text inside [list<...>],
    which is shorter than the text: one nested call for each level of
    [list<...>].  [fuel] is the length of the text and is never used
    up. *)
Fixpoint parse_type (fuel : nat) (l : list ascii) : TypeInfo :=
  match l with
  | [] => unknown_type
  | _ =>
      match bits_width l with
      | Some width => mkTypeInfo TKbits "bits" None (Some width)
      | None =>
          match list_element l with
          | Some inner =>
              mkTypeInfo TKlist "list"
                (Some (match fuel with
                       | S fuel' => parse_type fuel' inner
                       | O => unknown_type
                       end))
                None
          | None =>
              let typeStr := string_of_list_ascii l in
              if bool_decide (typeStr ∈ BUILTIN_TYPES)
              then mkTypeInfo TKbuiltin typeStr None None
              else mkTypeInfo TKclass typeStr None None
          end
      end
  end.

Definition parseTypeString (typeStr : string) : TypeInfo :=
  parse_type (String.length typeStr) (list_ascii_of_string typeStr).

Section WithUri.
Variable uri : string.

Definition location (id : Identifier) : Location :=
  {| loc_uri := uri; loc_range := id_range id |}.

Definition collectArguments (templateArgs : list TemplateArg) : list ArgumentInfo :=
  map (fun arg =>
         {| ai_name := id_name (ta_name arg);
            ai_type := parseTypeString (ta_argType arg);
            ai_location := location (ta_name arg);
            ai_hasDefault := bool_decide (is_Some (ta_defaultValue arg)) |})
      templateArgs.

(** [declaringClass] is the empty string for every field. *)
Definition collectFields (body : list Statement) : gmap string FieldInfo :=
  foldl (fun fields stmt =>
           match stmt with
           | SFieldDef fieldDef =>
               <[id_name (fd_name fieldDef) :=
                   {| fi_name := id_name (fd_name fieldDef);
                      fi_type := parseTypeString (fd_fieldType fieldDef);
                      fi_location := location (fd_name fieldDef);
                      fi_declaringClass := "" |}]> fields
           | _ => fields
           end) ∅ body.

Definition parent_names (parentClasses : list ClassRef) : list string :=
  map (fun p => id_name (cr_name p)) parentClasses.

Definition collectClassDef (classDef : ClassDef) (ts : TypeSystem.t) : TypeSystem.t :=
  addClass ts
    {| ci_name := id_name (cd_name classDef); ci_kind := CKclass;
       ci_location := location (cd_name classDef); ci_uri := uri;
       ci_parentClasses := parent_names (cd_parentClasses classDef);
       ci_arguments := collectArguments (cd_templateArgs classDef);
       ci_fields := collectFields (cd_body classDef);
       ci_allFields := None;
       ci_isForwardDeclaration := cd_isForwardDeclaration classDef |}.

Definition collectMultiClassDef (multiclassDef : MultiClassDef) (ts : TypeSystem.t)
  : TypeSystem.t :=
  addClass ts
    {| ci_name := id_name (mc_name multiclassDef); ci_kind := CKmulticlass;
       ci_location := location (mc_name multiclassDef); ci_uri := uri;
       ci_parentClasses := parent_names (mc_parentClasses multiclassDef);
       ci_arguments := collectArguments (mc_templateArgs multiclassDef);
       ci_fields := collectFields (mc_body multiclassDef);
       ci_allFields := None;
       ci_isForwardDeclaration := false |}.

Definition collectRecordDef (recordDef : RecordDef) (ts : TypeSystem.t)
  : TypeSystem.t :=
  match rd_name recordDef with
  | None => ts
  | Some name =>
      addClass ts
        {| ci_name := id_name name; ci_kind := CKdef;
           ci_location := location name; ci_uri := uri;
           ci_parentClasses := parent_names (rd_parentClasses recordDef);
           ci_arguments := [];
           ci_fields := collectFields (rd_body recordDef);
           ci_allFields := None;
           ci_isForwardDeclaration := false |}
  end.

Definition collectDefmDef (defmDef : DefmDef) (ts : TypeSystem.t) : TypeSystem.t :=
  match dm_name defmDef with
  | None => ts
  | Some name =>
      addClass ts
        {| ci_name := id_name name; ci_kind := CKdefm;
           ci_location := location name; ci_uri := uri;
           ci_parentClasses := parent_names (dm_parentClasses defmDef);
           ci_arguments := [];
           ci_fields := ∅;
           ci_allFields := None;
           ci_isForwardDeclaration := false |}
  end.

(** [collectStatement] goes into the bodies of [let], [foreach] and [if]
    and into no other body. *)
Fixpoint collectStatement (stmt : Statement) (ts : TypeSystem.t) : TypeSystem.t :=
  let all := foldl (fun ts bodyStmt => collectStatement bodyStmt ts) in
  match stmt with
  | SClassDef s => collectClassDef s ts
  | SMultiClassDef s => collectMultiClassDef s ts
  | SRecordDef s => collectRecordDef s ts
  | SDefmDef s => collectDefmDef s ts
  | SLetStatement {| ls_body := body |} => all ts body
  | SForeachStatement {| fe_body := body |} => all ts body
  | SIfStatement {| if_thenBody := thenBody; if_elseBody := elseBody |} =>
      all (all ts thenBody) elseBody
  | _ => ts
  end.

Definition collect (parsed : ParsedFile) (ts : TypeSystem.t) : TypeSystem.t :=
  foldl (fun ts stmt => collectStatement stmt ts) ts (pf_statements parsed).

End WithUri.

End TypeCollector.
(* ===================================================================== *)
(** * resolutionHelpers.ts: composite defm symbols *)
(* ===================================================================== *)

Module ResolutionHelpers.

(** A JavaScript [Set] of strings, in insertion order: [add] appends a
    string that is not in it yet. *)
Definition set_add (x : string) (s : list string) : list string :=
  if bool_decide (x ∈ s) then s else s ++ [x].

Definition set_add_all (xs : list string) (s : list string) : list string :=
  foldl (fun s x => set_add x s) s xs.

(** [Array.prototype.sort] with the default comparison, which orders
    strings by their code units; for ASCII names this is the byte order. *)
Fixpoint insert_sorted (x : string) (l : list string) : list string :=
  match l with
  | [] => [x]
  | y :: l' => if String.leb x y then x :: l else y :: insert_sorted x l'
  end.

Definition sort (l : list string) : list string := foldr insert_sorted [] l.

(** [for (const stmt of body) { ... }] over a state [acc] that the
    iterations change; [None] is an iteration that does not return. *)
Definition for_each {A St : Type} (one : A -> St -> option St)
  : list A -> St -> option St :=
  fix go body acc :=
    match body with
    | [] => Some acc
    | stmt :: rest =>
        match one stmt acc with
        | Some acc1 => go rest acc1
        | None => None
        end
    end.

(** The map [cache] and the set [visiting] that the recursion shares. *)
Record suffix_state := mkSuffixState {
  cache : gmap string (list string);
  visiting : gset string
}.

Section WithFinder.
Variable findMulticlassNode : string -> option MultiClassDef.

(** The loops [for (const parent of parentClasses) { const mc =
    findMulticlassNode(parent.name.name); if (mc) for (const s of
    collectDefSuffixes(mc, ...)) suffixes.add(prefix + s); }]. *)
Definition add_from_parents
    (rec : MultiClassDef -> suffix_state -> option (list string * suffix_state))
    (prefix : string)
  : list ClassRef -> list string -> suffix_state
    -> option (list string * suffix_state) :=
  fix parents ps suffixes st :=
    match ps with
    | [] => Some (suffixes, st)
    | parent :: ps' =>
        match findMulticlassNode (id_name (cr_name parent)) with
        | Some mc =>
            match rec mc st with
            | None => None
            | Some (subs, st1) =>
                parents ps'
                  (set_add_all (map (fun sub => prefix +:+ sub) subs) suffixes) st1
            end
        | None => parents ps' suffixes st
        end
    end.

(** One iteration of [for (const stmt of body)]. *)
Fixpoint collectDefSuffixesFromStatement
    (rec : MultiClassDef -> suffix_state -> option (list string * suffix_state))
    (stmt : Statement) (acc : list string * suffix_state)
  : option (list string * suffix_state) :=
  let fromBody := for_each (collectDefSuffixesFromStatement rec) in
  match stmt with
  | SRecordDef s =>
      match rd_name s with
      | Some name => Some (set_add (id_name name) acc.1, acc.2)
      | None => Some acc
      end
  | SDefmDef s =>
      match dm_name s with
      | Some name =>
          add_from_parents rec (id_name name) (dm_parentClasses s) acc.1 acc.2
      | None => Some acc
      end
  | SDefsetDef {| ds_body := body |} => fromBody body acc
  | SForeachStatement {| fe_body := body |} => fromBody body acc
  | SLetStatement {| ls_body := body |} => fromBody body acc
  | SIfStatement {| if_thenBody := thenBody; if_elseBody := elseBody |} =>
      match fromBody thenBody acc with
      | Some acc1 => fromBody elseBody acc1
      | None => None
      end
  | _ => Some acc
  end.

Definition collectDefSuffixesFromBody
    (rec : MultiClassDef -> suffix_state -> option (list string * suffix_state))
    (body : list Statement) (suffixes : list string) (st : suffix_state)
  : option (list string * suffix_state) :=
  for_each (collectDefSuffixesFromStatement rec) body (suffixes, st).

Fixpoint collectDefSuffixes (fuel : nat) (mc : MultiClassDef) (st : suffix_state)
  : option (list string * suffix_state) :=
  match fuel with
  | O => None
  | S fuel' =>
      let cacheKey := id_name (mc_name mc) in
      match cache st !! cacheKey with
      | Some cached => Some (cached, st)
      | None =>
          if bool_decide (cacheKey ∈ visiting st) then Some ([], st)
          else
            let st1 := {| cache := cache st;
                          visiting := visiting st ∪ {[cacheKey]} |} in
            match add_from_parents (collectDefSuffixes fuel') ""
                    (mc_parentClasses mc) [] st1 with
            | None => None
            | Some (inherited, st2) =>
                match collectDefSuffixesFromBody (collectDefSuffixes fuel')
                        (mc_body mc) inherited st2 with
                | None => None
                | Some (suffixes, st3) =>
                    let sortedSuffixes := sort suffixes in
                    Some (sortedSuffixes,
                          {| cache := <[cacheKey := sortedSuffixes]> (cache st3);
                             visiting := visiting st3 ∖ {[cacheKey]} |})
                end
            end
      end
  end.

(** The suffixes of one named [defm]: every call of [collectDefSuffixes]
    from here starts with a new, empty [visiting]. *)
Definition composite_names (fuel : nat) (defmName : string)
  : list ClassRef -> list string -> gmap string (list string)
    -> option (list string * gmap string (list string)) :=
  fix parents ps compositeNames suffixCache :=
    match ps with
    | [] => Some (compositeNames, suffixCache)
    | parent :: ps' =>
        match findMulticlassNode (id_name (cr_name parent)) with
        | Some mcDef =>
            match collectDefSuffixes fuel mcDef
                    {| cache := suffixCache; visiting := ∅ |} with
            | None => None
            | Some (suffixes, st1) =>
                parents ps'
                  (set_add_all (map (fun suffix => defmName +:+ suffix) suffixes)
                     compositeNames)
                  (cache st1)
            end
        | None => parents ps' compositeNames suffixCache
        end
    end.

Definition composite_symbol (uri : string) (range : Range) (name : string) : Symbol :=
  {| sym_name := name; sym_kind := SKdef;
     sym_location := {| loc_uri := uri; loc_range := range |};
     sym_scope := None; sym_isForwardDeclaration := None |}.

(** One iteration of the loop of
    [collectCompositeDefmSymbolsFromStatements]; [acc] is the suffix
    cache and the array [collected]. *)
Fixpoint collectCompositeDefmSymbolsFromStatement (fuel : nat) (uri : string)
    (stmt : Statement) (acc : gmap string (list string) * list Symbol)
  : option (gmap string (list string) * list Symbol) :=
  let fromStatements :=
    for_each (collectCompositeDefmSymbolsFromStatement fuel uri) in
  match stmt with
  | SDefmDef s =>
      match dm_name s with
      | Some name =>
          match composite_names fuel (id_name name) (dm_parentClasses s) []
                  acc.1 with
          | None => None
          | Some (compositeNames, suffixCache1) =>
              Some (suffixCache1,
                    acc.2 ++ map (composite_symbol uri (id_range name))
                               (sort compositeNames))
          end
      | None => Some acc
      end
  | SDefsetDef {| ds_body := body |} => fromStatements body acc
  | SForeachStatement {| fe_body := body |} => fromStatements body acc
  | SLetStatement {| ls_body := body |} => fromStatements body acc
  | SIfStatement {| if_thenBody := thenBody; if_elseBody := elseBody |} =>
      match fromStatements thenBody acc with
      | Some acc1 => fromStatements elseBody acc1
      | None => None
      end
  | _ => Some acc
  end.

Definition collectCompositeDefmSymbolsFromStatements (fuel : nat) (uri : string)
    (statements : list Statement) (suffixCache : gmap string (list string))
    (collected : list Symbol)
  : option (gmap string (list string) * list Symbol) :=
  for_each (collectCompositeDefmSymbolsFromStatement fuel uri) statements
    (suffixCache, collected).

Definition computeCompositeDefmSymbols (fuel : nat) (statements : list Statement)
    (uri : string) : option (list Symbol) :=
  snd <$> collectCompositeDefmSymbolsFromStatements fuel uri statements ∅ [].

End WithFinder.

(** [buildMulticlassFinder] of the tests: the last multiclass of a name
    among the top-level statements. *)
Definition buildMulticlassFinder (statements : list Statement)
  : string -> option MultiClassDef :=
  fun name =>
    foldl (fun found stmt =>
             match stmt with
             | SMultiClassDef mc =>
                 if decide (id_name (mc_name mc) = name) then Some mc else found
             | _ => found
             end) None statements.

(** ** [findDefvarInStatements] *)

Definition isSameRange (a b : Range) : bool :=
  (line (r_start a) =? line (r_start b))%nat &&
  (character (r_start a) =? character (r_start b))%nat &&
  (line (r_end a) =? line (r_end b))%nat &&
  (character (r_end a) =? character (r_end b))%nat.

(** [for (const x of xs) { const r = one(x); if (r) return r; } return
    undefined;] *)
Definition first_found {A B : Type} (one : A -> option B) : list A -> option B :=
  fix go xs :=
    match xs with
    | [] => None
    | x :: rest =>
        match one x with
        | Some r => Some r
        | None => go rest
        end
    end.

(** One iteration of the loop of [findDefvarInStatements]; [targetRange]
    is optional in the source. *)
Fixpoint findDefvarInStatement (defvarName : string) (targetRange : option Range)
    (stmt : Statement) : option DefvarDef :=
  let inStatements := first_found (findDefvarInStatement defvarName targetRange) in
  match stmt with
  | SDefvarDef s =>
      if negb (String.eqb (id_name (dv_name s)) defvarName) then None
      else match targetRange with
           | None => Some s
           | Some range =>
               if isSameRange (id_range (dv_name s)) range then Some s else None
           end
  | SClassDef {| cd_body := body |} => inStatements body
  | SRecordDef {| rd_body := body |} => inStatements body
  | SMultiClassDef {| mc_body := body |} => inStatements body
  | SDefsetDef {| ds_body := body |} => inStatements body
  | SLetStatement {| ls_body := body |} => inStatements body
  | SForeachStatement {| fe_body := body |} => inStatements body
  | SIfStatement {| if_thenBody := thenBody; if_elseBody := elseBody |} =>
      match inStatements thenBody with
      | Some nestedThen => Some nestedThen
      | None => inStatements elseBody
      end
  | _ => None
  end.

Definition findDefvarInStatements (statements : list Statement)
    (defvarName : string) (targetRange : option Range) : option DefvarDef :=
  first_found (findDefvarInStatement defvarName targetRange) statements.

(** ** [normalizeCastTypeName] and [inferTypeFromExpression] *)

Fixpoint take_while (p : ascii -> bool) (l : list ascii) : list ascii :=
  match l with
  | c :: rest => if p c then c :: take_while p rest else []
  | [] => []
  end.

Fixpoint drop_while (p : ascii -> bool) (l : list ascii) : list ascii :=
  match l with
  | c :: rest => if p c then drop_while p rest else l
  | [] => []
  end.

(** The white space and line terminators that [String.prototype.trim]
    removes, among one-byte characters of ASCII text: tab, line feed,
    vertical tab, form feed, carriage return and space. *)
Definition is_trimmed_char (c : ascii) : bool :=
  Ascii.eqb c "009" || Ascii.eqb c "010" || Ascii.eqb c "011" ||
  Ascii.eqb c "012" || Ascii.eqb c "013" || Ascii.eqb c " ".

Definition trim (l : list ascii) : list ascii :=
  rev (drop_while is_trimmed_char (rev (drop_while is_trimmed_char l))).

(** [s.split('<')[0]]: the text before the first ['<']. *)
Definition before_angle (l : list ascii) : list ascii :=
  take_while (fun c => negb (Ascii.eqb c "<")) l.

(** [s.match(/[A-Za-z_][A-Za-z0-9_]*/)]: the leftmost match starts at the
    first letter or underscore and takes every identifier character that
    follows it. *)
Definition match_identifier (l : list ascii) : option (list ascii) :=
  match drop_while (fun c => negb (Lexer.is_ident_start c)) l with
  | c :: rest => Some (c :: take_while Lexer.is_ident_char rest)
  | [] => None
  end.

Definition normalizeCastTypeName (typeArgText : string) : option string :=
  let trimmed := trim (list_ascii_of_string typeArgText) in
  match trimmed with
  | [] => None
  | _ =>
      let withoutTemplates := trim (before_angle trimmed) in
      string_of_list_ascii <$> match_identifier withoutTemplates
  end.

(** [typeArgText] is optional; absent and empty are both falsy. *)
Definition inferTypeFromExpression (expr : Expression) (hasClass : string -> bool)
  : option TypeSystem.TypeInfo :=
  match expr with
  | EBangOperator operator typeArgText _ _ =>
      if negb (String.eqb operator "!cast") then None
      else match typeArgText with
           | None | Some EmptyString => None
           | Some text =>
               match normalizeCastTypeName text with
               | None => None
               | Some castTypeName =>
                   if hasClass castTypeName
                   then Some (TypeSystem.mkTypeInfo TypeSystem.TKclass
                                castTypeName None None)
                   else None
               end
           end
  | _ => None
  end.

End ResolutionHelpers.

(* ===================================================================== *)
(** * server.ts: the server's own copy *)
(* ===================================================================== *)

Module Server.

(** [findMulticlassNode]: the first multiclass of that name among the
    top-level statements of the parsed files, in the order of the map
    [parsedFiles]. *)
Fixpoint find_in_statements (name : string) (statements : list Statement)
  : option MultiClassDef :=
  match statements with
  | [] => None
  | SMultiClassDef mc :: rest =>
      if decide (id_name (mc_name mc) = name) then Some mc
      else find_in_statements name rest
  | _ :: rest => find_in_statements name rest
  end.

Fixpoint findMulticlassNode (parsedFiles : list ParsedFile) (name : string)
  : option MultiClassDef :=
  match parsedFiles with
  | [] => None
  | parsed :: rest =>
      match find_in_statements name (pf_statements parsed) with
      | Some mc => Some mc
      | None => findMulticlassNode rest name
      end
  end.

Section WithFiles.
Variable parsedFiles : list ParsedFile.

Definition add_nested
    (rec : MultiClassDef -> option (list string)) (prefix : string)
  : list ClassRef -> list string -> option (list string) :=
  fix parents ps suffixes :=
    match ps with
    | [] => Some suffixes
    | parent :: ps' =>
        match findMulticlassNode parsedFiles (id_name (cr_name parent)) with
        | Some nestedMc =>
            match rec nestedMc with
            | None => None
            | Some subs =>
                parents ps' (suffixes ++ map (fun sub => prefix +:+ sub) subs)
            end
        | None => parents ps' suffixes
        end
    end.

Fixpoint collectDefSuffixesFromStatement
    (rec : MultiClassDef -> option (list string))
    (stmt : Statement) (suffixes : list string) : option (list string) :=
  let fromBody :=
    ResolutionHelpers.for_each (collectDefSuffixesFromStatement rec) in
  match stmt with
  | SRecordDef s =>
      match rd_name s with
      | Some name => Some (suffixes ++ [id_name name])
      | None => Some suffixes
      end
  | SDefmDef s =>
      match dm_name s with
      | Some name => add_nested rec (id_name name) (dm_parentClasses s) suffixes
      | None => Some suffixes
      end
  | SForeachStatement {| fe_body := body |} => fromBody body suffixes
  | SIfStatement {| if_thenBody := thenBody; if_elseBody := elseBody |} =>
      match fromBody thenBody suffixes with
      | Some suffixes1 => fromBody elseBody suffixes1
      | None => None
      end
  | _ => Some suffixes
  end.

Definition collectDefSuffixesFromBody
    (rec : MultiClassDef -> option (list string))
    (body : list Statement) (suffixes : list string) : option (list string) :=
  ResolutionHelpers.for_each (collectDefSuffixesFromStatement rec) body suffixes.

(** No parent multiclass is followed here, and nothing guards the
    recursion through nested [defm]s. *)
Fixpoint collectDefSuffixes (fuel : nat) (mc : MultiClassDef)
  : option (list string) :=
  match fuel with
  | O => None
  | S fuel' =>
      collectDefSuffixesFromBody (collectDefSuffixes fuel') (mc_body mc) []
  end.

Definition register_names (fuel : nat) (uri : string) (name : Identifier)
  : list ClassRef -> SymbolTable.t -> option SymbolTable.t :=
  fix parents ps table :=
    match ps with
    | [] => Some table
    | parent :: ps' =>
        match findMulticlassNode parsedFiles (id_name (cr_name parent)) with
        | Some mcDef =>
            match collectDefSuffixes fuel mcDef with
            | None => None
            | Some suffixes =>
                parents ps'
                  (foldl (fun table suffix =>
                            SymbolTable.addSymbol table
                              (ResolutionHelpers.composite_symbol uri (id_range name)
                                 (id_name name +:+ suffix)))
                         table suffixes)
            end
        | None => parents ps' table
        end
    end.

Fixpoint registerCompositeDefmSymbolsFromStatement (fuel : nat) (uri : string)
    (stmt : Statement) (table : SymbolTable.t) : option SymbolTable.t :=
  let fromStatements :=
    ResolutionHelpers.for_each (registerCompositeDefmSymbolsFromStatement fuel uri) in
  match stmt with
  | SDefmDef s =>
      match dm_name s with
      | Some name => register_names fuel uri name (dm_parentClasses s) table
      | None => Some table
      end
  | SDefsetDef {| ds_body := body |} => fromStatements body table
  | SForeachStatement {| fe_body := body |} => fromStatements body table
  | SIfStatement {| if_thenBody := thenBody; if_elseBody := elseBody |} =>
      match fromStatements thenBody table with
      | Some table1 => fromStatements elseBody table1
      | None => None
      end
  | _ => Some table
  end.

Definition registerCompositeDefmSymbolsFromStatements (fuel : nat) (uri : string)
    (statements : list Statement) (table : SymbolTable.t) : option SymbolTable.t :=
  ResolutionHelpers.for_each (registerCompositeDefmSymbolsFromStatement fuel uri)
    statements table.

Definition registerCompositeDefmSymbols (fuel : nat) (parsed : ParsedFile)
    (uri : string) (table : SymbolTable.t) : option SymbolTable.t :=
  registerCompositeDefmSymbolsFromStatements fuel uri (pf_statements parsed) table.

End WithFiles.
End Server.

(* ===================================================================== *)
(** * server.ts: the scope at a position *)
(* ===================================================================== *)

Module ServerScopes.

(** [stmt.range] *)
Definition range_of_statement (stmt : Statement) : Range :=
  match stmt with
  | SClassDef s => cd_range s
  | SRecordDef s => rd_range s
  | SMultiClassDef s => mc_range s
  | SDefmDef s => dm_range s
  | SDefsetDef s => ds_range s
  | SDefvarDef s => dv_range s
  | SFieldDef s => fd_range s
  | SLetStatement s => ls_range s
  | SForeachStatement s => fe_range s
  | SIfStatement s => if_range s
  | SIncludeStatement s => inc_range s
  | SAssertStatement s => as_range s
  end.

(** The server's own [isPositionInRange]; the position is a line and a
    character. *)
Definition isPositionInRange (l c : nat) (range : Range) : bool :=
  if (l <? line (r_start range))%nat || (line (r_end range) <? l)%nat then false
  else if (l =? line (r_start range))%nat && (c <? character (r_start range))%nat
       then false
  else if (l =? line (r_end range))%nat && (character (r_end range) <? c)%nat
       then false
  else true.

(** [`class:${parentClasses[0].name.name}`], when there is a parent. *)
Definition first_parent_scope (parentClasses : list ClassRef) : option string :=
  match parentClasses with
  | parent :: _ => Some ("class:" +:+ id_name (cr_name parent))
  | [] => None
  end.

(** [findDefInStatement]; its calls of [findFirstDefInLetBody] are the
    loops over the bodies of a [let], a [foreach] and an [if]. *)
Fixpoint findDefInStatement (stmt : Statement) : option string :=
  let firstDef := ResolutionHelpers.first_found findDefInStatement in
  match stmt with
  | SRecordDef s => first_parent_scope (rd_parentClasses s)
  | SDefmDef s => first_parent_scope (dm_parentClasses s)
  | SClassDef s =>
      if cd_isForwardDeclaration s then None
      else match first_parent_scope (cd_parentClasses s) with
           | Some scope => Some scope
           | None => Some ("class:" +:+ id_name (cd_name s))
           end
  | SLetStatement {| ls_body := body |} => firstDef body
  | SForeachStatement {| fe_body := body |} => firstDef body
  | SIfStatement {| if_thenBody := thenBody; if_elseBody := elseBody |} =>
      match firstDef thenBody with
      | Some result => Some result
      | None => firstDef elseBody
      end
  | _ => None
  end.

(** [findFirstDefInLetBody] looks at [body], [thenBody] and [elseBody] of
    whatever statement it is given. *)
Definition findFirstDefInLetBody (stmt : Statement) : option string :=
  match stmt with
  | SClassDef s => ResolutionHelpers.first_found findDefInStatement (cd_body s)
  | SRecordDef s => ResolutionHelpers.first_found findDefInStatement (rd_body s)
  | SMultiClassDef s => ResolutionHelpers.first_found findDefInStatement (mc_body s)
  | SDefsetDef s => ResolutionHelpers.first_found findDefInStatement (ds_body s)
  | SLetStatement s => ResolutionHelpers.first_found findDefInStatement (ls_body s)
  | SForeachStatement s =>
      ResolutionHelpers.first_found findDefInStatement (fe_body s)
  | SIfStatement s =>
      match ResolutionHelpers.first_found findDefInStatement (if_thenBody s) with
      | Some result => Some result
      | None => ResolutionHelpers.first_found findDefInStatement (if_elseBody s)
      end
  | _ => None
  end.

(** [findScopeInStatement]; the calls of [sendLog] are left out. *)
Fixpoint findScopeInStatement (l c : nat) (stmt : Statement) : option string :=
  let nested := ResolutionHelpers.first_found (findScopeInStatement l c) in
  if negb (isPositionInRange l c (range_of_statement stmt)) then None
  else
    match stmt with
    | SClassDef {| cd_name := name; cd_body := body |} =>
        match ResolutionHelpers.first_found
                (fun bodyStmt =>
                   match bodyStmt with
                   | SLetStatement ls =>
                       if isPositionInRange l c (ls_range ls)
                       then findScopeInStatement l c bodyStmt
                       else None
                   | _ => None
                   end) body with
        | Some letScope => Some letScope
        | None => Some ("class:" +:+ id_name name)
        end
    | SRecordDef s =>
        match rd_name s with
        | Some name => Some ("def:" +:+ id_name name)
        | None => None
        end
    | SMultiClassDef {| mc_name := name; mc_body := body |} =>
        match ResolutionHelpers.first_found
                (fun bodyStmt =>
                   if isPositionInRange l c (range_of_statement bodyStmt)
                   then findScopeInStatement l c bodyStmt
                   else None) body with
        | Some scope => Some scope
        | None => Some ("multiclass:" +:+ id_name name)
        end
    | SLetStatement {| ls_body := body |} =>
        match nested body with
        | Some scope => Some scope
        | None => findFirstDefInLetBody stmt
        end
    | SForeachStatement {| fe_body := body |} => nested body
    | SIfStatement {| if_thenBody := thenBody; if_elseBody := elseBody |} =>
        match nested thenBody with
        | Some scope => Some scope
        | None => nested elseBody
        end
    | _ => None
    end.

Definition findScopeAtPosition (parsed : ParsedFile) (l c : nat) : option string :=
  ResolutionHelpers.first_found (findScopeInStatement l c) (pf_statements parsed).

End ServerScopes.
(* ===================================================================== *)
(** * Concrete inputs *)
(* ===================================================================== *)

Module Examples.

Definition range_at (l c1 c2 : nat) : Range :=
  {| r_start := {| line := l; character := c1 |};
     r_end := {| line := l; character := c2 |} |}.

(** ** An include graph: [R] includes [X] and then [A], [A] includes [B];
    [S] is a second root that includes nothing. *)
Definition graph_RXABS : IncludeGraph.t :=
  {| IncludeGraph.rootFiles := <["R" := []]> (<["S" := []]> ∅);
     IncludeGraph.forwardIncludes := <["R" := ["X"; "A"]]> (<["A" := ["B"]]> ∅);
     IncludeGraph.reverseIncludes :=
       <["X" := ["R"]]> (<["A" := ["R"]]> (<["B" := ["A"]]> ∅));
     IncludeGraph.fileToRoot := ∅;
     IncludeGraph.visibleFilesCache := ∅ |}.

(** ** Classes of the type system tests *)

Definition int_type : TypeSystem.TypeInfo :=
  TypeSystem.mkTypeInfo TypeSystem.TKbuiltin "int" None None.

Definition field (name uri : string) (l : nat) : TypeSystem.FieldInfo :=
  {| TypeSystem.fi_name := name;
     TypeSystem.fi_type := int_type;
     TypeSystem.fi_location :=
       {| loc_uri := uri; loc_range := range_at l 0 (String.length name) |};
     TypeSystem.fi_declaringClass := "" |}.

Definition class_info (name uri : string) (l : nat) (parents : list string)
    (fields : gmap string TypeSystem.FieldInfo) (fwd : bool)
  : TypeSystem.ClassInfo :=
  {| TypeSystem.ci_name := name;
     TypeSystem.ci_kind := TypeSystem.CKclass;
     TypeSystem.ci_location :=
       {| loc_uri := uri; loc_range := range_at l 0 (String.length name) |};
     TypeSystem.ci_uri := uri;
     TypeSystem.ci_parentClasses := parents;
     TypeSystem.ci_arguments := [];
     TypeSystem.ci_fields := fields;
     TypeSystem.ci_allFields := None;
     TypeSystem.ci_isForwardDeclaration := fwd |}.

Definition uri_td : string := "file:///fields.td".

Definition Base_info : TypeSystem.ClassInfo :=
  class_info "Base" uri_td 0 []
    (<["F" := field "F" uri_td 1]> (<["G" := field "G" uri_td 2]> ∅)) false.

Definition Child_info : TypeSystem.ClassInfo :=
  class_info "Child" uri_td 9 ["Base"]
    (<["F" := field "F" uri_td 10]> (<["H" := field "H" uri_td 11]> ∅)) false.

Definition A_info : TypeSystem.ClassInfo :=
  class_info "A" uri_td 0 [] (<["F" := field "F" uri_td 1]> ∅) false.

Definition B_info : TypeSystem.ClassInfo :=
  class_info "B" uri_td 0 [] (<["F" := field "F" uri_td 2]> ∅) false.

Definition C_info : TypeSystem.ClassInfo :=
  class_info "C" uri_td 0 ["A"; "B"] ∅ false.

Definition Foo_forward (l : nat) : TypeSystem.ClassInfo :=
  class_info "Foo" uri_td l [] ∅ true.

Definition Foo_full : TypeSystem.ClassInfo :=
  class_info "Foo" uri_td 1 [] (<["X" := field "X" uri_td 2]> ∅) false.

(** Two classes that name each other as parent. *)
Definition cyclic_classes : TypeSystem.t :=
  TypeSystem.addClass
    (TypeSystem.addClass TypeSystem.empty (class_info "A" uri_td 0 ["B"] ∅ false))
    (class_info "B" uri_td 1 ["A"] ∅ false).

(** ** Symbols of the symbol table test *)

Definition makeSymbol (name uri : string) : Symbol :=
  {| sym_name := name; sym_kind := SKclass;
     sym_location := {| loc_uri := uri; loc_range := range_at 0 0 3 |};
     sym_scope := None; sym_isForwardDeclaration := Some false |}.

Definition scopedSymbol (name uri scope : string) : Symbol :=
  {| sym_name := name; sym_kind := SKfield;
     sym_location := {| loc_uri := uri; loc_range := range_at 0 0 3 |};
     sym_scope := Some scope; sym_isForwardDeclaration := None |}.

Definition makeReference (name uri : string) : SymbolReference :=
  {| ref_name := name;
     ref_location := {| loc_uri := uri; loc_range := range_at 1 0 3 |};
     ref_scope := None |}.

Definition uriA : string := "file:///a.td".
Definition uriB : string := "file:///b.td".

Definition two_files : SymbolTable.t :=
  SymbolTable.addReference
    (SymbolTable.addReference
      (SymbolTable.addSymbol
        (SymbolTable.addSymbol
          (SymbolTable.addSymbol
            (SymbolTable.addSymbol SymbolTable.empty (makeSymbol "Foo" uriA))
            (makeSymbol "Foo" uriB))
          (scopedSymbol "F" uriA "class:Foo"))
        (scopedSymbol "F" uriB "class:Foo"))
      (makeReference "Foo" uriA))
    (makeReference "Foo" uriB).

(** ** Multiclass inputs, as the parser returns them *)
Definition uri_composite : string := "file:///composite.td".

Definition statements_of (text : string) : list Statement :=
  match parseTableGen text uri_composite with
  | Some (Parser.Ok parsed _) => pf_statements parsed
  | _ => []
  end.

Definition multiclass_of (s : Statement) : option MultiClassDef :=
  match s with SMultiClassDef mc => Some mc | _ => None end.

Definition defm_of (s : Statement) : option DefmDef :=
  match s with SDefmDef d => Some d | _ => None end.

Definition no_identifier : Identifier :=
  {| id_name := EmptyString; id_range := range_at 0 0 0 |}.

Definition no_multiclass : MultiClassDef :=
  mkMultiClassDef no_identifier [] [] [] (range_at 0 0 0).

Definition no_defm : DefmDef := mkDefmDef None [] (range_at 0 0 0).

Definition multiclass_at (i : nat) (statements : list Statement) : MultiClassDef :=
  default no_multiclass (statements !! i ≫= multiclass_of).

Definition defm_at (i : nat) (statements : list Statement) : DefmDef :=
  default no_defm (statements !! i ≫= defm_of).

Definition inherited_text : string :=
  "multiclass A { def _a : Base; } multiclass B : A { def _b : Base; } defm Z : B;".

Definition inherited_statements : list Statement :=
  Eval vm_compute in statements_of inherited_text.

Definition cycle_text : string :=
  "multiclass A : B { def _a : Base; } multiclass B : A { def _b : Base; } defm Z : A;".

Definition cycle_statements : list Statement :=
  Eval vm_compute in statements_of cycle_text.

(** The same two multiclasses, with [B] instantiated before [A]. *)
Definition cycle_B_first_text : string :=
  "multiclass A : B { def _a : Base; } multiclass B : A { def _b : Base; } defm Y : B; defm Z : A;".

Definition cycle_B_first_statements : list Statement :=
  Eval vm_compute in statements_of cycle_B_first_text.

Definition self_cycle_text : string :=
  "multiclass A { defm x : A; } defm Z : A;".

Definition self_cycle_statements : list Statement :=
  Eval vm_compute in statements_of self_cycle_text.

Definition names_of (symbols : option (list Symbol)) : option (list string) :=
  map sym_name <$> symbols.

(** ** Parser inputs *)
Definition tokens_of (text : string) : list Token :=
  default [] (Lexer.tokenize text).

Definition class_Foo_tokens : list Token :=
  Eval vm_compute in tokens_of "class Foo;".

Definition defvar_tokens : list Token :=
  Eval vm_compute in tokens_of "defvar x 1;".

Definition nested_list_tokens : list Token :=
  Eval vm_compute in tokens_of "defvar x = [[[1]]];".

(** The classes of a text, each with its forward-declaration flag. *)
Definition class_flags (text : string) : option (list (string * bool)) :=
  match parseTableGen text uri_composite with
  | Some (Parser.Ok parsed _) =>
      Some (omap (fun stmt =>
                    match stmt with
                    | SClassDef c =>
                        Some (id_name (cd_name c), cd_isForwardDeclaration c)
                    | _ => None
                    end) (pf_statements parsed))
  | _ => None
  end.

(** The number of statements and of diagnostics of a text. *)
Definition parsed_counts (text : string) : option (nat * nat) :=
  match parseTableGen text uri_composite with
  | Some (Parser.Ok parsed _) =>
      Some (length (pf_statements parsed), length (pf_errors parsed))
  | _ => None
  end.

Definition lparen_token : Token :=
  {| tok_type := TTpunctuation; tok_value := "(";
     tok_range := range_at 0 0 1 |}.

End Examples.

(* ===================================================================== *)
(** * Induction on statements *)
(* ===================================================================== *)

Section StatementInduction.

Variable P : Statement -> Prop.

Hypothesis H_class : forall s : ClassDef, Forall P (cd_body s) -> P (SClassDef s).
Hypothesis H_record : forall s : RecordDef, Forall P (rd_body s) -> P (SRecordDef s).
Hypothesis H_multiclass :
  forall s : MultiClassDef, Forall P (mc_body s) -> P (SMultiClassDef s).
Hypothesis H_defm : forall s, P (SDefmDef s).
Hypothesis H_defset : forall s : DefsetDef, Forall P (ds_body s) -> P (SDefsetDef s).
Hypothesis H_defvar : forall s, P (SDefvarDef s).
Hypothesis H_field : forall s, P (SFieldDef s).
Hypothesis H_let : forall s : LetStatement, Forall P (ls_body s) -> P (SLetStatement s).
Hypothesis H_foreach :
  forall s : ForeachStatement, Forall P (fe_body s) -> P (SForeachStatement s).
Hypothesis H_if :
  forall s : IfStatement,
    Forall P (if_thenBody s) -> Forall P (if_elseBody s) -> P (SIfStatement s).
Hypothesis H_include : forall s, P (SIncludeStatement s).
Hypothesis H_assert : forall s, P (SAssertStatement s).

(** Induction on a statement, with the hypothesis for every statement of
    its bodies. *)
Fixpoint Statement_nested_ind (stmt : Statement) : P stmt :=
  let all := fix all (body : list Statement) : Forall P body :=
    match body with
    | [] => @List.Forall_nil _ P
    | s :: rest => @List.Forall_cons _ P s rest (Statement_nested_ind s) (all rest)
    end in
  match stmt with
  | SClassDef (mkClassDef n t p body f r) =>
      H_class (mkClassDef n t p body f r) (all body)
  | SRecordDef (mkRecordDef n p body r) => H_record (mkRecordDef n p body r) (all body)
  | SMultiClassDef (mkMultiClassDef n t p body r) =>
      H_multiclass (mkMultiClassDef n t p body r) (all body)
  | SDefmDef s => H_defm s
  | SDefsetDef (mkDefsetDef v n body r) => H_defset (mkDefsetDef v n body r) (all body)
  | SDefvarDef s => H_defvar s
  | SFieldDef s => H_field s
  | SLetStatement (mkLetStatement b body r) => H_let (mkLetStatement b body r) (all body)
  | SForeachStatement (mkForeachStatement v i body r) =>
      H_foreach (mkForeachStatement v i body r) (all body)
  | SIfStatement (mkIfStatement c t e r) =>
      H_if (mkIfStatement c t e r) (all t) (all e)
  | SIncludeStatement s => H_include s
  | SAssertStatement s => H_assert s
  end.

Lemma Statement_nested_ind_all (body : list Statement) : Forall P body.
Proof. induction body; constructor; auto using Statement_nested_ind. Qed.

End StatementInduction.

(* ===================================================================== *)
(** * Facts about the include graph *)
(* ===================================================================== *)

Section IncludeGraphFacts.
Import IncludeGraph.

Variable normalize : string -> string.

Lemma reach_trans g a b c : reach g a b -> reach g b c -> reach g a c.
Proof. intros Hab Hbc. induction Hbc; [done|]. by eapply reach_step. Qed.

Lemma reach_invariant g a (P : string -> Prop) :
  P a -> (forall y c, reach g a y -> P y -> c ∈ includes g y -> P c) ->
  forall x, reach g a x -> P x.
Proof. intros H0 Hs x Hx. induction Hx; eauto. Qed.

Lemma reach_edge g a b : b ∈ includes g a -> reach g a b.
Proof. intros H. eapply reach_step; [apply reach_refl|done]. Qed.

(** ** The files a walk can meet *)

Lemma known_files_values (m : gmap string (list string)) f l c :
  m !! f = Some l -> c ∈ l ->
  c ∈ map_fold (fun (_ : string) incs (s : gset string) => list_to_set incs ∪ s) ∅ m.
Proof.
  revert f l c.
  apply (map_fold_weak_ind
    (fun (s : gset string) (m : gmap string (list string)) =>
       forall f l c, m !! f = Some l -> c ∈ l -> c ∈ s)).
  - intros f l c Hf. by rewrite lookup_empty in Hf.
  - intros i x m' s Hi IH f l c Hf Hc.
    destruct (decide (i = f)) as [->|Hne].
    + rewrite lookup_insert_eq in Hf. injection Hf as ->.
      apply elem_of_union_l. by apply elem_of_list_to_set.
    + rewrite lookup_insert_ne in Hf by done.
      apply elem_of_union_r. by eapply IH.
Qed.

Lemma includes_known g f c : c ∈ includes g f -> c ∈ known_files g.
Proof.
  unfold includes, known_files. intros Hc.
  destruct (forwardIncludes g !! f) as [l|] eqn:Hf; simpl in Hc.
  - apply elem_of_union_r. by eapply known_files_values.
  - by apply not_elem_of_nil in Hc.
Qed.

(** ** How a walk extends the shared arrays *)

(** [extends w w' new]: [w'] is [w] with the files [new] appended, none of
    them visited before, none twice. *)
Definition extends (w w' : walk) (new : list string) : Prop :=
  visibleFiles w' = visibleFiles w ++ new /\
  visited w' = visited w ∪ list_to_set new /\
  (forall x, x ∈ new -> x ∉ visited w) /\
  NoDup new.

Lemma extends_refl w : extends w w [].
Proof.
  split; [by rewrite app_nil_r|]. split; [set_solver|].
  split; [set_solver|constructor].
Qed.

Lemma extends_visit w file :
  file ∉ visited w -> extends w (visit file w) [file].
Proof.
  intros H. split; [done|]. split; [simpl; set_solver|].
  split; [set_solver|]. apply NoDup_singleton.
Qed.

Lemma extends_trans w w1 w2 n1 n2 :
  extends w w1 n1 -> extends w1 w2 n2 -> extends w w2 (n1 ++ n2).
Proof.
  intros (Hv1 & Hs1 & Hf1 & Hd1) (Hv2 & Hs2 & Hf2 & Hd2).
  split; [by rewrite Hv2, Hv1, app_assoc|].
  split; [rewrite Hs2, Hs1, list_to_set_app_L; set_solver|].
  split.
  - intros x Hx. apply elem_of_app in Hx as [Hx|Hx]; [by apply Hf1|].
    apply Hf2 in Hx. set_solver.
  - apply NoDup_app. split; [done|]. split; [|done].
    intros x Hx Hx2. apply Hf2 in Hx2. set_solver.
Qed.

Lemma extends_subseteq w w' new : extends w w' new -> visited w ⊆ visited w'.
Proof. intros (_ & Hs & _). set_solver. Qed.

(** The shared arrays agree and hold no file twice. *)
Definition walk_ok (w : walk) : Prop :=
  visited w = list_to_set (visibleFiles w) /\ NoDup (visibleFiles w).

Lemma walk_ok_extends w w' new : walk_ok w -> extends w w' new -> walk_ok w'.
Proof.
  intros [Hs Hd] (Hv & Hs' & Hf & Hd'). split.
  - by rewrite Hs', Hv, list_to_set_app_L, Hs.
  - rewrite Hv. apply NoDup_app. split; [done|]. split; [|done].
    intros x Hx Hx'. apply Hf in Hx'. apply Hx'. rewrite Hs.
    by apply elem_of_list_to_set.
Qed.

Lemma size_unvisited_visit (U : gset string) w file :
  file ∈ U -> file ∉ visited w ->
  size (U ∖ visited (visit file w)) < size (U ∖ visited w).
Proof.
  intros HU Hv. apply subset_size. apply strict_spec_alt. simpl.
  split; [set_solver|].
  intros Heq. assert (file ∈ U ∖ visited w) as Hin by set_solver.
  rewrite <- Heq in Hin. set_solver.
Qed.

(** ** Phase 1 *)

(** All files that [x] includes have been visited. *)
Definition explored (g : t) (w : walk) (x : string) : Prop :=
  forall c, c ∈ includes g x -> c ∈ visited w.

Lemma explored_mono g w w' x :
  visited w ⊆ visited w' -> explored g w x -> explored g w' x.
Proof. intros Hsub Hx c Hc. apply Hsub. by apply Hx. Qed.

(** What a call of [collectUpToTarget] on [file] guarantees.  The files it
    appends are reachable from [file]; when it answers [true] the target
    is the last of them, and each of them is fully explored or lies above
    the target; when it answers [false] all of them are fully explored and
    the target is not among them. *)
Record upToTarget_facts (g : t) (target file : string) (w : walk)
    (b : bool) (w' : walk) (new : list string) : Prop := {
  utf_extends : extends w w' new;
  utf_reach : forall x, x ∈ new -> reach g file x;
  utf_true : b = true -> exists pre, new = pre ++ [target];
  utf_above : forall x, x ∈ new -> explored g w' x \/ (b = true /\ reach g x target);
  utf_false : b = false -> target ∈ visited w' -> target ∈ visited w
}.

Definition upToTarget_post (g : t) (target file : string) (w : walk)
    (res : option (bool * walk)) : Prop :=
  exists b w' new,
    res = Some (b, w') /\ upToTarget_facts g target file w b w' new /\
    file ∈ visited w' /\
    (file ∉ visited w -> exists rest, new = file :: rest).

Definition upToTarget_loop_post (g : t) (target file : string)
    (incs : list string) (w : walk) (res : option (bool * walk)) : Prop :=
  exists b w' new,
    res = Some (b, w') /\ upToTarget_facts g target file w b w' new /\
    (b = false -> forall i, i ∈ incs -> i ∈ visited w').

Lemma collectUpToTarget_loop_spec g target file (U : gset string) w0 fuel :
  (forall i w, i ∈ U -> visited w0 ⊆ visited w ->
     size (U ∖ visited w) < fuel ->
     upToTarget_post g target i w (collectUpToTarget fuel g target i w)) ->
  size (U ∖ visited w0) < fuel ->
  forall incs w,
    (forall i, i ∈ incs -> i ∈ U /\ i ∈ includes g file) ->
    visited w0 ⊆ visited w ->
    upToTarget_loop_post g target file incs w
      (collectUpToTarget_loop (collectUpToTarget fuel g target) incs w).
Proof.
  intros Hrec Hsz incs. induction incs as [|i incs IH]; intros w Hincs Hsub.
  - exists false, w, []. simpl. split; [done|]. split; [|set_solver].
    split; [apply extends_refl|set_solver..|done].
  - simpl.
    destruct (Hincs i) as [HiU Hri]; [set_solver|].
    destruct (Hrec i w HiU Hsub)
      as (b & w1 & n1 & -> & [He1 Hr1 Ht1 Ha1 Hf1] & Hi1 & _).
    { assert (size (U ∖ visited w) <= size (U ∖ visited w0)); [|lia].
      apply subseteq_size. set_solver. }
    destruct b.
    + exists true, w1, n1. split; [done|]. split; [|done]. split; try done.
      * intros x Hx. eapply reach_trans; [by apply reach_edge|by apply Hr1].
    + destruct (IH w1) as (b & w2 & n2 & -> & [He2 Hr2 Ht2 Ha2 Hf2] & Hi2).
      { intros j Hj. apply Hincs. set_solver. }
      { apply extends_subseteq in He1. set_solver. }
      pose proof (extends_subseteq _ _ _ He2) as Hsub2.
      exists b, w2, (n1 ++ n2). split; [done|]. split.
      * split.
        -- by eapply extends_trans.
        -- intros x Hx. apply elem_of_app in Hx as [Hx|Hx]; [|by apply Hr2].
           eapply reach_trans; [by apply reach_edge|by apply Hr1].
        -- intros ->. destruct (Ht2 eq_refl) as [pre ->].
           exists (n1 ++ pre). by rewrite app_assoc.
        -- intros x Hx. apply elem_of_app in Hx as [Hx|Hx]; [|by apply Ha2].
           destruct (Ha1 x Hx) as [Hex|[? _]]; [|done].
           left. by eapply explored_mono.
        -- intros -> Ht. apply Hf1; [done|]. by apply Hf2.
      * intros -> j Hj. apply elem_of_cons in Hj as [->|Hj]; [|by apply Hi2].
        set_solver.
Qed.

Lemma collectUpToTarget_spec g target (U : gset string) :
  (forall f c, c ∈ includes g f -> c ∈ U) ->
  forall fuel file w,
    file ∈ U -> size (U ∖ visited w) < fuel ->
    upToTarget_post g target file w (collectUpToTarget fuel g target file w).
Proof.
  intros Hclosed fuel. induction fuel as [|fuel IH]; intros file w HU Hsz; [lia|].
  simpl. case_bool_decide as Hvis.
  - exists false, w, []. split; [done|]. split; [|done].
    split; [apply extends_refl|set_solver..|done].
  - pose proof (extends_visit w file Hvis) as Hext0.
    pose proof (size_unvisited_visit U w file HU Hvis) as Hlt.
    case_bool_decide as Htgt.
    + subst file. exists true, (visit target w), [target].
      split; [done|]. split; [|split; [simpl; set_solver|by exists []]].
      split; try done.
      * intros x Hx. apply list_elem_of_singleton in Hx as ->. apply reach_refl.
      * by exists [].
      * intros x Hx. apply list_elem_of_singleton in Hx as ->. right.
        split; [done|apply reach_refl].
    + destruct (collectUpToTarget_loop_spec g target file U (visit file w) fuel)
        with (incs := includes g file) (w := visit file w)
        as (b & w' & new & Hres & [He Hr Ht Ha Hf] & Hi); [| lia | |done|].
      * intros i w1 HiU Hsub Hsz1. by apply IH.
      * intros i Hi. split; [by eapply Hclosed|done].
      * pose proof (extends_subseteq _ _ _ He) as Hsub.
        exists b, w', ([file] ++ new). split; [done|]. split.
        -- split.
           ++ by eapply extends_trans.
           ++ intros x Hx. apply elem_of_app in Hx as [Hx|Hx]; [|by apply Hr].
              apply list_elem_of_singleton in Hx as ->. apply reach_refl.
           ++ intros Hb. destruct (Ht Hb) as [pre ->]. exists ([file] ++ pre).
              by rewrite app_assoc.
           ++ intros x Hx. apply elem_of_app in Hx as [Hx|Hx]; [|by apply Ha].
              apply list_elem_of_singleton in Hx as ->.
              destruct b.
              ** right. split; [done|]. destruct (Ht eq_refl) as [pre ->].
                 apply Hr. set_solver.
              ** left. intros c Hc. by apply Hi.
           ++ intros Hb Hin. specialize (Hf Hb Hin). simpl in Hf. set_solver.
        -- split; [simpl in Hsub; set_solver|by exists new].
Qed.

(** ** Phase 2 *)

Definition allIncludes_post (g : t) (file : string) (incs : list string)
    (w : walk) (res : option walk) : Prop :=
  exists w' new,
    res = Some w' /\ extends w w' new /\
    (forall x, x ∈ new -> reach g file x /\ explored g w' x) /\
    (forall i, i ∈ incs -> i ∈ visited w').

Lemma collectAllIncludes_loop_spec g file (U : gset string) fuel :
  (forall i w, size (U ∖ visited w) < fuel ->
     allIncludes_post g i (includes g i) w (collectAllIncludes fuel g i w)) ->
  forall incs w,
    (forall i, i ∈ incs -> i ∈ U /\ i ∈ includes g file) ->
    size (U ∖ visited w) <= fuel ->
    allIncludes_post g file incs w
      (collectAllIncludes_loop (collectAllIncludes fuel g) incs w).
Proof.
  intros Hrec incs. induction incs as [|i incs IH]; intros w Hincs Hsz.
  - exists w, []. simpl. split; [done|]. split; [apply extends_refl|set_solver].
  - simpl. destruct (Hincs i) as [HiU Hri]; [set_solver|].
    case_bool_decide as Hvis.
    + destruct (IH w) as (w' & new & -> & He & Hr & Hi); [|done|].
      { intros j Hj. apply Hincs. set_solver. }
      exists w', new. split; [done|]. split; [done|]. split; [done|].
      intros j Hj. apply elem_of_cons in Hj as [->|Hj]; [|by apply Hi].
      apply extends_subseteq in He. set_solver.
    + pose proof (extends_visit w i Hvis) as He0.
      pose proof (size_unvisited_visit U w i HiU Hvis) as Hlt.
      destruct (Hrec i (visit i w)) as (w1 & n1 & -> & He1 & Hr1 & Hi1); [lia|].
      pose proof (extends_subseteq _ _ _ He1) as Hsub1. simpl in Hsub1.
      destruct (IH w1) as (w2 & n2 & -> & He2 & Hr2 & Hi2).
      { intros j Hj. apply Hincs. set_solver. }
      { assert (size (U ∖ visited w1) <= size (U ∖ visited (visit i w))); [|lia].
        apply subseteq_size. set_solver. }
      pose proof (extends_subseteq _ _ _ He2) as Hsub2.
      exists w2, (([i] ++ n1) ++ n2). split; [done|].
      split; [eapply extends_trans; [eapply extends_trans|]; done|].
      split.
      * intros x Hx. apply elem_of_app in Hx as [Hx|Hx]; [|by apply Hr2].
        apply elem_of_app in Hx as [Hx|Hx].
        -- apply list_elem_of_singleton in Hx as ->.
           split; [by apply reach_edge|].
           intros c Hc. apply Hsub2. by apply Hi1.
        -- destruct (Hr1 x Hx) as [Hrx Hex].
           split; [eapply reach_trans; [by apply reach_edge|done]|].
           by eapply explored_mono.
      * intros j Hj. apply elem_of_cons in Hj as [->|Hj]; [|by apply Hi2].
        set_solver.
Qed.

Lemma collectAllIncludes_spec g (U : gset string) :
  (forall f c, c ∈ includes g f -> c ∈ U) ->
  forall fuel file w,
    size (U ∖ visited w) < fuel ->
    allIncludes_post g file (includes g file) w (collectAllIncludes fuel g file w).
Proof.
  intros Hclosed fuel. induction fuel as [|fuel IH]; intros file w Hsz; [lia|].
  simpl. apply (collectAllIncludes_loop_spec g file U fuel).
  - intros i w1 Hsz1. by apply IH.
  - intros i Hi. split; [by eapply Hclosed|done].
  - lia.
Qed.

(** ** findRootFile *)

(** The graph proper is not changed by a query; only the memo tables are. *)
Definition same_graph (g g1 : t) : Prop :=
  rootFiles g1 = rootFiles g /\ forwardIncludes g1 = forwardIncludes g /\
  reverseIncludes g1 = reverseIncludes g /\
  visibleFilesCache g1 = visibleFilesCache g.

(** The includers still to be put on the queue: those of unvisited files. *)
Definition pending (g : t) (vis : gset string) : nat :=
  map_fold (fun (_ : string) (parents : list string) n => length parents + n) 0
    (filter (fun kv => kv.1 ∉ vis) (reverseIncludes g)).

Lemma pending_visit g vis current :
  current ∉ vis ->
  length (includers g current) + pending g (vis ∪ {[current]}) = pending g vis.
Proof.
  intros Hvis. unfold pending, includers.
  destruct (reverseIncludes g !! current) as [l|] eqn:Hc; simpl.
  - rewrite (map_fold_delete_L _ _ current l
               (filter (fun kv => kv.1 ∉ vis) (reverseIncludes g))).
    + f_equal. f_equal. apply map_eq. intros k.
      destruct (decide (k = current)) as [->|Hne].
      * rewrite lookup_delete_eq. apply map_lookup_filter_None. right.
        intros x _. simpl. set_solver.
      * rewrite lookup_delete_ne by done.
        destruct (reverseIncludes g !! k) as [x|] eqn:Hk.
        -- destruct (decide (k ∈ vis)).
           ++ transitivity (@None (list string)).
              ** apply map_lookup_filter_None. right. intros ? _. simpl. set_solver.
              ** symmetry. apply map_lookup_filter_None. right. intros ? _. simpl. set_solver.
           ++ transitivity (Some x).
              ** apply map_lookup_filter_Some. split; [done|]. simpl. set_solver.
              ** symmetry. apply map_lookup_filter_Some. split; [done|]. simpl. set_solver.
        -- transitivity (@None (list string)).
           ++ apply map_lookup_filter_None. by left.
           ++ symmetry. apply map_lookup_filter_None. by left.
    + intros. lia.
    + apply map_lookup_filter_Some. split; [done|]. done.
  - f_equal. apply map_filter_ext. intros k x Hk. simpl.
    assert (k ≠ current) by congruence. set_solver.
Qed.

Lemma pending_empty g :
  pending g ∅ = map_fold (fun (_ : string) (parents : list string) n =>
                            length parents + n) 0 (reverseIncludes g).
Proof.
  unfold pending. f_equal. apply map_filter_id. intros. simpl. set_solver.
Qed.

Lemma length_filter_le {A} (P : A -> bool) l : length (List.filter P l) <= length l.
Proof. induction l as [|x l IH]; simpl; [done|]. destruct (P x); simpl; lia. Qed.

Lemma findRootFile_loop_terminates g fuel : forall queue vis,
  length queue + pending g vis < fuel ->
  exists r g1, findRootFile_loop fuel g queue vis = Some (r, g1) /\ same_graph g g1.
Proof.
  induction fuel as [|fuel IH]; intros queue vis Hsz; [lia|]. simpl.
  destruct queue as [|current queue1]; [by exists None, g|].
  simpl in Hsz. case_bool_decide as Hvis; [apply IH; lia|].
  case_bool_decide as Hroot; [by eexists _, _|].
  apply IH. rewrite length_app.
  pose proof (pending_visit g vis current Hvis).
  pose proof (length_filter_le
    (fun p => negb (bool_decide (p ∈ vis ∪ {[current]}))) (includers g current)).
  lia.
Qed.

Lemma findRootFile_terminates g filePath :
  exists r g1, findRootFile normalize g filePath = Some (r, g1) /\ same_graph g g1.
Proof.
  unfold findRootFile.
  destruct (fileToRoot g !! normalize filePath); [by eexists _, _|].
  case_bool_decide; [by eexists _, _|].
  apply findRootFile_loop_terminates. unfold findRootFile_fuel.
  rewrite pending_empty. simpl. lia.
Qed.

Lemma same_graph_includes g g1 f : same_graph g g1 -> includes g1 f = includes g f.
Proof. intros (_ & Hf & _). unfold includes. by rewrite Hf. Qed.

Lemma same_graph_reach g g1 a b : same_graph g g1 -> reach g1 a b -> reach g a b.
Proof.
  intros Hs H. induction H; [apply reach_refl|].
  eapply reach_step; [done|]. by rewrite <- (same_graph_includes g g1).
Qed.

Lemma same_graph_sym g g1 : same_graph g g1 -> same_graph g1 g.
Proof. intros (? & ? & ? & ?). by split; [|split; [|split]]. Qed.

(** ** The two phases as one depth-first walk *)

(** The array and the set that the closures share hold the same files. *)
Definition agree (w : walk) : Prop :=
  visited w = list_to_set (visibleFiles w).

Lemma agree_in w file : agree w -> file ∈ visited w <-> file ∈ visibleFiles w.
Proof. intros ->. apply elem_of_list_to_set. Qed.

Lemma agree_visit w file : agree w -> agree (visit file w).
Proof.
  unfold agree. simpl. intros ->. rewrite list_to_set_app_L. simpl.
  set_solver.
Qed.

Definition phase1 (g : t) (target file : string) (w : walk) (b : bool)
    (w' : walk) : Prop :=
  agree w' /\
  (b = true -> forall rest,
     preorder g (Some target) (file :: rest) (visibleFiles w) (visibleFiles w')) /\
  (b = false -> forall rest files,
     preorder g (Some target) rest (visibleFiles w') files ->
     preorder g (Some target) (file :: rest) (visibleFiles w) files).

Lemma collectUpToTarget_loop_preorder g target
    (rec : string -> walk -> option (bool * walk)) :
  (forall i w b w', rec i w = Some (b, w') -> agree w -> phase1 g target i w b w') ->
  forall incs w b w',
    collectUpToTarget_loop rec incs w = Some (b, w') -> agree w ->
    agree w' /\
    (b = true -> forall rest,
       preorder g (Some target) (incs ++ rest) (visibleFiles w) (visibleFiles w')) /\
    (b = false -> forall rest files,
       preorder g (Some target) rest (visibleFiles w') files ->
       preorder g (Some target) (incs ++ rest) (visibleFiles w) files).
Proof.
  intros Hrec incs. induction incs as [|i incs IH]; intros w b w'; simpl.
  - intros [= <- <-] Hw. split; [done|]. split; [done|]. by intros _ rest files.
  - destruct (rec i w) as [[[] w1]|] eqn:Hi; [| |done].
    + intros [= <- <-] Hw. destruct (Hrec _ _ _ _ Hi Hw) as (Hw1 & Ht & _).
      split; [done|]. split; [|done]. intros _ rest. by apply Ht.
    + intros Hloop Hw. destruct (Hrec _ _ _ _ Hi Hw) as (Hw1 & _ & Hf).
      destruct (IH _ _ _ Hloop Hw1) as (Hw' & Ht' & Hf').
      split; [done|]. split.
      * intros Hb rest. apply Hf; [done|]. by apply Ht'.
      * intros Hb rest files Hfiles. apply Hf; [done|]. by apply Hf'.
Qed.

Lemma collectUpToTarget_preorder g target fuel :
  forall file w b w',
    collectUpToTarget fuel g target file w = Some (b, w') -> agree w ->
    phase1 g target file w b w'.
Proof.
  induction fuel as [|fuel IH]; intros file w b w'; [done|].
  simpl. case_bool_decide as Hvis.
  - intros [= <- <-] Hw. split; [done|]. split; [done|].
    intros _ rest files Hfiles. apply preorder_skip; [|done].
    by apply agree_in.
  - assert (agree w -> file ∉ visibleFiles w) as Hnew.
    { intros Hw Hin. apply Hvis. by apply agree_in. }
    case_bool_decide as Htarget.
    + intros [= <- <-] Hw. split; [by apply agree_visit|]. split; [|done].
      intros _ rest. simpl. apply preorder_found; [by apply Hnew|by subst].
    + intros Hloop Hw.
      destruct (collectUpToTarget_loop_preorder g target _ IH _ _ _ _ Hloop
                  (agree_visit _ file Hw)) as (Hw' & Ht & Hf).
      split; [done|]. split.
      * intros Hb rest. apply preorder_enter; [by apply Hnew|congruence|].
        by apply Ht.
      * intros Hb rest files Hfiles.
        apply preorder_enter; [by apply Hnew|congruence|]. by apply Hf.
Qed.

Definition phase2 (g : t) (incs : list string) (w w' : walk) : Prop :=
  agree w' /\
  forall rest files,
    preorder g None rest (visibleFiles w') files ->
    preorder g None (incs ++ rest) (visibleFiles w) files.

Lemma collectAllIncludes_loop_preorder g (rec : string -> walk -> option walk) :
  (forall i w w', rec i w = Some w' -> agree w -> phase2 g (includes g i) w w') ->
  forall incs w w',
    collectAllIncludes_loop rec incs w = Some w' -> agree w ->
    phase2 g incs w w'.
Proof.
  intros Hrec incs. induction incs as [|i incs IH]; intros w w'; simpl.
  - intros [= <-] Hw. split; [done|]. by intros rest files.
  - case_bool_decide as Hvis.
    + intros Hloop Hw. destruct (IH _ _ Hloop Hw) as (Hw' & Hrest).
      split; [done|]. intros rest files Hfiles.
      apply preorder_skip; [by apply agree_in|]. by apply Hrest.
    + destruct (rec i (visit i w)) as [w1|] eqn:Hi; [|done].
      intros Hloop Hw.
      destruct (Hrec _ _ _ Hi (agree_visit _ i Hw)) as (Hw1 & Hinner).
      destruct (IH _ _ Hloop Hw1) as (Hw' & Hrest).
      split; [done|]. intros rest files Hfiles.
      apply preorder_enter; [|done|].
      * intros Hin. apply Hvis. by apply agree_in.
      * apply Hinner. by apply Hrest.
Qed.

Lemma collectAllIncludes_preorder g fuel :
  forall file w w',
    collectAllIncludes fuel g file w = Some w' -> agree w ->
    phase2 g (includes g file) w w'.
Proof.
  induction fuel as [|fuel IH]; intros file w w'; [done|].
  simpl. intros Hloop Hw.
  by apply (collectAllIncludes_loop_preorder g _ IH _ _ _ Hloop).
Qed.

(** The walk is a function of the graph: [preorder] relates a start to
    one list only. *)
Lemma preorder_unique g target pending seen files1 :
  preorder g target pending seen files1 ->
  forall files2, preorder g target pending seen files2 -> files1 = files2.
Proof.
  induction 1 as [seen|file pending seen files Hin _ IH
                  |file pending seen Hnew Ht|file pending seen files Hnew Ht _ IH];
    intros files2 H2; inversion H2; subst; try done; auto.
Qed.

Lemma preorder_same_includes g g1 target pending seen files :
  (forall f, includes g1 f = includes g f) ->
  preorder g1 target pending seen files -> preorder g target pending seen files.
Proof.
  intros Hsame. induction 1 as [seen|file pending seen files Hin _ IH
                  |file pending seen Hnew Ht|file pending seen files Hnew Ht _ IH].
  - constructor.
  - by apply preorder_skip.
  - by apply preorder_found.
  - apply preorder_enter; [done|done|]. by rewrite <- Hsame.
Qed.

(** ** getVisibleFiles *)

(** What the two phases yield: [pre] is the walk from the root, [post]
    what the target's includes add. *)
Record visible_facts (g : t) (root target : string)
    (pre post : list string) : Prop := {
  vf_nodup : NoDup (pre ++ post);
  vf_root : head pre = Some root;
  vf_pre_reach : forall x, x ∈ pre -> reach g root x;
  vf_target : reach g root target -> last pre = Some target;
  vf_post_reach : forall x, x ∈ post -> reach g target x;
  vf_includes : forall x, x ∈ includes g target -> x ∈ pre ++ post;
  vf_transitive :
    reach g root target ->
    (forall x, reach g target x -> reach g x target -> x = target) ->
    forall x, reach g target x -> x ∈ pre ++ post;
  vf_walk : preorder g (Some target) [root] [] pre;
  vf_continue : preorder g None (includes g target) pre (pre ++ post)
}.

Lemma walks_spec g root target :
  exists b w1 w2 pre post,
    collectUpToTarget (walk_fuel g) g target root
      {| visibleFiles := []; visited := ∅ |} = Some (b, w1) /\
    collectAllIncludes (walk_fuel g) g target w1 = Some w2 /\
    visibleFiles w2 = pre ++ post /\
    visible_facts g root target pre post.
Proof.
  set (w0 := {| visibleFiles := []; visited := ∅ |}).
  set (U := known_files g ∪ {[root]}).
  assert (HU : forall f c, c ∈ includes g f -> c ∈ U).
  { intros f c Hc. apply elem_of_union_l. by eapply includes_known. }
  assert (HszU : size U < walk_fuel g).
  { unfold walk_fuel, U. rewrite size_union_alt.
    assert (size (({[root]} : gset string) ∖ known_files g)
            <= size ({[root]} : gset string)) as Hle
      by (apply subseteq_size; set_solver).
    rewrite size_singleton in Hle. lia. }
  destruct (collectUpToTarget_spec g target U HU (walk_fuel g) root w0)
    as (b & w1 & pre & Hp1 & [He1 Hr1 Ht1 Ha1 Hf1] & Hroot & Hhead).
  { set_solver. }
  { assert (size (U ∖ visited w0) <= size U); [|lia]. apply subseteq_size. set_solver. }
  destruct (collectAllIncludes_spec g U HU (walk_fuel g) target w1)
    as (w2 & post & Hp2 & He2 & Hr2 & Hi2).
  { assert (size (U ∖ visited w1) <= size U); [|lia]. apply subseteq_size. set_solver. }
  exists b, w1, w2, pre, post. split; [done|]. split; [done|].
  assert (Hagree0 : agree w0) by done.
  destruct (collectUpToTarget_preorder g target _ _ _ _ _ Hp1 Hagree0)
    as (Hagree1 & Hfound1 & Hmissed1).
  destruct (collectAllIncludes_preorder g _ _ _ _ Hp2 Hagree1)
    as (_ & Hrest2).
  assert (Hok0 : walk_ok w0) by (split; [done|constructor]).
  pose proof (walk_ok_extends _ _ _ Hok0 He1) as [Hs1 Hd1].
  pose proof (walk_ok_extends _ _ _ (conj Hs1 Hd1) He2) as [Hs2 Hd2].
  destruct He1 as (Hv1 & Hvs1 & _ & _). destruct He2 as (Hv2 & Hvs2 & _ & _).
  simpl in Hv1. rewrite Hv1 in *.
  assert (Hin1 : forall x, x ∈ visited w1 <-> x ∈ pre).
  { intros x. rewrite Hs1. apply elem_of_list_to_set. }
  assert (Hin2 : forall x, x ∈ visited w2 <-> x ∈ pre ++ post).
  { intros x. rewrite Hs2, Hv2. apply elem_of_list_to_set. }
  assert (Hfound : reach g root target -> b = true).
  { intros Hreach. destruct b; [done|]. exfalso.
    assert (target ∈ visited w1) as Hin.
    { apply (reach_invariant g root (fun x => x ∈ visited w1)); [done| |done].
      intros y c _ IH Hc.
      apply Hin1 in IH. destruct (Ha1 y IH) as [Hex|[? _]]; [|done].
      by apply Hex. }
    specialize (Hf1 eq_refl Hin). simpl in Hf1. set_solver. }
  split; [done|]. split.
  - by rewrite <- Hv2.
  - destruct Hhead as [rest ->]; [simpl; set_solver|]. done.
  - done.
  - intros Hreach. destruct (Ht1 (Hfound Hreach)) as [p ->]. apply last_snoc.
  - intros x Hx. by apply Hr2.
  - intros x Hx. apply Hin2. by apply Hi2.
  - intros Hreach Hacyc x Hx. apply Hin2.
    apply (reach_invariant g target (fun x => x ∈ visited w2)); [| |done].
    + rewrite Hvs2. apply elem_of_union_l. apply Hin1.
      destruct (Ht1 (Hfound Hreach)) as [p ->]. set_solver.
    + intros y c Hy IH Hc. apply Hin2 in IH. apply elem_of_app in IH as [Hpre|Hpost].
      * destruct (Ha1 y Hpre) as [Hex|[_ Hyt]].
        -- rewrite Hvs2. apply elem_of_union_l. by apply Hex.
        -- assert (y = target) as -> by (by apply Hacyc). by apply Hi2.
      * destruct (Hr2 y Hpost) as [_ Hex]. by apply Hex.
  - destruct b.
    + by apply (Hfound1 eq_refl []).
    + apply (Hmissed1 eq_refl [] pre). constructor.
  - specialize (Hrest2 [] (pre ++ post)). rewrite app_nil_r in Hrest2.
    apply Hrest2. rewrite Hv2. constructor.
Qed.

Lemma visible_facts_same_graph g g1 root target pre post :
  same_graph g g1 ->
  visible_facts g1 root target pre post -> visible_facts g root target pre post.
Proof.
  intros Hs [H1 H2 H3 H4 H5 H6 H7 H8 H9].
  assert (Hr : forall a b, reach g a b <-> reach g1 a b).
  { intros a b. split; [apply same_graph_reach, same_graph_sym, Hs
                        |apply same_graph_reach, Hs]. }
  split; try done.
  - intros x Hx. apply Hr. by apply H3.
  - intros Hx. apply H4. by apply Hr.
  - intros x Hx. apply Hr. by apply H5.
  - intros x Hx. apply H6. by rewrite (same_graph_includes g g1).
  - intros Hx Hacyc x Hrx. apply H7; [by apply Hr| |by apply Hr].
    intros y Hy1 Hy2. apply Hacyc; by apply Hr.
  - eapply preorder_same_includes; [|exact H8].
    intros f. by apply same_graph_includes.
  - rewrite <- (same_graph_includes g g1) by done.
    eapply preorder_same_includes; [|exact H9].
    intros f. by apply same_graph_includes.
Qed.

(** [getVisibleFiles] always returns. *)
Lemma getVisibleFiles_total g filePath :
  exists files g2, getVisibleFiles normalize g filePath = Some (files, g2).
Proof.
  unfold getVisibleFiles.
  destruct (visibleFilesCache g !! normalize filePath); [by eexists _, _|].
  destruct (findRootFile_terminates g (normalize filePath))
    as ([root|] & g1 & -> & Hs); [|by eexists _, _].
  destruct (walks_spec g1 root (normalize filePath))
    as (b & w1 & w2 & pre & post & -> & -> & _). by eexists _, _.
Qed.

(** C3, as the code has it.  When the graph resolves [root] for the
    queried file and no answer is cached, [getVisibleFiles] returns
    [pre ++ post] without duplicates, where [pre] is what the depth-first
    walk from the root collects, in include order, first occurrence
    winning, until it has collected the target ([vf_walk]: every file the
    walk enters on the way, those of earlier sibling branches included,
    and nothing else; so [pre] starts with the root, ends with the target
    when the root reaches it, and holds files reachable from the root
    only), and [post] is what the same walk, continued from the includes
    of the target, collects after [pre] ([vf_continue]: files the target
    includes, directly or transitively; all of them when no include cycle
    passes through the target).  The two walks determine [pre] and
    [post].  Hence with [R] including [A], [A] including [B], and [S] not
    reachable from [R], the list holds [R], [A], [B] and not [S]. *)
Theorem getVisibleFiles_walk_then_includes g filePath root g1 :
  visibleFilesCache g !! normalize filePath = None ->
  findRootFile normalize g (normalize filePath) = Some (Some root, g1) ->
  exists pre post g2,
    getVisibleFiles normalize g filePath = Some (pre ++ post, g2) /\
    visible_facts g root (normalize filePath) pre post /\
    (forall pre' post',
        preorder g (Some (normalize filePath)) [root] [] pre' ->
        preorder g None (includes g (normalize filePath)) pre' (pre' ++ post') ->
        pre' = pre /\ post' = post) /\
    (forall B S,
        normalize filePath ∈ includes g root ->
        B ∈ includes g (normalize filePath) ->
        ~ reach g root S ->
        root ∈ pre ++ post /\ normalize filePath ∈ pre ++ post /\
        B ∈ pre ++ post /\ S ∉ pre ++ post).
Proof.
  intros Hcache Hroot.
  destruct (findRootFile_terminates g (normalize filePath)) as (r & g1' & Hr & Hs).
  rewrite Hroot in Hr. injection Hr as <- <-.
  destruct (walks_spec g1 root (normalize filePath))
    as (b & w1 & w2 & pre & post & Hp1 & Hp2 & Hv & Hfacts).
  apply (visible_facts_same_graph g g1) in Hfacts; [|done].
  exists pre, post. eexists. split; [|split; [done|split]].
  - unfold getVisibleFiles. rewrite Hcache, Hroot, Hp1, Hp2, Hv. reflexivity.
  - intros pre' post' Hwalk Hcontinue.
    pose proof (preorder_unique _ _ _ _ _ Hwalk _ (vf_walk _ _ _ _ _ Hfacts))
      as ->.
    split; [done|].
    pose proof (preorder_unique _ _ _ _ _ Hcontinue _
                  (vf_continue _ _ _ _ _ Hfacts)) as Heq.
    by apply app_inv_head in Heq.
  - intros B S HA HB HS. destruct Hfacts as [H1 H2 H3 H4 H5 H6 H7 _ _].
    assert (Hreach : reach g root (normalize filePath)) by (by apply reach_edge).
    split; [|split; [|split]].
    + destruct pre as [|x pre]; [done|]. injection H2 as ->. set_solver.
    + specialize (H4 Hreach). apply last_Some in H4 as [p ->]. set_solver.
    + by apply H6.
    + intros Hin. apply elem_of_app in Hin as [Hin|Hin].
      * by apply HS, H3.
      * apply HS. eapply reach_trans; [done|]. by apply H5.
Qed.

End IncludeGraphFacts.

Section IncludeGraphExamples.
Import IncludeGraph Examples.

Lemma graph_RXABS_from_X y : reach graph_RXABS "X" y -> y = "X".
Proof.
  apply (reach_invariant graph_RXABS "X" (fun y => y = "X")); [done|].
  intros z c _ -> Hc. vm_compute in Hc. by apply not_elem_of_nil in Hc.
Qed.

Lemma graph_RXABS_from_A y : reach graph_RXABS "A" y -> y = "A" \/ y = "B".
Proof.
  apply (reach_invariant graph_RXABS "A" (fun y => y = "A" \/ y = "B")); [by left|].
  intros z c _ [-> | ->] Hc; vm_compute in Hc.
  - apply list_elem_of_singleton in Hc. by right.
  - by apply not_elem_of_nil in Hc.
Qed.

(** C3 as stated fails: with [R] including [X] before [A], the files
    visible from [A] are [R], [X], [A], [B]; [X] is neither on a path from
    the root [R] to [A] nor included by [A]. *)
Lemma getVisibleFiles_not_path_and_includes :
  exists files g2,
    getVisibleFiles (fun p => p) graph_RXABS "A" = Some (files, g2) /\
    files = ["R"; "X"; "A"; "B"] /\
    ~ path_and_includes graph_RXABS "R" "A" files.
Proof.
  eexists _, _. split; [vm_compute; reflexivity|]. split; [reflexivity|].
  intros Hclaim. destruct (Hclaim "X") as [Hin _].
  destruct Hin as [[_ HXA]|HAX]; [set_solver| |].
  - by apply graph_RXABS_from_X in HXA.
  - by apply graph_RXABS_from_A in HAX as [?|?].
Qed.

Lemma graph_RXABS_from_R y :
  reach graph_RXABS "R" y -> y = "R" \/ y = "X" \/ y = "A" \/ y = "B".
Proof.
  apply (reach_invariant graph_RXABS "R"
           (fun y => y = "R" \/ y = "X" \/ y = "A" \/ y = "B")); [by left|].
  intros z c _ [-> | [-> | [-> | ->]]] Hc; vm_compute in Hc.
  - apply elem_of_cons in Hc as [->|Hc]; [tauto|].
    apply list_elem_of_singleton in Hc as ->. tauto.
  - by apply not_elem_of_nil in Hc.
  - apply list_elem_of_singleton in Hc as ->. tauto.
  - by apply not_elem_of_nil in Hc.
Qed.

(** The walk of [graph_RXABS] from [R] up to [A], and its continuation
    from the includes of [A]. *)
Lemma graph_RXABS_walk :
  preorder graph_RXABS (Some "A") ["R"] [] ["R"; "X"; "A"] /\
  preorder graph_RXABS None (includes graph_RXABS "A") ["R"; "X"; "A"]
    (["R"; "X"; "A"] ++ ["B"]).
Proof.
  split.
  - apply preorder_enter; [set_solver|done|].
    change (preorder graph_RXABS (Some "A") ["X"; "A"] ["R"] ["R"; "X"; "A"]).
    apply preorder_enter; [set_solver|done|].
    change (preorder graph_RXABS (Some "A") ["A"] ["R"; "X"] ["R"; "X"; "A"]).
    apply (preorder_found graph_RXABS (Some "A") "A" [] ["R"; "X"]);
      [set_solver|done].
  - change (preorder graph_RXABS None ["B"] ["R"; "X"; "A"] ["R"; "X"; "A"; "B"]).
    apply preorder_enter; [set_solver|done|].
    change (preorder graph_RXABS None [] ["R"; "X"; "A"; "B"]
              ["R"; "X"; "A"; "B"]).
    constructor.
Qed.

Lemma getVisibleFiles_walk_then_includes_witness :
  exists g2,
    getVisibleFiles (fun p => p) graph_RXABS "A"
    = Some (["R"; "X"; "A"] ++ ["B"], g2) /\
    visible_facts graph_RXABS "R" "A" ["R"; "X"; "A"] ["B"] /\
    "R" ∈ ["R"; "X"; "A"] ++ ["B"] /\ "A" ∈ ["R"; "X"; "A"] ++ ["B"] /\
    "B" ∈ ["R"; "X"; "A"] ++ ["B"] /\ "S" ∉ ["R"; "X"; "A"] ++ ["B"].
Proof.
  edestruct (getVisibleFiles_walk_then_includes (fun p => p) graph_RXABS "A" "R")
    as (pre & post & g2 & Hres & Hfacts & Hunique & Hscenario).
  - reflexivity.
  - vm_compute. reflexivity.
  - destruct (Hunique ["R"; "X"; "A"] ["B"]
                (proj1 graph_RXABS_walk) (proj2 graph_RXABS_walk)) as [<- <-].
    exists g2. split; [exact Hres|]. split; [exact Hfacts|].
    apply (Hscenario "B" "S").
    + vm_compute. apply list_elem_of_further, list_elem_of_here.
    + vm_compute. apply list_elem_of_here.
    + intros H. apply graph_RXABS_from_R in H.
      destruct H as [H|[H|[H|H]]]; discriminate H.
Defined.

(** The list of the claim as stated, the path [R], [A] and the include
    [B], is not what the walks give: it leaves out [X]. *)
Lemma path_only_is_not_the_walk :
  ~ visible_facts graph_RXABS "R" "A" ["R"; "A"] ["B"].
Proof.
  intros Hfacts.
  pose proof (preorder_unique _ _ _ _ _ (vf_walk _ _ _ _ _ Hfacts) _
                (proj1 graph_RXABS_walk)) as Heq.
  discriminate Heq.
Qed.

End IncludeGraphExamples.
(* ===================================================================== *)
(** * includeGraph.ts: the root of a file, and repeated queries *)
(* ===================================================================== *)

Section IncludeGraphQueries.
Import IncludeGraph.

Variable normalize : string -> string.

(** [up_reach g a b]: [b] is [a] or includes [a], directly or
    transitively, by the edges of [reverseIncludes]. *)
Inductive up_reach (g : t) (a : string) : string -> Prop :=
| up_reach_refl : up_reach g a a
| up_reach_step b c : up_reach g a b -> c ∈ includers g b -> up_reach g a c.

Definition is_root (g : t) (file : string) : Prop := is_Some (rootFiles g !! file).

(** What holds of [queue] and [visited] at each iteration of the loop of
    [findRootFile] started at [start]. *)
Record searching (g : t) (start : string) (queue : list string)
    (vis : gset string) : Prop := {
  searching_queue : forall x, x ∈ queue -> up_reach g start x;
  searching_visited : forall x, x ∈ vis -> up_reach g start x /\ ~ is_root g x;
  searching_closed :
    forall v p, v ∈ vis -> p ∈ includers g v -> p ∈ vis \/ p ∈ queue;
  searching_start : start ∈ vis \/ head queue = Some start
}.

Lemma foldr_insert_lookup (files : list string) (root : string)
    (m : gmap string string) k :
  foldr (fun file acc => <[file := root]> acc) m files !! k
  = if bool_decide (k ∈ files) then Some root else m !! k.
Proof.
  induction files as [|f files IH]; simpl; [done|].
  destruct (decide (f = k)) as [->|Hne].
  - rewrite lookup_insert_eq. by rewrite bool_decide_eq_true_2 by set_solver.
  - rewrite lookup_insert_ne by done. rewrite IH.
    repeat case_bool_decide; set_solver.
Qed.

Lemma elem_of_List_filter {A} (p : A -> bool) (l : list A) x :
  x ∈ List.filter p l <-> x ∈ l /\ p x = true.
Proof. rewrite !list_elem_of_In. apply List.filter_In. Qed.

Lemma findRootFile_loop_searches g start fuel :
  forall queue vis r g',
    searching g start queue vis ->
    findRootFile_loop fuel g queue vis = Some (r, g') ->
    match r with
    | Some root =>
        is_root g root /\ up_reach g start root /\
        fileToRoot g' !! start = Some root
    | None => g' = g /\ forall x, up_reach g start x -> ~ is_root g x
    end.
Proof.
  induction fuel as [|fuel IH]; intros queue vis r g' Hinv; simpl; [done|].
  destruct Hinv as [Hqueue Hvisited Hclosed Hstart].
  destruct queue as [|current queue1].
  - intros [= <- <-]. split; [done|].
    destruct Hstart as [Hstart|?]; [|done].
    intros x Hx. apply Hvisited.
    induction Hx as [|b c _ IHb Hc]; [done|].
    destruct (Hclosed b c IHb Hc) as [?|Hin]; [done|]. set_solver.
  - case_bool_decide as Hvis.
    + apply IH. split.
      * intros x Hx. apply Hqueue. set_solver.
      * done.
      * intros v p Hv Hp. destruct (Hclosed v p Hv Hp) as [?|Hin]; [by left|].
        apply elem_of_cons in Hin as [->|?]; auto.
      * left. destruct Hstart as [?|Hhead]; [done|].
        simpl in Hhead. by injection Hhead as ->.
    + assert (start ∈ vis ∪ {[current]}) as Hstart1.
      { destruct Hstart as [?|Hhead]; [set_solver|].
        simpl in Hhead. injection Hhead as ->. set_solver. }
      assert (up_reach g start current) as Hcurrent by (apply Hqueue; set_solver).
      case_bool_decide as Hroot.
      * intros [= <- <-]. split; [done|]. split; [done|]. simpl.
        rewrite foldr_insert_lookup. rewrite bool_decide_eq_true_2; [done|].
        by apply elem_of_elements.
      * apply IH. split.
        -- intros x Hx. apply elem_of_app in Hx as [Hx|Hx].
           ++ apply Hqueue. set_solver.
           ++ apply elem_of_List_filter in Hx as [Hx _].
              by eapply up_reach_step.
        -- intros x Hx. apply elem_of_union in Hx as [Hx|Hx]; [by apply Hvisited|].
           apply elem_of_singleton in Hx as ->. done.
        -- intros v p Hv Hp. apply elem_of_union in Hv as [Hv|Hv].
           ++ destruct (Hclosed v p Hv Hp) as [?|Hin]; [left; set_solver|].
              apply elem_of_cons in Hin as [->|?]; [left; set_solver|].
              right. set_solver.
           ++ apply elem_of_singleton in Hv as ->.
              destruct (decide (p ∈ vis ∪ {[current]})) as [?|Hnew]; [by left|].
              right. apply elem_of_app. right.
              apply elem_of_List_filter. split; [done|].
              by rewrite bool_decide_eq_false_2.
        -- by left.
Qed.

Lemma findRootFile_answer (g : t) (filePath : string) :
  exists r g',
    findRootFile normalize g filePath = Some (r, g') /\
    same_graph g g' /\
    (fileToRoot g !! normalize filePath = None ->
       match r with
       | Some root =>
           is_root g root /\ up_reach g (normalize filePath) root /\
           fileToRoot g' !! normalize filePath = Some root
       | None =>
           g' = g /\
           forall x, up_reach g (normalize filePath) x -> ~ is_root g x
       end) /\
    (forall root, fileToRoot g !! normalize filePath = Some root ->
       r = Some root /\ g' = g).
Proof.
  destruct (findRootFile_terminates normalize g filePath) as (r & g' & Hrun & Hsame).
  exists r, g'. split; [done|]. split; [done|]. split.
  - intros Hnone. unfold findRootFile in Hrun. rewrite Hnone in Hrun.
    case_bool_decide as Hroot.
    + injection Hrun as <- <-. split; [done|]. split; [constructor|].
      simpl. by rewrite lookup_insert_eq.
    + eapply findRootFile_loop_searches; [|exact Hrun]. split.
      * intros x Hx. apply list_elem_of_singleton in Hx as ->. constructor.
      * set_solver.
      * set_solver.
      * by right.
  - intros root Hsome. unfold findRootFile in Hrun. rewrite Hsome in Hrun.
    by injection Hrun as <- <-.
Qed.

Lemma findRootFile_nothing_found (g : t) (filePath : string) g' :
  findRootFile normalize g filePath = Some (None, g') -> g' = g.
Proof.
  intros Hrun.
  destruct (findRootFile_answer g filePath) as (r & g1 & Hrun' & _ & Hfresh & Hcached).
  rewrite Hrun in Hrun'. injection Hrun' as <- <-.
  destruct (fileToRoot g !! normalize filePath) as [root|] eqn:Hmemo.
  - by destruct (Hcached root eq_refl).
  - by destruct (Hfresh eq_refl).
Qed.

(** X13. [findRootFile] always returns, and changes nothing but its
    memo of roots.  When no root is remembered for the file, the answer
    is a root file that is the file itself or includes it, directly or
    transitively, and it is then remembered for the file; and there is
    no answer exactly when no such root file exists, in which case
    nothing at all is changed.  A remembered root is returned as it is,
    so asking again gives the same answer and changes nothing. *)
Theorem findRootFile_finds_including_root (g : t) (filePath : string) :
  exists r g',
    findRootFile normalize g filePath = Some (r, g') /\
    same_graph g g' /\
    (fileToRoot g !! normalize filePath = None ->
       match r with
       | Some root =>
           is_root g root /\ up_reach g (normalize filePath) root /\
           fileToRoot g' !! normalize filePath = Some root
       | None =>
           g' = g /\
           forall x, up_reach g (normalize filePath) x -> ~ is_root g x
       end) /\
    (forall root, fileToRoot g !! normalize filePath = Some root ->
       r = Some root /\ g' = g) /\
    findRootFile normalize g' filePath = Some (r, g').
Proof.
  destruct (findRootFile_answer g filePath)
    as (r & g' & Hrun & Hsame & Hfresh & Hcached).
  exists r, g'. do 4 (split; [done|]).
  destruct (fileToRoot g !! normalize filePath) as [root|] eqn:Hmemo.
  - destruct (Hcached root eq_refl) as [-> ->]. unfold findRootFile.
    by rewrite Hmemo.
  - specialize (Hfresh eq_refl). destruct r as [root|].
    + destruct Hfresh as (_ & _ & Hmemo'). unfold findRootFile.
      by rewrite Hmemo'.
    + destruct Hfresh as [-> _]. done.
Qed.

(** X14. [getVisibleFiles] always returns, keeps the graph and every
    list it has remembered, and asked again for the same file gives the
    same list and changes nothing more. *)
Theorem getVisibleFiles_repeatable (g : t) (filePath : string) :
  exists files g',
    getVisibleFiles normalize g filePath = Some (files, g') /\
    getVisibleFiles normalize g' filePath = Some (files, g') /\
    rootFiles g' = rootFiles g /\
    forwardIncludes g' = forwardIncludes g /\
    reverseIncludes g' = reverseIncludes g /\
    (forall file cached,
       visibleFilesCache g !! file = Some cached ->
       visibleFilesCache g' !! file = Some cached).
Proof.
  destruct (getVisibleFiles_total normalize g filePath) as (files & g' & Hrun).
  exists files, g'. split; [done|].
  unfold getVisibleFiles in *.
  destruct (visibleFilesCache g !! normalize filePath) as [cached|] eqn:Hcache.
  { injection Hrun as <- <-. by rewrite Hcache. }
  destruct (findRootFile normalize g (normalize filePath))
    as [[[root|] g1]|] eqn:Hroot; [| |done].
  - destruct (findRootFile_terminates normalize g (normalize filePath))
      as (r & g1' & Hroot' & Hr & Hf & Hv & Hc).
    rewrite Hroot in Hroot'. injection Hroot' as <- <-.
    destruct (collectUpToTarget _ _ _ _ _) as [[b w1]|]; [|done].
    destruct (collectAllIncludes _ _ _ _) as [w2|]; [|done].
    injection Hrun as <- <-. simpl. rewrite lookup_insert_eq.
    do 4 (split; [done|]).
    intros file cached Hfile. rewrite lookup_insert_ne by congruence.
    by rewrite Hc.
  - injection Hrun as <- <-.
    pose proof (findRootFile_nothing_found _ _ _ Hroot) as ->.
    rewrite Hcache, Hroot. repeat split; auto.
Qed.

End IncludeGraphQueries.

Section IncludeGraphQueryExamples.
Import IncludeGraph.

(** [F] is included by [A] and by the root file [B]; nothing includes
    [A]. *)
Definition graph_FAB : t :=
  {| rootFiles := {["B" := []]};
     forwardIncludes := {["A" := ["F"]; "B" := ["F"]]};
     reverseIncludes := {["F" := ["A"; "B"]]};
     fileToRoot := ∅;
     visibleFilesCache := ∅ |}.

(** The search from [F] meets [A] before the root [B] and remembers [B]
    for every file it has met: asked before, [A] has no root; asked
    afterwards, its root is [B]. *)
Lemma findRootFile_remembers_for_visited :
  fst <$> findRootFile id graph_FAB "A" = Some None /\
  match findRootFile id graph_FAB "F" with
  | Some (r, g') =>
      r = Some "B" /\ fst <$> findRootFile id g' "A" = Some (Some "B")
  | None => False
  end.
Proof. vm_compute. repeat split. Qed.

End IncludeGraphQueryExamples.
(* ===================================================================== *)
(** * Facts about the symbol table *)
(* ===================================================================== *)

Section SymbolTableFacts.
Import SymbolTable.

Definition count_uri (uri : string) (syms : list Symbol) : nat :=
  length (List.filter (fun s => bool_decide (sym_uri s = uri)) syms).

(** The symbols of a file that were filed in the global index under [n],
    and those filed under [n] in the scope [sc]. *)
Definition filed_global (n : string) (s : Symbol) : bool :=
  bool_decide (truthy_scope s = None /\ sym_name s = n).

Definition filed_scoped (sc n : string) (s : Symbol) : bool :=
  bool_decide (truthy_scope s = Some sc /\ sym_name s = n).

Definition scoped_lookup (m : gmap string (gmap string (list Symbol)))
    (sc n : string) : option (list Symbol) :=
  m !! sc ≫= (fun scopeMap => scopeMap !! n).

(** The invariant that makes [clearFile] exact: for every file, each index
    list holds as many symbols of that file as the file's own list has
    symbols filed there. *)
Definition indexed (st : t) : Prop :=
  forall uri,
    let fs := default [] (fileSymbols st !! uri) in
    (forall n, length (List.filter (filed_global n) fs)
               = count_uri uri (default [] (globalSymbols st !! n))) /\
    (forall sc n, length (List.filter (filed_scoped sc n) fs)
                  = count_uri uri (default [] (scoped_lookup (scopedSymbols st) sc n))).

Lemma splice_first_skip uri s l :
  sym_uri s ≠ uri -> splice_first uri (s :: l) = s :: splice_first uri l.
Proof. intros H. simpl. by destruct (decide (sym_uri s = uri)). Qed.

Lemma iter_splice_first_skip uri s l k :
  sym_uri s ≠ uri ->
  Nat.iter k (splice_first uri) (s :: l) = s :: Nat.iter k (splice_first uri) l.
Proof.
  intros H. induction k as [|k IH]; simpl; [done|].
  by rewrite IH, splice_first_skip.
Qed.

(** Removing the first symbol of the file as many times as the list holds
    symbols of the file leaves exactly the other files' symbols, in their
    order. *)
Lemma iter_splice_first uri l :
  Nat.iter (count_uri uri l) (splice_first uri) l = other_files uri l.
Proof.
  unfold count_uri, other_files. induction l as [|s l IH]; simpl; [done|].
  case_bool_decide as Hs; simpl.
  - rewrite <- Nat.iter_swap. simpl.
    destruct (decide (sym_uri s = uri)); [done|contradiction].
  - rewrite iter_splice_first_skip by done. by rewrite IH.
Qed.

Lemma count_uri_other_files uri uri' l :
  count_uri uri' (other_files uri l)
  = if decide (uri' = uri) then 0 else count_uri uri' l.
Proof.
  unfold count_uri, other_files.
  destruct (decide (uri' = uri)) as [->|Hne];
    induction l as [|s l IH]; simpl; try done;
    repeat (case_bool_decide; simpl); try congruence; lia.
Qed.

Lemma count_uri_app uri l1 l2 :
  count_uri uri (l1 ++ l2) = count_uri uri l1 + count_uri uri l2.
Proof. unfold count_uri. by rewrite List.filter_app, length_app. Qed.

Lemma scoped_lookup_alter f sc' n' m sc n :
  scoped_lookup (alter (alter f n') sc' m) sc n
  = if decide (sc' = sc /\ n' = n) then f <$> scoped_lookup m sc n
    else scoped_lookup m sc n.
Proof.
  unfold scoped_lookup.
  destruct (decide (sc' = sc)) as [->|Hsc].
  - rewrite lookup_alter_eq. destruct (m !! sc) as [scopeMap|]; simpl.
    + destruct (decide (n' = n)) as [->|Hn].
      * rewrite lookup_alter_eq. by rewrite decide_True.
      * rewrite lookup_alter_ne by done. rewrite decide_False; [done|tauto].
    + by destruct (decide (sc = sc /\ n' = n)).
  - rewrite lookup_alter_ne by done. rewrite decide_False; [done|tauto].
Qed.

(** The effect of the loop of [clearFile] on each index list. *)
Lemma clearFile_loop_global uri fs : forall st n,
  globalSymbols (foldl (clearFile_symbol uri) st fs) !! n
  = Nat.iter (length (List.filter (filed_global n) fs)) (splice_first uri)
      <$> globalSymbols st !! n.
Proof.
  induction fs as [|s fs IH]; intros st n; simpl.
  - by destruct (globalSymbols st !! n).
  - rewrite IH. unfold clearFile_symbol, filed_global at 2.
    destruct (truthy_scope s) as [sc|] eqn:Hsc; simpl.
    + done.
    + destruct (decide (sym_name s = n)) as [<-|Hn].
      * rewrite bool_decide_eq_true_2 by done. simpl.
        rewrite lookup_alter_eq.
        destruct (globalSymbols st !! sym_name s); simpl; [|done].
        by rewrite Nat.iter_swap.
      * rewrite bool_decide_eq_false_2 by (intros [_ ?]; done).
        by rewrite lookup_alter_ne.
Qed.

Lemma clearFile_loop_scoped uri fs : forall st sc n,
  scoped_lookup (scopedSymbols (foldl (clearFile_symbol uri) st fs)) sc n
  = Nat.iter (length (List.filter (filed_scoped sc n) fs)) (splice_first uri)
      <$> scoped_lookup (scopedSymbols st) sc n.
Proof.
  induction fs as [|s fs IH]; intros st sc n; simpl.
  - by destruct (scoped_lookup (scopedSymbols st) sc n).
  - rewrite IH. unfold clearFile_symbol, filed_scoped at 2.
    destruct (truthy_scope s) as [sc'|] eqn:Hsc; simpl.
    + rewrite scoped_lookup_alter.
      destruct (decide (sc' = sc /\ sym_name s = n)) as [[-> <-]|Hne].
      * rewrite bool_decide_eq_true_2 by done. simpl.
        destruct (scoped_lookup (scopedSymbols st) sc (sym_name s)); simpl; [|done].
        by rewrite Nat.iter_swap.
      * rewrite bool_decide_eq_false_2; [done|].
        intros [[= ->] ?]. tauto.
    + done.
Qed.

Lemma clearFile_loop_rest uri fs : forall st,
  let st1 := foldl (clearFile_symbol uri) st fs in
  references st1 = references st /\ fileSymbols st1 = fileSymbols st /\
  fileReferences st1 = fileReferences st.
Proof.
  induction fs as [|s fs IH]; intros st; simpl; [done|].
  destruct (IH (clearFile_symbol uri st s)) as (-> & -> & ->).
  unfold clearFile_symbol. by destruct (truthy_scope s).
Qed.

(** What [clearFile] does to a table whose indices agree with its
    per-file lists. *)
Lemma clearFile_exact st uri :
  indexed st ->
  let st' := clearFile st uri in
  (forall n, globalSymbols st' !! n = other_files uri <$> globalSymbols st !! n) /\
  (forall sc n, scoped_lookup (scopedSymbols st') sc n
                = other_files uri <$> scoped_lookup (scopedSymbols st) sc n) /\
  references st'
    = List.filter (fun r => negb (bool_decide (ref_uri r = uri))) (references st) /\
  fileSymbols st' = delete uri (fileSymbols st) /\
  fileReferences st' = delete uri (fileReferences st).
Proof.
  intros Hidx. destruct (Hidx uri) as [Hg Hs]. simpl in Hg, Hs.
  destruct (clearFile_loop_rest uri (default [] (fileSymbols st !! uri)) st)
    as (Hr & Hfs & Hfr).
  unfold clearFile. simpl. rewrite Hr, Hfs, Hfr.
  split; [|split]; [| |done].
  - intros n. rewrite clearFile_loop_global, Hg.
    destruct (globalSymbols st !! n) as [l|]; simpl; [|done].
    by rewrite iter_splice_first.
  - intros sc n. rewrite clearFile_loop_scoped, Hs.
    destruct (scoped_lookup (scopedSymbols st) sc n) as [l|]; simpl; [|done].
    by rewrite iter_splice_first.
Qed.

Lemma indexed_empty : indexed empty.
Proof. intros uri. simpl. split; intros; by rewrite ?lookup_empty. Qed.

Lemma indexed_clearFile st uri : indexed st -> indexed (clearFile st uri).
Proof.
  intros Hidx uri'.
  destruct (clearFile_exact st uri Hidx) as (Hg & Hs & _ & Hfs & _).
  destruct (Hidx uri') as [Hg' Hs']. simpl in *.
  rewrite Hfs. split.
  - intros n. rewrite Hg.
    destruct (decide (uri' = uri)) as [->|Hne].
    + rewrite lookup_delete_eq. simpl.
      destruct (globalSymbols st !! n) as [l|]; simpl; [|done].
      by rewrite count_uri_other_files, decide_True.
    + rewrite lookup_delete_ne by done. rewrite Hg'.
      destruct (globalSymbols st !! n) as [l|]; simpl; [|done].
      by rewrite count_uri_other_files, decide_False.
  - intros sc n. rewrite Hs.
    destruct (decide (uri' = uri)) as [->|Hne].
    + rewrite lookup_delete_eq. simpl.
      destruct (scoped_lookup (scopedSymbols st) sc n) as [l|]; simpl; [|done].
      by rewrite count_uri_other_files, decide_True.
    + rewrite lookup_delete_ne by done. rewrite Hs'.
      destruct (scoped_lookup (scopedSymbols st) sc n) as [l|]; simpl; [|done].
      by rewrite count_uri_other_files, decide_False.
Qed.

Lemma length_filter_snoc {A} (P : A -> bool) l x :
  length (List.filter P (l ++ [x]))
  = length (List.filter P l) + (if P x then 1 else 0).
Proof. rewrite List.filter_app, length_app. simpl. by destruct (P x). Qed.

Lemma scoped_lookup_insert m sc n l sc' n' :
  scoped_lookup (<[sc := <[n := l]> (default ∅ (m !! sc))]> m) sc' n'
  = if decide (sc = sc' /\ n = n') then Some l else scoped_lookup m sc' n'.
Proof.
  unfold scoped_lookup.
  destruct (decide (sc = sc')) as [->|Hsc].
  - rewrite lookup_insert_eq. simpl.
    destruct (decide (n = n')) as [->|Hn].
    + rewrite lookup_insert_eq. by rewrite decide_True.
    + rewrite lookup_insert_ne by done. rewrite decide_False by tauto.
      destruct (m !! sc'); simpl; [done|]. by rewrite lookup_empty.
  - rewrite lookup_insert_ne by done. rewrite decide_False; [done|tauto].
Qed.

Lemma addSymbol_fileSymbols st s uri' :
  sym_name s ≠ "" ->
  default [] (fileSymbols (addSymbol st s) !! uri')
  = default [] (fileSymbols st !! uri')
    ++ (if decide (sym_uri s = uri') then [s] else []).
Proof.
  intros Hname. unfold addSymbol. rewrite decide_False by done.
  assert (default [] (<[sym_uri s :=
                   default [] (fileSymbols st !! sym_uri s) ++ [s]]>
                   (fileSymbols st) !! uri')
          = default [] (fileSymbols st !! uri')
            ++ (if decide (sym_uri s = uri') then [s] else [])).
  { destruct (decide (sym_uri s = uri')) as [->|Hne].
    - by rewrite lookup_insert_eq.
    - rewrite lookup_insert_ne by done. by rewrite app_nil_r. }
  by destruct (truthy_scope s).
Qed.

Lemma addSymbol_global st s n :
  sym_name s ≠ "" ->
  default [] (globalSymbols (addSymbol st s) !! n)
  = default [] (globalSymbols st !! n) ++ (if filed_global n s then [s] else []).
Proof.
  intros Hname. unfold addSymbol, filed_global. rewrite decide_False by done.
  destruct (truthy_scope s) as [sc|] eqn:Hsc; simpl.
  - by rewrite app_nil_r.
  - destruct (decide (sym_name s = n)) as [<-|Hn].
    + rewrite lookup_insert_eq. by rewrite bool_decide_eq_true_2.
    + rewrite lookup_insert_ne by done.
      rewrite bool_decide_eq_false_2 by (intros [_ ?]; done).
      by rewrite app_nil_r.
Qed.

Lemma addSymbol_scoped st s sc n :
  sym_name s ≠ "" ->
  default [] (scoped_lookup (scopedSymbols (addSymbol st s)) sc n)
  = default [] (scoped_lookup (scopedSymbols st) sc n)
    ++ (if filed_scoped sc n s then [s] else []).
Proof.
  intros Hname. unfold addSymbol, filed_scoped. rewrite decide_False by done.
  destruct (truthy_scope s) as [sc'|] eqn:Hsc; simpl.
  - rewrite scoped_lookup_insert.
    destruct (decide (sc' = sc /\ sym_name s = n)) as [[-> <-]|Hne].
    + rewrite bool_decide_eq_true_2 by done. simpl. unfold scoped_lookup.
      destruct (scopedSymbols st !! sc); simpl; [done|]. by rewrite lookup_empty.
    + rewrite bool_decide_eq_false_2; [by rewrite app_nil_r|].
      intros [[= ->] ?]. tauto.
  - by rewrite app_nil_r.
Qed.

Lemma indexed_step (P : Symbol -> bool) uri' s fs l :
  length (List.filter P fs) = count_uri uri' l ->
  length (List.filter P (fs ++ (if decide (sym_uri s = uri') then [s] else [])))
  = count_uri uri' (l ++ (if P s then [s] else [])).
Proof.
  intros H. rewrite List.filter_app, length_app, count_uri_app, H.
  f_equal. unfold count_uri.
  destruct (decide (sym_uri s = uri')) as [Heq|Hne]; destruct (P s) eqn:HP; simpl;
    rewrite ?HP; simpl; try done.
  - by rewrite bool_decide_eq_true_2.
  - by rewrite bool_decide_eq_false_2.
Qed.

Lemma indexed_addSymbol st s : indexed st -> indexed (addSymbol st s).
Proof.
  intros Hidx.
  destruct (decide (sym_name s = "")) as [Hname|Hname].
  { unfold addSymbol. by rewrite decide_True. }
  intros uri'. destruct (Hidx uri') as [Hg Hs]. simpl in Hg, Hs. simpl.
  rewrite addSymbol_fileSymbols by done. split.
  - intros n. rewrite addSymbol_global by done. by apply indexed_step.
  - intros sc n. rewrite addSymbol_scoped by done. by apply indexed_step.
Qed.

Lemma indexed_addReference st r : indexed st -> indexed (addReference st r).
Proof. intros Hidx uri. exact (Hidx uri). Qed.

Lemma reachable_indexed st : reachable st -> indexed st.
Proof.
  induction 1; auto using indexed_empty, indexed_addSymbol,
    indexed_addReference, indexed_clearFile.
Qed.

(** C9. On every table reached through [addSymbol], [addReference] and
    [clearFile], [clearFile uri] removes from the global index, from every
    scope's index and from the reference list exactly the entries
    attributed to [uri], and forgets the file's own lists; every other
    entry, same-named ones included, stays where it was, in order, and so
    stays queryable. *)
Theorem clearFile_removes_exactly (st : t) (uri : string) :
  reachable st ->
  let st' := clearFile st uri in
  (forall n, globalSymbols st' !! n = other_files uri <$> globalSymbols st !! n) /\
  (forall sc n, scopedSymbols st' !! sc ≫= (fun scopeMap => scopeMap !! n)
                = other_files uri
                    <$> (scopedSymbols st !! sc ≫= (fun scopeMap => scopeMap !! n))) /\
  references st'
    = List.filter (fun r => negb (bool_decide (ref_uri r = uri))) (references st) /\
  (forall name r, In r (findReferences st name) -> ref_uri r ≠ uri ->
                  In r (findReferences st' name)) /\
  fileSymbols st' = delete uri (fileSymbols st) /\
  fileReferences st' = delete uri (fileReferences st).
Proof.
  intros Hreach.
  destruct (clearFile_exact st uri (reachable_indexed st Hreach))
    as (Hg & Hs & Hr & Hfs & Hfr).
  repeat split; try done.
  intros name r Hin Hne. unfold findReferences in *. rewrite Hr.
  apply List.filter_In in Hin as [Hin Hn].
  apply List.filter_In. split; [|done].
  apply List.filter_In. split; [done|].
  by rewrite bool_decide_eq_false_2.
Qed.

End SymbolTableFacts.

Section SymbolTableExamples.
Import SymbolTable Examples.

Lemma two_files_reachable : reachable two_files.
Proof. unfold two_files. repeat constructor. Qed.

Lemma clearFile_removes_exactly_witness :
  let st' := clearFile two_files uriA in
  globalSymbols st' !! "Foo" = Some [makeSymbol "Foo" uriB] /\
  scopedSymbols st' !! "class:Foo" ≫= (fun scopeMap => scopeMap !! "F")
    = Some [scopedSymbol "F" uriB "class:Foo"] /\
  references st' = [makeReference "Foo" uriB] /\
  fileSymbols st' !! uriA = None /\
  fileSymbols st' !! uriB
    = Some [makeSymbol "Foo" uriB; scopedSymbol "F" uriB "class:Foo"].
Proof.
  destruct (clearFile_removes_exactly two_files uriA two_files_reachable)
    as (Hg & Hs & Hr & _ & Hfs & _).
  split; [rewrite Hg; reflexivity|].
  split; [rewrite Hs; reflexivity|].
  split; [rewrite Hr; reflexivity|].
  rewrite Hfs. split; reflexivity.
Defined.

End SymbolTableExamples.
(* ===================================================================== *)
(** * Facts about the type system *)
(* ===================================================================== *)

Section TypeSystemFacts.
Import TypeSystem.

Lemma addClass_lookup_other ts info n :
  n ≠ ci_name info ->
  classes (addClass ts info) !! n = classes ts !! n.
Proof.
  intros Hne. unfold addClass.
  destruct (classes ts !! ci_name info) as [existing|]; simpl.
  - destruct (negb (ci_isForwardDeclaration existing) && ci_isForwardDeclaration info);
      simpl; [done|]. by rewrite lookup_insert_ne.
  - by rewrite lookup_insert_ne.
Qed.

Lemma addClass_full ts info :
  ci_isForwardDeclaration info = false ->
  classes (addClass ts info) !! ci_name info = Some (set_allFields None info).
Proof.
  intros Hfull. unfold addClass.
  destruct (classes ts !! ci_name info); rewrite ?Hfull, ?andb_false_r; simpl;
    by rewrite lookup_insert_eq.
Qed.

Lemma addClass_forward_keeps ts info existing :
  classes ts !! ci_name info = Some existing ->
  ci_isForwardDeclaration existing = false ->
  ci_isForwardDeclaration info = true ->
  addClass ts info = ts.
Proof.
  intros Hex Hfull Hfwd. unfold addClass. by rewrite Hex, Hfull, Hfwd.
Qed.

Lemma addClass_forwards_keep ts l d :
  classes ts !! ci_name d = Some (set_allFields None d) ->
  ci_isForwardDeclaration d = false ->
  Forall (fun i => ci_name i = ci_name d -> ci_isForwardDeclaration i = true) l ->
  classes (foldl addClass ts l) !! ci_name d = Some (set_allFields None d).
Proof.
  intros Hst Hfull Hall. revert ts Hst.
  induction Hall as [|i l Hi _ IH]; intros ts Hst; simpl; [done|].
  apply IH. destruct (decide (ci_name i = ci_name d)) as [Heq|Hne].
  - rewrite (addClass_forward_keeps ts i (set_allFields None d)); auto.
    by rewrite Heq.
  - rewrite addClass_lookup_other; auto.
Qed.

(** C6. Whatever was registered before ([l1], any state [ts]), once a full
    definition [d] has been registered and only forward declarations of
    the same name follow it ([l2]), the stored [ClassInfo] is [d] (with
    its fields, its merged-view cache reset): a full definition replaces
    a stored forward declaration or an earlier full definition, and a
    later forward declaration never replaces it. *)
Theorem addClass_definition_over_forward ts l1 d l2 :
  ci_isForwardDeclaration d = false ->
  Forall (fun i => ci_name i = ci_name d -> ci_isForwardDeclaration i = true) l2 ->
  getClass (foldl addClass ts (l1 ++ d :: l2)) (ci_name d)
  = Some (set_allFields None d).
Proof.
  intros Hfull Hall. unfold getClass.
  rewrite foldl_app. simpl.
  apply addClass_forwards_keep; auto using addClass_full.
Qed.

(** ** findFieldDefinition *)

Scheme resolves_mut := Induction for resolves Sort Prop
  with first_parent_mut := Induction for first_parent Sort Prop.

Lemma findFieldDefinition_parents_sound ts f fuel :
  (forall c r, findFieldDefinition fuel ts c f = Some r -> resolves ts f c r) ->
  forall ps r,
    findFieldDefinition_parents (fun p => findFieldDefinition fuel ts p f) ps = Some r ->
    first_parent ts f ps r.
Proof.
  intros IH ps. induction ps as [|p ps IHps]; intros r; simpl.
  - intros [= <-]. constructor.
  - destruct (findFieldDefinition fuel ts p f) as [[fi|]|] eqn:Hp; [| |done].
    + intros [= <-]. apply first_parent_hit. by apply IH.
    + intros Hr. apply first_parent_miss; [by apply IH | by apply IHps].
Qed.

Lemma findFieldDefinition_sound fuel ts f c r :
  findFieldDefinition fuel ts c f = Some r -> resolves ts f c r.
Proof.
  revert c r. induction fuel as [|fuel IH]; intros c r; simpl; [done|].
  destruct (classes ts !! c) as [ci|] eqn:Hc.
  - destruct (ci_fields ci !! f) as [own|] eqn:Hown.
    + intros [= <-]. by eapply resolves_own.
    + intros Hr. eapply resolves_parent; eauto.
      by eapply findFieldDefinition_parents_sound.
  - intros [= <-]. by constructor.
Qed.

Lemma findFieldDefinition_complete ts f c r :
  resolves ts f c r ->
  exists n, forall fuel, n <= fuel -> findFieldDefinition fuel ts c f = Some r.
Proof.
  intros H.
  induction H using resolves_mut with
    (P0 := fun ps r _ => exists n, forall fuel, n <= fuel ->
       findFieldDefinition_parents (fun p => findFieldDefinition fuel ts p f) ps = Some r).
  - exists 1. intros [|fuel] ?; [lia|]. simpl. by rewrite e.
  - exists 1. intros [|fuel] ?; [lia|]. simpl. by rewrite e, e0.
  - destruct IHresolves as [n Hn]. exists (S n).
    intros [|fuel] ?; [lia|]. simpl. rewrite e, e0. apply Hn. lia.
  - exists 0. done.
  - destruct IHresolves as [n Hn]. exists n. intros fuel ?. simpl.
    by rewrite Hn.
  - destruct IHresolves as [n Hn]. destruct IHresolves0 as [n' Hn'].
    exists (n `max` n'). intros fuel ?. simpl. rewrite Hn by lia.
    apply Hn'. lia.
Qed.

(** C5. For every registry in which [A] and [B] both declare [F] and [C]
    lists the parents [A], [B] in that order and declares no [F] itself,
    [findFieldDefinition C F] returns [A]'s declaration.  In general the
    function computes exactly the rule "own field first, else the first
    parent in declaration order that resolves the field, recursively":
    whatever it returns is derivable by [resolves], and whatever
    [resolves] derives it returns once the fuel covers the depth. *)
Theorem findFieldDefinition_first_parent_wins (ts : t) :
  (forall cA cB cC fA fB fuel,
      classes ts !! "A" = Some cA -> ci_fields cA !! "F" = Some fA ->
      classes ts !! "B" = Some cB -> ci_fields cB !! "F" = Some fB ->
      classes ts !! "C" = Some cC -> ci_fields cC !! "F" = None ->
      ci_parentClasses cC = ["A"; "B"] ->
      findFieldDefinition (S (S fuel)) ts "C" "F" = Some (Some fA)) /\
  (forall fuel c f r,
      findFieldDefinition fuel ts c f = Some r -> resolves ts f c r) /\
  (forall c f r,
      resolves ts f c r ->
      exists n, forall fuel, n <= fuel -> findFieldDefinition fuel ts c f = Some r).
Proof.
  split; [|split].
  - intros cA cB cC fA fB fuel HA HfA HB HfB HC HfC Hps.
    simpl. rewrite HC, HfC, Hps. simpl. by rewrite HA, HfA.
  - intros. by eapply findFieldDefinition_sound.
  - intros. by eapply findFieldDefinition_complete.
Qed.

(** ** getAllParentClasses *)

(** What one call of [collect] guarantees: it returns, [visited] only
    grows, and [parents] stays free of duplicates. *)
Definition collect_ok (st : collect_state) (res : option collect_state) : Prop :=
  exists st', res = Some st' /\ st.2 ⊆ st'.2 /\ (NoDup st.1 -> NoDup st'.1).

Lemma collect_loop_ok (rec : string -> collect_state -> option collect_state)
    (vis0 : gset string) :
  (forall p st, vis0 ⊆ st.2 -> collect_ok st (rec p st)) ->
  forall ps st, vis0 ⊆ st.2 -> collect_ok st (collect_loop rec ps st).
Proof.
  intros Hrec ps. induction ps as [|p ps IH]; intros st Hvis; simpl.
  - exists st. auto.
  - set (parents1 := if bool_decide (p ∈ st.1) then st.1 else st.1 ++ [p]).
    destruct (Hrec p (parents1, st.2)) as (st1 & -> & Hsub & Hnd); [done|].
    simpl in *.
    destruct (IH st1) as (st2 & -> & Hsub2 & Hnd2); [set_solver|].
    exists st2. split; [done|]. split; [set_solver|].
    intros Hnd0. apply Hnd2, Hnd. unfold parents1.
    case_bool_decide as Hin; [done|].
    apply NoDup_app. split; [done|]. split; [|apply NoDup_singleton].
    intros x Hx Hx'. apply list_elem_of_singleton in Hx'. by subst.
Qed.

Lemma collect_terminates ts fuel :
  forall name st,
    size (dom (classes ts) ∖ st.2) < fuel ->
    collect_ok st (collect fuel ts name st).
Proof.
  induction fuel as [|fuel IH]; intros name st Hsz; [lia|]. simpl.
  destruct (classes ts !! name) as [ci|] eqn:Hc; [|by exists st].
  case_bool_decide as Hvis; [by exists st|].
  assert (Hlt : size (dom (classes ts) ∖ ({[name]} ∪ st.2))
                < size (dom (classes ts) ∖ st.2)).
  { apply subset_size. apply strict_spec_alt. split; [set_solver|].
    assert (name ∈ dom (classes ts)) by (apply elem_of_dom; eauto).
    intros Heq. assert (name ∈ dom (classes ts) ∖ st.2) as Hin by set_solver.
    rewrite <- Heq in Hin. set_solver. }
  destruct (collect_loop_ok (collect fuel ts) ({[name]} ∪ st.2)) with
    (ps := ci_parentClasses ci) (st := (st.1, {[name]} ∪ st.2))
    as (st' & Hres & Hsub & Hnd); [|done|].
  - intros p st1 Hsub. apply IH.
    assert (size (dom (classes ts) ∖ st1.2)
            <= size (dom (classes ts) ∖ ({[name]} ∪ st.2))); [|lia].
    apply subseteq_size. set_solver.
  - exists st'. split; [done|]. simpl in *. split; [set_solver|done].
Qed.

(** C10. For every registry, cyclic parent edges included,
    [getAllParentClasses] returns, and the list it returns holds each
    class name at most once: the transitive walk enters a class only when
    it is not yet in [visited], and appends a parent only when it is not
    yet in [parents]. *)
Theorem getAllParentClasses_terminates_nodup (ts : t) (className : string) :
  exists parents,
    getAllParentClasses ts className = Some parents /\ NoDup parents.
Proof.
  unfold getAllParentClasses.
  destruct (collect_terminates ts (S (size (classes ts))) className ([], ∅))
    as (st' & -> & _ & Hnd).
  - simpl. rewrite difference_empty_L, size_dom. lia.
  - exists st'.1. split; [done|]. apply Hnd. constructor.
Qed.

(** ** getAllFields *)

Scheme merged_mut := Induction for merged Sort Prop
  with merged_parents_mut := Induction for merged_parents Sort Prop.

Lemma same_classes_lookup cls1 cls2 c :
  same_classes cls1 cls2 ->
  set_allFields None <$> (cls1 !! c) = set_allFields None <$> (cls2 !! c).
Proof. intros H. by rewrite <- !lookup_fmap, H. Qed.

Lemma same_classes_None cls1 cls2 c :
  same_classes cls1 cls2 -> cls1 !! c = None -> cls2 !! c = None.
Proof.
  intros H Hc. apply (same_classes_lookup _ _ c) in H. rewrite Hc in H.
  by destruct (cls2 !! c).
Qed.

Lemma same_classes_Some cls1 cls2 c ci :
  same_classes cls1 cls2 -> cls1 !! c = Some ci ->
  exists ci', cls2 !! c = Some ci' /\
              ci_parentClasses ci' = ci_parentClasses ci /\
              ci_fields ci' = ci_fields ci.
Proof.
  intros H Hc. apply (same_classes_lookup _ _ c) in H. rewrite Hc in H.
  destruct (cls2 !! c) as [ci'|]; [|done]. exists ci'. split; [done|].
  simpl in H. injection H as H. unfold set_allFields in H.
  split; congruence.
Qed.

Lemma same_classes_sym cls1 cls2 : same_classes cls1 cls2 -> same_classes cls2 cls1.
Proof. unfold same_classes. done. Qed.

Lemma same_classes_alter cls c v :
  same_classes (alter (set_allFields v) c cls) cls.
Proof.
  unfold same_classes. apply map_eq. intros k. rewrite !lookup_fmap.
  destruct (decide (c = k)) as [->|Hne].
  - rewrite lookup_alter_eq. by destruct (cls !! k).
  - by rewrite lookup_alter_ne.
Qed.

Lemma merged_same cls1 cls2 c m :
  same_classes cls1 cls2 -> merged cls1 c m -> merged cls2 c m.
Proof.
  intros Hs H.
  induction H using merged_mut with
    (P0 := fun ps acc _ => merged_parents cls2 ps acc).
  - apply merged_unknown. by eapply same_classes_None.
  - destruct (same_classes_Some _ _ _ _ Hs e) as (ci' & Hc & Hps & Hfs).
    rewrite <- Hfs. eapply merged_class; [done|]. by rewrite Hps.
  - constructor.
  - by constructor.
Qed.

Lemma merged_functional cls c m1 :
  merged cls c m1 -> forall m2, merged cls c m2 -> m1 = m2.
Proof.
  intros H.
  induction H using merged_mut with
    (P0 := fun ps acc _ => forall acc', merged_parents cls ps acc' -> acc = acc').
  - intros m2 H2. inversion H2; subst; [done|congruence].
  - intros m2 H2. inversion H2; subst; [congruence|].
    assert (ci0 = ci) as -> by congruence. f_equal. by apply IHmerged.
  - intros acc' H2. inversion H2; subst; [done|].
    by destruct ps.
  - intros acc' H2. inversion H2 as [|ps' p' e' pf' Hps Hp Heq]; subst.
    + by destruct ps.
    + apply app_inj_tail in Heq as [-> ->].
      f_equal; [by apply IHmerged0 | by apply IHmerged].
Qed.

Lemma getAllFields_parents_app rec ps qs acc ts :
  getAllFields_parents rec (ps ++ qs) acc ts =
  match getAllFields_parents rec ps acc ts with
  | None => None
  | Some (a, ts1) => getAllFields_parents rec qs a ts1
  end.
Proof.
  revert acc ts. induction ps as [|p ps IH]; intros acc ts; simpl; [done|].
  destruct (rec ts p) as [[pf ts1]|]; [|done]. apply IH.
Qed.

(** What a call guarantees from a coherent state: the merged view [m],
    for every fuel from [n] on, and a coherent state with the same
    classes. *)
Definition returns_view cls (ts : t) (run : nat -> option (gmap string FieldInfo * t))
    (m : gmap string FieldInfo) : Prop :=
  exists n ts',
    (forall fuel, n <= fuel -> run fuel = Some (m, ts')) /\
    same_classes (classes ts') cls /\ coherent ts' /\
    fileClasses ts' = fileClasses ts.

Lemma getAllFields_merged_aux cls c m :
  merged cls c m ->
  forall ts, same_classes (classes ts) cls -> coherent ts ->
             returns_view cls ts (fun fuel => getAllFields fuel ts c) m.
Proof.
  intros H.
  induction H using merged_mut with
    (P0 := fun ps acc _ =>
       forall ts, same_classes (classes ts) cls -> coherent ts ->
         returns_view cls ts
           (fun fuel => getAllFields_parents (getAllFields fuel) ps ∅ ts) acc).
  - intros ts Hs Hco. exists 1, ts. split; [|done].
    intros [|fuel] ?; [lia|]. simpl.
    by rewrite (same_classes_None _ _ _ (same_classes_sym _ _ Hs) e).
  - intros ts Hs Hco.
    destruct (same_classes_Some _ _ _ _ (same_classes_sym _ _ Hs) e)
      as (ci' & Hc & Hps & Hfs).
    destruct (ci_allFields ci') as [cached|] eqn:Hcache.
    + exists 1, ts. split; [|done].
      intros [|fuel] ?; [lia|]. simpl. rewrite Hc, Hcache. do 2 f_equal.
      eapply merged_functional; [|by eapply merged_class].
      eapply merged_same; [exact Hs|]. by eapply Hco.
    + destruct (IHmerged ts Hs Hco) as (n & ts1 & Hrun & Hs1 & Hco1 & Hf1).
      exists (S n). eexists. split; [|split; [|split]].
      * intros [|fuel] ?; [lia|]. simpl. rewrite Hc, Hcache, Hps, Hrun by lia.
        rewrite Hfs. reflexivity.
      * simpl. unfold same_classes in *. rewrite <- Hs1.
        apply same_classes_alter.
      * intros c' ci1 m1. simpl. intros Hc' Hm1.
        eapply merged_same;
          [apply same_classes_sym, same_classes_alter|].
        destruct (decide (c = c')) as [<-|Hne].
        -- rewrite lookup_alter_eq in Hc'.
           destruct (classes ts1 !! c) as [ci1'|] eqn:Hc1; [|done].
           simpl in Hc'. injection Hc' as <-. simpl in Hm1. injection Hm1 as <-.
           eapply merged_same; [apply same_classes_sym, Hs1|].
           by eapply merged_class.
        -- rewrite lookup_alter_ne in Hc' by done. by eapply Hco1.
      * done.
  - intros ts Hs Hco. exists 0, ts. done.
  - intros ts Hs Hco.
    destruct (IHmerged ts Hs Hco) as (n1 & ts1 & Hrun1 & Hs1 & Hco1 & Hf1).
    destruct (IHmerged0 ts1 Hs1 Hco1) as (n2 & ts2 & Hrun2 & Hs2 & Hco2 & Hf2).
    exists (n1 `max` n2), ts2. split; [|split; [|split]]; [|done|done|congruence].
    intros fuel ?. rewrite getAllFields_parents_app, Hrun1 by lia.
    simpl. by rewrite Hrun2 by lia.
Qed.

Lemma merged_parents_exists cls ps :
  (forall p, p ∈ ps -> exists m, merged cls p m) ->
  exists acc, merged_parents cls ps acc.
Proof.
  induction ps as [|p ps IH] using rev_ind; intros Hall.
  - exists ∅. constructor.
  - destruct IH as [acc Hacc]; [intros q Hq; apply Hall; set_solver|].
    destruct (Hall p) as [pf Hpf]; [set_solver|].
    exists (pf ∪ acc). by constructor.
Qed.

(** In a hierarchy without cycles (parents rank strictly below their
    children) every name has a merged view. *)
Lemma merged_exists cls (rank : string -> nat) :
  (forall c ci p, cls !! c = Some ci -> p ∈ ci_parentClasses ci -> rank p < rank c) ->
  forall c, exists m, merged cls c m.
Proof.
  intros Hrank c. remember (rank c) as k eqn:Hk. revert c Hk.
  induction k as [k IH] using lt_wf_ind. intros c ->.
  destruct (cls !! c) as [ci|] eqn:Hc.
  - destruct (merged_parents_exists cls (ci_parentClasses ci)) as [acc Hacc].
    + intros p Hp. eapply IH; [|reflexivity]. by eapply Hrank.
    + eexists. by eapply merged_class.
  - exists ∅. by constructor.
Qed.

(** C4, where the code keeps it.  For every registry in which [Base]
    declares [F], [G] and [Child : Base] declares [F], [H], neither with
    a cached merged view, [getAllFields Child] returns a map of size 3
    with [F] and [H] from [Child] and [G] from [Base].  In general, from
    a state whose cached views are merged views, [getAllFields] returns
    the merged view of the specification (the parents' merged views
    written one over the other in declaration order, the class's own
    fields last) and leaves such a state; a hierarchy without cycles has
    a merged view for every name.  The cached views do not stay merged
    views: [addClass] resets the view of the class it stores only, so a
    view cached for a subclass outlives a change of its parent, and from
    such a state [getAllFields] returns the old view. *)
Theorem getAllFields_merged_view (ts : t) :
  (forall base child bF bG cF cH fuel,
      classes ts !! "Base" = Some base -> ci_allFields base = None ->
      ci_parentClasses base = [] ->
      ci_fields base = <["F":=bF]> (<["G":=bG]> ∅) ->
      classes ts !! "Child" = Some child -> ci_allFields child = None ->
      ci_parentClasses child = ["Base"] ->
      ci_fields child = <["F":=cF]> (<["H":=cH]> ∅) ->
      exists m ts',
        getAllFields (S (S fuel)) ts "Child" = Some (m, ts') /\
        size m = 3 /\
        m !! "F" = Some cF /\ m !! "G" = Some bG /\ m !! "H" = Some cH) /\
  (forall c m,
      coherent ts -> merged (classes ts) c m ->
      exists n ts',
        (forall fuel, n <= fuel -> getAllFields fuel ts c = Some (m, ts')) /\
        same_classes (classes ts') (classes ts) /\ coherent ts' /\
        fileClasses ts' = fileClasses ts) /\
  (forall (rank : string -> nat) c,
      (forall c ci p, classes ts !! c = Some ci -> p ∈ ci_parentClasses ci ->
                      rank p < rank c) ->
      exists m, merged (classes ts) c m).
Proof.
  split; [|split].
  - intros base child bF bG cF cH fuel Hb Hbc Hbp Hbf Hc Hcc Hcp Hcf.
    eexists _, _. split.
    + simpl. rewrite Hc, Hcc, Hcp. simpl. rewrite Hb, Hbc, Hbp. simpl.
      reflexivity.
    + rewrite Hbf, Hcf. repeat split.
  - intros c m Hco Hm.
    by apply (getAllFields_merged_aux (classes ts) c m Hm ts).
  - intros rank c Hrank. by eapply merged_exists.
Qed.

End TypeSystemFacts.

Section TypeSystemExamples.
Import TypeSystem Examples.

Lemma addClass_definition_over_forward_witness :
  getClass (foldl addClass empty [Foo_forward 0; Foo_full; Foo_forward 3]) "Foo"
  = Some Foo_full /\
  ci_fields Foo_full !! "X" = Some (field "X" uri_td 2).
Proof.
  split; [|reflexivity].
  apply (addClass_definition_over_forward empty [Foo_forward 0] Foo_full
           [Foo_forward 3]).
  - reflexivity.
  - repeat constructor.
Defined.

Lemma findFieldDefinition_first_parent_wins_witness :
  findFieldDefinition 2 (foldl addClass empty [A_info; B_info; C_info]) "C" "F"
  = Some (Some (field "F" uri_td 1)).
Proof.
  apply (proj1 (findFieldDefinition_first_parent_wins
                  (foldl addClass empty [A_info; B_info; C_info]))
           A_info B_info C_info (field "F" uri_td 1) (field "F" uri_td 2) 0);
    reflexivity.
Defined.

Lemma getAllFields_merged_view_witness :
  exists m ts',
    getAllFields 2 (foldl addClass empty [Base_info; Child_info]) "Child"
    = Some (m, ts') /\
    size m = 3 /\
    m !! "F" = Some (field "F" uri_td 10) /\
    m !! "G" = Some (field "G" uri_td 2) /\
    m !! "H" = Some (field "H" uri_td 11).
Proof.
  apply (proj1 (getAllFields_merged_view
                  (foldl addClass empty [Base_info; Child_info]))
           Base_info Child_info (field "F" uri_td 1) (field "G" uri_td 2)
           (field "F" uri_td 10) (field "H" uri_td 11) 0);
    reflexivity.
Defined.

(** The walk ends on a cycle: each class is the other's parent. *)
Lemma getAllParentClasses_cycle :
  getAllParentClasses cyclic_classes "A" = Some ["B"; "A"].
Proof. vm_compute. reflexivity. Qed.

(** C4, where it fails.  [Child : Base] is registered first and its
    merged view is read (two fields: [Base] is not known yet); then
    [Base] is registered.  Both classes are now registered as the claim
    has them, yet [getAllFields Child] still returns the cached view of
    two fields, without [G]: [addClass] resets the cached view of the
    class it stores and of no other, although its comment announces the
    reset for all subclasses. *)
Lemma getAllFields_stale_after_parent_change :
  exists m1 ts1 m2 ts2,
    getAllFields 2 (addClass empty Child_info) "Child" = Some (m1, ts1) /\
    getClass (addClass ts1 Base_info) "Base" = Some Base_info /\
    (ci_parentClasses <$> getClass (addClass ts1 Base_info) "Child")
    = Some ["Base"] /\
    (ci_fields <$> getClass (addClass ts1 Base_info) "Child")
    = Some (<["F" := field "F" uri_td 10]> (<["H" := field "H" uri_td 11]> ∅)) /\
    getAllFields 2 (addClass ts1 Base_info) "Child" = Some (m2, ts2) /\
    size m2 = 2 /\ m2 !! "G" = None /\
    m2 = <["F" := field "F" uri_td 10]> (<["H" := field "H" uri_td 11]> ∅).
Proof.
  eexists _, _, _, _. split; [vm_compute; reflexivity|].
  split; [vm_compute; reflexivity|]. split; [vm_compute; reflexivity|].
  split; [vm_compute; reflexivity|]. split; [vm_compute; reflexivity|].
  split; [vm_compute; reflexivity|]. split; [vm_compute; reflexivity|].
  vm_compute. reflexivity.
Qed.

End TypeSystemExamples.
(* ===================================================================== *)
(** * typeSystem.ts: files, ancestors, and the two field lookups *)
(* ===================================================================== *)

Section TypeSystemQueries.
Import TypeSystem.

(** ** The states of a [TypeSystem] object *)

(** The states that the public methods reach from a new object.
    [getAllFields] is among them: it writes the views it computes into
    the class records. *)
Inductive ts_reachable : t -> Prop :=
| ts_reachable_empty : ts_reachable empty
| ts_reachable_addClass ts info : ts_reachable ts -> ts_reachable (addClass ts info)
| ts_reachable_clearFile ts uri : ts_reachable ts -> ts_reachable (clearFile ts uri)
| ts_reachable_getAllFields ts fuel c m ts' :
    ts_reachable ts -> getAllFields fuel ts c = Some (m, ts') -> ts_reachable ts'.

(** Every stored class is stored under its own name and listed under its
    own file. *)
Definition classes_filed (ts : t) : Prop :=
  forall n ci, classes ts !! n = Some ci ->
    ci_name ci = n /\ n ∈ default ∅ (fileClasses ts !! ci_uri ci).

Lemma foldr_delete_lookup (names : list string) (m : gmap string ClassInfo) n :
  foldr (fun k acc => delete k acc) m names !! n
  = if bool_decide (n ∈ names) then None else m !! n.
Proof.
  induction names as [|k names IH]; simpl; [done|].
  destruct (decide (k = n)) as [->|Hne].
  - rewrite lookup_delete_eq. rewrite bool_decide_eq_true_2; [done|set_solver].
  - rewrite lookup_delete_ne by done. rewrite IH.
    repeat case_bool_decide; set_solver.
Qed.

Lemma clearFile_lookup ts uri n :
  classes (clearFile ts uri) !! n
  = if bool_decide (n ∈ default ∅ (fileClasses ts !! uri)) then None
    else classes ts !! n.
Proof.
  unfold clearFile. destruct (fileClasses ts !! uri) as [names|]; simpl.
  - rewrite foldr_delete_lookup.
    repeat case_bool_decide; set_solver.
  - by rewrite bool_decide_eq_false_2 by set_solver.
Qed.

Lemma clearFile_fileClasses ts uri u :
  fileClasses (clearFile ts uri) !! u
  = if bool_decide (u = uri) then None else fileClasses ts !! u.
Proof.
  unfold clearFile. destruct (fileClasses ts !! uri) as [names|] eqn:Hu; simpl.
  - case_bool_decide as Heq; [subst; by rewrite lookup_delete_eq|].
    by rewrite lookup_delete_ne.
  - case_bool_decide; by subst.
Qed.

Lemma classes_filed_empty : classes_filed empty.
Proof. intros n ci. simpl. by rewrite lookup_empty. Qed.

Lemma classes_filed_addClass ts info : classes_filed ts -> classes_filed (addClass ts info).
Proof.
  intros Hfiled.
  assert (classes_filed
    {| classes := <[ci_name info := set_allFields None info]> (classes ts);
       fileClasses :=
         <[ci_uri info :=
             default ∅ (fileClasses ts !! ci_uri info) ∪ {[ci_name info]}]>
           (fileClasses ts) |}) as Hstore.
  { intros n ci. simpl. destruct (decide (ci_name info = n)) as [<-|Hne].
    - rewrite lookup_insert_eq. intros [= <-]. simpl.
      rewrite lookup_insert_eq. simpl. split; [done|set_solver].
    - rewrite lookup_insert_ne by done. intros Hn.
      destruct (Hfiled n ci Hn) as [Hname Hin]. split; [done|].
      destruct (decide (ci_uri info = ci_uri ci)) as [Heq|Hneq].
      + rewrite Heq, lookup_insert_eq. simpl. set_solver.
      + by rewrite lookup_insert_ne. }
  unfold addClass. destruct (classes ts !! ci_name info) as [existing|]; [|done].
  by destruct (negb _ && _).
Qed.

Lemma classes_filed_clearFile ts uri : classes_filed ts -> classes_filed (clearFile ts uri).
Proof.
  intros Hfiled n ci. rewrite clearFile_lookup.
  case_bool_decide as Hin; [done|]. intros Hn.
  destruct (Hfiled n ci Hn) as [Hname Hlisted]. split; [done|].
  rewrite clearFile_fileClasses.
  case_bool_decide as Heq; [|done]. by rewrite Heq in Hlisted.
Qed.

Lemma getAllFields_parents_frame
    (rec : t -> string -> option (gmap string FieldInfo * t)) :
  (forall ts c m ts', rec ts c = Some (m, ts') ->
     same_classes (classes ts') (classes ts) /\ fileClasses ts' = fileClasses ts) ->
  forall ps acc ts m ts',
    getAllFields_parents rec ps acc ts = Some (m, ts') ->
    same_classes (classes ts') (classes ts) /\ fileClasses ts' = fileClasses ts.
Proof.
  intros Hrec ps. induction ps as [|p ps IH]; intros acc ts m ts'; simpl.
  - by intros [= _ <-].
  - destruct (rec ts p) as [[pf ts1]|] eqn:Hp; [|done]. intros Hrest.
    destruct (Hrec _ _ _ _ Hp) as [Hs1 Hf1].
    destruct (IH _ _ _ _ Hrest) as [Hs2 Hf2].
    unfold same_classes in *. split; congruence.
Qed.

(** [getAllFields] writes cached views and nothing else. *)
Lemma getAllFields_frame fuel :
  forall ts c m ts', getAllFields fuel ts c = Some (m, ts') ->
    same_classes (classes ts') (classes ts) /\ fileClasses ts' = fileClasses ts.
Proof.
  induction fuel as [|fuel IH]; intros ts c m ts'; simpl; [done|].
  destruct (classes ts !! c) as [ci|]; [|by intros [= _ <-]].
  destruct (ci_allFields ci); [by intros [= _ <-]|].
  destruct (getAllFields_parents _ _ _ _) as [[inherited ts1]|] eqn:Hps; [|done].
  intros [= _ <-]. simpl.
  destruct (getAllFields_parents_frame _ IH _ _ _ _ _ Hps) as [Hs Hf].
  split; [|done]. unfold same_classes in *. rewrite <- Hs.
  apply same_classes_alter.
Qed.

Lemma same_classes_filed ts ts' :
  same_classes (classes ts') (classes ts) -> fileClasses ts' = fileClasses ts ->
  classes_filed ts -> classes_filed ts'.
Proof.
  intros Hs Hf Hfiled n ci' Hn.
  pose proof (same_classes_lookup _ _ n Hs) as Hlook. rewrite Hn in Hlook.
  destruct (classes ts !! n) as [ci|] eqn:Hc; [|done].
  simpl in Hlook. injection Hlook as Hlook.
  destruct (Hfiled n ci Hc) as [Hname Hin].
  assert (ci_name ci' = ci_name ci /\ ci_uri ci' = ci_uri ci) as [-> ->].
  { unfold set_allFields in Hlook. split; congruence. }
  by rewrite Hf.
Qed.

Lemma ts_reachable_filed ts : ts_reachable ts -> classes_filed ts.
Proof.
  induction 1 as [|ts info _ IH|ts uri _ IH|ts fuel c m ts' _ IH Hrun].
  - apply classes_filed_empty.
  - by apply classes_filed_addClass.
  - by apply classes_filed_clearFile.
  - destruct (getAllFields_frame _ _ _ _ _ Hrun). by eapply same_classes_filed.
Qed.

(** X6. After [clearFile uri] on a type system reached through the
    public methods: no class of that file is left; every name that was
    listed for the file is unknown, whichever file its stored record came
    from; a class under any other name is as it was; and the file has no
    list any more while the lists of the other files are as they were. *)
Theorem clearFile_removes_listed_classes (ts : t) (uri : string) :
  ts_reachable ts ->
  (forall n ci, getClass (clearFile ts uri) n = Some ci ->
     ci_uri ci <> uri /\ ci_name ci = n /\ getClass ts n = Some ci) /\
  (forall n, n ∈ default ∅ (fileClasses ts !! uri) ->
     getClass (clearFile ts uri) n = None) /\
  (forall n, n ∉ default ∅ (fileClasses ts !! uri) ->
     getClass (clearFile ts uri) n = getClass ts n) /\
  fileClasses (clearFile ts uri) !! uri = None /\
  (forall u, u <> uri ->
     fileClasses (clearFile ts uri) !! u = fileClasses ts !! u).
Proof.
  intros Hreach. pose proof (ts_reachable_filed ts Hreach) as Hfiled.
  unfold getClass. split; [|split; [|split; [|split]]].
  - intros n ci. rewrite clearFile_lookup.
    case_bool_decide as Hin; [done|]. intros Hn.
    destruct (Hfiled n ci Hn) as [Hname Hlisted].
    split; [|done]. intros Heq. by rewrite Heq in Hlisted.
  - intros n Hin. rewrite clearFile_lookup. by rewrite bool_decide_eq_true_2.
  - intros n Hin. rewrite clearFile_lookup. by rewrite bool_decide_eq_false_2.
  - rewrite clearFile_fileClasses. by rewrite bool_decide_eq_true_2.
  - intros u Hne. rewrite clearFile_fileClasses. by rewrite bool_decide_eq_false_2.
Qed.

(** ** Ancestors *)

(** [p] is an ancestor of [c]: a parent name of [c], or an ancestor of a
    parent of [c].  Only a registered class has parent names. *)
Inductive ancestor (ts : t) : string -> string -> Prop :=
| ancestor_parent c ci p :
    classes ts !! c = Some ci -> p ∈ ci_parentClasses ci -> ancestor ts c p
| ancestor_step c ci q p :
    classes ts !! c = Some ci -> q ∈ ci_parentClasses ci ->
    ancestor ts q p -> ancestor ts c p.

Lemma ancestor_registered ts c p : ancestor ts c p -> is_Some (classes ts !! c).
Proof. destruct 1; eauto. Qed.

(** All parent names of [n] have been appended, and the registered ones
    entered. *)
Definition walk_closed (ts : t) (st : collect_state) (n : string) : Prop :=
  forall ci p, classes ts !! n = Some ci -> p ∈ ci_parentClasses ci ->
    p ∈ st.1 /\ (is_Some (classes ts !! p) -> p ∈ st.2).

Definition walk_extends (st st' : collect_state) : Prop :=
  (forall p, p ∈ st.1 -> p ∈ st'.1) /\ st.2 ⊆ st'.2.

Lemma walk_extends_refl st : walk_extends st st.
Proof. done. Qed.

Lemma walk_extends_trans st1 st2 st3 :
  walk_extends st1 st2 -> walk_extends st2 st3 -> walk_extends st1 st3.
Proof. intros [? ?] [? ?]. split; [auto|set_solver]. Qed.

Lemma walk_closed_extends ts st st' n :
  walk_extends st st' -> walk_closed ts st n -> walk_closed ts st' n.
Proof.
  intros [Hp Hv] Hclosed ci p Hn Hin.
  destruct (Hclosed ci p Hn Hin) as [? Hreg]. split; [auto|]. set_solver.
Qed.

(** What a call of [collect] on [name] has done when it returns. *)
Definition collect_walk (ts : t) (name : string) (st st' : collect_state) : Prop :=
  walk_extends st st' /\
  (is_Some (classes ts !! name) -> name ∈ st'.2) /\
  (forall n, n ∈ st'.2 -> n ∈ st.2 \/ walk_closed ts st' n) /\
  (forall p, p ∈ st'.1 -> p ∈ st.1 \/ ancestor ts name p).

Lemma collect_loop_walk ts (rec : string -> collect_state -> option collect_state) :
  (forall p st st', rec p st = Some st' -> collect_walk ts p st st') ->
  forall ps st st',
    collect_loop rec ps st = Some st' ->
    walk_extends st st' /\
    (forall p, p ∈ ps -> p ∈ st'.1 /\ (is_Some (classes ts !! p) -> p ∈ st'.2)) /\
    (forall n, n ∈ st'.2 -> n ∈ st.2 \/ walk_closed ts st' n) /\
    (forall p, p ∈ st'.1 ->
       p ∈ st.1 \/ p ∈ ps \/ exists q, q ∈ ps /\ ancestor ts q p).
Proof.
  intros Hrec ps. induction ps as [|p ps IH]; intros st st'; simpl.
  - intros [= <-]. split; [done|]. split; [set_solver|]. split; auto.
  - set (parents1 := if bool_decide (p ∈ st.1) then st.1 else st.1 ++ [p]).
    destruct (rec p (parents1, st.2)) as [st1|] eqn:Hp; [|done]. intros Hloop.
    destruct (Hrec _ _ _ Hp) as (Hext1 & Hin1 & Hclosed1 & Hsound1).
    destruct (IH _ _ Hloop) as (Hext2 & Hin2 & Hclosed2 & Hsound2).
    assert (forall x, x ∈ parents1 <-> x ∈ st.1 \/ x = p) as Hparents1.
    { intros x. unfold parents1. case_bool_decide; set_solver. }
    assert (walk_extends st (parents1, st.2)) as Hext0.
    { split; [|done]. intros x Hx. apply Hparents1. by left. }
    split; [|split; [|split]].
    + eauto using walk_extends_trans.
    + intros q Hq. apply elem_of_cons in Hq as [->|Hq]; [|by apply Hin2].
      destruct Hext2 as [Hp2 Hv2]. destruct Hext1 as [Hp1 Hv1]. split.
      * apply Hp2, Hp1. apply Hparents1. by right.
      * intros Hreg. apply Hv2. by apply Hin1.
    + intros n Hn. destruct (Hclosed2 n Hn) as [Hold|?]; [|by right].
      destruct (Hclosed1 n Hold) as [?|Hc]; [by left|].
      right. by eapply walk_closed_extends.
    + intros x Hx. destruct (Hsound2 x Hx) as [Hold|[Hps|(q & Hq & Hanc)]].
      * destruct (Hsound1 x Hold) as [Hx1|Hanc].
        -- apply Hparents1 in Hx1 as [? | ->]; [by left|].
           right. left. set_solver.
        -- right. right. exists p. split; [set_solver|done].
      * right. left. set_solver.
      * right. right. exists q. split; [set_solver|done].
Qed.

Lemma collect_walks ts fuel :
  forall name st st', collect fuel ts name st = Some st' ->
                      collect_walk ts name st st'.
Proof.
  induction fuel as [|fuel IH]; intros name st st'; simpl; [done|].
  destruct (classes ts !! name) as [ci|] eqn:Hc.
  - case_bool_decide as Hvis.
    + intros [= <-]. split; [done|]. split; [done|]. split; auto.
    + intros Hloop.
      destruct (collect_loop_walk ts (collect fuel ts) IH _ _ _ Hloop)
        as (Hext & Hin & Hclosed & Hsound). simpl in *.
      split; [|split; [|split]].
      * destruct Hext as [Hp Hv]. split; [done|]. simpl in *. set_solver.
      * intros _. destruct Hext as [_ Hv]. simpl in Hv. set_solver.
      * intros n Hn. destruct (Hclosed n Hn) as [Hold|?]; [|by right].
        apply elem_of_union in Hold as [Hname|?]; [|by left].
        apply elem_of_singleton in Hname as ->. right.
        intros ci' p Hc' Hp. assert (ci' = ci) as -> by congruence.
        by apply Hin.
      * intros p Hp. destruct (Hsound p Hp) as [?|[Hps|(q & Hq & Hanc)]].
        -- by left.
        -- right. by eapply ancestor_parent.
        -- right. by eapply ancestor_step.
  - intros [= <-]. split; [done|]. split; [intros [? ?]; congruence|].
    split; auto.
Qed.

(** The walk from the empty arrays appends the ancestors and nothing
    else. *)
Lemma getAllParentClasses_ancestors ts c :
  exists parents,
    getAllParentClasses ts c = Some parents /\
    forall p, p ∈ parents <-> ancestor ts c p.
Proof.
  unfold getAllParentClasses.
  destruct (collect_terminates ts (S (size (classes ts))) c ([], ∅))
    as (st' & Hrun & _ & _).
  { simpl. rewrite difference_empty_L, size_dom. lia. }
  rewrite Hrun. exists st'.1. split; [done|].
  destruct (collect_walks _ _ _ _ _ Hrun) as (_ & Hentered & Hclosed & Hsound).
  intros p. split.
  - intros Hp. destruct (Hsound p Hp) as [Hnil|?]; [|done]. simpl in Hnil.
    set_solver.
  - intros Hanc. pose proof (ancestor_registered _ _ _ Hanc) as Hreg.
    apply Hentered in Hreg. revert Hreg.
    clear -Hanc Hclosed.
    induction Hanc as [c ci p Hc Hp|c ci q p Hc Hq Hanc IH]; intros Hvis.
    + destruct (Hclosed c Hvis) as [Hnil|Hcl]; [set_solver|].
      by destruct (Hcl ci p Hc Hp).
    + destruct (Hclosed c Hvis) as [Hnil|Hcl]; [set_solver|].
      destruct (Hcl ci q Hc Hq) as [_ Hreg].
      apply IH, Hreg. by eapply ancestor_registered.
Qed.

(** X7. [getAllParentClasses] returns exactly the ancestors of the
    class: every name reached over parent names from the class through
    registered classes, cycles included, and no other name; so a class
    on a cycle is listed among its own ancestors, and an unregistered
    class has none. *)
Theorem getAllParentClasses_exactly_ancestors (ts : t) (className : string) :
  exists parents,
    getAllParentClasses ts className = Some parents /\
    (forall p, p ∈ parents <-> ancestor ts className p) /\
    (getClass ts className = None -> parents = []).
Proof.
  destruct (getAllParentClasses_ancestors ts className) as (parents & Hrun & Hps).
  exists parents. split; [done|]. split; [done|].
  unfold getClass. intros Hnone. destruct parents as [|p parents]; [done|].
  assert (ancestor ts className p) as Hanc by (apply Hps; set_solver).
  apply ancestor_registered in Hanc as [? ?]. congruence.
Qed.

(** ** [inheritsFrom] *)

Lemma inheritsFrom_parents_result (rec : string -> option bool) ps b :
  inheritsFrom_parents rec ps = Some b ->
  if b then exists q, q ∈ ps /\ rec q = Some true
  else forall q, q ∈ ps -> rec q = Some false.
Proof.
  induction ps as [|p ps IH]; simpl.
  - intros [= <-]. set_solver.
  - destruct (rec p) as [[|]|] eqn:Hp; [| |done].
    + intros [= <-]. exists p. split; [set_solver|done].
    + intros Hrest. specialize (IH Hrest). destruct b.
      * destruct IH as (q & Hq & Hrec). exists q. split; [set_solver|done].
      * intros q Hq. apply elem_of_cons in Hq as [->|Hq]; auto.
Qed.

Lemma inheritsFrom_sound ts p fuel :
  forall c b, inheritsFrom fuel ts c p = Some b -> (b = true <-> ancestor ts c p).
Proof.
  induction fuel as [|fuel IH]; intros c b; simpl; [done|].
  destruct (classes ts !! c) as [ci|] eqn:Hc.
  - case_bool_decide as Hdirect.
    + intros [= <-]. split; [|done]. intros _. by eapply ancestor_parent.
    + intros Hloop. apply inheritsFrom_parents_result in Hloop. destruct b.
      * destruct Hloop as (q & Hq & Hrec). split; [|done]. intros _.
        eapply ancestor_step; [done..|]. by apply (IH q true).
      * split; [done|]. intros Hanc. exfalso.
        inversion Hanc as [c' ci' p' Hc' Hp|c' ci' q p' Hc' Hq Hrest]; subst;
          assert (ci' = ci) as -> by congruence; [done|].
        specialize (Hloop q Hq). apply IH in Hloop.
        destruct Hloop as [_ Hloop]. by specialize (Hloop Hrest).
  - intros [= <-]. split; [done|]. intros Hanc.
    apply ancestor_registered in Hanc as [? ?]. congruence.
Qed.

Lemma inheritsFrom_parents_returns (rec : nat -> string -> option bool) ps :
  (forall q, q ∈ ps ->
     exists n b, forall fuel, n <= fuel -> rec fuel q = Some b) ->
  exists n b, forall fuel, n <= fuel ->
    inheritsFrom_parents (rec fuel) ps = Some b.
Proof.
  induction ps as [|p ps IH]; intros Hall; simpl.
  - by exists 0, false.
  - destruct (Hall p) as (n1 & b1 & H1); [set_solver|].
    destruct IH as (n2 & b2 & H2); [intros q Hq; apply Hall; set_solver|].
    destruct b1.
    + exists n1, true. intros fuel Hle. by rewrite H1.
    + exists (n1 `max` n2), b2. intros fuel Hle. rewrite H1 by lia.
      apply H2. lia.
Qed.

Lemma inheritsFrom_returns ts (rank : string -> nat) p :
  (forall c ci q, classes ts !! c = Some ci -> q ∈ ci_parentClasses ci ->
                  rank q < rank c) ->
  forall c, exists n b, forall fuel, n <= fuel ->
    inheritsFrom fuel ts c p = Some b.
Proof.
  intros Hrank c. remember (rank c) as k eqn:Hk. revert c Hk.
  induction k as [k IH] using lt_wf_ind. intros c ->.
  destruct (classes ts !! c) as [ci|] eqn:Hc.
  - destruct (decide (p ∈ ci_parentClasses ci)) as [Hdirect|Hdirect].
    + exists 1, true. intros [|fuel] ?; [lia|]. simpl. rewrite Hc.
      by rewrite bool_decide_eq_true_2.
    + destruct (inheritsFrom_parents_returns
                  (fun fuel q => inheritsFrom fuel ts q p) (ci_parentClasses ci))
        as (n & b & Hn).
      { intros q Hq. eapply IH; [|reflexivity]. by eapply Hrank. }
      exists (S n), b. intros [|fuel] ?; [lia|]. simpl. rewrite Hc.
      rewrite bool_decide_eq_false_2 by done. apply Hn. lia.
  - exists 1, false. intros [|fuel] ?; [lia|]. simpl. by rewrite Hc.
Qed.

(** X8. Whenever [inheritsFrom] returns, it says whether the name is an
    ancestor of the class, which is whether [getAllParentClasses] lists
    it; and it returns, for every fuel from some depth on, in every
    hierarchy without cycles (parents rank strictly below their
    children). *)
Theorem inheritsFrom_decides_ancestor (ts : t) :
  (forall fuel c p b,
     inheritsFrom fuel ts c p = Some b ->
     (b = true <-> ancestor ts c p) /\
     exists parents, getAllParentClasses ts c = Some parents /\
                     (b = true <-> p ∈ parents)) /\
  (forall (rank : string -> nat) c p,
     (forall c ci q, classes ts !! c = Some ci -> q ∈ ci_parentClasses ci ->
                     rank q < rank c) ->
     exists n b, forall fuel, n <= fuel -> inheritsFrom fuel ts c p = Some b).
Proof.
  split.
  - intros fuel c p b Hrun.
    pose proof (inheritsFrom_sound _ _ _ _ _ Hrun) as Hb. split; [done|].
    destruct (getAllParentClasses_ancestors ts c) as (parents & Hps & Hanc).
    exists parents. split; [done|]. by rewrite Hb, Hanc.
  - intros rank c p Hrank. by eapply inheritsFrom_returns.
Qed.

(** ** [findFieldDefinition] and [getAllFields] side by side *)

(** No class lists more than one parent. *)
Definition single_inheritance (ts : t) : Prop :=
  forall c ci, classes ts !! c = Some ci -> length (ci_parentClasses ci) <= 1.

(** No merged view is cached, as after registrations alone. *)
Definition uncached (ts : t) : Prop :=
  forall c ci, classes ts !! c = Some ci -> ci_allFields ci = None.

Lemma uncached_coherent ts : uncached ts -> coherent ts.
Proof. intros H c ci m Hc Hm. rewrite (H c ci Hc) in Hm. done. Qed.

Lemma uncached_empty : uncached empty.
Proof. intros c ci. simpl. by rewrite lookup_empty. Qed.

Lemma uncached_addClass ts info : uncached ts -> uncached (addClass ts info).
Proof.
  intros H. unfold addClass.
  assert (uncached
    {| classes := <[ci_name info := set_allFields None info]> (classes ts);
       fileClasses :=
         <[ci_uri info :=
             default ∅ (fileClasses ts !! ci_uri info) ∪ {[ci_name info]}]>
           (fileClasses ts) |}) as Hstore.
  { intros c ci. simpl. destruct (decide (ci_name info = c)) as [<-|Hne].
    - rewrite lookup_insert_eq. by intros [= <-].
    - rewrite lookup_insert_ne by done. apply H. }
  destruct (classes ts !! ci_name info) as [existing|]; [|done].
  by destruct (negb _ && _).
Qed.

Lemma uncached_foldl_addClass infos :
  forall ts, uncached ts -> uncached (foldl addClass ts infos).
Proof.
  induction infos as [|info infos IH]; intros ts H; [done|].
  simpl. by apply IH, uncached_addClass.
Qed.

Lemma first_parent_snoc ts f ps p r :
  first_parent ts f (ps ++ [p]) r ->
  (exists fi, r = Some fi /\ first_parent ts f ps (Some fi)) \/
  (first_parent ts f ps None /\ resolves ts f p r).
Proof.
  revert r. induction ps as [|a ps IH]; intros r; simpl; intros H.
  - right. split; [constructor|].
    inversion H as [|? ? fi Hhit|? ? ? Hmiss Hrest]; subst; [done|].
    inversion Hrest; by subst.
  - inversion H as [|? ? fi Hhit|? ? ? Hmiss Hrest]; subst.
    + left. exists fi. split; [done|]. by constructor.
    + destruct (IH _ Hrest) as [(fi & -> & Hps)|[Hps Hp]].
      * left. exists fi. split; [done|]. by apply first_parent_miss.
      * right. split; [|done]. by apply first_parent_miss.
Qed.

(** The merged view holds a field exactly when the lookup resolves it;
    with at most one parent per class they hold the same declaration. *)
Lemma merged_resolves ts f c m :
  merged (classes ts) c m ->
  forall r, resolves ts f c r ->
    (is_Some (m !! f) <-> is_Some r) /\
    (single_inheritance ts -> m !! f = r).
Proof.
  intros H.
  induction H using merged_mut with
    (P0 := fun ps acc _ =>
       forall r, first_parent ts f ps r ->
         (is_Some (acc !! f) <-> is_Some r) /\
         (single_inheritance ts -> length ps <= 1 -> acc !! f = r)).
  - intros r Hr. inversion Hr; subst; try congruence.
    rewrite lookup_empty. split; [|done]. by rewrite <- !not_eq_None_Some.
  - intros r Hr.
    inversion Hr as [? Hc|? ci' fi Hc Hown|? ci' ? Hc Hown Hps]; subst;
      try congruence; assert (ci' = ci) as -> by congruence.
    + rewrite (lookup_union_Some_l _ _ _ _ Hown). split; [|done].
      split; eauto.
    + rewrite lookup_union_r by done.
      destruct (IHmerged r Hps) as [Hdom Hval]. split; [done|].
      intros Hsingle. apply Hval; [done|]. by eapply Hsingle.
  - intros r Hr. inversion Hr; subst. rewrite lookup_empty.
    split; [|done]. by rewrite <- !not_eq_None_Some.
  - intros r Hr.
    destruct (first_parent_snoc _ _ _ _ _ Hr) as [(fi & -> & Hps)|[Hps Hp]].
    + destruct (IHmerged _ Hps) as [Hdom _]. split.
      * split; [eauto|]. intros _.
        destruct (pf !! f) as [x|] eqn:Hpf.
        -- rewrite (lookup_union_Some_l _ _ _ _ Hpf). eauto.
        -- rewrite lookup_union_r by done. apply Hdom. eauto.
      * intros _ Hlen. rewrite length_app in Hlen. simpl in Hlen.
        destruct ps; [|simpl in Hlen; lia]. inversion Hps.
    + destruct (IHmerged _ Hps) as [Hdom _].
      destruct (IHmerged0 _ Hp) as [Hdom' Hval'].
      assert (earlier !! f = None) as Hearlier.
      { apply eq_None_not_Some. intros Hsome. apply Hdom in Hsome.
        by destruct Hsome. }
      assert ((pf ∪ earlier) !! f = pf !! f) as ->.
      { destruct (pf !! f) as [x|] eqn:Hpf.
        - by rewrite (lookup_union_Some_l _ _ _ _ Hpf).
        - by rewrite lookup_union_r. }
      split; [done|]. intros Hsingle _. by apply Hval'.
Qed.

Lemma getAllFields_parents_sound cls
    (rec : t -> string -> option (gmap string FieldInfo * t)) :
  (forall ts c m ts',
     same_classes (classes ts) cls -> coherent ts -> rec ts c = Some (m, ts') ->
     merged cls c m /\ same_classes (classes ts') cls /\ coherent ts') ->
  forall ps earlier acc ts m ts',
    same_classes (classes ts) cls -> coherent ts ->
    merged_parents cls earlier acc ->
    getAllFields_parents rec ps acc ts = Some (m, ts') ->
    merged_parents cls (earlier ++ ps) m /\
    same_classes (classes ts') cls /\ coherent ts'.
Proof.
  intros Hrec ps. induction ps as [|p ps IH];
    intros earlier acc ts m ts' Hs Hco Hacc; simpl.
  - intros [= <- <-]. by rewrite app_nil_r.
  - destruct (rec ts p) as [[pf ts1]|] eqn:Hp; [|done]. intros Hrest.
    destruct (Hrec _ _ _ _ Hs Hco Hp) as (Hpf & Hs1 & Hco1).
    destruct (IH (earlier ++ [p]) _ _ _ _ Hs1 Hco1
                 (merged_parents_snoc _ _ _ _ _ Hacc Hpf) Hrest)
      as (Hm & Hs2 & Hco2).
    by rewrite <- app_assoc in Hm.
Qed.

(** From a coherent state, what [getAllFields] returns is the merged
    view, and the state it leaves is coherent. *)
Lemma getAllFields_sound cls fuel :
  forall ts c m ts',
    same_classes (classes ts) cls -> coherent ts ->
    getAllFields fuel ts c = Some (m, ts') ->
    merged cls c m /\ same_classes (classes ts') cls /\ coherent ts'.
Proof.
  induction fuel as [|fuel IH]; intros ts c m ts' Hs Hco; simpl; [done|].
  destruct (classes ts !! c) as [ci|] eqn:Hc.
  - destruct (ci_allFields ci) as [cached|] eqn:Hcache.
    + intros [= <- <-]. split; [|done].
      eapply merged_same; [exact Hs|]. by eapply Hco.
    + destruct (getAllFields_parents _ _ _ _) as [[inherited ts1]|] eqn:Hps;
        [|done].
      intros [= <- <-].
      destruct (getAllFields_parents_sound cls _ IH _ [] _ _ _ _ Hs Hco
                  (merged_parents_nil _) Hps) as (Hm & Hs1 & Hco1).
      simpl in Hm.
      destruct (same_classes_Some _ _ _ _ Hs Hc) as (ci' & Hc' & Hps' & Hfs').
      assert (merged cls c (ci_fields ci ∪ inherited)) as Hmerged.
      { rewrite <- Hfs'. eapply merged_class; [done|]. by rewrite Hps'. }
      split; [done|]. split.
      * simpl. unfold same_classes in *. rewrite <- Hs1.
        apply same_classes_alter.
      * intros c' ci1 m1. simpl. intros Hc1 Hm1.
        eapply merged_same; [apply same_classes_sym, same_classes_alter|].
        destruct (decide (c = c')) as [<-|Hne].
        -- rewrite lookup_alter_eq in Hc1.
           destruct (classes ts1 !! c) as [ci1'|] eqn:Hc1'; [|done].
           simpl in Hc1. injection Hc1 as <-. simpl in Hm1. injection Hm1 as <-.
           eapply merged_same; [apply same_classes_sym, Hs1|]. done.
        -- rewrite lookup_alter_ne in Hc1 by done. by eapply Hco1.
  - intros [= <- <-]. split; [|done]. apply merged_unknown.
    by eapply same_classes_None.
Qed.

Lemma first_parent_exists ts f ps :
  (forall p, p ∈ ps -> exists r, resolves ts f p r) ->
  exists r, first_parent ts f ps r.
Proof.
  induction ps as [|p ps IH]; intros Hall.
  - exists None. constructor.
  - destruct (Hall p) as [[fi|] Hp]; [set_solver| |].
    + exists (Some fi). by constructor.
    + destruct IH as [r Hr]; [intros q Hq; apply Hall; set_solver|].
      exists r. by apply first_parent_miss.
Qed.

Lemma resolves_exists ts f (rank : string -> nat) :
  (forall c ci p, classes ts !! c = Some ci -> p ∈ ci_parentClasses ci ->
                  rank p < rank c) ->
  forall c, exists r, resolves ts f c r.
Proof.
  intros Hrank c. remember (rank c) as k eqn:Hk. revert c Hk.
  induction k as [k IH] using lt_wf_ind. intros c ->.
  destruct (classes ts !! c) as [ci|] eqn:Hc.
  - destruct (ci_fields ci !! f) as [fi|] eqn:Hown.
    + exists (Some fi). by eapply resolves_own.
    + destruct (first_parent_exists ts f (ci_parentClasses ci)) as [r Hr].
      * intros p Hp. eapply IH; [|reflexivity]. by eapply Hrank.
      * exists r. by eapply resolves_parent.
  - exists None. by constructor.
Qed.

(** X9. From a state whose cached views are merged views, whenever
    [getAllFields] and [findFieldDefinition] both return for a class,
    the merged view holds a field exactly when the lookup finds it, and
    with at most one parent per class it holds the declaration that the
    lookup finds; in a hierarchy without cycles both return, for every
    fuel from some depth on. *)
Theorem getAllFields_findFieldDefinition_agree (ts : t) :
  coherent ts ->
  (forall fuel fuel' c f m ts' r,
     getAllFields fuel ts c = Some (m, ts') ->
     findFieldDefinition fuel' ts c f = Some r ->
     (is_Some (m !! f) <-> is_Some r) /\
     (single_inheritance ts -> m !! f = r)) /\
  (forall (rank : string -> nat) c f,
     (forall c ci p, classes ts !! c = Some ci -> p ∈ ci_parentClasses ci ->
                     rank p < rank c) ->
     exists n m ts' r, forall fuel, n <= fuel ->
       getAllFields fuel ts c = Some (m, ts') /\
       findFieldDefinition fuel ts c f = Some r).
Proof.
  intros Hco. split.
  - intros fuel fuel' c f m ts' r Hall Hfind.
    destruct (getAllFields_sound (classes ts) _ _ _ _ _ eq_refl Hco Hall)
      as (Hm & _).
    apply findFieldDefinition_sound in Hfind.
    by apply (merged_resolves ts f c m).
  - intros rank c f Hrank.
    destruct (merged_exists (classes ts) rank Hrank c) as [m Hm].
    destruct (getAllFields_merged_aux _ _ _ Hm ts eq_refl Hco)
      as (n1 & ts' & Hrun & _).
    destruct (resolves_exists ts f rank Hrank c) as [r Hr].
    destruct (findFieldDefinition_complete _ _ _ _ Hr) as [n2 Hfind].
    exists (n1 `max` n2), m, ts', r. intros fuel Hle.
    split; [apply Hrun|apply Hfind]; lia.
Qed.

End TypeSystemQueries.

Section TypeSystemQueryExamples.
Import TypeSystem Examples.

Lemma clearFile_removes_listed_classes_witness :
  ts_reachable (foldl addClass empty [A_info; B_info; C_info]) /\
  getClass (clearFile (foldl addClass empty [A_info; B_info; C_info]) uri_td) "C"
  = None.
Proof.
  assert (ts_reachable (foldl addClass empty [A_info; B_info; C_info])) as Hreach.
  { simpl. repeat constructor. }
  split; [exact Hreach|].
  apply (proj1 (proj2 (clearFile_removes_listed_classes
                         (foldl addClass empty [A_info; B_info; C_info])
                         uri_td Hreach))).
  vm_compute. reflexivity.
Defined.

(** A class registered again from a second file is stored with that
    file's record and stays listed for the first file, so clearing the
    first file removes it. *)
Lemma clearFile_removes_class_of_other_file :
  let ts := addClass (addClass empty (class_info "A" uriA 0 [] ∅ false))
                     (class_info "A" uriB 0 [] ∅ false) in
  (ci_uri <$> getClass ts "A") = Some uriB /\
  getClass (clearFile ts uriA) "A" = None /\
  fileClasses (clearFile ts uriA) !! uriB = Some {["A"]}.
Proof. vm_compute. repeat split. Qed.

Lemma inheritsFrom_decides_ancestor_witness :
  inheritsFrom 2 (foldl addClass empty [A_info; B_info; C_info]) "C" "B"
  = Some true /\
  ancestor (foldl addClass empty [A_info; B_info; C_info]) "C" "B".
Proof.
  assert (inheritsFrom 2 (foldl addClass empty [A_info; B_info; C_info]) "C" "B"
          = Some true) as Hrun by (vm_compute; reflexivity).
  split; [exact Hrun|].
  apply (proj1 (proj1 (inheritsFrom_decides_ancestor
                         (foldl addClass empty [A_info; B_info; C_info]))
                  2 "C" "B" true Hrun)).
  reflexivity.
Defined.

(** On a cycle [inheritsFrom] runs out of every fuel when the name asked
    is no ancestor, and [getAllParentClasses] returns. *)
Lemma inheritsFrom_cycle :
  (forall fuel, inheritsFrom fuel cyclic_classes "A" "Z" = None) /\
  inheritsFrom 1 cyclic_classes "A" "B" = Some true /\
  getAllParentClasses cyclic_classes "A" = Some ["B"; "A"].
Proof.
  split; [|split; vm_compute; reflexivity].
  assert (forall fuel, inheritsFrom fuel cyclic_classes "A" "Z" = None /\
                       inheritsFrom fuel cyclic_classes "B" "Z" = None) as H.
  { induction fuel as [|fuel [IHA IHB]]; [done|].
    split.
    - change (inheritsFrom (S fuel) cyclic_classes "A" "Z")
        with (match inheritsFrom fuel cyclic_classes "B" "Z" with
              | None => None | Some true => Some true | Some false => Some false
              end).
      by rewrite IHB.
    - change (inheritsFrom (S fuel) cyclic_classes "B" "Z")
        with (match inheritsFrom fuel cyclic_classes "A" "Z" with
              | None => None | Some true => Some true | Some false => Some false
              end).
      by rewrite IHA. }
  intros fuel. apply H.
Qed.

Lemma getAllFields_findFieldDefinition_agree_witness :
  coherent (foldl addClass empty [Base_info; Child_info]) /\
  (forall fuel fuel' c f m ts' r,
     getAllFields fuel (foldl addClass empty [Base_info; Child_info]) c
     = Some (m, ts') ->
     findFieldDefinition fuel' (foldl addClass empty [Base_info; Child_info]) c f
     = Some r ->
     is_Some (m !! f) <-> is_Some r).
Proof.
  assert (coherent (foldl addClass empty [Base_info; Child_info])) as Hco.
  { apply uncached_coherent, uncached_foldl_addClass, uncached_empty. }
  split; [exact Hco|].
  intros fuel fuel' c f m ts' r Hall Hfind.
  exact (proj1 (proj1 (getAllFields_findFieldDefinition_agree _ Hco)
                  fuel fuel' c f m ts' r Hall Hfind)).
Defined.

(** With two parents that declare the same field the two disagree on the
    declaration: the lookup takes the first parent's, the merged view
    the last parent's. *)
Lemma getAllFields_findFieldDefinition_differ :
  let ts := foldl addClass empty [A_info; B_info; C_info] in
  findFieldDefinition 2 ts "C" "F" = Some (Some (field "F" uri_td 1)) /\
  (fst <$> getAllFields 2 ts "C") ≫= (fun m => m !! "F")
  = Some (field "F" uri_td 2).
Proof. vm_compute. repeat split. Qed.

End TypeSystemQueryExamples.
(* ===================================================================== *)
(** * typeSystem.ts: what the type collector registers *)
(* ===================================================================== *)

Section TypeCollectorFacts.
Import TypeSystem TypeCollector.

Variable uri : string.

Local Abbreviation listed ts := (default (∅ : gset string) (fileClasses ts !! uri)).

(** From [ts] to [ts'] classes of the file [uri] have been registered,
    and nothing else was done. *)
Definition registered (ts ts' : TypeSystem.t) : Prop :=
  (forall u, u <> uri -> fileClasses ts' !! u = fileClasses ts !! u) /\
  listed ts ⊆ listed ts' /\
  (forall n, n ∉ listed ts' -> classes ts' !! n = classes ts !! n) /\
  (forall n ci, classes ts' !! n = Some ci ->
     classes ts !! n = Some ci \/
     (ci_name ci = n /\ ci_uri ci = uri /\ ci_allFields ci = None /\
      n ∈ listed ts')).

Lemma registered_refl ts : registered ts ts.
Proof. repeat split; auto. Qed.

Lemma registered_trans ts1 ts2 ts3 :
  registered ts1 ts2 -> registered ts2 ts3 -> registered ts1 ts3.
Proof.
  intros (Hf1 & Hl1 & Hc1 & Hn1) (Hf2 & Hl2 & Hc2 & Hn2).
  split; [|split; [|split]].
  - intros u Hu. by rewrite Hf2, Hf1.
  - set_solver.
  - intros n Hn. rewrite Hc2 by done. apply Hc1. set_solver.
  - intros n ci Hci. destruct (Hn2 n ci Hci) as [Hold|?]; [|by right].
    destruct (Hn1 n ci Hold) as [?|(? & ? & ? & ?)]; [by left|].
    right. repeat split; [done..|]. set_solver.
Qed.

Lemma registered_addClass ts info :
  ci_uri info = uri -> registered ts (addClass ts info).
Proof.
  intros Huri.
  assert (registered ts
    {| classes := <[ci_name info := set_allFields None info]> (classes ts);
       fileClasses :=
         <[ci_uri info :=
             default ∅ (fileClasses ts !! ci_uri info) ∪ {[ci_name info]}]>
           (fileClasses ts) |}) as Hstore.
  { rewrite Huri. split; [|split; [|split]]; simpl.
    - intros u Hu. by rewrite lookup_insert_ne.
    - rewrite lookup_insert_eq. simpl. set_solver.
    - rewrite lookup_insert_eq. simpl. intros n Hn.
      rewrite lookup_insert_ne; [done|]. set_solver.
    - rewrite lookup_insert_eq. simpl. intros n ci.
      destruct (decide (ci_name info = n)) as [<-|Hne].
      + rewrite lookup_insert_eq. intros [= <-]. right. simpl.
        repeat split; [done|set_solver].
      + rewrite lookup_insert_ne by done. by left. }
  unfold addClass. destruct (classes ts !! ci_name info) as [existing|]; [|done].
  destruct (negb _ && _); [apply registered_refl|done].
Qed.

Lemma registered_foldl {A} (one : A -> TypeSystem.t -> TypeSystem.t) xs :
  Forall (fun x => forall ts, registered ts (one x ts)) xs ->
  forall ts, registered ts (foldl (fun ts x => one x ts) ts xs).
Proof.
  induction 1 as [|x xs Hx _ IH]; intros ts; [apply registered_refl|].
  simpl. eapply registered_trans; [apply Hx|apply IH].
Qed.

Lemma registered_collectStatement stmt :
  forall ts, registered ts (collectStatement uri stmt ts).
Proof.
  induction stmt as [s IH|s IH|s IH|s|s IH|s|s|s IH|s IH|s IHt IHe|s|s]
    using Statement_nested_ind; intros ts; try apply registered_refl.
  - by apply registered_addClass.
  - simpl. unfold collectRecordDef. destruct (rd_name s);
      [by apply registered_addClass|apply registered_refl].
  - by apply registered_addClass.
  - simpl. unfold collectDefmDef. destruct (dm_name s);
      [by apply registered_addClass|apply registered_refl].
  - destruct s. simpl in *. by apply registered_foldl.
  - destruct s. simpl in *. by apply registered_foldl.
  - destruct s as [c t e r]. simpl in *.
    apply (registered_trans _
             (foldl (fun ts x => collectStatement uri x ts) ts t));
      by apply (registered_foldl (collectStatement uri)).
Qed.

Lemma registered_collect file ts : registered ts (collect uri file ts).
Proof.
  apply registered_foldl. apply Forall_forall. intros stmt _.
  apply registered_collectStatement.
Qed.

End TypeCollectorFacts.

Section TypeCollectorTheorems.
Import TypeSystem TypeCollector.

(** X17. Whatever the type collector registers for a parsed file it
    registers under the collector's file: the lists of the other files
    stay as they are and the list of the file only grows; a class whose
    name is not listed for the file afterwards is as it was; a class
    that is stored afterwards and was not stored before is a record of
    this file with no cached view; and [clearFile] of the file after the
    collection leaves no class that [clearFile] without the collection
    would not leave. *)
Theorem collect_registers_under_file
    (uri : string) (file : ParsedFile) (ts : TypeSystem.t) :
  let ts' := collect uri file ts in
  (forall u, u <> uri -> fileClasses ts' !! u = fileClasses ts !! u) /\
  default ∅ (fileClasses ts !! uri) ⊆ default ∅ (fileClasses ts' !! uri) /\
  (forall n, n ∉ default ∅ (fileClasses ts' !! uri) ->
     getClass ts' n = getClass ts n) /\
  (forall n ci, getClass ts' n = Some ci ->
     getClass ts n = Some ci \/
     (ci_name ci = n /\ ci_uri ci = uri /\ ci_allFields ci = None /\
      n ∈ default ∅ (fileClasses ts' !! uri))) /\
  (forall n ci, getClass (clearFile ts' uri) n = Some ci ->
     getClass (clearFile ts uri) n = Some ci).
Proof.
  intros ts'. destruct (registered_collect uri file ts) as (Hf & Hl & Hc & Hn).
  fold ts' in Hf, Hl, Hc, Hn. do 4 (split; [done|]).
  intros n ci. unfold getClass. rewrite !clearFile_lookup.
  case_bool_decide as Hlisted'; [done|]. intros Hci.
  rewrite bool_decide_eq_false_2 by set_solver.
  by rewrite <- Hc.
Qed.

End TypeCollectorTheorems.

(* ===================================================================== *)
(** * typeSystem.ts: [parseTypeString] *)
(* ===================================================================== *)

Section ParseTypeStringFacts.
Import TypeSystem TypeCollector.

Lemma strip_prefix_length prefix : forall l rest,
  strip_prefix prefix l = Some rest -> length l = length prefix + length rest.
Proof.
  induction prefix as [|c prefix IH]; intros l rest; simpl.
  - by intros [= ->].
  - destruct l as [|d l]; [done|]. destruct (Ascii.eqb c d); [|done].
    intros H. apply IH in H. simpl. lia.
Qed.

Lemma strip_prefix_app prefix l : strip_prefix prefix (prefix ++ l) = Some l.
Proof.
  induction prefix as [|c prefix IH]; simpl; [done|].
  by rewrite Ascii.eqb_refl.
Qed.

Lemma between_length opening l inner :
  between opening l = Some inner ->
  length l = String.length opening + length inner + 1.
Proof.
  unfold between.
  destruct (strip_prefix _ l) as [rest|] eqn:Hprefix; [|done].
  apply strip_prefix_length in Hprefix.
  destruct (rev rest) as [|c inner'] eqn:Hrev; [done|].
  destruct (Ascii.eqb c ">") eqn:Hc.
  - apply Ascii.eqb_eq in Hc as ->. intros [= <-].
    assert (length rest = S (length inner')) as Hlen.
    { by rewrite <- (length_rev rest), Hrev. }
    rewrite length_rev.
    assert (length (list_ascii_of_string opening) = String.length opening) as <-.
    { clear. induction opening as [|c s IH]; simpl; [done|]. by rewrite IH. }
    lia.
  - destruct c as [[] [] [] [] [] [] [] []]; try done.
Qed.

Lemma between_wrapped opening inner :
  between opening (list_ascii_of_string opening ++ inner ++ [">"%char])
  = Some inner.
Proof.
  unfold between. rewrite strip_prefix_app, rev_app_distr. simpl.
  by rewrite rev_involutive.
Qed.

Lemma list_element_shorter l inner :
  list_element l = Some inner -> length inner < length l.
Proof.
  unfold list_element. destruct (between _ l) as [[|c i]|] eqn:Hb; try done.
  destruct (forallb _ _); [|done]. intros [= <-].
  apply between_length in Hb. simpl in *. lia.
Qed.

Lemma parse_type_unfold fuel c l :
  parse_type fuel (c :: l)
  = match bits_width (c :: l) with
    | Some width => mkTypeInfo TKbits "bits" None (Some width)
    | None =>
        match list_element (c :: l) with
        | Some inner =>
            mkTypeInfo TKlist "list"
              (Some (match fuel with
                     | S fuel' => parse_type fuel' inner
                     | O => unknown_type
                     end))
              None
        | None =>
            let typeStr := string_of_list_ascii (c :: l) in
            if bool_decide (typeStr ∈ BUILTIN_TYPES)
            then mkTypeInfo TKbuiltin typeStr None None
            else mkTypeInfo TKclass typeStr None None
        end
    end.
Proof. by destruct fuel. Qed.

(** The fuel does not matter once it covers the length. *)
Lemma parse_type_fuel fuel1 :
  forall fuel2 l, length l <= fuel1 -> length l <= fuel2 ->
    parse_type fuel1 l = parse_type fuel2 l.
Proof.
  induction fuel1 as [|fuel1 IH]; intros fuel2 l H1 H2.
  - destruct l; [|simpl in H1; lia]. by destruct fuel2.
  - destruct l as [|c l]; [by destruct fuel2|].
    rewrite !parse_type_unfold. destruct (bits_width _); [done|].
    destruct (list_element (c :: l)) as [inner|] eqn:Hinner; [|done].
    apply list_element_shorter in Hinner.
    destruct fuel2 as [|fuel2]; [simpl in H2; lia|].
    do 2 f_equal. apply IH; simpl in *; lia.
Qed.

Lemma string_length_list (s : string) :
  length (list_ascii_of_string s) = String.length s.
Proof. induction s as [|c s IH]; simpl; [done|]. by rewrite IH. Qed.

Lemma parseTypeString_fuel fuel s :
  String.length s <= fuel ->
  parse_type fuel (list_ascii_of_string s) = parseTypeString s.
Proof.
  intros Hle. unfold parseTypeString.
  apply parse_type_fuel; rewrite string_length_list; lia.
Qed.

(** No type, and no element type of a type, has the kind [dag]. *)
Fixpoint dag_free (ty : TypeInfo) : Prop :=
  match ty with
  | mkTypeInfo kind _ elementType _ =>
      kind <> TKdag /\
      match elementType with Some element => dag_free element | None => True end
  end.

Lemma parse_type_dag_free fuel : forall l, dag_free (parse_type fuel l).
Proof.
  induction fuel as [|fuel IH]; intros [|c l]; try done;
    rewrite parse_type_unfold;
    destruct (bits_width _); try done;
    destruct (list_element _); try done;
    simpl; by case_bool_decide.
Qed.

Lemma list_ascii_app (s1 s2 : string) :
  list_ascii_of_string (s1 +:+ s2)
  = list_ascii_of_string s1 ++ list_ascii_of_string s2.
Proof. induction s1 as [|c s1 IH]; simpl; [done|]. by rewrite IH. Qed.

Definition one_line (s : string) : Prop :=
  Forall (fun c => is_line_terminator c = false) (list_ascii_of_string s).

(** A text of ASCII characters. *)
Definition ascii_text (s : string) : Prop :=
  Forall (fun c => nat_of_ascii c < 128) (list_ascii_of_string s).

(** The integers that a JavaScript number holds exactly. *)
Definition exact_number (n : nat) : Prop := (Z.of_nat n < 2 ^ 53)%Z.

Lemma forallb_Forall {A} (p : A -> bool) l :
  forallb p l = true <-> Forall (fun x => p x = true) l.
Proof.
  induction l as [|x l IH]; simpl; [by split; [constructor|]|].
  rewrite andb_true_iff, IH. split; [by intros [? ?]; constructor|].
  by inversion 1.
Qed.

(** X18. What [parseTypeString] returns never has the kind [dag], for a
    type or for an element type: the text [dag] is a builtin type.  A
    non-empty text of one line, of ASCII characters, between [list<] and
    the [>] that ends the text is parsed as the element type, one nested
    call for each level; decimal digits between [bits<] and [>] are the
    width, as long as their value is below 2^53, where the number that
    [parseInt] returns is the integer itself; and a class type has the
    whole text as its name, template arguments included. *)
Theorem parseTypeString_kinds :
  (forall typeStr, dag_free (parseTypeString typeStr)) /\
  parseTypeString "dag" = mkTypeInfo TKbuiltin "dag" None None /\
  parseTypeString "" = mkTypeInfo TKbuiltin "unknown" None None /\
  (forall inner,
     inner <> "" -> one_line inner -> ascii_text inner ->
     parseTypeString ("list<" +:+ inner +:+ ">")
     = mkTypeInfo TKlist "list" (Some (parseTypeString inner)) None) /\
  (forall digits,
     digits <> "" ->
     Forall (fun c => Lexer.is_digit c = true) (list_ascii_of_string digits) ->
     exact_number (decimal (list_ascii_of_string digits)) ->
     parseTypeString ("bits<" +:+ digits +:+ ">")
     = mkTypeInfo TKbits "bits" None
         (Some (decimal (list_ascii_of_string digits)))) /\
  (forall typeStr,
     type_kind (parseTypeString typeStr) = TKclass ->
     type_name (parseTypeString typeStr) = typeStr).
Proof.
  split; [|split; [|split; [|split; [|split]]]].
  - intros typeStr. apply parse_type_dag_free.
  - reflexivity.
  - reflexivity.
  - intros inner Hne Hline _. unfold parseTypeString at 1.
    rewrite !list_ascii_app.
    change (list_ascii_of_string ">") with [">"%char].
    destruct (list_ascii_of_string inner) as [|c l] eqn:Hinner.
    { destruct inner; done. }
    change (list_ascii_of_string "list<" ++ (c :: l) ++ [">"%char])
      with ("l"%char :: list_ascii_of_string "ist<" ++ (c :: l) ++ [">"%char]).
    rewrite parse_type_unfold.
    change ("l"%char :: list_ascii_of_string "ist<" ++ (c :: l) ++ [">"%char])
      with (list_ascii_of_string "list<" ++ (c :: l) ++ [">"%char]).
    assert (bits_width (list_ascii_of_string "list<" ++ (c :: l) ++ [">"%char])
            = None) as -> by done.
    unfold list_element. rewrite between_wrapped.
    assert (forallb (fun c => negb (is_line_terminator c)) (c :: l) = true)
      as ->.
    { apply forallb_Forall. unfold one_line in Hline. rewrite Hinner in Hline.
      eapply Forall_impl; [exact Hline|]. intros x Hx. cbv beta. by rewrite Hx. }
    do 2 f_equal.
    destruct (String.length ("list<" +:+ inner +:+ ">")) as [|fuel] eqn:Hlen;
      [done|].
    rewrite <- Hinner. f_equal. apply parseTypeString_fuel.
    assert (String.length ("list<" +:+ inner +:+ ">")
            = 5 + (String.length inner + 1)) as Hsum.
    { rewrite <- !string_length_list, !list_ascii_app, !length_app.
      by rewrite !string_length_list. }
    lia.
  - intros digits Hne Hdigits _. unfold parseTypeString.
    rewrite !list_ascii_app.
    change (list_ascii_of_string ">") with [">"%char].
    destruct (list_ascii_of_string digits) as [|c l] eqn:Hl.
    { destruct digits; done. }
    change (list_ascii_of_string "bits<" ++ (c :: l) ++ [">"%char])
      with ("b"%char :: list_ascii_of_string "its<" ++ (c :: l) ++ [">"%char]).
    rewrite parse_type_unfold.
    change ("b"%char :: list_ascii_of_string "its<" ++ (c :: l) ++ [">"%char])
      with (list_ascii_of_string "bits<" ++ (c :: l) ++ [">"%char]).
    unfold bits_width. rewrite between_wrapped.
    by rewrite (proj2 (forallb_Forall _ _) Hdigits).
  - intros typeStr. unfold parseTypeString.
    destruct (list_ascii_of_string typeStr) as [|c l] eqn:Hl;
      [by destruct (String.length typeStr)|].
    rewrite parse_type_unfold.
    destruct (bits_width _); [done|]. destruct (list_element _); [done|].
    simpl. case_bool_decide; [done|]. intros _. simpl.
    change (string_of_list_ascii (c :: l) = typeStr).
    by rewrite <- Hl, string_of_list_ascii_of_string.
Qed.

End ParseTypeStringFacts.

(* ===================================================================== *)
(** * typeSystem.ts: the fields of a collected class *)
(* ===================================================================== *)

Section CollectedFields.
Import TypeSystem TypeCollector.

Variable uri : string.

(** The declarations of the field [f] directly in a body, in order. *)
Definition declarations (f : string) (body : list Statement) : list FieldDef :=
  omap (fun stmt =>
          match stmt with
          | SFieldDef fieldDef =>
              if decide (id_name (fd_name fieldDef) = f) then Some fieldDef
              else None
          | _ => None
          end) body.

(** What the collector stores for a declaration. *)
Definition field_info (fieldDef : FieldDef) : FieldInfo :=
  {| fi_name := id_name (fd_name fieldDef);
     fi_type := parseTypeString (fd_fieldType fieldDef);
     fi_location := {| loc_uri := uri; loc_range := id_range (fd_name fieldDef) |};
     fi_declaringClass := "" |}.

Lemma collectFields_last body f :
  collectFields uri body !! f = field_info <$> last (declarations f body).
Proof.
  unfold collectFields, declarations.
  induction body as [|stmt body IH] using rev_ind; [done|].
  rewrite foldl_app, omap_app. simpl.
  destruct stmt as [| | | | | |fieldDef| | | | |];
    try (simpl; rewrite app_nil_r; exact IH).
  simpl. destruct (decide (id_name (fd_name fieldDef) = f)) as [<-|Hne].
  - rewrite lookup_insert_eq, last_snoc. done.
  - rewrite lookup_insert_ne by done. rewrite app_nil_r. exact IH.
Qed.

(** X19. After the collector has registered a class definition (not a
    forward declaration), a field that the body declares directly is
    resolved on the class type to its last declaration in the body, with
    the type parsed from the declared type text, the location of the
    declared name, and the empty string as declaring class; and the
    class record holds exactly the fields declared directly in the
    body. *)
Theorem collectClassDef_resolves_last_declaration
    (classDef : ClassDef) (ts : TypeSystem.t) (f : string)
    (fieldDef : FieldDef) (fuel : nat) :
  cd_isForwardDeclaration classDef = false ->
  last (declarations f (cd_body classDef)) = Some fieldDef ->
  resolveFieldAccess (S fuel) (collectClassDef uri classDef ts)
    (mkTypeInfo TKclass (id_name (cd_name classDef)) None None) f
  = Some (Some (field_info fieldDef)) /\
  (forall g,
     (ci_fields <$> getClass (collectClassDef uri classDef ts)
                      (id_name (cd_name classDef)))
       ≫= (fun fields => fields !! g)
     = field_info <$> last (declarations g (cd_body classDef))).
Proof.
  intros Hfull Hlast.
  assert (classes (collectClassDef uri classDef ts) !! id_name (cd_name classDef)
          = Some {| ci_name := id_name (cd_name classDef); ci_kind := CKclass;
                    ci_location := location uri (cd_name classDef);
                    ci_uri := uri;
                    ci_parentClasses := parent_names (cd_parentClasses classDef);
                    ci_arguments := collectArguments uri (cd_templateArgs classDef);
                    ci_fields := collectFields uri (cd_body classDef);
                    ci_allFields := None;
                    ci_isForwardDeclaration := false |}) as Hstored.
  { unfold collectClassDef, addClass. simpl. rewrite Hfull.
    destruct (classes ts !! id_name (cd_name classDef)); simpl;
      rewrite ?andb_false_r; simpl; by rewrite lookup_insert_eq. }
  split.
  - unfold resolveFieldAccess. simpl. rewrite Hstored. simpl.
    by rewrite collectFields_last, Hlast.
  - intros g. unfold getClass. rewrite Hstored. simpl.
    apply collectFields_last.
Qed.

End CollectedFields.

Section TypeCollectorExamples.
Import TypeSystem TypeCollector Examples.

Definition class_of (stmt : Statement) : option ClassDef :=
  match stmt with SClassDef c => Some c | _ => None end.

Definition no_class : ClassDef :=
  mkClassDef no_identifier [] [] [] false (range_at 0 0 0).

Definition class_at (i : nat) (statements : list Statement) : ClassDef :=
  default no_class (statements !! i ≫= class_of).

Definition twice_declared : ClassDef :=
  Eval vm_compute in
    class_at 0 (statements_of "class C { int F = 1; string F; }").

Lemma collectClassDef_resolves_last_declaration_witness :
  cd_isForwardDeclaration twice_declared = false /\
  exists fieldDef,
    last (declarations "F" (cd_body twice_declared)) = Some fieldDef /\
    fd_fieldType fieldDef = "string" /\
    resolveFieldAccess 1 (collectClassDef uri_td twice_declared empty)
      (mkTypeInfo TKclass (id_name (cd_name twice_declared)) None None) "F"
    = Some (Some (field_info uri_td fieldDef)).
Proof.
  split; [reflexivity|]. eexists. split; [vm_compute; reflexivity|].
  split; [reflexivity|].
  apply (collectClassDef_resolves_last_declaration uri_td twice_declared
           empty "F" _ 0); reflexivity.
Defined.

Definition collectTypes (text : string) : TypeSystem.t :=
  collect uri_composite (mkParsedFile uri_composite (statements_of text) [] [])
    empty.

(** Classes, defs and defms are registered at top level and inside
    [let], [foreach] and [if]; a def inside a [defset] or a class body is
    not. *)
Lemma collect_registered_names :
  dom (classes (collectTypes
    "class A; let x = 1 in { def B : A; } defset list<A> S = { def D : A; } defm M : A;"))
  = {["A"; "B"; "M"]}.
Proof. vm_compute. reflexivity. Qed.

(** The types of template arguments and fields. *)
Lemma collect_argument_and_field_types :
  let ts :=
    collectTypes "class C<bits<4> w, list<int> l> { dag d; Foo<w> f; list<list<int>> n; }" in
  getArgumentType ts "C" "w" = Some (mkTypeInfo TKbits "bits" None (Some 4)) /\
  getArgumentType ts "C" "l"
  = Some (mkTypeInfo TKlist "list"
            (Some (mkTypeInfo TKbuiltin "int" None None)) None) /\
  getArgumentType ts "C" "d" = None /\
  (fi_type <$> default None (findFieldDefinition 1 ts "C" "d"))
  = Some (mkTypeInfo TKbuiltin "dag" None None) /\
  (fi_type <$> default None (findFieldDefinition 1 ts "C" "f"))
  = Some (mkTypeInfo TKclass "Foo<w>" None None) /\
  (fi_type <$> default None (findFieldDefinition 1 ts "C" "n"))
  = Some (mkTypeInfo TKlist "list"
            (Some (mkTypeInfo TKlist "list"
                     (Some (mkTypeInfo TKbuiltin "int" None None)) None)) None).
Proof. vm_compute. repeat split. Qed.

End TypeCollectorExamples.
(* ===================================================================== *)
(** * Facts about composite defm symbols *)
(* ===================================================================== *)

Section ResolutionFacts.
Import ResolutionHelpers.

Lemma for_each_app {A St} (one : A -> St -> option St) l1 l2 acc :
  for_each one (l1 ++ l2) acc
  = match for_each one l1 acc with
    | Some acc1 => for_each one l2 acc1
    | None => None
    end.
Proof.
  revert acc. induction l1 as [|x l1 IH]; intros acc; simpl; [done|].
  destruct (one x acc); [apply IH|done].
Qed.

Definition mc_key (mc : MultiClassDef) : string := id_name (mc_name mc).

Definition parent_names (ps : list ClassRef) : list string :=
  map (fun p => id_name (cr_name p)) ps.

(** A body that is exactly one named [def]. *)
Definition declares (body : list Statement) (suffix : string) : Prop :=
  exists (r : RecordDef) id,
    body = [SRecordDef r] /\ rd_name r = Some id /\ id_name id = suffix.

Lemma collectDefSuffixes_unfold find fuel mc st :
  collectDefSuffixes find (S fuel) mc st =
  match cache st !! mc_key mc with
  | Some cached => Some (cached, st)
  | None =>
      if bool_decide (mc_key mc ∈ visiting st) then Some ([], st)
      else
        match add_from_parents find (collectDefSuffixes find fuel) ""
                (mc_parentClasses mc) []
                {| cache := cache st; visiting := visiting st ∪ {[mc_key mc]} |} with
        | None => None
        | Some (inherited, st2) =>
            match collectDefSuffixesFromBody find (collectDefSuffixes find fuel)
                    (mc_body mc) inherited st2 with
            | None => None
            | Some (suffixes, st3) =>
                Some (sort suffixes,
                      {| cache := <[mc_key mc := sort suffixes]> (cache st3);
                         visiting := visiting st3 ∖ {[mc_key mc]} |})
            end
        end
  end.
Proof. reflexivity. Qed.

Lemma size_unvisiting (keys vis : gset string) k :
  k ∈ keys -> k ∉ vis -> size (keys ∖ (vis ∪ {[k]})) < size (keys ∖ vis).
Proof.
  intros Hk Hv. apply subset_size. apply strict_spec_alt.
  split; [set_solver|].
  intros Heq. assert (k ∈ keys ∖ vis) as Hin by set_solver.
  rewrite <- Heq in Hin. set_solver.
Qed.

Lemma leave_visiting (vis : gset string) k : k ∉ vis -> (vis ∪ {[k]}) ∖ {[k]} = vis.
Proof. set_solver. Qed.

Lemma size_difference_le (keys vis : gset string) : size (keys ∖ vis) <= size keys.
Proof. apply subseteq_size. set_solver. Qed.

Lemma not_elem_of_enter (vis : gset string) k x : x ∉ vis -> x ≠ k -> x ∉ vis ∪ {[k]}.
Proof. set_solver. Qed.

Lemma parent_names_singleton ps n :
  parent_names ps = [n] -> exists p, ps = [p] /\ id_name (cr_name p) = n.
Proof.
  unfold parent_names. destruct ps as [|p [|??]]; try discriminate.
  intros [= Hp]. by exists p.
Qed.

(** ** The inherited case: [A] declares [_a], [B : A] declares [_b] *)

Section Inherited.

Variable find : string -> option MultiClassDef.
Variable keys : gset string.
Variables mcA mcB : MultiClassDef.

(** The finder answers with a multiclass of the name it was asked for,
    and knows finitely many names. *)
Hypothesis find_name : forall n mc, find n = Some mc -> mc_key mc = n.
Hypothesis find_keys : forall n mc, find n = Some mc -> n ∈ keys.

Hypothesis find_A : find "A" = Some mcA.
Hypothesis A_parents : mc_parentClasses mcA = [].
Hypothesis A_body : declares (mc_body mcA) "_a".
Hypothesis find_B : find "B" = Some mcB.
Hypothesis B_parents : parent_names (mc_parentClasses mcB) = ["A"].
Hypothesis B_body : declares (mc_body mcB) "_b".

(** What the cache may hold for [A] and [B]. *)
Definition cache_ok (c : gmap string (list string)) : Prop :=
  (forall l, c !! "A" = Some l -> l = ["_a"]) /\
  (forall l, c !! "B" = Some l -> l = ["_a"; "_b"]).

Definition call_pre (fuel : nat) (mc : MultiClassDef) (st : suffix_state) : Prop :=
  find (mc_key mc) = Some mc /\ cache_ok (cache st) /\
  ("A" ∉ visiting st) /\ ("B" ∈ visiting st -> mc_key mc = "A") /\
  size (keys ∖ visiting st) < fuel.

Definition call_post (mc : MultiClassDef) (st : suffix_state)
    (res : option (list string * suffix_state)) : Prop :=
  exists subs st',
    res = Some (subs, st') /\ visiting st' = visiting st /\
    cache_ok (cache st') /\
    (mc_key mc = "A" -> subs = ["_a"]) /\
    (mc_key mc = "B" -> subs = ["_a"; "_b"]).

(** The state between two calls made from a multiclass other than [A]
    and [B], or from a [defm]. *)
Definition outside (fuel : nat) (st : suffix_state) : Prop :=
  cache_ok (cache st) /\ ("A" ∉ visiting st) /\ ("B" ∉ visiting st) /\
  size (keys ∖ visiting st) < fuel.

Definition same_visiting (st st' : suffix_state) : Prop :=
  visiting st' = visiting st.

Lemma outside_same fuel st st' :
  outside fuel st -> same_visiting st st' -> cache_ok (cache st') ->
  outside fuel st'.
Proof. intros (_ & ? & ? & ?) Hv ?. unfold outside. by rewrite Hv. Qed.

Section Level.
Variable fuel : nat.
Variable rec : MultiClassDef -> suffix_state -> option (list string * suffix_state).
Hypothesis Hrec : forall mc st, call_pre fuel mc st -> call_post mc st (rec mc st).

Lemma add_from_parents_outside prefix ps : forall suffixes st,
  outside fuel st ->
  exists suffixes' st',
    add_from_parents find rec prefix ps suffixes st = Some (suffixes', st') /\
    same_visiting st st' /\ cache_ok (cache st').
Proof.
  induction ps as [|p ps IH]; intros suffixes st Hout; simpl.
  - exists suffixes, st. destruct Hout as (? & _). done.
  - destruct (find (id_name (cr_name p))) as [mc|] eqn:Hfind; [|by apply IH].
    destruct Hout as (Hc & HA & HB & Hsz).
    destruct (Hrec mc st) as (subs & st1 & -> & Hv & Hc1 & _).
    { split; [by rewrite (find_name _ _ Hfind)|]. done. }
    destruct (IH (set_add_all (map (fun sub => prefix +:+ sub) subs) suffixes) st1)
      as (suffixes' & st' & -> & Hv' & Hc').
    { unfold outside. by rewrite Hv. }
    exists suffixes', st'. split; [done|]. split; [|done].
    unfold same_visiting in *. congruence.
Qed.

Definition body_pre (acc : list string * suffix_state) : Prop := outside fuel acc.2.
Definition body_keeps (acc acc' : list string * suffix_state) : Prop :=
  same_visiting acc.2 acc'.2 /\ cache_ok (cache acc'.2).

Lemma for_each_outside (one : Statement -> _ -> option (list string * suffix_state))
    body :
  Forall (fun stmt => forall acc, body_pre acc ->
            exists acc', one stmt acc = Some acc' /\ body_keeps acc acc') body ->
  forall acc, body_pre acc ->
    exists acc', for_each one body acc = Some acc' /\ body_keeps acc acc'.
Proof.
  intros Hall. induction Hall as [|stmt body Hs _ IH]; intros acc Hacc; simpl.
  - exists acc. split; [done|]. split; [done|]. by destruct Hacc.
  - destruct (Hs acc Hacc) as (acc1 & -> & Hv1 & Hc1).
    destruct (IH acc1) as (acc2 & -> & Hv2 & Hc2).
    { by eapply outside_same. }
    exists acc2. split; [done|]. split; [|done].
    unfold same_visiting in *. congruence.
Qed.

Lemma collectDefSuffixesFromStatement_outside stmt : forall acc,
  body_pre acc ->
  exists acc', collectDefSuffixesFromStatement find rec stmt acc = Some acc' /\
               body_keeps acc acc'.
Proof.
  induction stmt using Statement_nested_ind; intros acc Hacc;
    try (exists acc; split; [done|]; split; [done|]; by destruct Hacc).
  - simpl. destruct (rd_name s); eexists; (split; [done|]);
      (split; [done|]); by destruct Hacc.
  - simpl. destruct (dm_name s) as [name|].
    + destruct (add_from_parents_outside (id_name name) (dm_parentClasses s)
                  acc.1 acc.2 Hacc) as (s' & st' & -> & Hv & Hc).
      by exists (s', st').
    + exists acc. split; [done|]. split; [done|]. by destruct Hacc.
  - destruct s. simpl in *. by apply for_each_outside.
  - destruct s. simpl in *. by apply for_each_outside.
  - destruct s. simpl in *. by apply for_each_outside.
  - destruct s as [c t e r]. simpl in *.
    destruct (for_each_outside _ t H acc Hacc) as (acc1 & -> & Hv1 & Hc1).
    destruct (for_each_outside _ e H0 acc1) as (acc2 & -> & Hv2 & Hc2).
    { by eapply outside_same. }
    exists acc2. split; [done|]. split; [|done].
    unfold same_visiting in *. congruence.
Qed.

Lemma collectDefSuffixesFromBody_outside body suffixes st :
  outside fuel st ->
  exists suffixes' st',
    collectDefSuffixesFromBody find rec body suffixes st = Some (suffixes', st') /\
    same_visiting st st' /\ cache_ok (cache st').
Proof.
  intros Hout. unfold collectDefSuffixesFromBody.
  destruct (for_each_outside (collectDefSuffixesFromStatement find rec) body)
    with (acc := (suffixes, st)) as ([s' st'] & -> & Hv & Hc); [|done|].
  - apply Forall_forall. intros stmt _.
    apply collectDefSuffixesFromStatement_outside.
  - by exists s', st'.
Qed.

End Level.

Lemma cache_ok_insert c k l :
  cache_ok c -> (k = "A" -> l = ["_a"]) -> (k = "B" -> l = ["_a"; "_b"]) ->
  cache_ok (<[k := l]> c).
Proof.
  intros [HcA HcB] HkA HkB. split; intros l'.
  - destruct (decide (k = "A")) as [->|Hne].
    + rewrite lookup_insert_eq. intros [= <-]. by apply HkA.
    + rewrite lookup_insert_ne by done. apply HcA.
  - destruct (decide (k = "B")) as [->|Hne].
    + rewrite lookup_insert_eq. intros [= <-]. by apply HkB.
    + rewrite lookup_insert_ne by done. apply HcB.
Qed.

Lemma A_key : mc_key mcA = "A".
Proof. by apply find_name. Qed.

Lemma B_key : mc_key mcB = "B".
Proof. by apply find_name. Qed.

(** Every multiclass the finder knows is expanded with the fuel left,
    leaves [visiting] as it found it, and [A] and [B] get their sets. *)
Lemma collectDefSuffixes_inherited fuel : forall mc st,
  call_pre fuel mc st -> call_post mc st (collectDefSuffixes find fuel mc st).
Proof.
  induction fuel as [|fuel IH]; intros mc st (Hfind & Hc & HA & HB & Hsz); [lia|].
  rewrite collectDefSuffixes_unfold.
  destruct (cache st !! mc_key mc) as [cached|] eqn:Hcached.
  { exists cached, st. split; [done|]. split; [done|]. split; [done|].
    destruct Hc as [HcA HcB].
    split; intros Hk; rewrite Hk in Hcached; auto. }
  assert (Hkey : mc_key mc ∈ keys) by by eapply find_keys.
  case_bool_decide as Hvis.
  { exists [], st. split; [done|]. split; [done|]. split; [done|].
    split; intros Hk; exfalso.
    - apply HA. by rewrite <- Hk.
    - assert (mc_key mc = "A") as Hk' by (apply HB; by rewrite <- Hk).
      by rewrite Hk in Hk'. }
  pose proof (size_unvisiting keys (visiting st) (mc_key mc) Hkey Hvis) as Hlt.
  destruct (decide (mc_key mc = "A")) as [HkA|HnA].
  { (* [A]: no parents, one def *)
    assert (mc = mcA) as -> by (rewrite HkA, find_A in Hfind; congruence).
    rewrite A_parents. simpl.
    pose proof A_body as (r & id & Hbody & Hr & Hid). rewrite Hbody.
    unfold collectDefSuffixesFromBody. simpl. rewrite Hr, Hid. simpl.
    eexists _, _. split; [reflexivity|]. simpl.
    split; [by apply leave_visiting|].
    split; [apply cache_ok_insert; [done|done|by rewrite HkA]|].
    split; [done|by rewrite HkA]. }
  destruct (decide (mc_key mc = "B")) as [HkB|HnB].
  { (* [B]: the parent [A], then one def *)
    assert (mc = mcB) as -> by (rewrite HkB, find_B in Hfind; congruence).
    destruct (parent_names_singleton _ _ B_parents) as (p & Hps & Hp).
    rewrite Hps. simpl. rewrite Hp, find_A.
    destruct (IH mcA {| cache := cache st;
                        visiting := visiting st ∪ {[mc_key mcB]} |})
      as (subs & st1 & -> & Hv1 & Hc1 & HsA & _).
    { split; [by rewrite A_key|]. split; [done|]. simpl.
      split; [apply not_elem_of_enter; [done|by rewrite HkB]|].
      split; [by rewrite A_key|lia]. }
    rewrite (HsA A_key). simpl in Hv1.
    pose proof B_body as (r & id & Hbody & Hr & Hid). rewrite Hbody.
    unfold collectDefSuffixesFromBody. simpl. rewrite Hr, Hid. simpl.
    eexists _, _. split; [reflexivity|]. simpl. rewrite Hv1.
    split; [by apply leave_visiting|].
    split; [apply cache_ok_insert; [done| |done]; by rewrite HkB|].
    split; [by rewrite HkB|done]. }
  (* any other multiclass *)
  assert (HnB' : "B" ∉ visiting st) by (intros HBv; by apply HnA, HB).
  assert (Hout : outside fuel {| cache := cache st;
                                 visiting := visiting st ∪ {[mc_key mc]} |}).
  { split; [done|]. simpl. split; [by apply not_elem_of_enter|].
    split; [by apply not_elem_of_enter|lia]. }
  destruct (add_from_parents_outside fuel _ IH "" (mc_parentClasses mc) [] _ Hout)
    as (inh & st2 & -> & Hv2 & Hc2).
  destruct (collectDefSuffixesFromBody_outside fuel _ IH (mc_body mc) inh st2)
    as (sufs & st3 & -> & Hv3 & Hc3).
  { by eapply outside_same. }
  eexists _, _. split; [reflexivity|]. simpl.
  unfold same_visiting in *. simpl in *. rewrite Hv3, Hv2.
  split; [by apply leave_visiting|].
  split; [by apply cache_ok_insert|]. done.
Qed.

(** ** The symbols of the [defm]s of a statement list *)

Definition fuel_enough (fuel : nat) : Prop := size keys < fuel.

Lemma collectDefSuffixes_top fuel mc c :
  fuel_enough fuel -> find (mc_key mc) = Some mc -> cache_ok c ->
  call_post mc {| cache := c; visiting := ∅ |}
    (collectDefSuffixes find fuel mc {| cache := c; visiting := ∅ |}).
Proof.
  intros Hfuel Hfind Hc. apply collectDefSuffixes_inherited.
  split; [done|]. split; [done|]. simpl. split; [apply not_elem_of_empty|].
  split; [intros H; by apply not_elem_of_empty in H|].
  pose proof (size_difference_le keys ∅). unfold fuel_enough in Hfuel. lia.
Qed.

Lemma composite_names_returns fuel defmName ps : forall names c,
  fuel_enough fuel -> cache_ok c ->
  exists names' c',
    composite_names find fuel defmName ps names c = Some (names', c') /\
    cache_ok c'.
Proof.
  induction ps as [|p ps IH]; intros names c Hfuel Hc; simpl.
  - by exists names, c.
  - destruct (find (id_name (cr_name p))) as [mc|] eqn:Hfind; [|by apply IH].
    destruct (collectDefSuffixes_top fuel mc c)
      as (subs & st1 & -> & _ & Hc1 & _); [done| |done|].
    { by rewrite (find_name _ _ Hfind). }
    by apply IH.
Qed.

Lemma composite_names_Z_B fuel (p : ClassRef) c :
  fuel_enough fuel -> cache_ok c -> id_name (cr_name p) = "B" ->
  exists c',
    composite_names find fuel "Z" [p] [] c = Some (["Z_a"; "Z_b"], c') /\
    cache_ok c'.
Proof.
  intros Hfuel Hc Hp. simpl. rewrite Hp, find_B.
  destruct (collectDefSuffixes_top fuel mcB c)
    as (subs & st1 & -> & _ & Hc1 & _ & Hsubs); [done|by rewrite B_key|done|].
  rewrite (Hsubs B_key). by exists (cache st1).
Qed.

Definition symbols_pre (acc : gmap string (list string) * list Symbol) : Prop :=
  cache_ok acc.1.

Definition symbols_keep (acc acc' : gmap string (list string) * list Symbol)
  : Prop :=
  cache_ok acc'.1 /\ exists new, acc'.2 = acc.2 ++ new.

Lemma for_each_symbols (one : Statement -> _ -> option (gmap string (list string) * list Symbol))
    body :
  Forall (fun stmt => forall acc, symbols_pre acc ->
            exists acc', one stmt acc = Some acc' /\ symbols_keep acc acc') body ->
  forall acc, symbols_pre acc ->
    exists acc', for_each one body acc = Some acc' /\ symbols_keep acc acc'.
Proof.
  intros Hall. induction Hall as [|stmt body Hs _ IH]; intros acc Hacc; simpl.
  - exists acc. split; [done|]. split; [done|]. exists []. by rewrite app_nil_r.
  - destruct (Hs acc Hacc) as (acc1 & -> & Hc1 & n1 & Hn1).
    destruct (IH acc1 Hc1) as (acc2 & -> & Hc2 & n2 & Hn2).
    exists acc2. split; [done|]. split; [done|].
    exists (n1 ++ n2). by rewrite Hn2, Hn1, app_assoc.
Qed.

Lemma collectCompositeDefmSymbolsFromStatement_returns fuel uri stmt :
  fuel_enough fuel ->
  forall acc, symbols_pre acc ->
    exists acc',
      collectCompositeDefmSymbolsFromStatement find fuel uri stmt acc = Some acc' /\
      symbols_keep acc acc'.
Proof.
  intros Hfuel.
  induction stmt using Statement_nested_ind; intros acc Hacc;
    try (exists acc; split; [done|]; split; [done|];
         exists []; by rewrite app_nil_r).
  - simpl. destruct (dm_name s) as [name|].
    + destruct (composite_names_returns fuel (id_name name) (dm_parentClasses s)
                  [] acc.1 Hfuel Hacc) as (names & c' & -> & Hc').
      eexists. split; [reflexivity|]. split; [done|]. by eexists.
    + exists acc. split; [done|]. split; [done|]. exists []. by rewrite app_nil_r.
  - destruct s. simpl in *. by apply for_each_symbols.
  - destruct s. simpl in *. by apply for_each_symbols.
  - destruct s. simpl in *. by apply for_each_symbols.
  - destruct s as [c t e r]. simpl in *.
    destruct (for_each_symbols _ t H acc Hacc) as (acc1 & -> & Hc1 & n1 & Hn1).
    destruct (for_each_symbols _ e H0 acc1 Hc1) as (acc2 & -> & Hc2 & n2 & Hn2).
    exists acc2. split; [done|]. split; [done|].
    exists (n1 ++ n2). by rewrite Hn2, Hn1, app_assoc.
Qed.

Lemma collectCompositeDefmSymbolsFromStatements_returns fuel uri body :
  fuel_enough fuel ->
  forall acc, symbols_pre acc ->
    exists acc',
      for_each (collectCompositeDefmSymbolsFromStatement find fuel uri) body acc
      = Some acc' /\ symbols_keep acc acc'.
Proof.
  intros Hfuel. apply for_each_symbols. apply Forall_forall. intros stmt _.
  by apply collectCompositeDefmSymbolsFromStatement_returns.
Qed.

Lemma cache_ok_empty : cache_ok ∅.
Proof. split; intros l; by rewrite lookup_empty. Qed.

End Inherited.

(** C1. Let the finder answer by name over finitely many multiclasses,
    with [A] declaring the def [_a] and [B : A] declaring the def [_b].
    Then for every statement list that holds [defm Z : B;] at top level,
    whatever stands before and after it, [computeCompositeDefmSymbols]
    returns, and the symbols it records for that [defm] are exactly two:
    the statement adds, to the symbols of the statements before it, a
    symbol of the name [Z_a] and then a symbol of the name [Z_b], each
    of kind [def] and located at the range of the defm's name in the
    file asked, and nothing else ([B]'s set is its parent [A]'s suffixes
    first, then its own); the symbols of the statements after it follow
    these two. *)
Theorem computeCompositeDefmSymbols_inherited
    (find : string -> option MultiClassDef) (keys : gset string)
    (mcA mcB : MultiClassDef) (fuel : nat) (uri : string)
    (before after : list Statement) (defm : DefmDef) (Z : Identifier) :
  (forall n mc, find n = Some mc -> mc_key mc = n) ->
  (forall n mc, find n = Some mc -> n ∈ keys) ->
  find "A" = Some mcA -> mc_parentClasses mcA = [] -> declares (mc_body mcA) "_a" ->
  find "B" = Some mcB -> parent_names (mc_parentClasses mcB) = ["A"] ->
  declares (mc_body mcB) "_b" ->
  size keys < fuel ->
  dm_name defm = Some Z -> id_name Z = "Z" ->
  parent_names (dm_parentClasses defm) = ["B"] ->
  exists symbols_before symbols_after,
    computeCompositeDefmSymbols find fuel before uri = Some symbols_before /\
    computeCompositeDefmSymbols find fuel (before ++ [SDefmDef defm]) uri
    = Some (symbols_before
            ++ [ {| sym_name := "Z_a"; sym_kind := SKdef;
                    sym_location := {| loc_uri := uri; loc_range := id_range Z |};
                    sym_scope := None; sym_isForwardDeclaration := None |};
                 {| sym_name := "Z_b"; sym_kind := SKdef;
                    sym_location := {| loc_uri := uri; loc_range := id_range Z |};
                    sym_scope := None; sym_isForwardDeclaration := None |} ]) /\
    computeCompositeDefmSymbols find fuel (before ++ SDefmDef defm :: after) uri
    = Some (symbols_before
            ++ [ {| sym_name := "Z_a"; sym_kind := SKdef;
                    sym_location := {| loc_uri := uri; loc_range := id_range Z |};
                    sym_scope := None; sym_isForwardDeclaration := None |};
                 {| sym_name := "Z_b"; sym_kind := SKdef;
                    sym_location := {| loc_uri := uri; loc_range := id_range Z |};
                    sym_scope := None; sym_isForwardDeclaration := None |} ]
            ++ symbols_after).
Proof.
  intros Hname Hkeys HA HAp HAb HB HBp HBb Hfuel HZ HZn Hps.
  unfold computeCompositeDefmSymbols, collectCompositeDefmSymbolsFromStatements.
  destruct (collectCompositeDefmSymbolsFromStatements_returns find keys mcA mcB
              Hname Hkeys HA HAp HAb HB HBp HBb fuel uri before Hfuel (∅, []))
    as ([c1 s1] & Hbefore & Hc1 & new1 & Hn1); [apply cache_ok_empty|].
  simpl in Hc1, Hn1. subst s1.
  destruct (parent_names_singleton _ _ Hps) as (p & Hdps & Hp).
  destruct (composite_names_Z_B find keys mcA mcB Hname Hkeys HA HAp HAb HB HBp HBb
              fuel p c1 Hfuel Hc1 Hp) as (c2 & Hnames & Hc2).
  destruct (collectCompositeDefmSymbolsFromStatements_returns find keys mcA mcB
              Hname Hkeys HA HAp HAb HB HBp HBb fuel uri after Hfuel
              (c2, new1 ++ map (composite_symbol uri (id_range Z)) ["Z_a"; "Z_b"]))
    as ([c3 s3] & Hafter & Hc3 & new3 & Hn3); [done|].
  simpl in Hn3. subst s3.
  assert (Hdefm : forall rest,
            for_each (collectCompositeDefmSymbolsFromStatement find fuel uri)
              (before ++ SDefmDef defm :: rest) (∅, [])
            = for_each (collectCompositeDefmSymbolsFromStatement find fuel uri)
                rest (c2, new1 ++ map (composite_symbol uri (id_range Z))
                                    ["Z_a"; "Z_b"])).
  { intros rest. rewrite for_each_app, Hbefore. simpl.
    rewrite HZ, HZn, Hdps, Hnames. simpl.
    by change (sort ["Z_a"; "Z_b"]) with ["Z_a"; "Z_b"]. }
  exists new1, new3. split; [by rewrite Hbefore|]. split.
  - by rewrite Hdefm.
  - rewrite Hdefm, Hafter. simpl. by rewrite <- app_assoc.
Qed.

(** ** The inputs of the tests *)
Section ResolutionExamples.
Import Examples.

Lemma inherited_statements_parsed :
  statements_of inherited_text = inherited_statements.
Proof. vm_compute. reflexivity. Qed.

Lemma cycle_statements_parsed :
  statements_of cycle_text = cycle_statements
  /\ statements_of cycle_B_first_text = cycle_B_first_statements
  /\ statements_of self_cycle_text = self_cycle_statements.
Proof. repeat split; vm_compute; reflexivity. Qed.

Lemma inherited_finder_names n mc :
  buildMulticlassFinder inherited_statements n = Some mc -> mc_key mc = n.
Proof.
  unfold buildMulticlassFinder, inherited_statements, mc_key. simpl.
  repeat case_decide; intros [= <-]; done.
Qed.

Lemma inherited_finder_keys n mc :
  buildMulticlassFinder inherited_statements n = Some mc
  -> n ∈ ({[ "A"; "B" ]} : gset string).
Proof.
  unfold buildMulticlassFinder, inherited_statements. simpl.
  repeat case_decide; intros [= <-]; subst n; set_solver.
Qed.

Lemma computeCompositeDefmSymbols_inherited_witness :
  computeCompositeDefmSymbols (buildMulticlassFinder inherited_statements) 3
    inherited_statements uri_composite
  = Some [ {| sym_name := "Z_a"; sym_kind := SKdef;
              sym_location := {| loc_uri := uri_composite;
                                 loc_range := range_at 0 73 74 |};
              sym_scope := None; sym_isForwardDeclaration := None |};
           {| sym_name := "Z_b"; sym_kind := SKdef;
              sym_location := {| loc_uri := uri_composite;
                                 loc_range := range_at 0 73 74 |};
              sym_scope := None; sym_isForwardDeclaration := None |} ].
Proof.
  destruct (computeCompositeDefmSymbols_inherited
              (buildMulticlassFinder inherited_statements) {[ "A"; "B" ]}
              (multiclass_at 0 inherited_statements)
              (multiclass_at 1 inherited_statements)
              3 uri_composite (take 2 inherited_statements) []
              (defm_at 2 inherited_statements)
              {| id_name := "Z"; id_range := range_at 0 73 74 |}
              inherited_finder_names inherited_finder_keys
              eq_refl eq_refl
              ltac:(eexists _, _; repeat split; reflexivity)
              eq_refl eq_refl
              ltac:(eexists _, _; repeat split; reflexivity)
              ltac:(vm_compute; lia)
              eq_refl eq_refl eq_refl)
    as (symbols_before & symbols_after & Hbefore & Hdefm & _).
  assert (symbols_before = []) as ->.
  { vm_compute in Hbefore. by injection Hbefore. }
  exact Hdefm.
Defined.

End ResolutionExamples.

End ResolutionFacts.

(* ===================================================================== *)
(** * resolutionHelpers.ts: cyclic multiclass inheritance *)
(* ===================================================================== *)

Section CycleFacts.
Import ResolutionHelpers.

Lemma for_each_preserves {A St} (P : St -> Prop) (one : A -> St -> option St) body :
  Forall (fun stmt => forall acc, P acc ->
            exists acc', one stmt acc = Some acc' /\ P acc') body ->
  forall acc, P acc -> exists acc', for_each one body acc = Some acc' /\ P acc'.
Proof.
  intros Hall. induction Hall as [|stmt body Hs _ IH]; intros acc Hacc; simpl.
  - by exists acc.
  - destruct (Hs acc Hacc) as (acc1 & -> & Hacc1). by apply IH.
Qed.

(** A multiclass met again while it is being expanded gives the empty
    set, and the state is left alone. *)
Lemma collectDefSuffixes_reentered find fuel mc st :
  cache st !! mc_key mc = None -> mc_key mc ∈ visiting st ->
  collectDefSuffixes find (S fuel) mc st = Some ([], st).
Proof.
  intros Hcache Hvis. rewrite collectDefSuffixes_unfold, Hcache.
  by rewrite bool_decide_eq_true_2.
Qed.

Section Termination.

Variable find : string -> option MultiClassDef.
Variable keys : gset string.

(** The finder answers with finitely many multiclass names. *)
Hypothesis find_known : forall n mc, find n = Some mc -> mc_key mc ∈ keys.

(** The call returns and leaves [V] as the set of multiclasses being
    expanded. *)
Definition returns_to (V : gset string)
    (res : option (list string * suffix_state)) : Prop :=
  exists subs st', res = Some (subs, st') /\ visiting st' = V.

Section Level.
Variable fuel : nat.
Variable rec : MultiClassDef -> suffix_state -> option (list string * suffix_state).
Hypothesis Hrec : forall mc st,
  mc_key mc ∈ keys -> size (keys ∖ visiting st) < fuel ->
  returns_to (visiting st) (rec mc st).
Variable V : gset string.
Hypothesis HV : size (keys ∖ V) < fuel.

Lemma add_from_parents_total prefix ps : forall suffixes st,
  visiting st = V ->
  returns_to V (add_from_parents find rec prefix ps suffixes st).
Proof.
  induction ps as [|p ps IH]; intros suffixes st Hst; simpl.
  - by exists suffixes, st.
  - destruct (find (id_name (cr_name p))) as [mc|] eqn:Hfind; [|by apply IH].
    destruct (Hrec mc st) as (subs & st1 & -> & Hv).
    { by eapply find_known. }
    { by rewrite Hst. }
    apply IH. congruence.
Qed.

Lemma collectDefSuffixesFromStatement_total stmt : forall acc,
  visiting acc.2 = V ->
  exists acc', collectDefSuffixesFromStatement find rec stmt acc = Some acc' /\
               visiting acc'.2 = V.
Proof.
  induction stmt using Statement_nested_ind; intros acc Hacc;
    try (by exists acc).
  - simpl. destruct (rd_name s); by eexists.
  - simpl. destruct (dm_name s) as [name|]; [|by exists acc].
    destruct (add_from_parents_total (id_name name) (dm_parentClasses s)
                acc.1 acc.2 Hacc) as (s' & st' & -> & Hv).
    by exists (s', st').
  - destruct s. simpl in *.
    by apply (for_each_preserves (fun acc => visiting acc.2 = V)).
  - destruct s. simpl in *.
    by apply (for_each_preserves (fun acc => visiting acc.2 = V)).
  - destruct s. simpl in *.
    by apply (for_each_preserves (fun acc => visiting acc.2 = V)).
  - destruct s as [c t e r]. simpl in *.
    destruct (for_each_preserves (fun acc => visiting acc.2 = V) _ t H acc Hacc)
      as (acc1 & -> & Hacc1).
    by apply (for_each_preserves (fun acc => visiting acc.2 = V)).
Qed.

Lemma collectDefSuffixesFromBody_total body suffixes st :
  visiting st = V ->
  returns_to V (collectDefSuffixesFromBody find rec body suffixes st).
Proof.
  intros Hst. unfold collectDefSuffixesFromBody.
  destruct (for_each_preserves (fun acc => visiting acc.2 = V)
              (collectDefSuffixesFromStatement find rec) body)
    with (acc := (suffixes, st)) as ([s' st'] & -> & Hv); [|done|].
  - apply Forall_forall. intros stmt _.
    apply collectDefSuffixesFromStatement_total.
  - by exists s', st'.
Qed.

End Level.

(** Each nested call enters a multiclass that is not being expanded yet,
    so the multiclasses left bound the depth. *)
Lemma collectDefSuffixes_total fuel : forall mc st,
  mc_key mc ∈ keys -> size (keys ∖ visiting st) < fuel ->
  returns_to (visiting st) (collectDefSuffixes find fuel mc st).
Proof.
  induction fuel as [|fuel IH]; intros mc st Hkey Hsz; [lia|].
  rewrite collectDefSuffixes_unfold.
  destruct (cache st !! mc_key mc) as [cached|]; [by exists cached, st|].
  case_bool_decide as Hvis; [by exists [], st|].
  pose proof (size_unvisiting keys (visiting st) (mc_key mc) Hkey Hvis) as Hlt.
  assert (HV : size (keys ∖ (visiting st ∪ {[mc_key mc]})) < fuel) by lia.
  destruct (add_from_parents_total fuel _ IH _ HV "" (mc_parentClasses mc) []
              {| cache := cache st; visiting := visiting st ∪ {[mc_key mc]} |})
    as (inh & st2 & -> & Hv2); [done|].
  destruct (collectDefSuffixesFromBody_total fuel _ IH _ HV (mc_body mc) inh st2 Hv2)
    as (sufs & st3 & -> & Hv3).
  eexists _, _. split; [reflexivity|]. simpl. rewrite Hv3.
  by apply leave_visiting.
Qed.

Lemma composite_names_total fuel defmName ps : forall names c,
  size keys < fuel ->
  exists names' c', composite_names find fuel defmName ps names c = Some (names', c').
Proof.
  induction ps as [|p ps IH]; intros names c Hfuel; simpl.
  - by exists names, c.
  - destruct (find (id_name (cr_name p))) as [mc|] eqn:Hfind; [|by apply IH].
    destruct (collectDefSuffixes_total fuel mc {| cache := c; visiting := ∅ |})
      as (subs & st1 & -> & _).
    { by eapply find_known. }
    { pose proof (size_difference_le keys ∅). simpl. lia. }
    by apply IH.
Qed.

Lemma collectCompositeDefmSymbolsFromStatement_total fuel uri stmt :
  size keys < fuel ->
  forall acc, True ->
    exists acc',
      collectCompositeDefmSymbolsFromStatement find fuel uri stmt acc = Some acc'
      /\ True.
Proof.
  intros Hfuel.
  induction stmt using Statement_nested_ind; intros acc _;
    try (by exists acc).
  - simpl. destruct (dm_name s) as [name|]; [|by exists acc].
    destruct (composite_names_total fuel (id_name name) (dm_parentClasses s)
                [] acc.1 Hfuel) as (names & c' & ->).
    by eexists.
  - destruct s. simpl in *. by apply (for_each_preserves (fun _ => True)).
  - destruct s. simpl in *. by apply (for_each_preserves (fun _ => True)).
  - destruct s. simpl in *. by apply (for_each_preserves (fun _ => True)).
  - destruct s as [c t e r]. simpl in *.
    destruct (for_each_preserves (fun _ => True) _ t H acc I) as (acc1 & -> & _).
    by apply (for_each_preserves (fun _ => True)).
Qed.

End Termination.

(** C2, the part that holds.  Whatever the multiclasses inherit from,
    cycles included, as long as the finder answers with finitely many
    names: [computeCompositeDefmSymbols] returns for every statement
    list, once the fuel exceeds the number of names; and a multiclass
    that is entered again while it is being expanded, with no cached set,
    gives the empty set without any further call. *)
Theorem computeCompositeDefmSymbols_terminates
    (find : string -> option MultiClassDef) (keys : gset string)
    (fuel : nat) (statements : list Statement) (uri : string) :
  (forall n mc, find n = Some mc -> mc_key mc ∈ keys) ->
  size keys < fuel ->
  (exists symbols,
     computeCompositeDefmSymbols find fuel statements uri = Some symbols) /\
  (forall mc st,
     cache st !! mc_key mc = None -> mc_key mc ∈ visiting st ->
     collectDefSuffixes find fuel mc st = Some ([], st)).
Proof.
  intros Hknown Hfuel. split.
  - unfold computeCompositeDefmSymbols, collectCompositeDefmSymbolsFromStatements.
    destruct (for_each_preserves (fun _ => True)
                (collectCompositeDefmSymbolsFromStatement find fuel uri)
                statements) with (acc := (∅ : gmap string (list string),
                                          [] : list Symbol))
      as (acc' & -> & _); [|done|by eexists].
    apply Forall_forall. intros stmt _.
    by apply (collectCompositeDefmSymbolsFromStatement_total find keys).
  - intros mc st Hcache Hvis. destruct fuel as [|fuel]; [lia|].
    by apply collectDefSuffixes_reentered.
Qed.

End CycleFacts.

(* ===================================================================== *)
(** * Composite symbols of the test inputs *)
(* ===================================================================== *)

Section CycleExamples.
Import ResolutionHelpers Examples.

Definition cycle_finder : string -> option MultiClassDef :=
  buildMulticlassFinder cycle_statements.

Definition cycle_B_first_finder : string -> option MultiClassDef :=
  buildMulticlassFinder cycle_B_first_statements.

Lemma cycle_finder_known n mc :
  cycle_finder n = Some mc -> mc_key mc ∈ ({[ "A"; "B" ]} : gset string).
Proof.
  unfold cycle_finder, buildMulticlassFinder, cycle_statements, mc_key. simpl.
  repeat case_decide; intros [= <-]; simpl; set_solver.
Qed.

Lemma computeCompositeDefmSymbols_terminates_witness :
  (exists symbols,
     computeCompositeDefmSymbols cycle_finder 3 cycle_statements uri_composite
     = Some symbols) /\
  (forall mc st,
     cache st !! mc_key mc = None -> mc_key mc ∈ visiting st ->
     collectDefSuffixes cycle_finder 3 mc st = Some ([], st)).
Proof.
  apply (computeCompositeDefmSymbols_terminates cycle_finder {[ "A"; "B" ]} 3
           cycle_statements uri_composite).
  - exact cycle_finder_known.
  - vm_compute. lia.
Defined.

(** With [defm Z : A;] alone the cycle gives [Z_a] and [Z_b], whatever
    fuel is left over. *)
Lemma computeCompositeDefmSymbols_cycle_alone extra :
  names_of (computeCompositeDefmSymbols cycle_finder (3 + extra)
              cycle_statements uri_composite)
  = Some ["Z_a"; "Z_b"].
Proof. vm_compute. reflexivity. Qed.

(** The set of [A] is cached while [B] is being expanded, without the
    suffixes that [B] was still to give; a later [defm Z : A;] takes the
    cached set. *)
Lemma computeCompositeDefmSymbols_cycle_B_first extra :
  names_of (computeCompositeDefmSymbols cycle_B_first_finder (3 + extra)
              cycle_B_first_statements uri_composite)
  = Some ["Y_a"; "Y_b"; "Z_a"].
Proof. vm_compute. reflexivity. Qed.

(** C2, the input on which the cyclic case does not give [Z_a] and [Z_b]:
    after [defm Y : B;], the symbols of [defm Z : A;] are [Z_a] only. *)
Lemma computeCompositeDefmSymbols_cycle_truncated :
  names_of (computeCompositeDefmSymbols cycle_finder 3 cycle_statements
              uri_composite) = Some ["Z_a"; "Z_b"] /\
  names_of (computeCompositeDefmSymbols cycle_B_first_finder 3
              cycle_B_first_statements uri_composite)
  = Some ["Y_a"; "Y_b"; "Z_a"] /\
  "Z_b" ∉ default [] (names_of (computeCompositeDefmSymbols cycle_B_first_finder 3
                                  cycle_B_first_statements uri_composite)).
Proof.
  split; [exact (computeCompositeDefmSymbols_cycle_alone 0)|].
  split; [exact (computeCompositeDefmSymbols_cycle_B_first 0)|].
  pose proof (computeCompositeDefmSymbols_cycle_B_first 0) as Hnames.
  change (3 + 0) with 3 in Hnames. rewrite Hnames. simpl.
  rewrite !elem_of_cons, elem_of_nil. intros [H|[H|[H|[]]]]; discriminate H.
Qed.

(** ** The server's copy *)

Definition as_file (statements : list Statement) : ParsedFile :=
  {| pf_uri := uri_composite; pf_statements := statements;
     pf_includes := []; pf_errors := [] |}.

Definition server_names (statements : list Statement) (fuel : nat)
  : option (list string) :=
  (fun table => map sym_name (SymbolTable.getAllSymbolsInFile table uri_composite))
  <$> Server.registerCompositeDefmSymbols [as_file statements] fuel
        (as_file statements) uri_composite SymbolTable.empty.

(** The copy of [collectDefSuffixes] in server.ts reads the body of the
    multiclass only: the suffixes of parent multiclasses are not
    registered. *)
Lemma server_copy_own_defs_only extra :
  server_names inherited_statements (2 + extra) = Some ["Z_b"]
  /\ server_names cycle_statements (2 + extra) = Some ["Z_a"].
Proof. split; vm_compute; reflexivity. Qed.

(** C1 on the server's copy: for the three statements of the claim the
    copy in server.ts registers [Z_b] only, so no definition is found
    under the inherited name [Z_a]; [computeCompositeDefmSymbols] gives
    both names for the same statements. *)
Lemma registerCompositeDefmSymbols_misses_inherited :
  statements_of inherited_text = inherited_statements /\
  names_of (computeCompositeDefmSymbols
              (buildMulticlassFinder inherited_statements) 3
              inherited_statements uri_composite)
  = Some ["Z_a"; "Z_b"] /\
  exists table,
    Server.registerCompositeDefmSymbols [as_file inherited_statements] 2
      (as_file inherited_statements) uri_composite SymbolTable.empty
    = Some table /\
    map sym_name (SymbolTable.getAllSymbolsInFile table uri_composite)
    = ["Z_b"] /\
    SymbolTable.findDefinition table "Z_a" None = None /\
    sym_name <$> SymbolTable.findDefinition table "Z_b" None = Some "Z_b".
Proof.
  split; [vm_compute; reflexivity|]. split; [vm_compute; reflexivity|].
  eexists. split; [vm_compute; reflexivity|].
  repeat split; vm_compute; reflexivity.
Qed.

(** It has no guard either: a multiclass whose body instantiates itself
    uses up any fuel. *)
Lemma server_copy_self_cycle fuel :
  server_names self_cycle_statements fuel = None.
Proof.
  unfold server_names, Server.registerCompositeDefmSymbols,
    Server.registerCompositeDefmSymbolsFromStatements, self_cycle_statements.
  simpl.
  match goal with
  | |- context [Server.collectDefSuffixes ?fs fuel ?mc] =>
      assert (Server.collectDefSuffixes fs fuel mc = None) as ->; [|done]
  end.
  induction fuel as [|fuel IH]; [done|].
  simpl. unfold Server.collectDefSuffixesFromBody. simpl. by rewrite IH.
Qed.

Lemma helper_self_cycle extra :
  names_of (computeCompositeDefmSymbols
              (buildMulticlassFinder self_cycle_statements) (2 + extra)
              self_cycle_statements uri_composite)
  = Some [].
Proof. vm_compute. reflexivity. Qed.

End CycleExamples.
(* ===================================================================== *)
(** * parser.ts: the parser returns on every token list of the lexer *)
(* ===================================================================== *)

Section ParserFacts.
Import Parser.

(** ** Weakest preconditions for the parser monad *)

Definition wp {A} (m : M A) (Q : A -> state -> Prop) (st : state) : Prop :=
  exists a st', m st = Ok a st' /\ Q a st'.

Lemma wp_ret {A} (a : A) (Q : A -> state -> Prop) st : Q a st -> wp (ret a) Q st.
Proof. intros HQ. by exists a, st. Qed.

Lemma wp_bind {A B} (m : M A) (k : A -> M B) (Q : B -> state -> Prop) st :
  wp m (fun a st1 => wp (k a) Q st1) st -> wp (bind m k) Q st.
Proof.
  intros (a & st1 & Hm & b & st2 & Hk & HQ). exists b, st2.
  unfold bind. by rewrite Hm.
Qed.

Lemma wp_mono {A} (m : M A) (Q Q' : A -> state -> Prop) st :
  wp m Q st -> (forall a st', Q a st' -> Q' a st') -> wp m Q' st.
Proof. intros (a & st' & Hm & HQ) HQQ. exists a, st'. auto. Qed.

Lemma wp_if {A} (b : bool) (m1 m2 : M A) (Q : A -> state -> Prop) st :
  (b = true -> wp m1 Q st) -> (b = false -> wp m2 Q st) ->
  wp (if b then m1 else m2) Q st.
Proof. destruct b; auto. Qed.

(** The state after a call: the position has not gone back ([strict]: it
    has gone forward), and no diagnostic was added. *)
Definition after (st : state) (strict : bool) {A} : A -> state -> Prop :=
  fun _ st' =>
    (if strict then pos st < pos st' else pos st <= pos st')
    /\ errors st' = errors st.

Definition next (st : state) : state :=
  {| pos := S (pos st); errors := errors st |}.

(** ** Token lists that end with the only [eof] token *)

Variable body : list Token.
Variable eof : Token.
Hypothesis eof_type : tok_type eof = TTeof.
Hypothesis eof_value : tok_value eof = "".
Hypothesis body_real : Forall (fun t => tok_type t <> TTeof) body.

Local Abbreviation tokens := (body ++ [eof]).
Local Abbreviation n := (length body).

Definition token_at (i : nat) : Token := default eof (body !! i).
Definition cur (st : state) : Token := token_at (pos st).

Lemma token_at_eof i : n <= i -> token_at i = eof.
Proof. intros Hi. unfold token_at. by rewrite lookup_ge_None_2. Qed.

Lemma token_at_real i : tok_type (token_at i) <> TTeof -> i < n.
Proof.
  intros Hty. destruct (decide (i < n)) as [|Hge]; [done|].
  rewrite token_at_eof in Hty by lia. done.
Qed.

Lemma token_at_body i : i < n -> tok_type (token_at i) <> TTeof.
Proof.
  intros Hi. unfold token_at.
  destruct (lookup_lt_is_Some_2 body i Hi) as [t Ht]. rewrite Ht. simpl.
  by eapply (proj1 (Forall_lookup _ _) body_real).
Qed.

Lemma token_at_lookup i : i <= n -> tokens !! i = Some (token_at i).
Proof.
  intros Hi. unfold token_at. destruct (decide (i < n)) as [Hlt|Hge].
  - rewrite lookup_app_l by done.
    destruct (lookup_lt_is_Some_2 body i Hlt) as [t Ht]. by rewrite Ht.
  - assert (i = n) as -> by lia.
    rewrite lookup_app_r by lia. rewrite Nat.sub_diag.
    by rewrite (lookup_ge_None_2 body).
Qed.

Lemma peek_token_at off st : peek_token tokens off st = Some (token_at (pos st + off)).
Proof.
  unfold peek_token. destruct (decide (pos st + off <= n)) as [Hle|Hgt].
  - by rewrite token_at_lookup.
  - rewrite lookup_ge_None_2 by (rewrite length_app; simpl; lia).
    rewrite last_snoc. by rewrite token_at_eof by lia.
Qed.

Lemma real_type st ty : tok_type (cur st) = ty -> ty <> TTeof -> pos st < n.
Proof. intros Hty Hne. apply token_at_real. unfold cur in Hty. congruence. Qed.

Lemma token_is_real ty v st :
  token_is ty v (cur st) = true -> ty <> TTeof -> pos st < n.
Proof.
  unfold token_is. intros Hb Hne. apply andb_true_iff in Hb as [Hty _].
  apply bool_decide_eq_true in Hty. by eapply real_type.
Qed.

Lemma not_eof_real st : token_is TTeof (Some "") (cur st) = false -> pos st < n.
Proof.
  intros Hb. destruct (decide (pos st < n)) as [|Hge]; [done|].
  unfold cur in Hb. rewrite token_at_eof in Hb by lia.
  unfold token_is in Hb. rewrite eof_type, eof_value in Hb.
  by rewrite !bool_decide_eq_true_2 in Hb.
Qed.

(** ** The primitives *)

Lemma wp_peek off (Q : Token -> state -> Prop) st :
  Q (token_at (pos st + off)) st -> wp (peek tokens off) Q st.
Proof.
  intros HQ. exists (token_at (pos st + off)), st. split; [|done].
  unfold peek. by rewrite peek_token_at.
Qed.

Lemma wp_peek0 (Q : Token -> state -> Prop) st :
  Q (cur st) st -> wp (peek tokens 0) Q st.
Proof. intros HQ. apply wp_peek. by rewrite Nat.add_0_r. Qed.

Lemma wp_advance (Q : option Token -> state -> Prop) st :
  Q (tokens !! pos st) (next st) -> wp (advance tokens) Q st.
Proof. intros HQ. by eexists _, _. Qed.

Lemma wp_advance_token (Q : Token -> state -> Prop) st :
  pos st <= n -> (forall t, Q t (next st)) -> wp (advance_token tokens) Q st.
Proof.
  intros Hpos HQ. unfold advance_token. apply wp_bind, wp_advance.
  rewrite token_at_lookup by done. by apply wp_ret.
Qed.

Lemma wp_parseIdentifier (Q : Identifier -> state -> Prop) st :
  pos st <= n -> (forall id, Q id (next st)) -> wp (parseIdentifier tokens) Q st.
Proof.
  intros Hpos HQ. unfold parseIdentifier.
  apply wp_bind, wp_advance_token; [done|]. intros t. by apply wp_ret.
Qed.

Lemma wp_get_pos (Q : nat -> state -> Prop) st : Q (pos st) st -> wp get_pos Q st.
Proof. intros HQ. by eexists _, _. Qed.

Lemma wp_match ty v (Q : bool -> state -> Prop) st :
  Q (token_is ty v (cur st)) st -> wp (match_ tokens ty v) Q st.
Proof. intros HQ. unfold match_. apply wp_bind, wp_peek0. by apply wp_ret. Qed.

Lemma wp_start_here (Q : Position -> state -> Prop) st :
  (forall p, Q p st) -> wp (start_here tokens) Q st.
Proof. intros HQ. unfold start_here. apply wp_bind, wp_peek0. by apply wp_ret. Qed.

(** A guard reads the current token, and holds on a token of the body
    only. *)
Definition guard (g : M bool) : Prop :=
  forall st, exists b, g st = Ok b st /\ (b = true -> pos st < n).

Lemma wp_guard g (Q : bool -> state -> Prop) st :
  guard g -> (forall b, (b = true -> pos st < n) -> Q b st) -> wp g Q st.
Proof. intros Hg HQ. destruct (Hg st) as (b & Hb & Hreal). exists b, st. auto. Qed.

Lemma guard_match ty v : ty <> TTeof -> guard (match_ tokens ty v).
Proof.
  intros Hne st. exists (token_is ty v (cur st)). split.
  - unfold match_, bind, peek. rewrite peek_token_at, Nat.add_0_r. done.
  - intros Hb. by eapply token_is_real.
Qed.

Lemma guard_orM a b : guard a -> guard b -> guard (orM a b).
Proof.
  intros Ha Hb st. destruct (Ha st) as (x & Hx & Hxr).
  destruct (Hb st) as (y & Hy & Hyr). unfold orM, bind. rewrite Hx.
  destruct x; [by exists true|]. by exists y.
Qed.

Definition reads (g : M bool) : Prop := forall st, exists b, g st = Ok b st.

Lemma reads_ret c : reads (ret c).
Proof. intros st. by exists c. Qed.

Lemma reads_match ty v : reads (match_ tokens ty v).
Proof.
  intros st. exists (token_is ty v (cur st)).
  unfold match_, bind, peek. by rewrite peek_token_at, Nat.add_0_r.
Qed.

Lemma reads_notM g : reads g -> reads (notM g).
Proof.
  intros Hg st. destruct (Hg st) as (b & Hb). exists (negb b).
  unfold notM, bind. by rewrite Hb.
Qed.

Lemma guard_andM a b : reads a -> guard b -> guard (andM a b).
Proof.
  intros Ha Hb st. destruct (Ha st) as (x & Hx).
  destruct (Hb st) as (y & Hy & Hyr). unfold andM, bind. rewrite Hx.
  destruct x; [by exists y|]. by exists false.
Qed.

Lemma guard_not_eof : guard (notM (matchEof tokens)).
Proof.
  intros st. exists (negb (token_is TTeof (Some "") (cur st))). split.
  - unfold notM, matchEof, match_, bind, peek.
    rewrite peek_token_at, Nat.add_0_r. done.
  - intros Hb. apply negb_true_iff in Hb. by apply not_eof_real.
Qed.

Lemma guard_before close : guard (before tokens close).
Proof.
  apply guard_andM; [apply reads_notM, reads_match|apply guard_not_eof].
Qed.

(** One iteration keeps the invariant [I]; when it goes on, it has taken
    a token of the body. *)
Definition iteration (I : state -> Prop) (st : state) {A B}
  : A + B -> state -> Prop :=
  fun r st' =>
    pos st <= pos st' /\ errors st' = errors st /\ I st' /\
    match r with inl _ => pos st < n /\ pos st < pos st' | inr _ => True end.

(** The state after [parseStatement]: a statement takes a token unless
    the current token is [eof]. *)
Definition after_statement (st : state) {A} : A -> state -> Prop :=
  fun _ st' =>
    (pos st < n -> pos st < pos st') /\ pos st <= pos st'
    /\ errors st' = errors st.

Ltac solve_guard :=
  unfold matchT, matchK, matchP;
  repeat first
    [ apply guard_before
    | apply guard_not_eof
    | apply guard_andM; [apply reads_ret|]
    | apply guard_orM
    | apply guard_match; discriminate ].

(** ** Steps of a proof *)

Ltac finish :=
  unfold after, after_statement, iteration, next in *; simpl in *;
  repeat match goal with
         | H : _ /\ _ |- _ => destruct H
         | H : true = true -> _ |- _ => specialize (H eq_refl)
         | H : (_ =? _)%nat = false |- _ => apply Nat.eqb_neq in H
         | H : (_ =? _)%nat = true |- _ => apply Nat.eqb_eq in H
         end;
  repeat split; solve [lia | congruence | done].

Ltac wp_guard_step b H :=
  eapply wp_bind, wp_guard; [solve_guard | intros b H; cbv beta].

Ltac wp_call lem :=
  lazymatch goal with
  | |- wp (bind _ _) _ _ =>
      eapply wp_bind, wp_mono;
      [ eapply lem; first [finish | solve [solve_guard] | idtac]
      | let a := fresh "a" in let st := fresh "st" in let H := fresh "H" in
        intros a st H; unfold after, after_statement in H; cbv beta in H ]
  end.

(** A call in tail position. *)
Ltac wp_tail lem :=
  eapply wp_mono;
  [ eapply lem; first [finish | solve [solve_guard] | idtac]
  | let a := fresh "a" in let st := fresh "st" in let H := fresh "H" in
    intros a st H; finish ].

Ltac wp_step :=
  lazymatch goal with
  | |- wp (ret _) _ _ => apply wp_ret
  | |- wp (continue _) _ _ => apply wp_ret
  | |- wp (leave _) _ _ => apply wp_ret
  | |- wp (bind (peek _ 0) _) _ _ => eapply wp_bind, wp_peek0
  | |- wp (bind (peek _ _) _) _ _ => eapply wp_bind, wp_peek
  | |- wp (bind get_pos _) _ _ => eapply wp_bind, wp_get_pos
  | |- wp (bind (start_here _) _) _ _ => eapply wp_bind, wp_start_here; intros ?
  | |- wp (bind (advance _) _) _ _ => eapply wp_bind, wp_advance
  | |- wp (bind (advance_token _) _) _ _ =>
      eapply wp_bind, wp_advance_token; [try finish | intros ?]
  | |- wp (bind (parseIdentifier _) _) _ _ =>
      eapply wp_bind, wp_parseIdentifier; [try finish | intros ?]
  | |- wp (bind (match_ _ _ _) _) _ _ => eapply wp_bind, wp_match
  | |- wp (bind (ret _) _) _ _ => eapply wp_bind, wp_ret
  | |- wp (parseIdentifier _) _ _ =>
      eapply wp_parseIdentifier; [try finish | intros ?]
  | |- wp (bind (bind _ _) _) _ _ => eapply wp_bind
  end;
  cbv beta.

Lemma wp_skip_if v st : wp (skip_if tokens v) (after st false) st.
Proof.
  unfold skip_if, matchP. wp_step.
  destruct (token_is _ _ _); simpl.
  - wp_step. wp_step. finish.
  - wp_step. finish.
Qed.

(** ** Loops *)

Lemma wp_loop {A B} (I : state -> Prop) (step : A -> M (A + B)) fuel :
  (forall a st, I st -> wp (step a) (iteration I st) st) ->
  forall a st, I st -> n - pos st < fuel ->
    wp (loop fuel step a)
       (fun _ st' => pos st <= pos st' /\ errors st' = errors st /\ I st') st.
Proof.
  intros Hstep. induction fuel as [|fuel IH]; intros a st HI Hfuel; [lia|].
  simpl. apply wp_bind. eapply wp_mono; [by apply Hstep|].
  intros [a'|b] st1 (Hpos & Herr & HI1 & Hr); simpl.
  - destruct Hr as [Hn Hlt]. eapply wp_mono; [apply IH; [done|lia]|].
    intros _ st2 (Hpos2 & Herr2 & HI2). cbv beta.
    split; [lia|]. split; [congruence|done].
  - apply wp_ret. done.
Qed.

Lemma wp_continue {A B} (a : A) (Q : A + B -> state -> Prop) st :
  Q (inl a) st -> wp (continue a) Q st.
Proof. apply wp_ret. Qed.

Lemma wp_leave {A B} (b : B) (Q : A + B -> state -> Prop) st :
  Q (inr b) st -> wp (leave b) Q st.
Proof. apply wp_ret. Qed.

Ltac finish_iteration := finish.

(** A block of the source whose value is bound: it is proved apart from
    what follows it. *)
Ltac wp_block strict :=
  lazymatch goal with
  | |- wp (bind _ _) _ ?st =>
      eapply wp_bind, (wp_mono _ (after st strict));
      [ | let a := fresh "a" in let st := fresh "st" in let H := fresh "H" in
          intros a st H; unfold after in H; cbv beta in H ]
  end.

Ltac wp_loop_with I :=
  eapply wp_bind, wp_mono;
  [ eapply (wp_loop I); [ | try finish | try finish ]
  | let a := fresh "a" in let st := fresh "st" in let H := fresh "H" in
    intros a st H; cbv beta in H ].

Ltac case_type H :=
  match goal with
  | |- context [bool_decide (tok_type ?t = ?ty)] =>
      destruct (bool_decide (tok_type t = ty)) eqn:H;
      [apply bool_decide_eq_true in H|]; simpl
  end.

Ltac case_match H :=
  match goal with
  | |- context [token_is ?ty ?v ?t] =>
      destruct (token_is ty v t) eqn:H;
      [try pose proof (token_is_real _ _ _ H ltac:(discriminate))|]; simpl
  end.

(* --------------------------------------------------------------------- *)
(** ** Expressions *)
(* --------------------------------------------------------------------- *)

Section ExpressionLevel.
Variable fuel : nat.
Variable parseExpression : M Expression.
Hypothesis HE : forall st,
  n - pos st < fuel -> wp parseExpression (after st true) st.

Lemma wp_expression_list close st :
  n - pos st < fuel ->
  wp (expression_list tokens fuel parseExpression close) (after st false) st.
Proof.
  intros Hfuel. unfold expression_list. eapply wp_mono.
  - apply (wp_loop (fun st' => pos st <= pos st')); [|done|done].
    intros args st1 HI. wp_guard_step go Hgo. destruct go.
    + wp_call HE. wp_call wp_skip_if. wp_step. finish_iteration.
    + wp_step. finish_iteration.
  - intros a st' H. finish.
Qed.

Lemma wp_parseBangTypeArgumentText st :
  n - pos st < fuel ->
  wp (parseBangTypeArgumentText tokens fuel) (after st false) st.
Proof.
  intros Hfuel. unfold parseBangTypeArgumentText, matchP. wp_step.
  case_match Hlt; [|wp_step; finish].
  wp_step. wp_loop_with (fun st' => pos st <= pos st').
  - intros [angleDepth typeTokens] st1 HI. wp_guard_step go Hgo.
    destruct go; [|wp_step; finish_iteration].
    wp_step. case_match Hopen; [wp_step; finish_iteration|].
    case_match Hclose; [|wp_step; finish_iteration].
    destruct (angleDepth - 1 =? 0)%nat; wp_step; finish_iteration.
  - wp_step. finish.
Qed.

Lemma wp_parseBangOperator st :
  pos st < n -> n - pos st <= fuel ->
  wp (parseBangOperator tokens fuel parseExpression) (after st true) st.
Proof.
  intros Hreal Hfuel. unfold parseBangOperator, matchP.
  wp_step. wp_step. wp_call wp_parseBangTypeArgumentText. wp_step.
  wp_block false.
  - case_match Hopen; [|wp_step; finish].
    wp_step. wp_call wp_expression_list. wp_call wp_skip_if. wp_step. finish.
  - wp_step. wp_step. finish.
Qed.

Lemma wp_parseList st :
  pos st < n -> n - pos st <= fuel ->
  wp (parseList tokens fuel parseExpression) (after st true) st.
Proof.
  intros Hreal Hfuel. unfold parseList.
  wp_step. wp_step. wp_call wp_expression_list. wp_step.
  wp_call wp_skip_if. wp_step. finish.
Qed.

Lemma wp_parseDag st :
  pos st < n -> n - pos st <= fuel ->
  wp (parseDag tokens fuel parseExpression) (after st true) st.
Proof.
  intros Hreal Hfuel. unfold parseDag, matchP.
  wp_step. wp_step. wp_call HE.
  wp_loop_with (fun st' => pos st < pos st').
  - intros args st1 HI. wp_guard_step go Hgo.
    destruct go; [|wp_step; finish_iteration].
    wp_call HE. wp_step. wp_block false.
    + case_match Hcolon; [|wp_step; finish].
      wp_step. wp_step. destruct (startsWith _ _) eqn:Hdollar.
      * wp_step. wp_step. finish.
      * wp_step. finish.
    + wp_call wp_skip_if. wp_step. finish_iteration.
  - wp_step. wp_call wp_skip_if. wp_step. finish.
Qed.

Lemma wp_parsePrimaryExpression st :
  n - pos st <= fuel ->
  wp (parsePrimaryExpression tokens fuel parseExpression) (after st true) st.
Proof.
  intros Hfuel. unfold parsePrimaryExpression, matchP. wp_step.
  destruct (_ && startsWith _ _) eqn:Hbang.
  { apply andb_true_iff in Hbang as [Hop _]. apply bool_decide_eq_true in Hop.
    pose proof (real_type _ _ Hop ltac:(discriminate)).
    by apply wp_parseBangOperator. }
  case_type Hnum; [wp_step; wp_step; finish|].
  case_type Hstr; [wp_step; wp_step; finish|].
  case_type Hcode; [wp_step; wp_step; finish|].
  wp_step. case_match Hlist.
  { apply wp_parseList; [|done]. by eapply token_is_real. }
  wp_step. case_match Hdag.
  { apply wp_parseDag; [|done]. by eapply token_is_real. }
  case_type Hid; [|wp_step; wp_step; finish].
  pose proof (real_type _ _ Hid ltac:(discriminate)).
  wp_step. wp_step. case_match Hlt.
  - wp_step. wp_loop_with (fun st' => pos st < pos st').
    + intros args st1 HI. wp_guard_step go Hgo.
      destruct go; [|wp_step; finish_iteration].
      wp_call HE. wp_step. case_match Hcomma.
      * wp_step. wp_step. finish_iteration.
      * wp_step. case_match Hclose; wp_step; finish_iteration.
    + wp_call wp_skip_if. wp_step. wp_step. finish.
  - wp_step. case_match Hdot.
    + wp_step. wp_step. wp_step. finish.
    + wp_step. finish.
Qed.

End ExpressionLevel.

(** An expression takes at least one token, so the tokens left bound the
    depth of the recursion. *)
Lemma wp_parseExpression fuel : forall st,
  n - pos st < fuel -> wp (parseExpression tokens fuel) (after st true) st.
Proof.
  induction fuel as [|fuel IH]; intros st Hfuel; [lia|].
  simpl. apply wp_parsePrimaryExpression; [done|lia].
Qed.

(* --------------------------------------------------------------------- *)
(** ** Statements *)
(* --------------------------------------------------------------------- *)

Section StatementLevel.
Variable fuel : nat.
Variable parseStatement : M (option Statement).
Hypothesis HS : forall st,
  n - pos st + 1 < fuel -> wp parseStatement (after_statement st) st.

Lemma wp_append_if c text st :
  guard c -> wp (append_if tokens c text) (after st false) st.
Proof.
  intros Hc. unfold append_if. eapply wp_bind, wp_guard; [done|].
  intros b Hb. cbv beta. destruct b.
  - wp_step. wp_step. finish.
  - wp_step. finish.
Qed.

Lemma wp_compound_tail head inner argType st :
  guard inner -> wp (compound_tail tokens head inner argType) (after st false) st.
Proof.
  intros Hinner. unfold compound_tail, matchP. wp_guard_step c Hc.
  destruct c; [|wp_step; finish].
  wp_step. wp_call wp_append_if. wp_step.
  case_match Hgt; [wp_step|]; wp_step; finish.
Qed.

Lemma wp_parseTemplateArgs st :
  n - pos st < fuel -> wp (parseTemplateArgs tokens fuel) (after st false) st.
Proof.
  intros Hfuel. unfold parseTemplateArgs, matchP, matchT. wp_step.
  case_match Hlt; [|wp_step; finish].
  wp_step. wp_loop_with (fun st' => pos st <= pos st').
  - intros args st1 HI. wp_guard_step go Hgo.
    destruct go; [|wp_step; finish_iteration].
    wp_step. wp_step. wp_guard_step isType HisType.
    wp_block false.
    { destruct isType; [|wp_step; finish].
      wp_step. wp_call wp_compound_tail. wp_tail wp_compound_tail. }
    wp_step. wp_block false.
    { case_match Hname; [|wp_step; finish]. wp_step. wp_step. finish. }
    wp_step. wp_block false.
    { case_match Heq; [|wp_step; finish].
      wp_step. wp_call wp_parseExpression. wp_step. finish. }
    wp_block false.
    { match goal with |- wp (match ?x with _ => _ end) _ _ => destruct x end.
      - wp_step. wp_step. finish.
      - wp_step. finish. }
    wp_step. case_match Hcomma.
    + wp_step. wp_step. finish_iteration.
    + wp_step. destruct (_ =? _)%nat eqn:Hp.
      * wp_step. wp_step. finish_iteration.
      * wp_step. finish_iteration.
  - wp_call wp_skip_if. wp_step. finish.
Qed.

Lemma wp_parseClassRef st :
  pos st < n -> n - pos st < fuel ->
  wp (parseClassRef tokens fuel) (after st true) st.
Proof.
  intros Hreal Hfuel. unfold parseClassRef, matchP.
  wp_step. wp_step. wp_step. wp_block false.
  - case_match Hlt; [|wp_step; finish].
    wp_step. wp_call wp_expression_list.
    { intros st' Hst'. by apply wp_parseExpression. }
    wp_call wp_skip_if. wp_step. finish.
  - wp_step. wp_step. finish.
Qed.

Lemma wp_parseParentClasses st :
  n - pos st < fuel -> wp (parseParentClasses tokens fuel) (after st false) st.
Proof.
  intros Hfuel. unfold parseParentClasses, matchP, matchT. wp_step.
  case_match Hcolon; [|wp_step; finish].
  wp_step. eapply wp_mono.
  - apply (wp_loop (fun st' => pos st <= pos st')); [|finish|finish].
    intros parents st1 HI. wp_guard_step go Hgo.
    destruct go; [|wp_step; finish_iteration].
    wp_call wp_parseClassRef. wp_step.
    case_match Hcomma; [wp_step|]; wp_step; finish_iteration.
  - intros a st' H'. finish.
Qed.

Lemma wp_parseBody st :
  n - pos st < fuel ->
  wp (parseBody tokens fuel parseStatement) (after st false) st.
Proof.
  intros Hfuel. unfold parseBody, matchP. wp_step.
  case_match Hopen; [|wp_step; finish].
  wp_step. wp_loop_with (fun st' => pos st < pos st').
  - intros statements st1 HI. wp_guard_step go Hgo.
    destruct go; [|wp_step; finish_iteration].
    wp_call HS. wp_step. finish_iteration.
  - wp_call wp_skip_if. wp_step. finish.
Qed.

Lemma wp_optional_name st : wp (optional_name tokens) (after st false) st.
Proof.
  unfold optional_name, matchT. wp_step.
  case_match Hname; [wp_step|]; wp_step; finish.
Qed.

Lemma wp_parseClass st :
  pos st < n -> n - pos st < fuel ->
  wp (parseClass tokens fuel parseStatement) (after st true) st.
Proof.
  intros Hreal Hfuel. unfold parseClass, matchP.
  wp_step. wp_step. wp_step. wp_call wp_parseTemplateArgs.
  wp_call wp_parseParentClasses. wp_step. wp_call wp_parseBody.
  wp_call wp_skip_if. wp_step. wp_step. finish.
Qed.

Lemma wp_parseDef st :
  pos st < n -> n - pos st < fuel ->
  wp (parseDef tokens fuel parseStatement) (after st true) st.
Proof.
  intros Hreal Hfuel. unfold parseDef.
  wp_step. wp_step. wp_call wp_optional_name.
  wp_call wp_parseParentClasses. wp_call wp_parseBody.
  wp_call wp_skip_if. wp_step. wp_step. finish.
Qed.

Lemma wp_parseMulticlass st :
  pos st < n -> n - pos st < fuel ->
  wp (parseMulticlass tokens fuel parseStatement) (after st true) st.
Proof.
  intros Hreal Hfuel. unfold parseMulticlass.
  wp_step. wp_step. wp_step. wp_call wp_parseTemplateArgs.
  wp_call wp_parseParentClasses. wp_call wp_parseBody.
  wp_step. wp_step. finish.
Qed.

Lemma wp_parseDefm st :
  pos st < n -> n - pos st < fuel ->
  wp (parseDefm tokens fuel) (after st true) st.
Proof.
  intros Hreal Hfuel. unfold parseDefm.
  wp_step. wp_step. wp_call wp_optional_name.
  wp_call wp_parseParentClasses. wp_call wp_skip_if. wp_step. wp_step. finish.
Qed.

Lemma wp_parseDefset st :
  pos st < n -> n - pos st < fuel ->
  wp (parseDefset tokens fuel parseStatement) (after st true) st.
Proof.
  intros Hreal Hfuel. unfold parseDefset, matchP, matchT.
  wp_step. wp_step. wp_loop_with (fun st' => pos st < pos st').
  - intros [valueType bracketDepth] st1 HI. wp_step.
    case_match Hlt; [wp_step; wp_step; finish_iteration|].
    wp_step. case_match Hgt.
    { wp_step. destruct (_ =? _)%Z; wp_step; finish_iteration. }
    destruct (0 <? bracketDepth)%Z.
    + wp_guard_step inside Hinside.
      destruct inside; [wp_step|]; wp_step; finish_iteration.
    + wp_step. case_match Hkw; [wp_step|]; wp_step; finish_iteration.
  - wp_step. wp_block false.
    { case_match Hname; [wp_step; finish|]. wp_step. wp_step. finish. }
    wp_call wp_skip_if. wp_call wp_parseBody. wp_step. wp_step. finish.
Qed.

Lemma wp_parseDefvar st :
  pos st < n -> n - pos st < fuel ->
  wp (parseDefvar tokens fuel) (after st true) st.
Proof.
  intros Hreal Hfuel. unfold parseDefvar.
  wp_step. wp_step. wp_step. wp_call wp_skip_if.
  wp_call wp_parseExpression. wp_call wp_skip_if. wp_step. wp_step. finish.
Qed.

Lemma wp_block_or_statement st :
  n - pos st + 1 < fuel ->
  wp (block_or_statement tokens fuel parseStatement) (after st false) st.
Proof.
  intros Hfuel. unfold block_or_statement, matchP. wp_step.
  case_match Hopen.
  - apply wp_parseBody. lia.
  - wp_call HS. wp_step. finish.
Qed.

Lemma wp_body_after keyword st :
  n - pos st < fuel ->
  wp (body_after tokens fuel parseStatement keyword) (after st false) st.
Proof.
  intros Hfuel. unfold body_after, matchK. wp_step.
  case_match Hkw; [|wp_step; finish].
  wp_step. wp_tail wp_block_or_statement.
Qed.

Lemma wp_parseLet st :
  pos st < n -> n - pos st < fuel ->
  wp (parseLet tokens fuel parseStatement) (after st true) st.
Proof.
  intros Hreal Hfuel. unfold parseLet, matchP, matchT.
  wp_step. wp_step. wp_loop_with (fun st' => pos st < pos st').
  - intros bindings st1 HI. wp_guard_step go Hgo.
    destruct go; [|wp_step; finish_iteration].
    wp_step. wp_step. wp_call wp_skip_if. wp_call wp_parseExpression.
    wp_step. wp_step.
    case_match Hcomma; [wp_step|]; wp_step; finish_iteration.
  - wp_call wp_body_after. wp_call wp_skip_if. wp_step. wp_step. finish.
Qed.

Lemma wp_parseForeach st :
  pos st < n -> n - pos st < fuel ->
  wp (parseForeach tokens fuel parseStatement) (after st true) st.
Proof.
  intros Hreal Hfuel. unfold parseForeach.
  wp_step. wp_step. wp_step. wp_call wp_skip_if.
  wp_call wp_parseExpression. wp_call wp_body_after.
  wp_step. wp_step. finish.
Qed.

Lemma wp_parseIf st :
  pos st < n -> n - pos st < fuel ->
  wp (parseIf tokens fuel parseStatement) (after st true) st.
Proof.
  intros Hreal Hfuel. unfold parseIf.
  wp_step. wp_step. wp_call wp_parseExpression.
  wp_call wp_body_after. wp_call wp_body_after. wp_step. wp_step. finish.
Qed.

Lemma wp_parseInclude st :
  pos st < n -> wp (parseInclude tokens) (after st true) st.
Proof.
  intros Hreal. unfold parseInclude.
  wp_step. wp_step. wp_call wp_append_if. wp_step. wp_step. finish.
Qed.

Lemma wp_parseAssert st :
  pos st < n -> n - pos st < fuel ->
  wp (parseAssert tokens fuel) (after st true) st.
Proof.
  intros Hreal Hfuel. unfold parseAssert.
  wp_step. wp_step. wp_call wp_parseExpression. wp_call wp_skip_if.
  wp_call wp_parseExpression. wp_call wp_skip_if. wp_step. wp_step. finish.
Qed.

(** The loop over the type stops on a token of the body or on [eof], so
    the name is read inside the token list. *)
Lemma wp_parseField st :
  pos st < n -> n - pos st < fuel ->
  wp (parseField tokens fuel) (after st true) st.
Proof.
  intros Hreal Hfuel. unfold parseField, matchP, matchT, matchK, when.
  wp_step. wp_step.
  eapply wp_bind, (wp_mono _ (fun _ st' =>
    pos st <= pos st' /\ pos st' <= n /\ errors st' = errors st)).
  { destruct (token_is _ _ _); [wp_step|]; wp_step; finish. }
  intros _ st0 Hst0. cbv beta.
  eapply wp_bind, (wp_mono _ (fun _ st' =>
    pos st0 <= pos st' /\ errors st' = errors st0 /\ pos st' <= n)).
  - eapply wp_mono.
    + apply (wp_loop (fun st' => pos st0 <= pos st' /\ pos st' <= n)).
      * intros fieldType st1 HI. wp_guard_step go Hgo.
        destruct go; [|wp_step; finish_iteration].
        wp_step. case_type Hid.
        -- wp_step. wp_step. wp_step.
           destruct (_ || _); [wp_step; finish_iteration|].
           wp_step. wp_step. finish_iteration.
        -- wp_step. wp_step. wp_step. finish_iteration.
      * finish.
      * finish.
    + intros a' st' H'. finish.
  - intros a' st' H'. cbv beta in H'. wp_step. wp_step. wp_block false.
    { case_match Heq; [|wp_step; finish].
      wp_step. wp_call wp_parseExpression. wp_step. finish. }
    wp_call wp_skip_if. wp_step. wp_step.
    (* the name took a token *)
    finish.
Qed.

Lemma wp_some {A B} (f : A -> B) (m : M A) strict st :
  wp m (after st strict) st -> wp (some f m) (after st strict) st.
Proof.
  intros Hm. unfold some. eapply wp_bind, wp_mono; [exact Hm|].
  intros a st' H'. cbv beta. wp_step. exact H'.
Qed.

Lemma after_statement_strict {A B} (m : M A) (f : A -> B) st :
  wp m (after st true) st -> wp (some (fun a => f a) m) (after_statement st) st.
Proof.
  intros Hm. eapply wp_mono; [by apply wp_some|].
  intros a st' H'. finish.
Qed.

(** [parseStatement] proper: the dispatch on the current token. *)
Lemma wp_parseStatement_body st :
  n - pos st < fuel ->
  wp (parseStatement_body tokens fuel parseStatement) (after_statement st) st.
Proof.
  intros Hfuel. unfold parseStatement_body. wp_step.
  destruct (bool_decide (tok_type (cur st) = TTeof)) eqn:Heof.
  { apply bool_decide_eq_true in Heof. wp_step.
    split; [|done]. intros Hlt. by apply token_at_body in Hlt. }
  assert (Hreal : pos st < n).
  { apply token_at_real. by apply bool_decide_eq_false in Heof. }
  assert (Hother : wp (if bool_decide (tok_type (cur st) = TTidentifier)
                       then some SFieldDef (parseField tokens fuel)
                       else seq advance tokens; ret None)
                      (after_statement st) st).
  { case_type Hid.
    - apply after_statement_strict. by apply wp_parseField.
    - wp_step. wp_step. finish. }
  destruct (bool_decide (tok_type (cur st) = TTkeyword)); [|exact Hother].
  repeat (match goal with
          | |- wp (match ?d with left _ => _ | right _ => _ end) _ _ =>
              destruct d
          end;
          [apply after_statement_strict;
           first [ by apply wp_parseClass | by apply wp_parseDef
                 | by apply wp_parseMulticlass | by apply wp_parseDefm
                 | by apply wp_parseDefset | by apply wp_parseDefvar
                 | by apply wp_parseLet | by apply wp_parseForeach
                 | by apply wp_parseIf | by apply wp_parseInclude
                 | by apply wp_parseAssert ] |]).
  destruct (bool_decide (tok_value (cur st) ∈ field_keywords));
    [|exact Hother].
  apply after_statement_strict. by apply wp_parseField.
Qed.

End StatementLevel.

(** A statement takes a token, and its bodies are read after one. *)
Lemma wp_parseStatement fuel : forall st,
  n - pos st + 1 < fuel -> wp (parseStatement tokens fuel) (after_statement st) st.
Proof.
  induction fuel as [|fuel IH]; intros st Hfuel; [lia|].
  simpl. apply wp_parseStatement_body; [done|lia].
Qed.

Lemma wp_parse_loop fuel st :
  n - pos st + 1 < fuel -> wp (parse_loop tokens fuel) (after st false) st.
Proof.
  intros Hfuel. unfold parse_loop, matchEof. eapply wp_mono.
  - apply (wp_loop (fun st' => pos st <= pos st')); [|finish|lia].
    intros [statements includes] st1 HI. wp_step.
    destruct (token_is _ _ _) eqn:Hstop; [wp_step; finish|].
    pose proof (not_eof_real _ Hstop).
    wp_call wp_parseStatement. wp_step. finish.
  - intros a st' H'. finish.
Qed.

(** The parser on a token list of the lexer, on a budget above the
    number of tokens: it returns, and with no diagnostic. *)
Lemma parse_returns uri fuel :
  length tokens < fuel ->
  exists statements includes st',
    parse tokens uri fuel
    = Ok {| pf_uri := uri; pf_statements := statements;
            pf_includes := includes; pf_errors := [] |} st'.
Proof.
  intros Hfuel. unfold parse.
  destruct (wp_parse_loop fuel {| pos := 0; errors := [] |})
    as ([statements includes] & st' & -> & _ & Herr).
  { rewrite length_app in Hfuel. simpl in *. lia. }
  simpl in Herr. rewrite Herr. by eexists _, _, _.
Qed.

(** [expect] takes the token whatever it is, and records a diagnostic at
    a token that is not the expected one. *)
Lemma expect_records ty v st :
  exists t st',
    peek_token tokens 0 st = Some t /\
    expect tokens ty v st = Ok (tokens !! pos st) st' /\
    pos st' = S (pos st) /\
    if token_is ty v t then errors st' = errors st
    else exists e, errors st' = errors st ++ [e] /\ pe_range e = tok_range t.
Proof.
  exists (cur st). unfold expect, bind, peek, when.
  rewrite peek_token_at, Nat.add_0_r. fold (cur st).
  destruct (token_is ty v (cur st)); simpl.
  - eexists. by repeat split.
  - eexists. repeat split. by eexists.
Qed.

End ParserFacts.

(** ** Token lists of the lexer *)

Definition is_eof (t : Token) : bool :=
  bool_decide (tok_type t = TTeof) && bool_decide (tok_value t = "").

(** The last token is the [eof] token, and no other token has its
    type. *)
Fixpoint ends_with_eof (tokens : list Token) : bool :=
  match tokens with
  | [] => false
  | t :: rest =>
      match rest with
      | [] => is_eof t
      | _ => negb (bool_decide (tok_type t = TTeof)) && ends_with_eof rest
      end
  end.

Lemma ends_with_eof_split tokens :
  ends_with_eof tokens = true ->
  exists body eof,
    tokens = body ++ [eof] /\ tok_type eof = TTeof /\ tok_value eof = ""
    /\ Forall (fun t => tok_type t <> TTeof) body.
Proof.
  induction tokens as [|t rest IH]; [done|]. simpl.
  destruct rest as [|t' rest'].
  - intros Heof. apply andb_true_iff in Heof as [Hty Hv].
    apply bool_decide_eq_true in Hty, Hv. by exists [], t.
  - intros Hb. apply andb_true_iff in Hb as [Hty Hrest].
    apply negb_true_iff, bool_decide_eq_false in Hty.
    destruct (IH Hrest) as (body & eof & Heq & ? & ? & Hbody).
    exists (t :: body), eof. rewrite Heq. repeat split; try done.
    by constructor.
Qed.

(** ** What [parseClass] went through *)

Section ParserTrace.
Import Parser.

Lemma bind_Ok {A B} (m : M A) (k : A -> M B) st b st' :
  bind m k st = Ok b st' ->
  exists a st1, m st = Ok a st1 /\ k a st1 = Ok b st'.
Proof.
  unfold bind. destruct (m st) as [a st1| |]; [|done|done]. by exists a, st1.
Qed.

Lemma parseClass_trace tokens fuel pS st cd st' :
  parseClass tokens fuel pS st = Ok cd st' ->
  exists st1 st2 st3 st4 hasBody,
    parseIdentifier tokens (next st) = Ok (cd_name cd) st1 /\
    parseTemplateArgs tokens fuel st1 = Ok (cd_templateArgs cd) st2 /\
    parseParentClasses tokens fuel st2 = Ok (cd_parentClasses cd) st3 /\
    matchP tokens "{" st3 = Ok hasBody st3 /\
    parseBody tokens fuel pS st3 = Ok (cd_body cd) st4 /\
    cd_isForwardDeclaration cd
    = negb hasBody && (length (cd_templateArgs cd) =? 0)%nat
      && (length (cd_parentClasses cd) =? 0)%nat.
Proof.
  unfold parseClass. intros H.
  apply bind_Ok in H as (start & s0 & Hstart & H).
  assert (s0 = st) as ->.
  { unfold start_here, bind, peek in Hstart.
    destruct (peek_token tokens 0 st); [|done]. by injection Hstart. }
  apply bind_Ok in H as (? & s1 & Hadv & H).
  assert (s1 = next st) as -> by (by injection Hadv).
  apply bind_Ok in H as (name & st1 & Hname & H).
  apply bind_Ok in H as (targs & st2 & Htargs & H).
  apply bind_Ok in H as (parents & st3 & Hparents & H).
  apply bind_Ok in H as (hasBody & s3 & HhasBody & H).
  assert (s3 = st3) as ->.
  { unfold matchP, match_, bind, peek in HhasBody.
    destruct (peek_token tokens 0 st3); [|done]. by injection HhasBody. }
  apply bind_Ok in H as (stmts & st4 & Hbody & H).
  apply bind_Ok in H as (? & st5 & Hskip & H).
  apply bind_Ok in H as (end_ & st6 & Hend & H).
  injection H as <- _. simpl.
  by exists st1, st2, st3, st4, hasBody.
Qed.

Lemma parseBody_without_brace tokens fuel pS st stmts st' :
  matchP tokens "{" st = Ok false st ->
  parseBody tokens fuel pS st = Ok stmts st' -> stmts = [].
Proof.
  intros Hmatch. unfold parseBody, bind. rewrite Hmatch. simpl.
  by intros [= <- _].
Qed.

End ParserTrace.


(* ===================================================================== *)
(** * parser.ts: a larger budget changes nothing but running out *)
(* ===================================================================== *)

Section ParserBudget.
Import Parser.

(** [below r r']: the run [r] has the outcome of [r'] unless it ran out
    of fuel. *)
Definition below {A} (r r' : result A) : Prop := r = OutOfFuel \/ r = r'.

Definition mle {A} (m m' : M A) : Prop := forall st, below (m st) (m' st).

Lemma mle_refl {A} (m : M A) : mle m m.
Proof. intros st. by right. Qed.

Lemma mle_out_of_fuel {A} (m : M A) : mle out_of_fuel m.
Proof. intros st. by left. Qed.

Lemma mle_bind {A B} (m m' : M A) (k k' : A -> M B) :
  mle m m' -> (forall a, mle (k a) (k' a)) -> mle (bind m k) (bind m' k').
Proof.
  intros Hm Hk st. unfold bind. destruct (Hm st) as [->| ->]; [by left|].
  destruct (m' st) as [a st1| |]; [apply Hk|by right|by right].
Qed.

Lemma mle_loop {A B} (step step' : A -> M (A + B)) :
  (forall a, mle (step a) (step' a)) ->
  forall fuel fuel', fuel <= fuel' ->
    forall a, mle (loop fuel step a) (loop fuel' step' a).
Proof.
  intros Hstep fuel. induction fuel as [|fuel IH]; intros fuel' Hle a.
  - apply mle_out_of_fuel.
  - destruct fuel' as [|fuel']; [lia|]. simpl.
    apply mle_bind; [apply Hstep|].
    intros [a'|b]; [apply IH; lia|apply mle_refl].
Qed.

Ltac mle_step :=
  match goal with
  | |- mle ?m ?m => apply mle_refl
  | |- mle (bind _ _) (bind _ _) => apply mle_bind; [|intros ?]
  | |- mle (loop _ _ _) (loop _ _ _) => apply mle_loop; [intros ?|assumption]
  | |- mle (if ?b then _ else _) (if ?b then _ else _) => destruct b
  | |- mle (match ?x with _ => _ end) (match ?x with _ => _ end) => destruct x
  | |- mle (when _ _) (when _ _) => unfold when
  | |- mle (some _ _) (some _ _) => unfold some
  | |- mle ((fun _ => _) _) _ => cbv beta
  | |- _ => solve [eauto]
  end.

Ltac mle_auto := repeat mle_step.

Variable tokens : list Token.

Section ExpressionBudget.
Variables fuel fuel' : nat.
Variables pE pE' : M Expression.
Hypothesis Hfuel : fuel <= fuel'.
Hypothesis HpE : mle pE pE'.

Lemma mle_expression_list close :
  mle (expression_list tokens fuel pE close)
      (expression_list tokens fuel' pE' close).
Proof. unfold expression_list. mle_auto. Qed.

Lemma mle_parseBangTypeArgumentText :
  mle (parseBangTypeArgumentText tokens fuel)
      (parseBangTypeArgumentText tokens fuel').
Proof. unfold parseBangTypeArgumentText. mle_auto. Qed.

Lemma mle_parseBangOperator :
  mle (parseBangOperator tokens fuel pE) (parseBangOperator tokens fuel' pE').
Proof.
  pose proof mle_expression_list. pose proof mle_parseBangTypeArgumentText.
  unfold parseBangOperator. mle_auto.
Qed.

Lemma mle_parseList :
  mle (parseList tokens fuel pE) (parseList tokens fuel' pE').
Proof. pose proof mle_expression_list. unfold parseList. mle_auto. Qed.

Lemma mle_parseDag :
  mle (parseDag tokens fuel pE) (parseDag tokens fuel' pE').
Proof. unfold parseDag. mle_auto. Qed.

Lemma mle_parsePrimaryExpression :
  mle (parsePrimaryExpression tokens fuel pE)
      (parsePrimaryExpression tokens fuel' pE').
Proof.
  pose proof mle_parseBangOperator. pose proof mle_parseList.
  pose proof mle_parseDag.
  unfold parsePrimaryExpression. mle_auto.
Qed.

End ExpressionBudget.

Lemma mle_parseExpression fuel :
  forall fuel', fuel <= fuel' ->
    mle (parseExpression tokens fuel) (parseExpression tokens fuel').
Proof.
  induction fuel as [|fuel IH]; intros fuel' Hle; [apply mle_out_of_fuel|].
  destruct fuel' as [|fuel']; [lia|]. simpl.
  apply mle_parsePrimaryExpression; [lia|apply IH; lia].
Qed.


Section StatementBudget.
Variables fuel fuel' : nat.
Variables pS pS' : M (option Statement).
Hypothesis Hfuel : fuel <= fuel'.
Hypothesis HpS : mle pS pS'.

Local Lemma mle_statement_expressions : mle (parseExpression tokens fuel) (parseExpression tokens fuel').
Proof. by apply mle_parseExpression. Qed.

Lemma mle_parseTemplateArgs :
  mle (parseTemplateArgs tokens fuel) (parseTemplateArgs tokens fuel').
Proof. pose proof mle_statement_expressions. unfold parseTemplateArgs. mle_auto. Qed.

Lemma mle_parseClassRef :
  mle (parseClassRef tokens fuel) (parseClassRef tokens fuel').
Proof.
  pose proof (fun close => mle_expression_list fuel fuel' _ _ Hfuel mle_statement_expressions close).
  unfold parseClassRef. mle_auto.
Qed.

Lemma mle_parseParentClasses :
  mle (parseParentClasses tokens fuel) (parseParentClasses tokens fuel').
Proof. pose proof mle_parseClassRef. unfold parseParentClasses. mle_auto. Qed.

Lemma mle_parseBody :
  mle (parseBody tokens fuel pS) (parseBody tokens fuel' pS').
Proof. unfold parseBody. mle_auto. Qed.

Lemma mle_parseClass :
  mle (parseClass tokens fuel pS) (parseClass tokens fuel' pS').
Proof.
  pose proof mle_parseTemplateArgs. pose proof mle_parseParentClasses.
  pose proof mle_parseBody. unfold parseClass. mle_auto.
Qed.

Lemma mle_parseDef :
  mle (parseDef tokens fuel pS) (parseDef tokens fuel' pS').
Proof.
  pose proof mle_parseParentClasses. pose proof mle_parseBody.
  unfold parseDef. mle_auto.
Qed.

Lemma mle_parseMulticlass :
  mle (parseMulticlass tokens fuel pS) (parseMulticlass tokens fuel' pS').
Proof.
  pose proof mle_parseTemplateArgs. pose proof mle_parseParentClasses.
  pose proof mle_parseBody. unfold parseMulticlass. mle_auto.
Qed.

Lemma mle_parseDefm :
  mle (parseDefm tokens fuel) (parseDefm tokens fuel').
Proof. pose proof mle_parseParentClasses. unfold parseDefm. mle_auto. Qed.

Lemma mle_parseDefset :
  mle (parseDefset tokens fuel pS) (parseDefset tokens fuel' pS').
Proof. pose proof mle_parseBody. unfold parseDefset. mle_auto. Qed.

Lemma mle_parseDefvar :
  mle (parseDefvar tokens fuel) (parseDefvar tokens fuel').
Proof. pose proof mle_statement_expressions. unfold parseDefvar. mle_auto. Qed.

Lemma mle_block_or_statement :
  mle (block_or_statement tokens fuel pS) (block_or_statement tokens fuel' pS').
Proof. pose proof mle_parseBody. unfold block_or_statement. mle_auto. Qed.

Lemma mle_body_after keyword :
  mle (body_after tokens fuel pS keyword) (body_after tokens fuel' pS' keyword).
Proof. pose proof mle_block_or_statement. unfold body_after. mle_auto. Qed.

Lemma mle_parseLet :
  mle (parseLet tokens fuel pS) (parseLet tokens fuel' pS').
Proof. pose proof mle_statement_expressions. pose proof mle_body_after. unfold parseLet. mle_auto. Qed.

Lemma mle_parseForeach :
  mle (parseForeach tokens fuel pS) (parseForeach tokens fuel' pS').
Proof.
  pose proof mle_statement_expressions. pose proof mle_body_after. unfold parseForeach. mle_auto.
Qed.

Lemma mle_parseIf :
  mle (parseIf tokens fuel pS) (parseIf tokens fuel' pS').
Proof. pose proof mle_statement_expressions. pose proof mle_body_after. unfold parseIf. mle_auto. Qed.

Lemma mle_parseAssert :
  mle (parseAssert tokens fuel) (parseAssert tokens fuel').
Proof. pose proof mle_statement_expressions. unfold parseAssert. mle_auto. Qed.

Lemma mle_parseField :
  mle (parseField tokens fuel) (parseField tokens fuel').
Proof. pose proof mle_statement_expressions. unfold parseField. mle_auto. Qed.

Lemma mle_parseStatement_body :
  mle (parseStatement_body tokens fuel pS) (parseStatement_body tokens fuel' pS').
Proof.
  pose proof mle_parseClass. pose proof mle_parseDef.
  pose proof mle_parseMulticlass. pose proof mle_parseDefm.
  pose proof mle_parseDefset. pose proof mle_parseDefvar.
  pose proof mle_parseLet. pose proof mle_parseForeach. pose proof mle_parseIf.
  pose proof mle_parseAssert. pose proof mle_parseField.
  unfold parseStatement_body. mle_auto.
Qed.

End StatementBudget.

Lemma mle_parseStatement fuel :
  forall fuel', fuel <= fuel' ->
    mle (parseStatement tokens fuel) (parseStatement tokens fuel').
Proof.
  induction fuel as [|fuel IH]; intros fuel' Hle; [apply mle_out_of_fuel|].
  destruct fuel' as [|fuel']; [lia|]. simpl.
  apply mle_parseStatement_body; [lia|apply IH; lia].
Qed.

Lemma mle_parse_loop fuel fuel' :
  fuel <= fuel' -> mle (parse_loop tokens fuel) (parse_loop tokens fuel').
Proof.
  intros Hle. pose proof (mle_parseStatement fuel fuel' Hle).
  unfold parse_loop. mle_auto.
Qed.


Lemma below_parse uri fuel fuel' :
  fuel <= fuel' -> below (parse tokens uri fuel) (parse tokens uri fuel').
Proof.
  intros Hle. unfold parse.
  destruct (mle_parse_loop fuel fuel' Hle {| pos := 0; errors := [] |})
    as [->| ->]; [by left|by right].
Qed.

(** Once a budget is enough for [parse] to return, every budget gives
    that result or is used up: no budget makes [parse] throw. *)
Lemma parse_budget uri fuel0 file st' :
  parse tokens uri fuel0 = Ok file st' ->
  forall fuel,
    (fuel0 <= fuel -> parse tokens uri fuel = Ok file st') /\
    (parse tokens uri fuel = Ok file st' \/ parse tokens uri fuel = OutOfFuel).
Proof.
  intros Hrun fuel. split.
  - intros Hle. destruct (below_parse uri fuel0 fuel Hle) as [H|H]; congruence.
  - destruct (Nat.le_ge_cases fuel0 fuel) as [Hle|Hle].
    + left. destruct (below_parse uri fuel0 fuel Hle) as [H|H]; congruence.
    + destruct (below_parse uri fuel fuel0 Hle) as [H|H]; [by right|].
      left. congruence.
Qed.

End ParserBudget.
(* ===================================================================== *)
(** * parser.ts: the lexer returns a token list that ends with [eof] *)
(* ===================================================================== *)

Section LexerFacts.
Import Lexer.

Variable text : string.
Local Abbreviation len := (String.length text).

Lemma get_Some_lt (s : string) : forall i c,
  String.get i s = Some c -> i < String.length s.
Proof.
  induction s as [|c' s IH]; intros i c; [done|].
  destruct i as [|i]; simpl; [lia|]. intros Hget. apply IH in Hget. lia.
Qed.

Lemma advance_pos lx : lx_pos (advance text lx).2 = S (lx_pos lx).
Proof.
  unfold advance. simpl.
  destruct (String.get (lx_pos lx) text) as [[[] [] [] [] [] [] [] []]|];
    reflexivity.
Qed.

Lemma append_advance_pos value lx :
  lx_pos (append_advance text value lx).2 = S (lx_pos lx).
Proof.
  unfold append_advance. pose proof (advance_pos lx) as Hpos.
  destruct (advance text lx) as [ch lx1]. done.
Qed.

Lemma at_end_false lx : at_end text lx = false -> lx_pos lx < len.
Proof. unfold at_end. intros H. apply Nat.leb_gt in H. done. Qed.

Lemma peek_test_lt p lx : peek_test text p 0 lx = true -> lx_pos lx < len.
Proof.
  unfold peek_test, peek. rewrite Nat.add_0_r.
  destruct (String.get _ _) eqn:Hget; [|done]. intros _. by eapply get_Some_lt.
Qed.

Lemma peek_is_lt c lx : peek_is text 0 c lx = true -> lx_pos lx < len.
Proof.
  unfold peek_is, peek. rewrite Nat.add_0_r.
  destruct (String.get _ _) eqn:Hget; [|done]. intros _. by eapply get_Some_lt.
Qed.

Lemma peek_is_other off c c' lx :
  peek_is text off c lx = true -> c <> c' -> peek_is text off c' lx = false.
Proof.
  unfold peek_is. destruct (peek text off lx) as [x|]; [|done].
  intros Hc Hne. apply Ascii.eqb_eq in Hc as ->. by apply Ascii.eqb_neq.
Qed.

(** ** The loops *)

Lemma skip_while_total cond :
  (forall lx, cond lx = true -> lx_pos lx < len) ->
  forall fuel lx, len - lx_pos lx < fuel ->
    exists lx', skip_while text fuel cond lx = Some lx'
                /\ lx_pos lx <= lx_pos lx'
                /\ (cond lx = true -> lx_pos lx < lx_pos lx').
Proof.
  intros Hcond. induction fuel as [|fuel IH]; intros lx Hfuel; [lia|].
  cbn [skip_while]. destruct (cond lx) eqn:Hc.
  - apply Hcond in Hc. destruct (IH (advance text lx).2) as (lx' & -> & Hle & _).
    { rewrite advance_pos. lia. }
    rewrite advance_pos in Hle. exists lx'. repeat split; [lia|]. intros _. lia.
  - exists lx. by repeat split.
Qed.

Lemma read_while_total cond :
  (forall lx, cond lx = true -> lx_pos lx < len) ->
  forall fuel value lx, len - lx_pos lx < fuel ->
    exists value' lx', read_while text fuel cond value lx = Some (value', lx')
                       /\ lx_pos lx <= lx_pos lx'
                       /\ (cond lx = true -> lx_pos lx < lx_pos lx').
Proof.
  intros Hcond. induction fuel as [|fuel IH]; intros value lx Hfuel; [lia|].
  cbn [read_while]. destruct (cond lx) eqn:Hc.
  - apply Hcond in Hc. pose proof (append_advance_pos value lx) as Hpos.
    destruct (append_advance text value lx) as [value1 lx1]. simpl in Hpos.
    destruct (IH value1 lx1) as (value' & lx' & -> & Hle & _); [lia|].
    exists value', lx'. repeat split; [lia|]. intros _. lia.
  - exists value, lx. by repeat split.
Qed.

Lemma skipBlockComment_total fuel : forall lx,
  len - lx_pos lx < fuel ->
  exists lx', skipBlockComment text fuel lx = Some lx' /\ lx_pos lx <= lx_pos lx'.
Proof.
  induction fuel as [|fuel IH]; intros lx Hfuel; [lia|].
  cbn [skipBlockComment]. destruct (at_end text lx) eqn:Hend; [by exists lx|].
  apply at_end_false in Hend.
  destruct (_ && _).
  - eexists. split; [done|]. rewrite !advance_pos. lia.
  - destruct (IH (advance text lx).2) as (lx' & -> & Hle).
    { rewrite advance_pos. lia. }
    rewrite advance_pos in Hle. exists lx'. split; [done|lia].
Qed.

Lemma skipWhitespace_total fuel : forall lx,
  len - lx_pos lx < fuel ->
  exists lx', skipWhitespace text fuel lx = Some lx' /\ lx_pos lx <= lx_pos lx'.
Proof.
  induction fuel as [|fuel IH]; intros lx Hfuel; [lia|].
  cbn [skipWhitespace]. destruct (at_end text lx) eqn:Hend; [by exists lx|].
  pose proof (at_end_false _ Hend) as Hlt.
  destruct (peek_test text is_space 0 lx).
  { destruct (IH (advance text lx).2) as (lx' & -> & Hle).
    { rewrite advance_pos. lia. }
    rewrite advance_pos in Hle. exists lx'. split; [done|lia]. }
  destruct (peek_is text 0 "/" lx && peek_is text 1 "/" lx) eqn:Hline.
  { apply andb_true_iff in Hline as [Hslash _].
    destruct (skip_while_total
                (fun lx => negb (at_end text lx) && negb (peek_is text 0 "010" lx))
                ltac:(intros l Hl; apply andb_true_iff in Hl as [Hl _];
                      apply negb_true_iff in Hl; by apply at_end_false)
                (S len) lx ltac:(lia)) as (lx1 & -> & _ & Hgo).
    assert (lx_pos lx < lx_pos lx1) as Hadv.
    { apply Hgo. rewrite Hend. simpl.
      by rewrite (peek_is_other 0 "/" "010" lx Hslash). }
    destruct (IH lx1) as (lx' & -> & Hle); [lia|].
    exists lx'. split; [done|lia]. }
  destruct (peek_is text 0 "/" lx && peek_is text 1 "*" lx); [|by exists lx].
  destruct (skipBlockComment_total (S len) (advance text (advance text lx).2).2)
    as (lx1 & -> & Hle1); [lia|].
  rewrite !advance_pos in Hle1.
  destruct (IH lx1) as (lx' & -> & Hle); [lia|].
  exists lx'. split; [done|lia].
Qed.

Lemma readString_loop_total fuel : forall value lx,
  len - lx_pos lx < fuel ->
  exists value' lx', readString_loop text fuel value lx = Some (value', lx')
                     /\ lx_pos lx <= lx_pos lx'.
Proof.
  induction fuel as [|fuel IH]; intros value lx Hfuel; [lia|].
  cbn [readString_loop]. destruct (negb (at_end text lx) && _) eqn:Hgo; [|by exists value, lx].
  apply andb_true_iff in Hgo as [Hend _]. apply negb_true_iff in Hend.
  apply at_end_false in Hend.
  destruct (peek_is text 0 "\" lx).
  - pose proof (append_advance_pos value (advance text lx).2) as Hpos.
    rewrite advance_pos in Hpos.
    destruct (append_advance text value (advance text lx).2) as [value1 lx1].
    simpl in Hpos.
    destruct (IH value1 lx1) as (value' & lx' & -> & Hle); [lia|].
    exists value', lx'. split; [done|lia].
  - pose proof (append_advance_pos value lx) as Hpos.
    destruct (append_advance text value lx) as [value1 lx1]. simpl in Hpos.
    destruct (IH value1 lx1) as (value' & lx' & -> & Hle); [lia|].
    exists value', lx'. split; [done|lia].
Qed.

Lemma readCode_loop_total fuel : forall value lx,
  len - lx_pos lx < fuel ->
  exists value' lx', readCode_loop text fuel value lx = Some (value', lx')
                     /\ lx_pos lx <= lx_pos lx'.
Proof.
  induction fuel as [|fuel IH]; intros value lx Hfuel; [lia|].
  cbn [readCode_loop]. destruct (at_end text lx) eqn:Hend; [by exists value, lx|].
  apply at_end_false in Hend.
  destruct (_ && _).
  - eexists _, _. split; [done|]. rewrite !advance_pos. lia.
  - pose proof (append_advance_pos value lx) as Hpos.
    destruct (append_advance text value lx) as [value1 lx1]. simpl in Hpos.
    destruct (IH value1 lx1) as (value' & lx' & -> & Hle); [lia|].
    exists value', lx'. split; [done|lia].
Qed.

(** ** The tokens *)

(** A token that is not [eof], read from [lx] on. *)
Definition token_read (lx : t) (res : option (Token * t)) : Prop :=
  exists token lx',
    res = Some (token, lx') /\ tok_type token <> TTeof
    /\ lx_pos lx < lx_pos lx'.

Lemma readString_total lx : token_read lx (readString text lx).
Proof.
  unfold readString.
  destruct (readString_loop_total (S len) "" (advance text lx).2)
    as (value & lx1 & -> & Hle); [lia|].
  rewrite advance_pos in Hle.
  eexists _, _. split; [done|]. split; [done|]. rewrite advance_pos. lia.
Qed.

Lemma readCode_total lx : token_read lx (readCode text lx).
Proof.
  unfold readCode.
  destruct (readCode_loop_total (S len) "" (advance text (advance text lx).2).2)
    as (value & lx1 & -> & Hle); [lia|].
  rewrite !advance_pos in Hle.
  eexists _, _. split; [done|]. split; [done|]. lia.
Qed.

Lemma readNumber_total lx :
  peek_test text is_digit 0 lx || peek_is text 0 "-" lx = true ->
  token_read lx (readNumber text lx).
Proof.
  intros Hstart. unfold readNumber.
  assert (Hread : forall p value l,
            exists value' l', read_while text (S len) (peek_test text p 0) value l
                              = Some (value', l')
                              /\ lx_pos l <= lx_pos l'
                              /\ (peek_test text p 0 l = true -> lx_pos l < lx_pos l')).
  { intros p value l. apply read_while_total; [|lia].
    intros l0. apply peek_test_lt. }
  destruct (peek_is text 0 "-" lx) eqn:Hminus.
  - pose proof (append_advance_pos "" lx) as Hpos.
    destruct (append_advance text "" lx) as [value0 lx0]. simpl in Hpos.
    destruct (_ && _).
    { pose proof (append_advance_pos value0 lx0) as Hpos1.
      destruct (append_advance text value0 lx0) as [v1 l1]. simpl in Hpos1.
      pose proof (append_advance_pos v1 l1) as Hpos2.
      destruct (append_advance text v1 l1) as [v2 l2]. simpl in Hpos2.
      destruct (Hread is_hex v2 l2) as (v & l & -> & Hle & _).
      eexists _, _. split; [done|]. split; [done|]. lia. }
    destruct (_ && _).
    { pose proof (append_advance_pos value0 lx0) as Hpos1.
      destruct (append_advance text value0 lx0) as [v1 l1]. simpl in Hpos1.
      pose proof (append_advance_pos v1 l1) as Hpos2.
      destruct (append_advance text v1 l1) as [v2 l2]. simpl in Hpos2.
      destruct (Hread is_bin v2 l2) as (v & l & -> & Hle & _).
      eexists _, _. split; [done|]. split; [done|]. lia. }
    destruct (Hread is_digit value0 lx0) as (v & l & -> & Hle & _).
    eexists _, _. split; [done|]. split; [done|]. lia.
  - rewrite orb_false_r in Hstart.
    destruct (_ && _).
    { pose proof (append_advance_pos "" lx) as Hpos1.
      destruct (append_advance text "" lx) as [v1 l1]. simpl in Hpos1.
      pose proof (append_advance_pos v1 l1) as Hpos2.
      destruct (append_advance text v1 l1) as [v2 l2]. simpl in Hpos2.
      destruct (Hread is_hex v2 l2) as (v & l & -> & Hle & _).
      eexists _, _. split; [done|]. split; [done|]. lia. }
    destruct (_ && _).
    { pose proof (append_advance_pos "" lx) as Hpos1.
      destruct (append_advance text "" lx) as [v1 l1]. simpl in Hpos1.
      pose proof (append_advance_pos v1 l1) as Hpos2.
      destruct (append_advance text v1 l1) as [v2 l2]. simpl in Hpos2.
      destruct (Hread is_bin v2 l2) as (v & l & -> & Hle & _).
      eexists _, _. split; [done|]. split; [done|]. lia. }
    destruct (Hread is_digit "" lx) as (v & l & -> & Hle & Hgo).
    eexists _, _. split; [done|]. split; [done|]. by apply Hgo.
Qed.

Lemma is_ident_start_char c : is_ident_start c = true -> is_ident_char c = true.
Proof.
  unfold is_ident_start, is_ident_char.
  destruct (is_letter c), (is_digit c), (Ascii.eqb c "_"); done.
Qed.

Lemma readIdentifier_total lx :
  peek_test text is_ident_start 0 lx = true ->
  token_read lx (readIdentifier text lx).
Proof.
  intros Hstart. unfold readIdentifier.
  destruct (read_while_total (peek_test text is_ident_char 0)
              ltac:(intros l; apply peek_test_lt) (S len) "" lx)
    as (value & lx1 & -> & Hle & Hgo); [lia|].
  eexists _, _. split; [done|]. split.
  - simpl. by destruct (bool_decide _).
  - apply Hgo. unfold peek_test in *.
    destruct (peek text 0 lx); [|done]. by apply is_ident_start_char.
Qed.

(** [nextToken] gives the [eof] token at the end of the text, and
    otherwise a token that has taken a character. *)
Definition token_next (lx : t) (res : option (Token * t)) : Prop :=
  exists token lx',
    res = Some (token, lx') /\
    (is_eof token = true \/
     (tok_type token <> TTeof /\ lx_pos lx < len /\ lx_pos lx < lx_pos lx')).

Lemma token_read_next lx0 lx res :
  lx_pos lx0 <= lx_pos lx -> lx_pos lx < len ->
  token_read lx res -> token_next lx0 res.
Proof.
  intros Hle Hlt (token & lx' & -> & Hty & Hadv).
  exists token, lx'. split; [done|]. right. split; [done|]. lia.
Qed.

Lemma nextToken_total fuel : forall lx,
  len - lx_pos lx < fuel -> token_next lx (nextToken text fuel lx).
Proof.
  induction fuel as [|fuel IH]; intros lx0 Hfuel; [lia|].
  cbn [nextToken].
  destruct (skipWhitespace_total (S len) lx0) as (lx & -> & Hle); [lia|].
  destruct (at_end text lx) eqn:Hend.
  { eexists _, _. split; [done|]. by left. }
  apply at_end_false in Hend.
  destruct (peek_is text 0 double_quote lx).
  { eapply token_read_next; [done|done|]. apply readString_total. }
  destruct (_ && _).
  { eapply token_read_next; [done|done|]. apply readCode_total. }
  destruct (peek_test text is_digit 0 lx || _) eqn:Hnum.
  { eapply token_read_next; [done|done|]. apply readNumber_total.
    apply orb_true_iff in Hnum as [->|Hminus]; [done|].
    apply andb_true_iff in Hminus as [-> _]. by rewrite orb_true_r. }
  destruct (peek_test text is_ident_start 0 lx) eqn:Hid.
  { eapply token_read_next; [done|done|]. by apply readIdentifier_total. }
  destruct (peek_is text 0 "!" lx).
  { destruct (read_while_total (peek_test text is_letter 0)
                ltac:(intros l; apply peek_test_lt) (S len) ""
                (advance text lx).2) as (op & lx1 & -> & Hle1 & _).
    { rewrite advance_pos. lia. }
    rewrite advance_pos in Hle1.
    eexists _, _. split; [done|]. right. split; [done|]. lia. }
  destruct (peek_is text 0 "#" lx).
  { eexists _, _. split; [done|]. right. split; [done|].
    rewrite advance_pos. lia. }
  assert (Hrec : token_next lx0 (nextToken text fuel (advance text lx).2)).
  { destruct (IH (advance text lx).2) as (token & lx' & Hres & Hgood).
    { rewrite advance_pos. lia. }
    exists token, lx'. split; [done|].
    destruct Hgood as [Heof|(Hty & Hlt & Hadv)]; [by left|].
    rewrite advance_pos in Hlt, Hadv. right. split; [done|]. lia. }
  destruct (peek text 0 lx) as [ch|]; [|exact Hrec].
  destruct (bool_decide (ch ∈ punctuation)); [|exact Hrec].
  eexists _, _. split; [done|]. right. split; [done|].
  rewrite advance_pos. lia.
Qed.

(** ** How deep [nextToken] nests *)

(** A character that starts a token whatever follows it. *)
Definition starts_token (c : ascii) : bool :=
  Ascii.eqb c double_quote || is_digit c || is_ident_start c
  || Ascii.eqb c "!" || Ascii.eqb c "#" || bool_decide (c ∈ punctuation).

(** A character that [nextToken] may skip: it is no white space and
    starts no token by itself.  A minus sign and a slash are such
    characters, although they are not skipped before a digit or where
    they open a comment. *)
Definition may_skip (c : ascii) : bool :=
  negb (is_space c) && negb (starts_token c).

(** The number of such characters from position [p] on. *)
Fixpoint may_skip_from (s : string) (p : nat) : nat :=
  match s with
  | EmptyString => 0
  | String c s' =>
      match p with
      | O => (if may_skip c then 1 else 0) + may_skip_from s' 0
      | S p' => may_skip_from s' p'
      end
  end.

Lemma may_skip_from_mono s : forall p p',
  p <= p' -> may_skip_from s p' <= may_skip_from s p.
Proof.
  induction s as [|c s IH]; intros p p' Hle; [done|].
  destruct p as [|p], p' as [|p']; simpl; try lia.
  - specialize (IH 0 p'). lia.
  - apply IH. lia.
Qed.

Lemma may_skip_from_get s : forall p c,
  String.get p s = Some c -> may_skip c = true ->
  may_skip_from s (S p) < may_skip_from s p.
Proof.
  induction s as [|c' s IH]; intros p c; [done|].
  destruct p as [|p]; simpl.
  - intros [= ->] ->. destruct s; simpl; lia.
  - apply IH.
Qed.

Lemma skipWhitespace_stops fuel : forall lx lx',
  skipWhitespace text fuel lx = Some lx' ->
  at_end text lx' = true \/ peek_test text is_space 0 lx' = false.
Proof.
  induction fuel as [|fuel IH]; intros lx lx'; [done|].
  cbn [skipWhitespace]. destruct (at_end text lx) eqn:Hend.
  { intros [= <-]. by left. }
  destruct (peek_test text is_space 0 lx) eqn:Hspace; [apply IH|].
  destruct (peek_is text 0 "/" lx && peek_is text 1 "/" lx).
  { destruct (skip_while _ _ _ _); [apply IH|done]. }
  destruct (peek_is text 0 "/" lx && peek_is text 1 "*" lx).
  { destruct (skipBlockComment _ _ _); [apply IH|done]. }
  intros [= <-]. by right.
Qed.

(** [nextToken] returns within a depth above the number of characters
    ahead that it may skip. *)
Lemma nextToken_within depth : forall lx,
  may_skip_from text (lx_pos lx) < depth ->
  token_next lx (nextToken text depth lx).
Proof.
  induction depth as [|depth IH]; intros lx0 Hdepth; [lia|].
  cbn [nextToken].
  destruct (skipWhitespace_total (S len) lx0) as (lx & Hskip & Hle); [lia|].
  rewrite Hskip. apply skipWhitespace_stops in Hskip.
  destruct (at_end text lx) eqn:Hend.
  { eexists _, _. split; [done|]. by left. }
  destruct Hskip as [Hskip|Hspace]; [congruence|].
  apply at_end_false in Hend.
  destruct (peek_is text 0 double_quote lx) eqn:Hquote.
  { eapply token_read_next; [done|done|]. apply readString_total. }
  destruct (_ && _).
  { eapply token_read_next; [done|done|]. apply readCode_total. }
  destruct (peek_test text is_digit 0 lx || _) eqn:Hnum.
  { eapply token_read_next; [done|done|]. apply readNumber_total.
    apply orb_true_iff in Hnum as [->|Hminus]; [done|].
    apply andb_true_iff in Hminus as [-> _]. by rewrite orb_true_r. }
  apply orb_false_iff in Hnum as [Hdigit _].
  destruct (peek_test text is_ident_start 0 lx) eqn:Hid.
  { eapply token_read_next; [done|done|]. by apply readIdentifier_total. }
  destruct (peek_is text 0 "!" lx) eqn:Hbang.
  { destruct (read_while_total (peek_test text is_letter 0)
                ltac:(intros l; apply peek_test_lt) (S len) ""
                (advance text lx).2) as (op & lx1 & -> & Hle1 & _).
    { rewrite advance_pos. lia. }
    rewrite advance_pos in Hle1.
    eexists _, _. split; [done|]. right. split; [done|]. lia. }
  destruct (peek_is text 0 "#" lx) eqn:Hhash.
  { eexists _, _. split; [done|]. right. split; [done|].
    rewrite advance_pos. lia. }
  unfold peek_is, peek_test in *. unfold peek in *.
  rewrite Nat.add_0_r in *.
  destruct (String.get (lx_pos lx) text) as [ch|] eqn:Hget.
  - case_bool_decide as Hpunct.
    { eexists _, _. split; [done|]. right. split; [done|].
      rewrite advance_pos. lia. }
    assert (may_skip ch = true) as Hch.
    { unfold may_skip, starts_token.
      rewrite Hspace, Hquote, Hdigit, Hid, Hbang, Hhash.
      by rewrite bool_decide_eq_false_2. }
    pose proof (may_skip_from_get _ _ _ Hget Hch) as Hless.
    pose proof (may_skip_from_mono text _ _ Hle) as Hmono.
    destruct (IH (advance text lx).2) as (token & lx' & Hres & Hgood).
    { rewrite advance_pos. lia. }
    exists token, lx'. split; [done|].
    destruct Hgood as [Heof|(Hty & Hlt & Hadv)]; [by left|].
    rewrite advance_pos in Hlt, Hadv. right. split; [done|]. lia.
  - exfalso. clear -Hget Hend.
    revert Hget Hend. generalize (lx_pos lx). clear.
    induction text as [|c s IHs]; intros p; simpl; [lia|].
    destruct p as [|p]; [done|]. intros Hget Hlt. apply (IHs p); [done|lia].
Qed.

(** A larger depth changes nothing once [nextToken] returns. *)
Lemma nextToken_deeper depth : forall depth' lx res,
  depth <= depth' ->
  nextToken text depth lx = Some res -> nextToken text depth' lx = Some res.
Proof.
  induction depth as [|depth IH]; intros depth' lx0 res Hle; [done|].
  destruct depth' as [|depth']; [lia|]. cbn [nextToken].
  destruct (skipWhitespace _ _ _) as [lx|]; [|done].
  destruct (at_end text lx); [done|].
  destruct (peek_is text 0 double_quote lx); [done|].
  destruct (_ && _); [done|].
  destruct (peek_test text is_digit 0 lx || _); [done|].
  destruct (peek_test text is_ident_start 0 lx); [done|].
  destruct (peek_is text 0 "!" lx); [done|].
  destruct (peek_is text 0 "#" lx); [done|].
  destruct (peek text 0 lx) as [ch|]; [|apply IH; lia].
  case_bool_decide; [done|]. apply IH. lia.
Qed.

Lemma ends_with_eof_snoc tokens eof :
  Forall (fun t => tok_type t <> TTeof) tokens -> is_eof eof = true ->
  ends_with_eof (tokens ++ [eof]) = true.
Proof.
  intros Hall Heof. induction Hall as [|t rest Ht _ IH]; [done|].
  simpl. destruct (rest ++ [eof]) eqn:Hrest.
  - by destruct rest.
  - rewrite IH, andb_true_r. apply negb_true_iff. by apply bool_decide_eq_false.
Qed.

Lemma tokenize_loop_total depth fuel :
  (forall lx, token_next lx (nextToken text depth lx)) ->
  forall tokens lx,
    len - lx_pos lx < fuel ->
    Forall (fun t => tok_type t <> TTeof) tokens ->
    exists tokens', tokenize_loop text depth fuel tokens lx = Some tokens'
                    /\ ends_with_eof tokens' = true.
Proof.
  intros Hnext.
  induction fuel as [|fuel IH]; intros tokens lx Hfuel Hall; [lia|].
  cbn [tokenize_loop].
  destruct (Hnext lx) as (token & lx' & -> & Hgood).
  destruct Hgood as [Heof|(Hty & Hlt & Hadv)].
  - pose proof Heof as Heof'. unfold is_eof in Heof'.
    apply andb_true_iff in Heof' as [Hty _]. apply bool_decide_eq_true in Hty.
    rewrite decide_True by done. eexists. split; [done|].
    by apply ends_with_eof_snoc.
  - rewrite decide_False by done. apply IH; [lia|].
    apply Forall_app. split; [done|]. by constructor.
Qed.

(** Within a depth above the number of characters that [nextToken] may
    skip, the text has its token list, which ends with the only [eof]
    token. *)
Lemma tokenize_within_total depth :
  may_skip_from text 0 < depth ->
  exists tokens, tokenize_within text depth = Some tokens
                 /\ ends_with_eof tokens = true.
Proof.
  intros Hdepth. apply tokenize_loop_total; [|simpl; lia|constructor].
  intros lx. apply nextToken_within.
  pose proof (may_skip_from_mono text 0 (lx_pos lx)). lia.
Qed.

(** With one nested call for each character, every text has its token
    list, which ends with the only [eof] token. *)
Lemma tokenize_total :
  exists tokens, tokenize text = Some tokens /\ ends_with_eof tokens = true.
Proof.
  apply tokenize_loop_total; [|simpl; lia|constructor].
  intros lx. apply nextToken_total. lia.
Qed.

Lemma tokenize_loop_deeper depth depth' fuel :
  depth <= depth' ->
  forall tokens lx tokens',
    tokenize_loop text depth fuel tokens lx = Some tokens' ->
    tokenize_loop text depth' fuel tokens lx = Some tokens'.
Proof.
  intros Hle. induction fuel as [|fuel IH]; intros tokens lx tokens'; [done|].
  cbn [tokenize_loop].
  destruct (nextToken text depth lx) as [[token lx1]|] eqn:Hnext; [|done].
  rewrite (nextToken_deeper _ _ _ _ Hle Hnext).
  destruct (decide _); [done|]. apply IH.
Qed.

(** The token list does not depend on the depth that was enough for
    it. *)
Lemma tokenize_within_tokenize depth tokens :
  tokenize_within text depth = Some tokens -> tokenize text = Some tokens.
Proof.
  intros Hrun. destruct (Nat.le_ge_cases depth (S len)) as [Hle|Hle].
  - by apply (tokenize_loop_deeper depth (S len) _ Hle).
  - destruct tokenize_total as (tokens0 & Hrun0 & _).
    pose proof (tokenize_loop_deeper (S len) depth _ Hle _ _ _ Hrun0) as Hrun'.
    unfold tokenize_within in Hrun. congruence.
Qed.

End LexerFacts.

(** On the budgets that the length of the text gives, parsing a text
    completes: the lexer and the parser return, the parser without
    throwing, and with no diagnostic. *)
Lemma parseTableGen_returns text uri :
  exists statements includes st',
    parseTableGen text uri
    = Some (Parser.Ok {| pf_uri := uri; pf_statements := statements;
                         pf_includes := includes; pf_errors := [] |} st').
Proof.
  unfold parseTableGen.
  destruct (tokenize_total text) as (tokens & -> & Hlexed).
  destruct (ends_with_eof_split tokens Hlexed)
    as (body & eof & -> & Hty & Hv & Hbody).
  destruct (parse_returns body eof Hty Hv Hbody uri
              (Parser.parse_fuel (body ++ [eof])))
    as (statements & includes & st' & ->); [unfold Parser.parse_fuel; lia|].
  by exists statements, includes, st'.
Qed.

(* ===================================================================== *)
(** * parser.ts: the shape of the tokens *)
(* ===================================================================== *)

Section LexerShapes.
Import Lexer.

Variable text : string.

(** Every character of [s] passes [p]. *)
Definition chars_of (p : ascii -> bool) (s : string) : Prop :=
  Forall (fun c => p c = true) (list_ascii_of_string s).

Lemma string_app_assoc (a b c : string) : (a +:+ b) +:+ c = a +:+ (b +:+ c).
Proof.
  induction a as [|x a IH]; [done|].
  change (String x (a +:+ b) +:+ c = String x (a +:+ (b +:+ c))).
  change (String x ((a +:+ b) +:+ c) = String x (a +:+ (b +:+ c))).
  by rewrite IH.
Qed.

Lemma peek_advance lx c :
  peek text 0 lx = Some c -> (advance text lx).1 = Some c.
Proof. unfold peek, advance. rewrite Nat.add_0_r. by intros ->. Qed.

Lemma append_advance_char value lx c :
  peek text 0 lx = Some c ->
  (append_advance text value lx).1 = value +:+ String c "".
Proof.
  intros Hpeek. unfold append_advance.
  pose proof (peek_advance lx c Hpeek) as Hadv.
  destruct (advance text lx) as [ch lx1]. simpl in *. by rewrite Hadv.
Qed.

Lemma append_advance_some value lx :
  exists more, (append_advance text value lx).1 = value +:+ more.
Proof.
  unfold append_advance. destruct (advance text lx) as [[c|] lx1]; simpl;
    by eexists.
Qed.

Lemma peek_next off lx :
  peek text off (advance text lx).2 = peek text (S off) lx.
Proof.
  unfold peek. f_equal.
  assert (lx_pos (advance text lx).2 = S (lx_pos lx)) as ->; [|lia].
  unfold advance. simpl.
  by destruct (String.get (lx_pos lx) text) as [[[] [] [] [] [] [] [] []]|].
Qed.

(** [read_while] over a test of the next character appends characters
    that pass the test, the next character first. *)
Lemma read_while_chars p fuel :
  forall value lx value' lx',
    read_while text fuel (peek_test text p 0) value lx = Some (value', lx') ->
    exists more,
      value' = value +:+ more /\ chars_of p more /\
      match peek text 0 lx with
      | Some c => if p c then exists rest, more = String c rest else more = ""
      | None => more = ""
      end.
Proof.
  induction fuel as [|fuel IH]; intros value lx value' lx'; [done|].
  cbn [read_while]. unfold peek_test at 1.
  destruct (peek text 0 lx) as [c|] eqn:Hpeek.
  - destruct (p c) eqn:Hc.
    + pose proof (append_advance_char value lx c Hpeek) as Hvalue.
      destruct (append_advance text value lx) as [value1 lx1]. simpl in Hvalue.
      subst value1. intros Hrest.
      destruct (IH _ _ _ _ Hrest) as (more & -> & Hall & _).
      exists (String c more). split; [by rewrite string_app_assoc|].
      split; [by constructor|]. by exists more.
    + intros [= <- <-]. exists "". split.
      * clear. induction value as [|x v IH]; [done|].
        change (String x v = String x (v +:+ "")). by rewrite <- IH.
      * split; [constructor|done].
  - intros [= <- <-]. exists "". split.
    + clear. induction value as [|x v IH]; [done|].
      change (String x v = String x (v +:+ "")). by rewrite <- IH.
    + split; [constructor|done].
Qed.

(** ** What each kind of token holds *)

Definition identifier_text (s : string) : Prop :=
  match s with
  | String c rest => is_ident_start c = true /\ chars_of is_ident_char rest
  | EmptyString => False
  end.

Definition number_text (s : string) : Prop :=
  exists sign digit rest,
    s = sign +:+ String digit rest /\ (sign = "" \/ sign = "-") /\
    is_digit digit = true.

Definition token_shape (token : Token) : Prop :=
  match tok_type token with
  | TTkeyword => tok_value token ∈ KEYWORDS
  | TTidentifier =>
      (tok_value token ∉ KEYWORDS) /\ identifier_text (tok_value token)
  | TTnumber => number_text (tok_value token)
  | TTstring | TTcode => True
  | TToperator =>
      tok_value token = "#" \/
      exists letters, tok_value token = "!" +:+ letters /\
                      chars_of is_letter letters
  | TTpunctuation =>
      exists ch, ch ∈ punctuation /\ tok_value token = String ch ""
  | TTcomment => False
  | TTeof => tok_value token = ""
  end.

Lemma readString_shape lx token lx' :
  readString text lx = Some (token, lx') -> token_shape token.
Proof.
  unfold readString. destruct (readString_loop _ _ _ _) as [[value lx1]|]; [|done].
  by intros [= <- <-].
Qed.

Lemma readCode_shape lx token lx' :
  readCode text lx = Some (token, lx') -> token_shape token.
Proof.
  unfold readCode. destruct (readCode_loop _ _ _ _) as [[value lx1]|]; [|done].
  by intros [= <- <-].
Qed.

Lemma readIdentifier_shape lx token lx' :
  peek_test text is_ident_start 0 lx = true ->
  readIdentifier text lx = Some (token, lx') -> token_shape token.
Proof.
  intros Hstart. unfold readIdentifier.
  destruct (read_while _ _ _ _ _) as [[value lx1]|] eqn:Hread; [|done].
  intros [= <- <-]. unfold token_shape. simpl.
  case_bool_decide as Hkw; [done|]. split; [done|].
  destruct (read_while_chars _ _ _ _ _ _ Hread) as (more & -> & Hall & Hfirst).
  unfold peek_test in Hstart.
  destruct (peek text 0 lx) as [c|]; [|done].
  rewrite (is_ident_start_char c Hstart) in Hfirst.
  destruct Hfirst as (rest & ->). simpl. split; [done|].
  by inversion Hall.
Qed.

Lemma peek_is_char off c lx : peek_is text off c lx = true -> peek text off lx = Some c.
Proof.
  unfold peek_is. destruct (peek text off lx) as [c'|]; [|done].
  intros H. apply Ascii.eqb_eq in H. by subst.
Qed.

(** After the sign, [readNumber] is at a digit, and keeps it. *)
Lemma number_digits value0 lx0 digit value lx1 :
  peek text 0 lx0 = Some digit -> is_digit digit = true ->
  (if peek_is text 0 "0" lx0 && (peek_is text 1 "x" lx0 || peek_is text 1 "X" lx0)
   then let (v1, l1) := append_advance text value0 lx0 in
        let (v2, l2) := append_advance text v1 l1 in
        read_while text (S (String.length text)) (peek_test text is_hex 0) v2 l2
   else if peek_is text 0 "0" lx0
           && (peek_is text 1 "b" lx0 || peek_is text 1 "B" lx0)
        then let (v1, l1) := append_advance text value0 lx0 in
             let (v2, l2) := append_advance text v1 l1 in
             read_while text (S (String.length text)) (peek_test text is_bin 0) v2 l2
        else read_while text (S (String.length text)) (peek_test text is_digit 0)
               value0 lx0) = Some (value, lx1) ->
  exists rest, value = value0 +:+ String digit rest.
Proof.
  intros Hpeek Hdigit.
  assert (forall p,
            (let (v1, l1) := append_advance text value0 lx0 in
             let (v2, l2) := append_advance text v1 l1 in
             read_while text (S (String.length text)) (peek_test text p 0) v2 l2)
            = Some (value, lx1) ->
            exists rest, value = value0 +:+ String digit rest) as Hprefixed.
  { intros p.
    pose proof (append_advance_char value0 lx0 digit Hpeek) as Hv1.
    destruct (append_advance text value0 lx0) as [v1 l1]. simpl in Hv1. subst v1.
    destruct (append_advance_some (value0 +:+ String digit "") l1) as [x Hv2].
    destruct (append_advance text _ l1) as [v2 l2]. simpl in Hv2. subst v2.
    intros Hread.
    destruct (read_while_chars _ _ _ _ _ _ Hread) as (more & -> & _ & _).
    exists (x +:+ more). by rewrite !string_app_assoc. }
  destruct (_ && _); [apply Hprefixed|].
  destruct (_ && _); [apply Hprefixed|].
  intros Hread.
  destruct (read_while_chars _ _ _ _ _ _ Hread) as (more & -> & _ & Hfirst).
  rewrite Hpeek, Hdigit in Hfirst. destruct Hfirst as (rest & ->).
  by exists rest.
Qed.

Lemma readNumber_shape lx token lx' :
  peek_test text is_digit 0 lx
  || (peek_is text 0 "-" lx && peek_test text is_digit 1 lx) = true ->
  readNumber text lx = Some (token, lx') -> token_shape token.
Proof.
  intros Hstart. unfold readNumber.
  destruct (peek_is text 0 "-" lx) eqn:Hminus.
  - apply peek_is_char in Hminus as Hpeek.
    assert (peek_test text is_digit 1 lx = true) as Hnext.
    { apply orb_true_iff in Hstart as [Hd|Hd]; [|done].
      unfold peek_test in Hd. rewrite Hpeek in Hd. by vm_compute in Hd. }
    pose proof (append_advance_char "" lx "-" Hpeek) as Hv0.
    assert ((append_advance text "" lx).2 = (advance text lx).2) as Hlx0.
    { unfold append_advance. by destruct (advance text lx). }
    destruct (append_advance text "" lx) as [value0 lx0].
    simpl in Hv0, Hlx0. subst value0 lx0.
    unfold peek_test in Hnext. rewrite <- peek_next in Hnext.
    destruct (peek text 0 (advance text lx).2) as [digit|] eqn:Hdigit; [|done].
    match goal with
    | |- match ?digits with _ => _ end = _ -> _ =>
        destruct digits as [[value lx1]|] eqn:Hdigits; [|done]
    end.
    intros [= <- <-]. unfold token_shape. simpl.
    destruct (number_digits _ _ _ _ _ Hdigit Hnext Hdigits) as (rest & ->).
    exists "-", digit, rest. split; [done|]. split; [by right|done].
  - rewrite andb_false_l, orb_false_r in Hstart. unfold peek_test in Hstart.
    destruct (peek text 0 lx) as [digit|] eqn:Hdigit; [|done].
    match goal with
    | |- match ?digits with _ => _ end = _ -> _ =>
        destruct digits as [[value lx1]|] eqn:Hdigits; [|done]
    end.
    intros [= <- <-]. unfold token_shape. simpl.
    destruct (number_digits _ _ _ _ _ Hdigit Hstart Hdigits) as (rest & ->).
    exists "", digit, rest. split; [done|]. split; [by left|done].
Qed.

Lemma nextToken_shape fuel :
  forall lx token lx',
    nextToken text fuel lx = Some (token, lx') -> token_shape token.
Proof.
  induction fuel as [|fuel IH]; intros lx0 token lx'; [done|].
  cbn [nextToken].
  destruct (skipWhitespace _ _ _) as [lx|]; [|done].
  destruct (at_end text lx); [by intros [= <- <-]|].
  destruct (peek_is text 0 double_quote lx); [apply readString_shape|].
  destruct (_ && _); [apply readCode_shape|].
  destruct (peek_test text is_digit 0 lx || _) eqn:Hnum;
    [by apply readNumber_shape|].
  destruct (peek_test text is_ident_start 0 lx) eqn:Hid;
    [by apply readIdentifier_shape|].
  destruct (peek_is text 0 "!" lx).
  { destruct (read_while _ _ _ _ _) as [[op lx1]|] eqn:Hread; [|done].
    intros [= <- <-]. unfold token_shape. simpl. right.
    destruct (read_while_chars _ _ _ _ _ _ Hread) as (more & -> & Hall & _).
    by exists more. }
  destruct (peek_is text 0 "#" lx).
  { intros [= <- <-]. by left. }
  destruct (peek text 0 lx) as [ch|]; [|apply IH].
  case_bool_decide as Hpunct; [|apply IH].
  intros [= <- <-]. unfold token_shape. simpl. by exists ch.
Qed.

Lemma tokenize_loop_shape depth fuel :
  forall tokens lx tokens',
    Forall token_shape tokens ->
    tokenize_loop text depth fuel tokens lx = Some tokens' ->
    Forall token_shape tokens'.
Proof.
  induction fuel as [|fuel IH]; intros tokens lx tokens' Hall; [done|].
  cbn [tokenize_loop].
  destruct (nextToken _ _ _) as [[token lx1]|] eqn:Hnext; [|done].
  apply nextToken_shape in Hnext.
  assert (Forall token_shape (tokens ++ [token])) as Hall'.
  { apply Forall_app. split; [done|]. by constructor. }
  destruct (decide _); [by intros [= <-]|]. by apply IH.
Qed.

(** X15. [nextToken] calls itself once for each character that it
    skips, and no deeper than there are characters in the text that are
    no white space and start no token: on a call stack that admits one
    nested call more than that, [tokenize] returns a token list.  The
    token list that [tokenize] returns, whatever depth was enough for it,
    is the same; it ends with the only [eof] token, holds no comment
    token, and every token has the value of its kind: a keyword is one
    of the keywords, an identifier is a letter or underscore followed by
    letters, digits and underscores and is no keyword, a number is an
    optional minus sign and a digit followed by more text, an operator
    is the hash sign or an exclamation mark with letters, a punctuation
    token is one punctuation character, and the [eof] token is empty. *)
Theorem tokenize_token_shapes :
  (forall depth,
     may_skip_from text 0 < depth ->
     exists tokens, tokenize_within text depth = Some tokens) /\
  (forall depth tokens,
     tokenize_within text depth = Some tokens ->
     tokenize text = Some tokens /\
     ends_with_eof tokens = true /\
     Forall token_shape tokens /\
     Forall (fun token => tok_type token <> TTcomment) tokens).
Proof.
  split.
  - intros depth Hdepth.
    destruct (tokenize_within_total text depth Hdepth) as (tokens & Hrun & _).
    by exists tokens.
  - intros depth tokens Hrun.
    pose proof (tokenize_within_tokenize text depth tokens Hrun) as Hsame.
    split; [done|].
    destruct (tokenize_total text) as (tokens0 & Hrun0 & Hend).
    assert (tokens0 = tokens) as -> by congruence.
    split; [done|].
    assert (Forall token_shape tokens) as Hshape.
    { eapply tokenize_loop_shape; [|exact Hrun]. constructor. }
    split; [done|]. eapply Forall_impl; [exact Hshape|].
    intros token Htoken Hty. unfold token_shape in Htoken.
    by rewrite Hty in Htoken.
Qed.

End LexerShapes.

Section LexerShapeExamples.

(** The tokens of a line with a negative number, a hexadecimal number, a
    bang operator and a comment. *)
Lemma tokenize_kinds :
  (fun tokens => map (fun token => (tok_type token, tok_value token)) tokens)
    <$> Lexer.tokenize "def X : Y<-12, 0x1F> { let a = !add(b, 1); } // c"
  = Some [(TTkeyword, "def"); (TTidentifier, "X"); (TTpunctuation, ":");
          (TTidentifier, "Y"); (TTpunctuation, "<"); (TTnumber, "-12");
          (TTpunctuation, ","); (TTnumber, "0x1F"); (TTpunctuation, ">");
          (TTpunctuation, "{"); (TTkeyword, "let"); (TTidentifier, "a");
          (TTpunctuation, "="); (TToperator, "!add"); (TTpunctuation, "(");
          (TTidentifier, "b"); (TTpunctuation, ","); (TTnumber, "1");
          (TTpunctuation, ")"); (TTpunctuation, ";"); (TTpunctuation, "}");
          (TTeof, "")].
Proof. vm_compute. reflexivity. Qed.

(** Three characters that are skipped in a row nest [nextToken] to a
    depth of four; a text without such characters needs no nested call. *)
Lemma tokenize_within_depths :
  may_skip_from "a $$$ b" 0 = 3 /\
  Lexer.tokenize_within "a $$$ b" 3 = None /\
  (fun tokens => map tok_value tokens) <$> Lexer.tokenize_within "a $$$ b" 4
  = Some ["a"; "b"; ""] /\
  may_skip_from "def X;" 0 = 0 /\
  (fun tokens => map tok_value tokens) <$> Lexer.tokenize_within "def X;" 1
  = Some ["def"; "X"; ";"; ""].
Proof. repeat split; vm_compute; reflexivity. Qed.

End LexerShapeExamples.
(* ===================================================================== *)
(** * parser.ts: the claims on the parser *)
(* ===================================================================== *)

Section ParserClaims.
Import Parser Examples.

(** C8, as the parser has it.  On every token list that ends with the
    only [eof] token, which is what the lexer returns, [parse] comes to
    an end: each loop takes a token in every iteration or stops at
    [eof], and [parseStatement] and [parseExpression] nest no deeper
    than there are tokens.  So there is one parsed file that [parse]
    returns on every budget above the number of tokens; on a smaller
    budget it returns that file or the budget is used up (for the code:
    the call stack is too small for the nesting, and the engine ends the
    run with a [RangeError]); on no budget does [parse] throw of its
    own.  [parseTemplateArgs], whose loop awaits a comma or the closing
    bracket and takes a token itself where an iteration took none,
    returns from every position, without going back.  [expect], the
    method that records a diagnostic at an unexpected token, takes the
    token anyway. *)
Theorem parse_terminates_on_lexed_tokens (tokens : list Token) (uri : string) :
  ends_with_eof tokens = true ->
  (exists file st',
     pf_uri file = uri /\
     (forall fuel, length tokens < fuel -> parse tokens uri fuel = Ok file st') /\
     (forall fuel, parse tokens uri fuel = Ok file st'
                   \/ parse tokens uri fuel = OutOfFuel)) /\
  (forall fuel st,
     length tokens - 1 - pos st < fuel ->
     exists args st',
       parseTemplateArgs tokens fuel st = Ok args st' /\
       pos st <= pos st' /\ errors st' = errors st) /\
  (forall ty v st,
     exists t st',
       peek_token tokens 0 st = Some t /\
       expect tokens ty v st = Ok (tokens !! pos st) st' /\
       pos st' = S (pos st) /\
       if token_is ty v t then errors st' = errors st
       else exists e, errors st' = errors st ++ [e] /\ pe_range e = tok_range t).
Proof.
  intros Hlexed.
  destruct (ends_with_eof_split tokens Hlexed)
    as (body & eof & -> & Hty & Hv & Hbody).
  split; [|split; [|intros ty v st; by eapply expect_records]].
  2: { intros fuel st Hfuel.
       apply (wp_parseTemplateArgs body eof Hty Hv fuel st).
       rewrite length_app in Hfuel. simpl in Hfuel. lia. }
  destruct (parse_returns body eof Hty Hv Hbody uri
              (S (length (body ++ [eof]))))
    as (statements & includes & st' & Hrun); [lia|].
  exists {| pf_uri := uri; pf_statements := statements;
            pf_includes := includes; pf_errors := [] |}, st'.
  split; [reflexivity|]. split.
  - intros fuel Hfuel.
    apply (parse_budget _ _ _ _ _ Hrun fuel). lia.
  - intros fuel. apply (parse_budget _ _ _ _ _ Hrun fuel).
Qed.

Lemma parse_terminates_on_lexed_tokens_witness :
  (exists file st',
     pf_uri file = uri_composite /\
     (forall fuel, length defvar_tokens < fuel ->
                   parse defvar_tokens uri_composite fuel = Ok file st') /\
     (forall fuel, parse defvar_tokens uri_composite fuel = Ok file st'
                   \/ parse defvar_tokens uri_composite fuel = OutOfFuel)) /\
  (forall fuel st,
     length defvar_tokens - 1 - pos st < fuel ->
     exists args st',
       parseTemplateArgs defvar_tokens fuel st = Ok args st' /\
       pos st <= pos st' /\ errors st' = errors st) /\
  (forall ty v st,
     exists t st',
       peek_token defvar_tokens 0 st = Some t /\
       expect defvar_tokens ty v st = Ok (defvar_tokens !! pos st) st' /\
       pos st' = S (pos st) /\
       if token_is ty v t then errors st' = errors st
       else exists e, errors st' = errors st ++ [e] /\ pe_range e = tok_range t).
Proof.
  apply (parse_terminates_on_lexed_tokens defvar_tokens uri_composite).
  reflexivity.
Defined.

(** The budgets of [defvar x = [[[1]]];], twelve tokens with [eof]: the
    three lists in each other need a budget of six; a budget of five is
    used up. *)
Lemma parse_nested_list_budgets :
  length nested_list_tokens = 12 /\
  parse nested_list_tokens uri_composite 5 = OutOfFuel /\
  exists file st',
    parse nested_list_tokens uri_composite 6 = Ok file st' /\
    length (pf_statements file) = 1.
Proof.
  split; [reflexivity|]. split; [vm_compute; reflexivity|].
  eexists _, _. by vm_compute.
Qed.

(** C8, where it fails: on a token list without the final [eof], [parse]
    throws, whatever the budget: on the empty list it reads the type of a
    token that is not there, and after [class] or [int] it reads the
    value of one. *)
Lemma parse_throws_without_eof :
  (forall fuel, parse [] uri_composite (S fuel) = Throw) /\
  (forall fuel,
     parse [{| tok_type := TTkeyword; tok_value := "class";
               tok_range := range_at 0 0 5 |}] uri_composite (2 + fuel)
     = Throw) /\
  (forall fuel,
     parse [{| tok_type := TTkeyword; tok_value := "int";
               tok_range := range_at 0 0 3 |}] uri_composite (3 + fuel)
     = Throw).
Proof. repeat split; intros fuel; vm_compute; reflexivity. Qed.

(** No parsing method calls [expect], so a text with a token that is not
    the expected one ([class] followed by [;], [defvar x] followed by a
    number) is parsed with no diagnostic. *)
Lemma parse_records_no_diagnostic :
  class_flags "class ;" = Some [(";", true)] /\
  parsed_counts "class ;" = Some (1, 0) /\
  parsed_counts "defvar x 1;" = Some (1, 0).
Proof. repeat split; vm_compute; reflexivity. Qed.

(** Without [eof], a token that starts no statement is skipped again and
    again: no fuel is enough. *)
Lemma parse_loop_without_eof_never_returns fuel st :
  parse_loop [lparen_token] fuel st = OutOfFuel.
Proof.
  unfold parse_loop.
  destruct fuel as [|fuel']; [done|].
  generalize (S fuel') at 1 as k. intros k. revert st.
  generalize (([] : list Statement), ([] : list IncludeStatement)) as acc.
  induction k as [|k IH]; intros [statements includes] st; [done|].
  cbn [loop]. unfold bind at 1.
  assert (Hpeek : peek_token [lparen_token] 0 st = Some lparen_token).
  { unfold peek_token. rewrite Nat.add_0_r.
    by destruct (pos st) as [|p]. }
  assert (Heof : matchEof [lparen_token] st = Ok false st).
  { unfold matchEof, match_, bind, peek. by rewrite Hpeek. }
  unfold bind at 1. rewrite Heof. unfold bind at 1.
  assert (Hstmt : parseStatement [lparen_token] (S fuel') st = Ok None (next st)).
  { simpl. unfold parseStatement_body, bind, peek. rewrite Hpeek. done. }
  rewrite Hstmt. unfold continue, ret. apply IH.
Qed.

(** C7.  On a token list of the lexer, at a token of the body:
    [parseClass] returns, and the node it returns is marked as a forward
    declaration exactly if, after the name, the template arguments and
    the parent classes, the current token is not an opening brace (no
    body), and the node has no template argument and no parent class.
    So [class Foo;] is a forward declaration, and [class Foo<int N> ;],
    [class Foo : Bar;] and [class Foo {}] are not. *)
Theorem parseClass_forward_declaration
    (tokens : list Token) (fuel : nat) (st : state) :
  ends_with_eof tokens = true ->
  pos st + 1 < length tokens ->
  length tokens - 1 - pos st < fuel ->
  (exists cd st' st1 st2 st3 hasBody,
     parseClass tokens fuel (parseStatement tokens fuel) st = Ok cd st' /\
     parseIdentifier tokens {| pos := S (pos st); errors := errors st |}
     = Ok (cd_name cd) st1 /\
     parseTemplateArgs tokens fuel st1 = Ok (cd_templateArgs cd) st2 /\
     parseParentClasses tokens fuel st2 = Ok (cd_parentClasses cd) st3 /\
     matchP tokens "{" st3 = Ok hasBody st3 /\
     (cd_isForwardDeclaration cd = true <->
      hasBody = false /\ cd_templateArgs cd = [] /\ cd_parentClasses cd = []) /\
     (hasBody = false -> cd_body cd = [])) /\
  class_flags "class Foo;" = Some [("Foo", true)] /\
  class_flags "class Foo<int N> ;" = Some [("Foo", false)] /\
  class_flags "class Foo : Bar;" = Some [("Foo", false)] /\
  class_flags "class Foo {}" = Some [("Foo", false)].
Proof.
  intros Hlexed Hpos Hfuel.
  split; [|repeat split; vm_compute; reflexivity].
  destruct (ends_with_eof_split tokens Hlexed)
    as (body & eof & -> & Hty & Hv & Hbody).
  rewrite length_app in Hpos, Hfuel. simpl in Hpos, Hfuel.
  assert (Hwp : wp (parseClass (body ++ [eof]) fuel
                      (parseStatement (body ++ [eof]) fuel))
                   (after st true) st).
  { eapply wp_parseClass; [done|done| |lia|lia].
    intros st0 Hst0. by eapply wp_parseStatement. }
  destruct Hwp as (cd & st' & Hcd & _).
  destruct (parseClass_trace _ _ _ _ _ _ Hcd)
    as (st1 & st2 & st3 & st4 & hasBody & Hname & Htargs & Hparents
        & HhasBody & Hbody' & Hforward).
  exists cd, st', st1, st2, st3, hasBody.
  do 5 (split; [done|]). split; [split|].
  - rewrite Hforward. intros Hb.
    apply andb_true_iff in Hb as [Hb Hp]. apply andb_true_iff in Hb as [Hb Ht].
    apply negb_true_iff in Hb. apply Nat.eqb_eq in Hp, Ht.
    split; [done|]. split; by apply nil_length_inv.
  - intros (-> & Ht & Hp). rewrite Hforward, Ht, Hp. done.
  - intros ->. by eapply parseBody_without_brace.
Qed.

Lemma parseClass_forward_declaration_witness :
  (exists cd st' st1 st2 st3 hasBody,
     parseClass class_Foo_tokens 4 (parseStatement class_Foo_tokens 4)
       {| pos := 0; errors := [] |} = Ok cd st' /\
     parseIdentifier class_Foo_tokens {| pos := 1; errors := [] |}
     = Ok (cd_name cd) st1 /\
     parseTemplateArgs class_Foo_tokens 4 st1 = Ok (cd_templateArgs cd) st2 /\
     parseParentClasses class_Foo_tokens 4 st2 = Ok (cd_parentClasses cd) st3 /\
     matchP class_Foo_tokens "{" st3 = Ok hasBody st3 /\
     (cd_isForwardDeclaration cd = true <->
      hasBody = false /\ cd_templateArgs cd = [] /\ cd_parentClasses cd = []) /\
     (hasBody = false -> cd_body cd = [])) /\
  class_flags "class Foo;" = Some [("Foo", true)] /\
  class_flags "class Foo<int N> ;" = Some [("Foo", false)] /\
  class_flags "class Foo : Bar;" = Some [("Foo", false)] /\
  class_flags "class Foo {}" = Some [("Foo", false)].
Proof.
  apply (parseClass_forward_declaration class_Foo_tokens 4
           {| pos := 0; errors := [] |}).
  - reflexivity.
  - simpl. lia.
  - simpl. lia.
Defined.

End ParserClaims.
(* ===================================================================== *)
(** * parser.ts: the includes of a parsed file *)
(* ===================================================================== *)

(** The [include] statements among the statements of a list, in order;
    statements nested in a body are not looked into. *)
Definition top_includes (statements : list Statement) : list IncludeStatement :=
  omap (fun stmt => match stmt with
                    | SIncludeStatement i => Some i
                    | _ => None
                    end) statements.

Section ParserIncludes.
Import Parser.

Variable body : list Token.
Variable eof : Token.
Hypothesis eof_type : tok_type eof = TTeof.
Hypothesis eof_value : tok_value eof = "".
Hypothesis body_real : Forall (fun t => tok_type t <> TTeof) body.

Local Abbreviation tokens := (body ++ [eof]).
Local Abbreviation n := (length body).

(** A loop whose iterations keep [J] of the value they carry. *)
Lemma wp_loop_carrying {A B} (I : state -> Prop) (J : A -> Prop) (R : B -> Prop)
    (step : A -> M (A + B)) fuel :
  (forall a st, I st -> J a ->
     wp (step a)
        (fun r st' => iteration body I st r st' /\
                      match r with inl a' => J a' | inr b => R b end) st) ->
  forall a st, I st -> J a -> n - pos st < fuel ->
    wp (loop fuel step a)
       (fun b st' => R b /\ pos st <= pos st' /\ errors st' = errors st) st.
Proof.
  intros Hstep. induction fuel as [|fuel IH]; intros a st HI HJ Hfuel; [lia|].
  simpl. apply wp_bind. eapply wp_mono; [by apply Hstep|].
  intros [a'|b] st1 [(Hpos & Herr & HI1 & Hr) Hval]; simpl.
  - destruct Hr as [Hn Hlt]. eapply wp_mono; [apply IH; [done|done|lia]|].
    intros b st2 (HR & Hpos2 & Herr2). cbv beta.
    split; [done|]. split; [lia|congruence].
  - apply wp_ret. done.
Qed.

Lemma top_includes_snoc statements stmt :
  top_includes (statements ++ [stmt])
  = top_includes statements
    ++ match stmt with SIncludeStatement i => [i] | _ => [] end.
Proof.
  unfold top_includes. rewrite omap_app. f_equal. by destruct stmt.
Qed.

Lemma wp_parse_loop_includes fuel st :
  n - pos st + 1 < fuel ->
  wp (parse_loop tokens fuel)
     (fun r st' => r.2 = top_includes r.1 /\ errors st' = errors st) st.
Proof.
  intros Hfuel. unfold parse_loop. eapply wp_mono.
  - apply (wp_loop_carrying (fun st' => pos st <= pos st')
             (fun a : list Statement * list IncludeStatement =>
                a.2 = top_includes a.1)
             (fun b : list Statement * list IncludeStatement =>
                b.2 = top_includes b.1)); [|done|done|lia].
    intros [statements includes] st1 HI HJ. simpl in HJ.
    apply wp_bind. unfold matchEof. eapply wp_match.
    destruct (token_is _ _ _) eqn:Hstop.
    { apply wp_ret. unfold iteration. simpl. done. }
    pose proof (not_eof_real body eof eof_type eof_value st1 Hstop) as Hreal.
    apply wp_bind. eapply wp_mono.
    { apply (wp_parseStatement body eof eof_type eof_value body_real). lia. }
    intros stmt st2 (Htaken & Hle & Herr). apply wp_ret.
    split; [unfold iteration; repeat split; [lia|done|lia|done|lia]|].
    destruct stmt as [stmt|]; [|done].
    destruct stmt; simpl; rewrite top_includes_snoc, HJ; simpl;
      by rewrite ?app_nil_r.
  - intros a st' (HR & _ & Herr). done.
Qed.

(** The parser on a token list of the lexer returns a file whose
    includes are the [include] statements among its statements. *)
Lemma parse_includes uri fuel :
  length tokens < fuel ->
  exists file st',
    parse tokens uri fuel = Ok file st' /\
    pf_uri file = uri /\ pf_errors file = [] /\
    pf_includes file = top_includes (pf_statements file).
Proof.
  intros Hfuel. unfold parse.
  destruct (wp_parse_loop_includes fuel {| pos := 0; errors := [] |})
    as ([statements includes] & st' & -> & Hincludes & Herr).
  { rewrite length_app in Hfuel. simpl in *. lia. }
  simpl in *. eexists _, _. split; [done|]. simpl. by rewrite Herr.
Qed.

End ParserIncludes.

(** X16. On a token list of the lexer and a budget above the number of
    its tokens, [parse] returns a file of the uri given, with no
    diagnostic, whose [includes] are exactly the [include] statements
    among its top-level statements, in their order; an [include] nested
    in the body of another statement is not among them.  Whatever file
    [parseTableGen] returns for a text is such a file. *)
Theorem parseTableGen_top_level_includes (uri : string) :
  (forall tokens fuel,
     ends_with_eof tokens = true -> length tokens < fuel ->
     exists file st',
       Parser.parse tokens uri fuel = Parser.Ok file st' /\
       pf_uri file = uri /\ pf_errors file = [] /\
       pf_includes file = top_includes (pf_statements file)) /\
  (forall text file st',
     parseTableGen text uri = Some (Parser.Ok file st') ->
     pf_uri file = uri /\ pf_errors file = [] /\
     pf_includes file = top_includes (pf_statements file)).
Proof.
  assert (Hparse : forall tokens fuel,
     ends_with_eof tokens = true -> length tokens < fuel ->
     exists file st',
       Parser.parse tokens uri fuel = Parser.Ok file st' /\
       pf_uri file = uri /\ pf_errors file = [] /\
       pf_includes file = top_includes (pf_statements file)).
  { intros tokens fuel Hlexed Hfuel.
    destruct (ends_with_eof_split tokens Hlexed)
      as (body & eof & -> & Hty & Hv & Hbody).
    by apply parse_includes. }
  split; [exact Hparse|].
  intros text file st'. unfold parseTableGen.
  destruct (tokenize_total text) as (tokens & -> & Hlexed).
  destruct (Hparse tokens (Parser.parse_fuel tokens) Hlexed)
    as (file0 & st0 & -> & Hfile); [unfold Parser.parse_fuel; lia|].
  by intros [= <- <-].
Qed.

Section ParserIncludeExamples.
Import Parser.

Definition included_paths (text : string) : list string * nat :=
  match parseTableGen text "file:///includes.td" with
  | Some (Parser.Ok file _) =>
      (map inc_path (pf_includes file), length (pf_statements file))
  | _ => ([], 0)
  end.

(** Three statements; the [include] in the body of the [let] is not
    among the includes of the file. *)
Lemma nested_include_not_listed :
  included_paths
    ("include " +:+ quote +:+ "a.td" +:+ quote
     +:+ " let X = 1 in { include " +:+ quote +:+ "b.td" +:+ quote
     +:+ " } include " +:+ quote +:+ "c.td" +:+ quote)
  = (["a.td"; "c.td"], 3).
Proof. vm_compute. reflexivity. Qed.

End ParserIncludeExamples.
(* ===================================================================== *)
(** * symbols.ts: lookups in the symbol table *)
(* ===================================================================== *)

Section SymbolTableLookups.
Import SymbolTable.

Definition is_forward (s : Symbol) : bool :=
  default false (sym_isForwardDeclaration s).

Definition located (uri : string) (s : Symbol) : bool :=
  bool_decide (sym_uri s = uri).

(** The index lists and the per-file lists hold the same symbols: what an
    index list holds of a file is what the file's list has filed there,
    in the same order; and a file's list holds symbols of that file, with
    a name. *)
Definition filed_exactly (st : t) : Prop :=
  (forall uri n,
     List.filter (located uri) (default [] (globalSymbols st !! n))
     = List.filter (filed_global n) (default [] (fileSymbols st !! uri))) /\
  (forall uri sc n,
     List.filter (located uri)
       (default [] (scoped_lookup (scopedSymbols st) sc n))
     = List.filter (filed_scoped sc n) (default [] (fileSymbols st !! uri))) /\
  (forall uri s, In s (default [] (fileSymbols st !! uri)) ->
                 sym_uri s = uri /\ sym_name s <> "").

Lemma filter_located_other uri uri' l :
  uri <> uri' ->
  List.filter (located uri) (other_files uri' l) = List.filter (located uri) l.
Proof.
  intros Hne. unfold other_files, located.
  induction l as [|s l IH]; simpl; [done|].
  destruct (decide (sym_uri s = uri')) as [Hs|Hs].
  - rewrite bool_decide_eq_true_2 by done. simpl.
    rewrite (bool_decide_eq_false_2 (sym_uri s = uri)) by congruence. done.
  - rewrite bool_decide_eq_false_2 by done. simpl. by rewrite IH.
Qed.

Lemma filter_located_same uri l :
  List.filter (located uri) (other_files uri l) = [].
Proof.
  unfold other_files, located. induction l as [|s l IH]; simpl; [done|].
  destruct (decide (sym_uri s = uri)) as [Hs|Hs].
  - by rewrite bool_decide_eq_true_2.
  - rewrite bool_decide_eq_false_2 by done. simpl.
    by rewrite bool_decide_eq_false_2.
Qed.

Lemma filed_exactly_empty : filed_exactly empty.
Proof.
  split; [|split]; intros *; simpl; rewrite ?lookup_empty; simpl; try done.
Qed.

Lemma filed_exactly_addSymbol st s :
  filed_exactly st -> filed_exactly (addSymbol st s).
Proof.
  intros (Hg & Hs & Hf).
  destruct (decide (sym_name s = "")) as [Hname|Hname].
  { unfold addSymbol. by rewrite decide_True. }
  split; [|split].
  - intros uri n. rewrite addSymbol_global, addSymbol_fileSymbols by done.
    rewrite !List.filter_app, Hg. f_equal.
    unfold located. destruct (decide (sym_uri s = uri)) as [Hu|Hu];
      destruct (filed_global n s) eqn:Hfg; simpl; rewrite ?Hfg; try done.
    + by rewrite bool_decide_eq_true_2.
    + by rewrite bool_decide_eq_false_2.
  - intros uri sc n. rewrite addSymbol_scoped, addSymbol_fileSymbols by done.
    rewrite !List.filter_app, Hs. f_equal.
    unfold located. destruct (decide (sym_uri s = uri)) as [Hu|Hu];
      destruct (filed_scoped sc n s) eqn:Hfs; simpl; rewrite ?Hfs; try done.
    + by rewrite bool_decide_eq_true_2.
    + by rewrite bool_decide_eq_false_2.
  - intros uri x. rewrite addSymbol_fileSymbols by done.
    rewrite in_app_iff. intros [Hin|Hin]; [by apply Hf|].
    destruct (decide (sym_uri s = uri)) as [Hu|Hu]; [|done].
    destruct Hin as [<-|[]]. done.
Qed.

Lemma filed_exactly_clearFile st uri0 :
  indexed st -> filed_exactly st -> filed_exactly (clearFile st uri0).
Proof.
  intros Hidx (Hg & Hs & Hf).
  pose proof (clearFile_exact st uri0 Hidx) as Hexact. cbv zeta in Hexact.
  destruct Hexact as (Hg' & Hs' & _ & Hfs' & _).
  assert (Hfile : forall uri,
            default [] (fileSymbols (clearFile st uri0) !! uri)
            = if decide (uri = uri0) then []
              else default [] (fileSymbols st !! uri)).
  { intros uri. rewrite Hfs'. destruct (decide (uri = uri0)) as [->|Hne].
    - by rewrite lookup_delete_eq.
    - by rewrite lookup_delete_ne. }
  split; [|split].
  - intros uri n. rewrite Hg', Hfile.
    destruct (globalSymbols st !! n) as [l|] eqn:Hl; simpl.
    + destruct (decide (uri = uri0)) as [->|Hne].
      * by rewrite filter_located_same.
      * rewrite filter_located_other by done.
        specialize (Hg uri n). by rewrite Hl in Hg.
    + specialize (Hg uri n). rewrite Hl in Hg. simpl in Hg.
      destruct (decide (uri = uri0)); done.
  - intros uri sc n. rewrite Hs', Hfile.
    destruct (scoped_lookup (scopedSymbols st) sc n) as [l|] eqn:Hl; simpl.
    + destruct (decide (uri = uri0)) as [->|Hne].
      * by rewrite filter_located_same.
      * rewrite filter_located_other by done.
        specialize (Hs uri sc n). by rewrite Hl in Hs.
    + specialize (Hs uri sc n). rewrite Hl in Hs. simpl in Hs.
      destruct (decide (uri = uri0)); done.
  - intros uri x. rewrite Hfile. destruct (decide (uri = uri0)); [done|].
    apply Hf.
Qed.

Lemma reachable_filed_exactly st : reachable st -> filed_exactly st.
Proof.
  induction 1 as [|st s Hr IH|st r Hr IH|st uri Hr IH].
  - apply filed_exactly_empty.
  - by apply filed_exactly_addSymbol.
  - exact IH.
  - apply filed_exactly_clearFile; [by apply reachable_indexed|done].
Qed.

(** What an index list holds is filed there, under the file it is
    located in. *)
Lemma global_entry_filed st n s :
  filed_exactly st -> In s (default [] (globalSymbols st !! n)) ->
  filed_global n s = true /\ In s (getAllSymbolsInFile st (sym_uri s)).
Proof.
  intros (Hg & _ & _) Hin.
  assert (In s (List.filter (located (sym_uri s))
                  (default [] (globalSymbols st !! n)))) as Hin'.
  { apply List.filter_In. split; [done|]. unfold located.
    by rewrite bool_decide_eq_true_2. }
  rewrite Hg in Hin'. apply List.filter_In in Hin' as [? ?]. done.
Qed.

Lemma scoped_entry_filed st sc n s :
  filed_exactly st ->
  In s (default [] (scoped_lookup (scopedSymbols st) sc n)) ->
  filed_scoped sc n s = true /\ In s (getAllSymbolsInFile st (sym_uri s)).
Proof.
  intros (_ & Hs & _) Hin.
  assert (In s (List.filter (located (sym_uri s))
                  (default [] (scoped_lookup (scopedSymbols st) sc n)))) as Hin'.
  { apply List.filter_In. split; [done|]. unfold located.
    by rewrite bool_decide_eq_true_2. }
  rewrite Hs in Hin'. apply List.filter_In in Hin' as [? ?]. done.
Qed.

Lemma filed_global_entry st uri s :
  filed_exactly st -> In s (getAllSymbolsInFile st uri) ->
  truthy_scope s = None ->
  In s (default [] (globalSymbols st !! sym_name s)).
Proof.
  intros (Hg & _ & Hf) Hin Hsc. destruct (Hf uri s Hin) as [Hu _].
  assert (In s (List.filter (filed_global (sym_name s))
                  (default [] (fileSymbols st !! uri)))) as Hin'.
  { apply List.filter_In. split; [done|]. unfold filed_global.
    by rewrite bool_decide_eq_true_2. }
  rewrite <- Hg in Hin'. by apply List.filter_In in Hin' as [? _].
Qed.

Lemma filed_scoped_entry st uri s sc :
  filed_exactly st -> In s (getAllSymbolsInFile st uri) ->
  truthy_scope s = Some sc ->
  In s (default [] (scoped_lookup (scopedSymbols st) sc (sym_name s))).
Proof.
  intros (_ & Hs & Hf) Hin Hsc. destruct (Hf uri s Hin) as [Hu _].
  assert (In s (List.filter (filed_scoped sc (sym_name s))
                  (default [] (fileSymbols st !! uri)))) as Hin'.
  { apply List.filter_In. split; [done|]. unfold filed_scoped.
    by rewrite bool_decide_eq_true_2. }
  rewrite <- Hs in Hin'. by apply List.filter_In in Hin' as [? _].
Qed.

(** ** [findDefinition] in terms of the list it consults *)

(** The scope's list under the name when a scope is given and that list
    is not empty, the global list under the name otherwise. *)
Definition consulted (st : t) (name : string) (scope : option string)
  : list Symbol :=
  let global := default [] (globalSymbols st !! name) in
  match scope with
  | Some sc =>
      if decide (sc = "") then global
      else match default [] (scoped_lookup (scopedSymbols st) sc name) with
           | [] => global
           | l => l
           end
  | None => global
  end.

Lemma prefer_definition_nil : prefer_definition [] = None.
Proof. done. Qed.

Lemma findDefinition_consulted st name scope :
  findDefinition st name scope = prefer_definition (consulted st name scope).
Proof.
  unfold findDefinition, consulted, scoped_lookup.
  assert (Hglobal : match globalSymbols st !! name with
                    | Some (s :: syms) => prefer_definition (s :: syms)
                    | _ => None
                    end
                    = prefer_definition (default [] (globalSymbols st !! name))).
  { by destruct (globalSymbols st !! name) as [[|??]|]. }
  rewrite Hglobal. destruct scope as [sc|]; [|done].
  destruct (decide (sc = "")); [done|].
  destruct (scopedSymbols st !! sc) as [scopeMap|]; simpl; [|done].
  by destruct (scopeMap !! name) as [[|??]|].
Qed.

Lemma prefer_definition_In l s : prefer_definition l = Some s -> In s l.
Proof.
  unfold prefer_definition.
  destruct (List.find _ l) eqn:Hfind.
  - intros [= <-]. by apply List.find_some in Hfind as [? _].
  - destruct l; [done|]. intros [= <-]. by left.
Qed.

Lemma prefer_definition_forward l s x :
  prefer_definition l = Some s -> is_forward s = true -> In x l ->
  is_forward x = true.
Proof.
  unfold prefer_definition, is_forward.
  destruct (List.find _ l) eqn:Hfind.
  - intros [= <-] Hfw. apply List.find_some in Hfind as [_ Hs].
    by rewrite Hfw in Hs.
  - intros _ _ Hin. pose proof (List.find_none _ _ Hfind x Hin) as Hx.
    by apply negb_false_iff in Hx.
Qed.

Lemma prefer_definition_is_Some l x : In x l -> is_Some (prefer_definition l).
Proof.
  unfold prefer_definition. intros Hin.
  destruct (List.find _ l); [done|]. by destruct l.
Qed.

Lemma prefer_definition_filter (P : Symbol -> bool) l s :
  prefer_definition l = Some s -> P s = true ->
  prefer_definition (List.filter P l) = Some s.
Proof.
  unfold prefer_definition. intros Hpref HP.
  destruct (List.find _ l) as [d|] eqn:Hfind.
  - injection Hpref as ->.
    assert (List.find (fun s => negb (default false (sym_isForwardDeclaration s)))
              (List.filter P l) = Some s) as ->; [|done].
    induction l as [|x l IH]; [done|]. simpl in Hfind.
    destruct (negb (default false (sym_isForwardDeclaration x))) eqn:Hx.
    + injection Hfind as ->. simpl. rewrite HP. simpl. by rewrite Hx.
    + simpl. destruct (P x); [simpl; rewrite Hx|]; by apply IH.
  - assert (List.find (fun s => negb (default false (sym_isForwardDeclaration s)))
              (List.filter P l) = None) as ->.
    { clear -Hfind. induction l as [|x l IH]; [done|]. simpl in Hfind. simpl.
      destruct (negb (default false (sym_isForwardDeclaration x))) eqn:Hx;
        [done|].
      destruct (P x); [simpl; rewrite Hx|]; by apply IH. }
    destruct l as [|x l]; [done|]. injection Hpref as ->. simpl. by rewrite HP.
Qed.

(** X1. On every table reached through the public methods,
    [findDefinition] answers from the lists of the files: what it returns
    is a symbol of the name asked, filed under the file it is located in
    and in the scope asked or globally; a global symbol listed for a file
    is found by its name, and a symbol of a scope by its name in that
    scope; and a forward declaration is returned only when every symbol
    consulted is one, so never in place of a stored definition. *)
Theorem findDefinition_finds_filed_symbols (st : t) :
  reachable st ->
  (forall name scope s,
     findDefinition st name scope = Some s ->
     sym_name s = name /\ name <> "" /\
     In s (getAllSymbolsInFile st (sym_uri s)) /\
     (truthy_scope s = None \/ (scope <> None /\ truthy_scope s = scope))) /\
  (forall uri s,
     In s (getAllSymbolsInFile st uri) -> truthy_scope s = None ->
     exists d, findDefinition st (sym_name s) None = Some d /\
               truthy_scope d = None /\
               (is_forward d = true -> is_forward s = true)) /\
  (forall uri s sc,
     In s (getAllSymbolsInFile st uri) -> truthy_scope s = Some sc ->
     exists d, findDefinition st (sym_name s) (Some sc) = Some d /\
               truthy_scope d = Some sc /\
               (is_forward d = true -> is_forward s = true)).
Proof.
  intros Hreach. pose proof (reachable_filed_exactly st Hreach) as Hfiled.
  assert (Hglobal : forall n s, In s (default [] (globalSymbols st !! n)) ->
            sym_name s = n /\ n <> "" /\
            In s (getAllSymbolsInFile st (sym_uri s)) /\ truthy_scope s = None).
  { intros n s Hin. destruct (global_entry_filed st n s Hfiled Hin) as [Hf Hfile].
    apply bool_decide_eq_true in Hf as [Hsc Hn].
    destruct Hfiled as (_ & _ & Hnamed).
    destruct (Hnamed _ _ Hfile) as [_ Hne]. by subst. }
  assert (Hscoped : forall sc n s,
            In s (default [] (scoped_lookup (scopedSymbols st) sc n)) ->
            sym_name s = n /\ n <> "" /\
            In s (getAllSymbolsInFile st (sym_uri s)) /\
            truthy_scope s = Some sc).
  { intros sc n s Hin.
    destruct (scoped_entry_filed st sc n s Hfiled Hin) as [Hf Hfile].
    apply bool_decide_eq_true in Hf as [Hsc Hn].
    destruct Hfiled as (_ & _ & Hnamed).
    destruct (Hnamed _ _ Hfile) as [_ Hne]. by subst. }
  split; [|split].
  - intros name scope s. rewrite findDefinition_consulted. intros Hpref.
    apply prefer_definition_In in Hpref. unfold consulted in Hpref.
    destruct scope as [sc|].
    + destruct (decide (sc = "")).
      { destruct (Hglobal _ _ Hpref) as (? & ? & ? & ?). auto. }
      destruct (default [] (scoped_lookup (scopedSymbols st) sc name))
        as [|x l] eqn:Hl.
      { destruct (Hglobal _ _ Hpref) as (? & ? & ? & ?). auto. }
      rewrite <- Hl in Hpref.
      destruct (Hscoped _ _ _ Hpref) as (? & ? & ? & ?).
      repeat split; try done. right. split; [done|]. done.
    + destruct (Hglobal _ _ Hpref) as (? & ? & ? & ?). auto.
  - intros uri s Hin Hsc.
    pose proof (filed_global_entry st uri s Hfiled Hin Hsc) as Hentry.
    rewrite findDefinition_consulted. simpl.
    destruct (prefer_definition_is_Some _ _ Hentry) as [d Hd].
    exists d. split; [done|]. split.
    + apply prefer_definition_In in Hd. by destruct (Hglobal _ _ Hd) as (_&_&_&?).
    + intros Hfw. by eapply prefer_definition_forward.
  - intros uri s sc Hin Hsc.
    pose proof (filed_scoped_entry st uri s sc Hfiled Hin Hsc) as Hentry.
    rewrite findDefinition_consulted. unfold consulted.
    assert (sc <> "") as Hne.
    { unfold truthy_scope in Hsc. destruct (sym_scope s) as [sc'|]; [|done].
      destruct (decide (sc' = "")); [done|]. congruence. }
    rewrite decide_False by done.
    assert (match default [] (scoped_lookup (scopedSymbols st) sc (sym_name s)) with
            | [] => default [] (globalSymbols st !! sym_name s)
            | l => l
            end = default [] (scoped_lookup (scopedSymbols st) sc (sym_name s)))
      as ->.
    { by destruct (default [] (scoped_lookup (scopedSymbols st) sc (sym_name s))). }
    destruct (prefer_definition_is_Some _ _ Hentry) as [d Hd].
    exists d. split; [done|]. split.
    + apply prefer_definition_In in Hd. by destruct (Hscoped _ _ _ Hd) as (_&_&_&?).
    + intros Hfw. by eapply prefer_definition_forward.
Qed.

(** ** [clearFile] and the lookups *)

Lemma clearFile_global_default st uri n :
  indexed st ->
  default [] (globalSymbols (clearFile st uri) !! n)
  = other_files uri (default [] (globalSymbols st !! n)).
Proof.
  intros Hidx. pose proof (clearFile_exact st uri Hidx) as Hexact.
  cbv zeta in Hexact. destruct Hexact as (Hg & _). rewrite Hg.
  by destruct (globalSymbols st !! n).
Qed.

Lemma clearFile_scoped_default st uri sc n :
  indexed st ->
  default [] (scoped_lookup (scopedSymbols (clearFile st uri)) sc n)
  = other_files uri (default [] (scoped_lookup (scopedSymbols st) sc n)).
Proof.
  intros Hidx. pose proof (clearFile_exact st uri Hidx) as Hexact.
  cbv zeta in Hexact. destruct Hexact as (_ & Hs & _). rewrite Hs.
  by destruct (scoped_lookup (scopedSymbols st) sc n).
Qed.

Lemma other_files_In uri l s : In s (other_files uri l) <-> In s l /\ sym_uri s <> uri.
Proof.
  unfold other_files. rewrite List.filter_In, negb_true_iff, bool_decide_eq_false.
  done.
Qed.

Lemma consulted_clearFile st uri name scope :
  indexed st ->
  consulted (clearFile st uri) name scope
  = match scope with
    | Some sc =>
        if decide (sc = "")
        then other_files uri (default [] (globalSymbols st !! name))
        else match other_files uri
                     (default [] (scoped_lookup (scopedSymbols st) sc name)) with
             | [] => other_files uri (default [] (globalSymbols st !! name))
             | l => l
             end
    | None => other_files uri (default [] (globalSymbols st !! name))
    end.
Proof.
  intros Hidx. unfold consulted.
  rewrite clearFile_global_default by done.
  destruct scope as [sc|]; [|done].
  by rewrite clearFile_scoped_default.
Qed.

(** X2. On every table reached through the public methods, after
    [clearFile uri] no lookup returns a symbol located in [uri]; and a
    lookup that returned a symbol of another file before returns the same
    symbol afterwards. *)
Theorem clearFile_findDefinition (st : t) (uri : string) :
  reachable st ->
  (forall name scope s,
     findDefinition (clearFile st uri) name scope = Some s -> sym_uri s <> uri) /\
  (forall name scope s,
     findDefinition st name scope = Some s -> sym_uri s <> uri ->
     findDefinition (clearFile st uri) name scope = Some s).
Proof.
  intros Hreach. pose proof (reachable_indexed st Hreach) as Hidx.
  split.
  - intros name scope s. rewrite findDefinition_consulted.
    rewrite consulted_clearFile by done. intros Hpref.
    apply prefer_definition_In in Hpref.
    assert (forall l, In s (other_files uri l) -> sym_uri s <> uri) as Hother.
    { intros l Hin. by apply other_files_In in Hin as [_ ?]. }
    destruct scope as [sc|]; [|by eapply Hother].
    destruct (decide (sc = "")); [by eapply Hother|].
    destruct (other_files uri
                (default [] (scoped_lookup (scopedSymbols st) sc name)))
      as [|x l] eqn:Hl; [by eapply Hother|].
    rewrite <- Hl in Hpref. by eapply Hother.
  - intros name scope s. rewrite !findDefinition_consulted.
    rewrite consulted_clearFile by done. unfold consulted.
    intros Hpref Hne.
    assert (Hkeep : forall l, prefer_definition l = Some s ->
                              prefer_definition (other_files uri l) = Some s).
    { intros l Hl. apply prefer_definition_filter; [done|].
      by rewrite bool_decide_eq_false_2. }
    destruct scope as [sc|]; [|by apply Hkeep].
    destruct (decide (sc = "")); [by apply Hkeep|].
    destruct (default [] (scoped_lookup (scopedSymbols st) sc name))
      as [|x l] eqn:Hl; [by apply Hkeep|].
    pose proof (Hkeep _ Hpref) as Hpref'.
    destruct (other_files uri (x :: l)) as [|y l'] eqn:Hl'; [done|]. done.
Qed.

(** ** [getSymbolAtPosition] *)

(** The order of positions: by line, then by character. *)
Definition position_le (p q : Position) : Prop :=
  line p < line q \/ (line p = line q /\ character p <= character q).

Definition covers (range : Range) (l c : nat) : Prop :=
  position_le (r_start range) {| line := l; character := c |} /\
  position_le {| line := l; character := c |} (r_end range).

Lemma isPositionInRange_covers l c range :
  isPositionInRange l c range = true <-> covers range l c.
Proof.
  unfold isPositionInRange, covers, position_le. simpl.
  destruct (l <? line (r_start range))%nat eqn:H1; simpl.
  { apply Nat.ltb_lt in H1. split; [done|]. lia. }
  apply Nat.ltb_ge in H1.
  destruct (line (r_end range) <? l)%nat eqn:H2; simpl.
  { apply Nat.ltb_lt in H2. split; [done|]. lia. }
  apply Nat.ltb_ge in H2.
  destruct ((l =? line (r_start range))%nat
            && (c <? character (r_start range))%nat) eqn:H3.
  { apply andb_true_iff in H3 as [H3 H3'].
    apply Nat.eqb_eq in H3. apply Nat.ltb_lt in H3'. split; [done|]. lia. }
  destruct ((l =? line (r_end range))%nat
            && (character (r_end range) <? c)%nat) eqn:H4.
  { apply andb_true_iff in H4 as [H4 H4'].
    apply Nat.eqb_eq in H4. apply Nat.ltb_lt in H4'. split; [done|]. lia. }
  apply andb_false_iff in H3, H4. split; [intros _|done].
  rewrite Nat.eqb_neq, Nat.ltb_ge in H3, H4. lia.
Qed.

(** [x] is the first element of [l] that satisfies [P]. *)
Definition first_such {A} (P : A -> Prop) (l : list A) (x : A) : Prop :=
  exists before after,
    l = before ++ x :: after /\ Forall (fun y => ~ P y) before /\ P x.

Lemma find_first_such {A} (p : A -> bool) (P : A -> Prop) l :
  (forall x, p x = true <-> P x) ->
  match List.find p l with
  | Some x => first_such P l x
  | None => Forall (fun y => ~ P y) l
  end.
Proof.
  intros Hp. induction l as [|y l IH]; simpl; [constructor|].
  destruct (p y) eqn:Hy.
  - exists [], l. split; [done|]. split; [constructor|by apply Hp].
  - assert (~ P y) as Hny by (rewrite <- Hp; congruence).
    destruct (List.find p l) as [x|].
    + destruct IH as (before & after & -> & Hbefore & Hx).
      exists (y :: before), after. split; [done|]. split; [by constructor|done].
    + by constructor.
Qed.

(** X3. [getSymbolAtPosition] answers with the first reference of the
    file whose range holds the position, both ends included; with the
    first such symbol when no reference does; and with nothing exactly
    when no reference and no symbol of the file holds the position. *)
Theorem getSymbolAtPosition_first_covering (st : t) (uri : string) (l c : nat) :
  let refs := default [] (fileReferences st !! uri) in
  let symbols := getAllSymbolsInFile st uri in
  let ref_covers ref := covers (loc_range (ref_location ref)) l c in
  let sym_covers sym := covers (loc_range (sym_location sym)) l c in
  match getSymbolAtPosition st uri l c with
  | Some found =>
      (exists ref, first_such ref_covers refs ref /\
                   found = (ref_name ref, ref_scope ref)) \/
      (Forall (fun ref => ~ ref_covers ref) refs /\
       exists sym, first_such sym_covers symbols sym /\
                   found = (sym_name sym, sym_scope sym))
  | None =>
      Forall (fun ref => ~ ref_covers ref) refs /\
      Forall (fun sym => ~ sym_covers sym) symbols
  end.
Proof.
  intros refs symbols ref_covers sym_covers. unfold getSymbolAtPosition.
  fold refs. fold (getAllSymbolsInFile st uri). fold symbols.
  pose proof (find_first_such
    (fun ref => isPositionInRange l c (loc_range (ref_location ref)))
    ref_covers refs
    ltac:(intros ref; apply isPositionInRange_covers)) as Hrefs.
  pose proof (find_first_such
    (fun sym => isPositionInRange l c (loc_range (sym_location sym)))
    sym_covers symbols
    ltac:(intros sym; apply isPositionInRange_covers)) as Hsyms.
  destruct (List.find _ refs) as [ref|].
  { left. by exists ref. }
  destruct (List.find _ symbols) as [sym|].
  { right. split; [done|]. by exists sym. }
  done.
Qed.

(** ** [importData] *)

Definition is_named (s : Symbol) : bool :=
  negb (bool_decide (sym_name s = "")).

Lemma addSymbol_unnamed st s : sym_name s = "" -> addSymbol st s = st.
Proof. intros H. unfold addSymbol. by rewrite decide_True. Qed.

Lemma addSymbol_references st s : references (addSymbol st s) = references st.
Proof.
  unfold addSymbol. destruct (decide _); [done|]. by destruct (truthy_scope s).
Qed.

Lemma addSymbol_fileReferences st s :
  fileReferences (addSymbol st s) = fileReferences st.
Proof.
  unfold addSymbol. destruct (decide _); [done|]. by destruct (truthy_scope s).
Qed.

Lemma foldl_addSymbol_lists symbols : forall st,
  let st' := foldl addSymbol st symbols in
  (forall uri, default [] (fileSymbols st' !! uri)
               = default [] (fileSymbols st !! uri)
                 ++ List.filter (fun s => is_named s && located uri s) symbols) /\
  (forall n, default [] (globalSymbols st' !! n)
             = default [] (globalSymbols st !! n)
               ++ List.filter (fun s => is_named s && filed_global n s) symbols) /\
  (forall sc n, default [] (scoped_lookup (scopedSymbols st') sc n)
                = default [] (scoped_lookup (scopedSymbols st) sc n)
                  ++ List.filter (fun s => is_named s && filed_scoped sc n s)
                       symbols) /\
  references st' = references st /\ fileReferences st' = fileReferences st.
Proof.
  induction symbols as [|s symbols IH]; intros st; cbv zeta.
  { simpl. repeat split; intros; by rewrite ?app_nil_r. }
  specialize (IH (addSymbol st s)). cbv zeta in IH.
  destruct IH as (Hf & Hg & Hs & Hr & Hfr). simpl.
  destruct (decide (sym_name s = "")) as [Hname|Hname].
  { rewrite (addSymbol_unnamed st s Hname) in *.
    unfold is_named. rewrite bool_decide_eq_true_2 by done. simpl.
    by repeat split. }
  unfold is_named. rewrite bool_decide_eq_false_2 by done. simpl.
  split; [|split; [|split; [|split]]].
  - intros uri. rewrite Hf, addSymbol_fileSymbols by done.
    rewrite <- app_assoc. f_equal. unfold located.
    destruct (decide (sym_uri s = uri)).
    + by rewrite bool_decide_eq_true_2.
    + by rewrite bool_decide_eq_false_2.
  - intros n. rewrite Hg, addSymbol_global by done.
    rewrite <- app_assoc. f_equal. by destruct (filed_global n s).
  - intros sc n. rewrite Hs, addSymbol_scoped by done.
    rewrite <- app_assoc. f_equal. by destruct (filed_scoped sc n s).
  - by rewrite Hr, addSymbol_references.
  - by rewrite Hfr, addSymbol_fileReferences.
Qed.

Lemma foldl_addReference_lists refs : forall st,
  let st' := foldl addReference st refs in
  references st' = references st ++ refs /\
  (forall uri, default [] (fileReferences st' !! uri)
               = default [] (fileReferences st !! uri)
                 ++ List.filter (fun r => bool_decide (ref_uri r = uri)) refs) /\
  globalSymbols st' = globalSymbols st /\ scopedSymbols st' = scopedSymbols st /\
  fileSymbols st' = fileSymbols st.
Proof.
  induction refs as [|r refs IH]; intros st; cbv zeta.
  { simpl. repeat split; intros; by rewrite ?app_nil_r. }
  specialize (IH (addReference st r)). cbv zeta in IH.
  destruct IH as (Hr & Hfr & Hg & Hs & Hf). simpl.
  split; [|split; [|by repeat split]].
  - rewrite Hr. simpl. by rewrite <- app_assoc.
  - intros uri. rewrite Hfr. unfold addReference at 1. simpl.
    destruct (decide (ref_uri r = uri)) as [->|Hne].
    + rewrite lookup_insert_eq. rewrite bool_decide_eq_true_2 by done. simpl.
      by rewrite <- app_assoc.
    + rewrite lookup_insert_ne by done. by rewrite bool_decide_eq_false_2.
Qed.

Lemma reachable_foldl_addSymbol symbols : forall st,
  reachable st -> reachable (foldl addSymbol st symbols).
Proof.
  induction symbols as [|s symbols IH]; intros st Hst; [done|].
  simpl. apply IH. by constructor.
Qed.

Lemma reachable_foldl_addReference refs : forall st,
  reachable st -> reachable (foldl addReference st refs).
Proof.
  induction refs as [|r refs IH]; intros st Hst; [done|].
  simpl. apply IH. by constructor.
Qed.

(** X4. Whatever the table held, after [importData symbols refs] it
    holds the imported data only: a file's symbols are the imported
    symbols located in it that have a name, in the order given; the
    references are the imported ones, in the order given, for the whole
    table and for each file; and the global list of a name holds the
    imported symbols of that name that have no scope. *)
Theorem importData_queries (st : t) (symbols : list Symbol)
    (refs : list SymbolReference) :
  reachable (importData st symbols refs) /\
  (forall uri,
     getAllSymbolsInFile (importData st symbols refs) uri
     = List.filter (fun s => is_named s && located uri s) symbols) /\
  references (importData st symbols refs) = refs /\
  (forall name,
     findReferences (importData st symbols refs) name
     = List.filter (fun r => bool_decide (ref_name r = name)) refs) /\
  (forall uri,
     default [] (fileReferences (importData st symbols refs) !! uri)
     = List.filter (fun r => bool_decide (ref_uri r = uri)) refs) /\
  (forall name,
     default [] (globalSymbols (importData st symbols refs) !! name)
     = List.filter (fun s => is_named s && filed_global name s) symbols).
Proof.
  unfold importData, clear.
  pose proof (foldl_addSymbol_lists symbols empty) as Hsyms. cbv zeta in Hsyms.
  destruct Hsyms as (Hf & Hg & _ & Hr & Hfr).
  pose proof (foldl_addReference_lists refs (foldl addSymbol empty symbols))
    as Hrefs. cbv zeta in Hrefs.
  destruct Hrefs as (Hr' & Hfr' & Hg' & _ & Hf').
  split; [|split; [|split; [|split; [|split]]]].
  - apply reachable_foldl_addReference, reachable_foldl_addSymbol. constructor.
  - intros uri. unfold getAllSymbolsInFile. rewrite Hf', Hf. simpl.
    by rewrite lookup_empty.
  - by rewrite Hr', Hr.
  - intros name. unfold findReferences. by rewrite Hr', Hr.
  - intros uri. rewrite Hfr', Hfr. simpl. by rewrite lookup_empty.
  - intros name. rewrite Hg', Hg. simpl. by rewrite lookup_empty.
Qed.

(** ** Additions for one file, then [clearFile] *)

(** What [addSymbol] and [addReference] are called with. *)
Inductive entry :=
| entry_symbol (s : Symbol)
| entry_reference (r : SymbolReference).

Definition add_entry (st : t) (e : entry) : t :=
  match e with
  | entry_symbol s => addSymbol st s
  | entry_reference r => addReference st r
  end.

Definition entry_uri (e : entry) : string :=
  match e with
  | entry_symbol s => sym_uri s
  | entry_reference r => ref_uri r
  end.

(** Two tables that answer every query alike: they may differ in names
    and scopes that are kept with an empty list. *)
Definition same_answers (st1 st2 : t) : Prop :=
  (forall n, default [] (globalSymbols st1 !! n)
             = default [] (globalSymbols st2 !! n)) /\
  (forall sc n, default [] (scoped_lookup (scopedSymbols st1) sc n)
                = default [] (scoped_lookup (scopedSymbols st2) sc n)) /\
  references st1 = references st2 /\
  (forall uri, default [] (fileSymbols st1 !! uri)
               = default [] (fileSymbols st2 !! uri)) /\
  (forall uri, default [] (fileReferences st1 !! uri)
               = default [] (fileReferences st2 !! uri)).

Lemma same_answers_queries st1 st2 :
  same_answers st1 st2 ->
  (forall name scope, findDefinition st1 name scope = findDefinition st2 name scope) /\
  (forall name, findReferences st1 name = findReferences st2 name) /\
  (forall uri, getAllSymbolsInFile st1 uri = getAllSymbolsInFile st2 uri) /\
  (forall uri l c, getSymbolAtPosition st1 uri l c = getSymbolAtPosition st2 uri l c).
Proof.
  intros (Hg & Hs & Hr & Hf & Hfr). split; [|split; [|split]].
  - intros name scope. rewrite !findDefinition_consulted. unfold consulted.
    rewrite Hg. destruct scope as [sc|]; [|done]. by rewrite Hs.
  - intros name. unfold findReferences. by rewrite Hr.
  - intros uri. apply Hf.
  - intros uri l c. unfold getSymbolAtPosition. by rewrite Hf, Hfr.
Qed.

Lemma reachable_entries entries : forall st,
  reachable st -> reachable (foldl add_entry st entries).
Proof.
  induction entries as [|e entries IH]; intros st Hst; [done|].
  simpl. apply IH. destruct e; by constructor.
Qed.

Lemma other_files_app uri l1 l2 :
  other_files uri (l1 ++ l2) = other_files uri l1 ++ other_files uri l2.
Proof. unfold other_files. apply List.filter_app. Qed.

(** What one addition for [uri] changes. *)
Definition grown (uri : string) (st st' : t) : Prop :=
  (forall n, exists new,
     default [] (globalSymbols st' !! n) = default [] (globalSymbols st !! n) ++ new
     /\ other_files uri new = []) /\
  (forall sc n, exists new,
     default [] (scoped_lookup (scopedSymbols st') sc n)
     = default [] (scoped_lookup (scopedSymbols st) sc n) ++ new
     /\ other_files uri new = []) /\
  (exists new,
     references st' = references st ++ new /\
     List.filter (fun r => negb (bool_decide (ref_uri r = uri))) new = []) /\
  (forall uri', uri' <> uri -> fileSymbols st' !! uri' = fileSymbols st !! uri') /\
  (forall uri', uri' <> uri ->
                fileReferences st' !! uri' = fileReferences st !! uri').

Lemma grown_refl uri st : grown uri st st.
Proof.
  split; [|split; [|split; [|split]]]; intros; try done;
    exists []; by rewrite app_nil_r.
Qed.

Lemma grown_trans uri st1 st2 st3 :
  grown uri st1 st2 -> grown uri st2 st3 -> grown uri st1 st3.
Proof.
  intros (Hg & Hs & Hr & Hf & Hfr) (Hg' & Hs' & Hr' & Hf' & Hfr').
  split; [|split; [|split; [|split]]].
  - intros n. destruct (Hg' n) as (new' & -> & Hnew').
    destruct (Hg n) as (new & -> & Hnew).
    exists (new ++ new'). rewrite <- app_assoc. split; [done|].
    by rewrite other_files_app, Hnew, Hnew'.
  - intros sc n. destruct (Hs' sc n) as (new' & -> & Hnew').
    destruct (Hs sc n) as (new & -> & Hnew).
    exists (new ++ new'). rewrite <- app_assoc. split; [done|].
    by rewrite other_files_app, Hnew, Hnew'.
  - destruct Hr' as (new' & -> & Hnew'). destruct Hr as (new & -> & Hnew).
    exists (new ++ new'). rewrite <- app_assoc. split; [done|].
    by rewrite List.filter_app, Hnew, Hnew'.
  - intros uri' Hne. by rewrite Hf', Hf.
  - intros uri' Hne. by rewrite Hfr', Hfr.
Qed.

Lemma grown_add_entry uri st e : entry_uri e = uri -> grown uri st (add_entry st e).
Proof.
  intros He. destruct e as [s|r]; simpl in *.
  - destruct (decide (sym_name s = "")) as [Hname|Hname].
    { rewrite addSymbol_unnamed by done. apply grown_refl. }
    assert (Hone : forall b : bool, other_files uri (if b then [s] else []) = []).
    { intros []; [|done]. unfold other_files. simpl.
      by rewrite bool_decide_eq_true_2. }
    split; [|split; [|split; [|split]]].
    + intros n. eexists. split; [by apply addSymbol_global|]. apply Hone.
    + intros sc n. eexists. split; [by apply addSymbol_scoped|]. apply Hone.
    + exists []. by rewrite app_nil_r, addSymbol_references.
    + intros uri' Hne. unfold addSymbol. rewrite decide_False by done.
      destruct (truthy_scope s); simpl; rewrite lookup_insert_ne; congruence.
    + intros uri' Hne. by rewrite addSymbol_fileReferences.
  - split; [|split; [|split; [|split]]]; try (intros; exists []; by rewrite app_nil_r).
    + exists [r]. split; [done|]. simpl. by rewrite bool_decide_eq_true_2.
    + done.
    + intros uri' Hne. simpl. rewrite lookup_insert_ne; congruence.
Qed.

Lemma grown_entries uri entries : forall st,
  Forall (fun e => entry_uri e = uri) entries ->
  grown uri st (foldl add_entry st entries).
Proof.
  induction entries as [|e entries IH]; intros st Hall; [apply grown_refl|].
  inversion Hall as [|? ? He Hrest]; subst. simpl.
  eapply grown_trans; [by apply grown_add_entry|]. by apply IH.
Qed.

(** Everything added for a file goes when the file is cleared. *)
Lemma clearFile_grown uri st st' :
  indexed st -> indexed st' -> grown uri st st' ->
  same_answers (clearFile st' uri) (clearFile st uri).
Proof.
  intros Hidx Hidx' (Hg & Hs & Hr & Hf & Hfr).
  pose proof (clearFile_exact st uri Hidx) as H0. cbv zeta in H0.
  destruct H0 as (_ & _ & Hr0 & Hf0 & Hfr0).
  pose proof (clearFile_exact st' uri Hidx') as H1. cbv zeta in H1.
  destruct H1 as (_ & _ & Hr1 & Hf1 & Hfr1).
  split; [|split; [|split; [|split]]].
  - intros n. rewrite !clearFile_global_default by done.
    destruct (Hg n) as (new & -> & Hnew).
    by rewrite other_files_app, Hnew, app_nil_r.
  - intros sc n. rewrite !clearFile_scoped_default by done.
    destruct (Hs sc n) as (new & -> & Hnew).
    by rewrite other_files_app, Hnew, app_nil_r.
  - rewrite Hr0, Hr1. destruct Hr as (new & -> & Hnew).
    by rewrite List.filter_app, Hnew, app_nil_r.
  - intros uri'. rewrite Hf0, Hf1. destruct (decide (uri' = uri)) as [->|Hne].
    + by rewrite !lookup_delete_eq.
    + rewrite !lookup_delete_ne by done. by rewrite Hf.
  - intros uri'. rewrite Hfr0, Hfr1. destruct (decide (uri' = uri)) as [->|Hne].
    + by rewrite !lookup_delete_eq.
    + rewrite !lookup_delete_ne by done. by rewrite Hfr.
Qed.

Lemma clearFile_after_entries st uri entries :
  reachable st -> Forall (fun e => entry_uri e = uri) entries ->
  same_answers (clearFile (foldl add_entry st entries) uri) (clearFile st uri).
Proof.
  intros Hreach Hall. apply clearFile_grown.
  - by apply reachable_indexed.
  - by apply reachable_indexed, reachable_entries.
  - by apply grown_entries.
Qed.

End SymbolTableLookups.

Section SymbolTableLookupExamples.
Import SymbolTable Examples.

Lemma findDefinition_finds_filed_symbols_witness :
  reachable two_files /\
  (forall uri s,
     In s (getAllSymbolsInFile two_files uri) -> truthy_scope s = None ->
     exists d, findDefinition two_files (sym_name s) None = Some d /\
               truthy_scope d = None /\
               (is_forward d = true -> is_forward s = true)).
Proof.
  split; [exact two_files_reachable|].
  exact (proj1 (proj2
    (findDefinition_finds_filed_symbols two_files two_files_reachable))).
Defined.

Lemma clearFile_findDefinition_witness :
  reachable two_files /\
  (forall name scope s,
     findDefinition (clearFile two_files uriA) name scope = Some s ->
     sym_uri s <> uriA).
Proof.
  split; [exact two_files_reachable|].
  exact (proj1 (clearFile_findDefinition two_files uriA two_files_reachable)).
Defined.

(** The lookups of the table of two files, before and after the first
    file is cleared. *)
Lemma two_files_lookups :
  findDefinition two_files "Foo" None = Some (makeSymbol "Foo" uriA) /\
  findDefinition (clearFile two_files uriA) "Foo" None
    = Some (makeSymbol "Foo" uriB) /\
  findDefinition two_files "F" (Some "class:Foo")
    = Some (scopedSymbol "F" uriA "class:Foo") /\
  findDefinition two_files "F" None = None /\
  getSymbolAtPosition two_files uriA 1 2 = Some ("Foo", None) /\
  getSymbolAtPosition two_files uriA 0 3 = Some ("Foo", None) /\
  getSymbolAtPosition two_files uriA 0 4 = None.
Proof. vm_compute. repeat split. Qed.

End SymbolTableLookupExamples.
(* ===================================================================== *)
(** * Induction on expressions *)
(* ===================================================================== *)

Section ExpressionInduction.

Variable P : Expression -> Prop.

Hypothesis H_identifier : forall id, P (EIdentifier id).
Hypothesis H_number : forall text range, P (ENumberLiteral text range).
Hypothesis H_string : forall value range, P (EStringLiteral value range).
Hypothesis H_code : forall value range, P (ECodeLiteral value range).
Hypothesis H_list :
  forall elements range, Forall P elements -> P (EListExpr elements range).
Hypothesis H_dag :
  forall operator args range,
    P operator -> Forall (fun arg => P arg.1.1) args ->
    P (EDagExpr operator args range).
Hypothesis H_bang :
  forall operator typeArgText args range,
    Forall P args -> P (EBangOperator operator typeArgText args range).
Hypothesis H_binary :
  forall operator lhs rhs range,
    P lhs -> P rhs -> P (EBinaryExpr operator lhs rhs range).
Hypothesis H_ternary :
  forall c t e range, P c -> P t -> P e -> P (ETernaryExpr c t e range).
Hypothesis H_field :
  forall object field range, P object -> P (EFieldAccess object field range).
Hypothesis H_classRef :
  forall name args range, Forall P args -> P (EClassRef name args range).

(** Induction on an expression, with the hypothesis for every expression
    of its lists. *)
Fixpoint Expression_nested_ind (expr : Expression) : P expr :=
  let all := fix all (es : list Expression) : Forall P es :=
    match es with
    | [] => @List.Forall_nil _ P
    | e :: rest => @List.Forall_cons _ P e rest (Expression_nested_ind e) (all rest)
    end in
  match expr with
  | EIdentifier id => H_identifier id
  | ENumberLiteral text range => H_number text range
  | EStringLiteral value range => H_string value range
  | ECodeLiteral value range => H_code value range
  | EListExpr elements range => H_list elements range (all elements)
  | EDagExpr operator args range =>
      H_dag operator args range (Expression_nested_ind operator)
        ((fix all_args (l : list (Expression * option Identifier * Range))
            : Forall (fun arg => P arg.1.1) l :=
            match l with
            | [] => @List.Forall_nil _ (fun arg => P arg.1.1)
            | (value, name, r) :: rest =>
                @List.Forall_cons _ (fun arg => P arg.1.1) (value, name, r) rest
                  (Expression_nested_ind value) (all_args rest)
            end) args)
  | EBangOperator operator typeArgText args range =>
      H_bang operator typeArgText args range (all args)
  | EBinaryExpr operator lhs rhs range =>
      H_binary operator lhs rhs range (Expression_nested_ind lhs)
        (Expression_nested_ind rhs)
  | ETernaryExpr c t e range =>
      H_ternary c t e range (Expression_nested_ind c) (Expression_nested_ind t)
        (Expression_nested_ind e)
  | EFieldAccess object field range =>
      H_field object field range (Expression_nested_ind object)
  | EClassRef name args range => H_classRef name args range (all args)
  end.

End ExpressionInduction.

(* ===================================================================== *)
(** * symbols.ts: what the collector adds for a file *)
(* ===================================================================== *)

Section SymbolCollectorFacts.
Import SymbolCollector.

Variable uri : string.

(** From [st] to [st'] the table has grown by additions located in
    [uri], and [currentScope] is as it was. *)
Definition collected (st st' : state) : Prop :=
  (exists entries,
     table st' = foldl add_entry (table st) entries /\
     Forall (fun e => entry_uri e = uri) entries) /\
  currentScope st' = currentScope st.

Lemma collected_refl st : collected st st.
Proof. split; [|done]. by exists []. Qed.

Lemma collected_trans st1 st2 st3 :
  collected st1 st2 -> collected st2 st3 -> collected st1 st3.
Proof.
  intros [(e1 & H1 & Hall1) Hs1] [(e2 & H2 & Hall2) Hs2].
  split; [|congruence]. exists (e1 ++ e2). split.
  - by rewrite foldl_app, <- H1.
  - by apply Forall_app.
Qed.

Lemma collected_addSymbol kind id scope forward st :
  collected st (addSymbol (symbol_of uri kind id scope forward) st).
Proof.
  split; [|done].
  exists [entry_symbol (symbol_of uri kind id scope forward)].
  split; [done|]. by repeat constructor.
Qed.

Lemma collected_reference_to id st : collected st (reference_to uri id st).
Proof.
  split; [|done]. eexists [entry_reference _]. split; [done|].
  by repeat constructor.
Qed.

Lemma collected_for_all {A} (body : A -> state -> state) xs :
  Forall (fun x => forall st, collected st (body x st)) xs ->
  forall st, collected st (for_all body xs st).
Proof.
  intros Hall. induction Hall as [|x xs Hx _ IH]; intros st.
  - apply collected_refl.
  - unfold for_all. simpl. eapply collected_trans; [apply Hx|]. apply IH.
Qed.

Lemma collected_for_all_always {A} (body : A -> state -> state) xs :
  (forall x st, collected st (body x st)) ->
  forall st, collected st (for_all body xs st).
Proof.
  intros Hbody. apply collected_for_all. apply Forall_forall. auto.
Qed.

Lemma collected_collectExpression expr :
  forall st, collected st (collectExpression uri expr st).
Proof.
  induction expr using Expression_nested_ind; intros st; simpl;
    try apply collected_refl.
  - apply collected_reference_to.
  - by apply collected_for_all.
  - eapply collected_trans; [apply IHexpr|].
    apply collected_for_all. eapply Forall_impl; [exact H|].
    by intros [[value name] r].
  - by apply collected_for_all.
  - eapply collected_trans; [apply IHexpr1|]. apply IHexpr2.
  - eapply collected_trans; [apply IHexpr1|].
    eapply collected_trans; [apply IHexpr2|]. apply IHexpr3.
  - apply IHexpr.
  - eapply collected_trans; [apply collected_reference_to|].
    by apply collected_for_all.
Qed.

Lemma collected_collectClassRef ref st :
  collected st (collectClassRef uri ref st).
Proof.
  unfold collectClassRef.
  eapply collected_trans; [apply collected_reference_to|].
  apply collected_for_all_always. intros. apply collected_collectExpression.
Qed.

(** Inside a declaration the scope is another one; the table grows the
    same way, and the scope is put back at the end. *)
Lemma collected_scoped previous scope st mid st' :
  collected st mid ->
  currentScope mid = previous ->
  collected (set_scope scope mid) st' ->
  collected st (set_scope previous st').
Proof.
  intros [(e1 & H1 & Hall1) Hs1] Hprev [(e2 & H2 & Hall2) _].
  split; [|simpl; congruence].
  exists (e1 ++ e2). split.
  - simpl. rewrite H2. simpl. by rewrite foldl_app, <- H1.
  - by apply Forall_app.
Qed.

Lemma collected_restored st mid st' :
  collected st mid -> collected st st' ->
  collected st (set_scope (currentScope mid) st').
Proof.
  intros [_ Hmid] [Hentries Hs]. split; [done|]. simpl. congruence.
Qed.

Ltac collected_step :=
  lazymatch goal with
  | |- collected ?st ?st => apply collected_refl
  | |- collected _ (addSymbol _ ?mid) =>
      apply (collected_trans _ mid); [|apply collected_addSymbol]
  | |- collected _ (reference_to _ _ ?mid) =>
      apply (collected_trans _ mid); [|apply collected_reference_to]
  | |- collected _ (collectExpression _ _ ?mid) =>
      apply (collected_trans _ mid); [|apply collected_collectExpression]
  | |- collected _ (for_all _ _ ?mid) =>
      apply (collected_trans _ mid);
      [|first
          [ by apply collected_for_all
          | apply collected_for_all_always; intros;
            first [ apply collected_addSymbol
                  | apply collected_collectClassRef ] ]]
  | |- collected ?from (set_scope _ _) =>
      tryif has_evar from then apply collected_refl
      else (eapply collected_scoped; [ | | repeat collected_step]; [|done])
  end.

Lemma collected_collectLetBinding binding st :
  collected st (collectLetBinding uri binding st).
Proof. unfold collectLetBinding. repeat collected_step. Qed.

#[local] Arguments for_all : simpl never.

Lemma collected_collectStatement stmt :
  forall st, collected st (collectStatement uri stmt st).
Proof.
  induction stmt using Statement_nested_ind; intros st;
    try apply collected_refl.
  - (* class *)
    destruct s as [name targs parents body fwd range]. simpl in *.
    repeat collected_step.
  - (* def *)
    destruct s as [[name|] parents body range]; simpl in *;
      repeat collected_step.
  - (* multiclass *)
    destruct s as [name targs parents body range]. simpl in *.
    repeat collected_step.
  - (* defm *)
    simpl. unfold collectDefm. collected_step.
    destruct (dm_name s); repeat collected_step.
  - (* defset *)
    destruct s as [vt name body range]. simpl in *. repeat collected_step.
  - (* defvar *)
    simpl. unfold collectDefvar. repeat collected_step.
  - (* field *)
    simpl. unfold collectField.
    destruct (fd_value s); repeat collected_step.
  - (* let *)
    destruct s as [bindings body range]. simpl in *.
    assert (collected st (for_all (collectLetBinding uri) bindings st)) as Hlet.
    { apply collected_for_all_always. intros.
      apply collected_collectLetBinding. }
    apply collected_restored; [done|]. by repeat collected_step.
  - (* foreach *)
    destruct s as [variable iterRange body range]. simpl in *.
    apply (collected_restored st st); [apply collected_refl|].
    repeat collected_step.
Qed.

End SymbolCollectorFacts.

Section SymbolCollectorTheorems.
Import SymbolTable SymbolCollector.

(** X5. Whatever a collector adds to a table reached through the public
    methods is attributed to the collector's file: the lists of the other
    files stay as they are, the table stays one that the public methods
    reach, and [clearFile] of that file afterwards answers every query as
    [clearFile] without the collection does.  Each statement is collected
    with [currentScope] put back to what it was. *)
Theorem collect_attributed_to_file
    (uri : string) (file : ParsedFile) (tbl : SymbolTable.t) :
  reachable tbl ->
  reachable (collect uri file tbl) /\
  (forall other, other <> uri ->
     getAllSymbolsInFile (collect uri file tbl) other
     = getAllSymbolsInFile tbl other) /\
  (forall name scope,
     findDefinition (clearFile (collect uri file tbl) uri) name scope
     = findDefinition (clearFile tbl uri) name scope) /\
  (forall name,
     findReferences (clearFile (collect uri file tbl) uri) name
     = findReferences (clearFile tbl uri) name) /\
  (forall u, getAllSymbolsInFile (clearFile (collect uri file tbl) uri) u
             = getAllSymbolsInFile (clearFile tbl uri) u) /\
  (forall u l c, getSymbolAtPosition (clearFile (collect uri file tbl) uri) u l c
                 = getSymbolAtPosition (clearFile tbl uri) u l c) /\
  (forall stmt st, currentScope (collectStatement uri stmt st) = currentScope st).
Proof.
  intros Hreach.
  destruct (collected_for_all uri (collectStatement uri) (pf_statements file)
              ltac:(apply Forall_forall; intros; apply collected_collectStatement)
              {| table := tbl; currentScope := None |})
    as [(entries & Htable & Hall) _].
  simpl in Htable. unfold collect. rewrite Htable.
  pose proof (clearFile_after_entries tbl uri entries Hreach Hall) as Hsame.
  destruct (same_answers_queries _ _ Hsame) as (Hd & Hr & Hf & Hp).
  split; [by apply reachable_entries|].
  split.
  { intros other Hne. unfold getAllSymbolsInFile.
    destruct (grown_entries uri entries tbl Hall) as (_ & _ & _ & Hfs & _).
    by rewrite Hfs. }
  do 4 (split; [done|]).
  intros stmt st. by destruct (collected_collectStatement uri stmt st).
Qed.

End SymbolCollectorTheorems.

Section SymbolCollectorExamples.
Import SymbolTable SymbolCollector Examples.

Lemma collect_attributed_to_file_witness :
  reachable two_files /\
  reachable
    (collect uriA (mkParsedFile uriA inherited_statements [] []) two_files).
Proof.
  split; [exact two_files_reachable|].
  exact (proj1 (collect_attributed_to_file uriA
                  (mkParsedFile uriA inherited_statements [] [])
                  two_files two_files_reachable)).
Defined.

Definition collectSymbols (text : string) : SymbolTable.t :=
  match parseTableGen text "file:///symbols_test.td" with
  | Some (Parser.Ok parsed _) =>
      collect "file:///symbols_test.td" parsed SymbolTable.empty
  | _ => SymbolTable.empty
  end.

(** Global and scoped symbols of a class and a def, as the collector
    files them from parsed text. *)
Lemma collect_class_and_def_scopes :
  let tbl :=
    collectSymbols "class Base; class C<int N> : Base { int F = N; defvar V = N; } def R : C<N>;" in
  sym_kind <$> findDefinition tbl "C" None = Some SKclass /\
  sym_kind <$> findDefinition tbl "R" None = Some SKdef /\
  sym_kind <$> findDefinition tbl "N" (Some "class:C") = Some SKtemplateArg /\
  sym_kind <$> findDefinition tbl "F" (Some "class:C") = Some SKfield /\
  sym_kind <$> findDefinition tbl "V" (Some "class:C") = Some SKdefvar /\
  length (findReferences tbl "Base") = 1 /\
  length (findReferences tbl "N") = 3.
Proof. vm_compute. repeat split. Qed.

(** A field access gives a reference to the object, none to the field. *)
Lemma collect_field_access :
  let tbl := collectSymbols "defvar P = Obj.Field;" in
  length (findReferences tbl "Obj") = 1 /\
  length (findReferences tbl "Field") = 0.
Proof. vm_compute. repeat split. Qed.

(** The symbols of a [let] and a [foreach] have the scope of their
    position. *)
Lemma collect_let_and_foreach :
  let tbl :=
    collectSymbols "let X = 1 in { defvar A = X; } foreach I = [1, 2] in { defvar B = I; }" in
  (fun s => (sym_kind s, sym_scope s)) <$> findDefinition tbl "X" (Some "let:0:0")
  = Some (SKletBinding, Some "let:0:0") /\
  (fun s => (sym_kind s, sym_scope s))
    <$> findDefinition tbl "I" (Some "foreach:0:39")
  = Some (SKforeachVar, Some "foreach:0:39") /\
  findDefinition tbl "X" None = None.
Proof. vm_compute. repeat split. Qed.

End SymbolCollectorExamples.
(* ===================================================================== *)
(** * server.ts and symbols.ts: the scope at a position finds the fields
      of the class *)
(* ===================================================================== *)

Section ScopeAtPosition.
Import SymbolTable SymbolCollector ServerScopes.

Lemma first_found_skips {A B} (one : A -> option B) before x after r :
  Forall (fun y => one y = None) before -> one x = Some r ->
  ResolutionHelpers.first_found one (before ++ x :: after) = Some r.
Proof.
  induction 1 as [|y before Hy _ IH]; intros Hx; simpl.
  - by rewrite Hx.
  - rewrite Hy. by apply IH.
Qed.

Lemma first_found_none {A B} (one : A -> option B) xs :
  Forall (fun y => one y = None) xs ->
  ResolutionHelpers.first_found one xs = None.
Proof. induction 1 as [|y xs Hy _ IH]; simpl; [done|]. by rewrite Hy. Qed.

Lemma findScopeInStatement_outside l c stmt :
  isPositionInRange l c (range_of_statement stmt) = false ->
  findScopeInStatement l c stmt = None.
Proof.
  intros Hout. destruct stmt as [s|s|s|s|s|s|s|s|s|s|s|s];
    try destruct s; simpl in *; by rewrite Hout.
Qed.

(** No [let] of the body holds the position. *)
Definition outside_lets (l c : nat) (body : list Statement) : Prop :=
  Forall (fun stmt =>
            match stmt with
            | SLetStatement ls => isPositionInRange l c (ls_range ls) = false
            | _ => True
            end) body.

Lemma findScopeInStatement_class l c (classDef : ClassDef) :
  isPositionInRange l c (cd_range classDef) = true ->
  outside_lets l c (cd_body classDef) ->
  findScopeInStatement l c (SClassDef classDef)
  = Some ("class:" +:+ id_name (cd_name classDef)).
Proof.
  intros Hin Hlets. destruct classDef as [name targs parents body fwd range].
  simpl in *. rewrite Hin. simpl.
  rewrite first_found_none; [done|].
  eapply Forall_impl; [exact Hlets|]. intros stmt Hstmt. cbv beta.
  destruct stmt; try done. by rewrite Hstmt.
Qed.

(** ** The collector files a field under the scope of its class *)

Local Abbreviation scoped tbl sc n :=
  (default [] (scoped_lookup (scopedSymbols tbl) sc n)).

Lemma collected_grown uri st st' :
  collected uri st st' -> grown uri (table st) (table st').
Proof. intros [(entries & -> & Hall) _]. by apply grown_entries. Qed.

Lemma collected_reachable uri st st' :
  collected uri st st' -> reachable (table st) -> reachable (table st').
Proof. intros [(entries & -> & Hall) _]. by apply reachable_entries. Qed.

Lemma grown_scoped_In uri tbl tbl' sc n s :
  grown uri tbl tbl' -> In s (scoped tbl sc n) -> In s (scoped tbl' sc n).
Proof.
  intros (_ & Hs & _) Hin. destruct (Hs sc n) as (new & -> & _).
  apply in_or_app. by left.
Qed.

Lemma addSymbol_scoped_In tbl s sc :
  sym_name s <> "" -> sym_scope s = Some sc -> sc <> "" ->
  In s (scoped (SymbolTable.addSymbol tbl s) sc (sym_name s)).
Proof.
  intros Hname Hscope Hsc. unfold SymbolTable.addSymbol.
  rewrite decide_False by done. unfold truthy_scope. rewrite Hscope.
  rewrite decide_False by done. unfold scoped_lookup. simpl.
  rewrite lookup_insert_eq. simpl. rewrite lookup_insert_eq. simpl.
  apply in_or_app. right. by left.
Qed.

Lemma for_all_app {A} (body : A -> state -> state) xs ys st :
  for_all body (xs ++ ys) st = for_all body ys (for_all body xs st).
Proof. unfold for_all. apply foldl_app. Qed.

Lemma collected_statements uri statements st :
  collected uri st (for_all (collectStatement uri) statements st).
Proof.
  apply collected_for_all. apply Forall_forall. intros stmt _.
  apply collected_collectStatement.
Qed.

(** A field declared directly in a body that is collected under the
    scope [sc] is filed under [sc]. *)
Lemma collect_body_field uri body (fieldDef : FieldDef) sc st :
  In (SFieldDef fieldDef) body ->
  id_name (fd_name fieldDef) <> "" -> sc <> "" ->
  currentScope st = Some sc ->
  In (symbol_of uri SKfield (fd_name fieldDef) (Some sc) None)
     (scoped (table (for_all (collectStatement uri) body st)) sc
        (id_name (fd_name fieldDef))).
Proof.
  intros Hin Hname Hsc Hscope.
  apply in_split in Hin as (pre & post & ->).
  rewrite for_all_app.
  pose proof (collected_statements uri pre st) as Hpre.
  set (st1 := for_all (collectStatement uri) pre st) in *.
  assert (currentScope st1 = Some sc) as Hscope1.
  { destruct Hpre as [_ ->]. done. }
  change (for_all (collectStatement uri) (SFieldDef fieldDef :: post) st1)
    with (for_all (collectStatement uri) post
            (collectStatement uri (SFieldDef fieldDef) st1)).
  eapply grown_scoped_In.
  { apply collected_grown, collected_statements. }
  simpl. unfold collectField. rewrite Hscope1.
  set (s := symbol_of uri SKfield (fd_name fieldDef) (Some sc) None).
  assert (In s (scoped (table (addSymbol s st1)) sc (id_name (fd_name fieldDef))))
    as Hadded.
  { apply (addSymbol_scoped_In (table st1) s sc); done. }
  destruct (fd_value fieldDef) as [value|]; [|done].
  eapply grown_scoped_In; [|exact Hadded].
  apply collected_grown, collected_collectExpression.
Qed.

Lemma collect_class_field uri (classDef : ClassDef) (fieldDef : FieldDef) st :
  In (SFieldDef fieldDef) (cd_body classDef) ->
  id_name (fd_name fieldDef) <> "" ->
  In (symbol_of uri SKfield (fd_name fieldDef)
        (Some ("class:" +:+ id_name (cd_name classDef))) None)
     (scoped (table (collectStatement uri (SClassDef classDef) st))
        ("class:" +:+ id_name (cd_name classDef))
        (id_name (fd_name fieldDef))).
Proof.
  intros Hin Hname. destruct classDef as [name targs parents body fwd range].
  simpl in *.
  match goal with
  | |- In _ (scoped (table (for_all _ body ?st0)) _ _) =>
      apply (collect_body_field uri body fieldDef _ st0); try done
  end.
  set (st0 := set_scope (Some ("class:" +:+ id_name name))
                (addSymbol (symbol_of uri SKclass name None (Some fwd)) st)).
  assert (collected uri st0
            (for_all (collectClassRef uri) parents
               (for_all (collectTemplateArg uri) targs st0))) as [_ ->].
  { eapply collected_trans.
    - apply collected_for_all_always. intros. apply collected_addSymbol.
    - apply collected_for_all_always. intros. apply collected_collectClassRef. }
  done.
Qed.

(** X20. For a class among the top-level statements of a file, at a
    position that the class holds, that no earlier statement holds and
    that no [let] of the class body holds: [findScopeAtPosition] gives
    the scope of the class, and in the table that the symbol collector
    fills from the file, [findDefinition] under that scope finds, for
    every field declared directly in the class body whose name is not
    the empty string, a symbol of the name of the field, filed under the
    scope of the class in this file.  The name is empty when the parser
    met no identifier where the name of the field stands, as in a text
    that ends inside a field; [addSymbol] files no symbol without a
    name, so such a field has no symbol to find. *)
Theorem findScopeAtPosition_finds_class_fields
    (uri : string) (file : ParsedFile) (before after : list Statement)
    (classDef : ClassDef) (fieldDef : FieldDef) (l c : nat) :
  pf_statements file = before ++ SClassDef classDef :: after ->
  Forall (fun stmt => isPositionInRange l c (range_of_statement stmt) = false)
         before ->
  isPositionInRange l c (cd_range classDef) = true ->
  outside_lets l c (cd_body classDef) ->
  In (SFieldDef fieldDef) (cd_body classDef) ->
  id_name (fd_name fieldDef) <> "" ->
  findScopeAtPosition file l c
  = Some ("class:" +:+ id_name (cd_name classDef)) /\
  exists found,
    findDefinition (collect uri file SymbolTable.empty)
      (id_name (fd_name fieldDef)) (findScopeAtPosition file l c)
    = Some found /\
    sym_name found = id_name (fd_name fieldDef) /\
    sym_scope found = Some ("class:" +:+ id_name (cd_name classDef)) /\
    sym_uri found = uri.
Proof.
  intros Hfile Hbefore Hclass Hlets Hfield Hname.
  set (sc := "class:" +:+ id_name (cd_name classDef)).
  assert (findScopeAtPosition file l c = Some sc) as Hscope.
  { unfold findScopeAtPosition. rewrite Hfile. apply first_found_skips.
    - eapply Forall_impl; [exact Hbefore|]. intros stmt Hstmt.
      by apply findScopeInStatement_outside.
    - by apply findScopeInStatement_class. }
  split; [done|]. rewrite Hscope.
  set (init := {| table := SymbolTable.empty; currentScope := None |}).
  set (tbl := collect uri file SymbolTable.empty).
  pose proof (collected_statements uri (pf_statements file) init) as Hcollected.
  assert (reachable tbl) as Hreach.
  { apply (collected_reachable uri init _ Hcollected). constructor. }
  assert (In (symbol_of uri SKfield (fd_name fieldDef) (Some sc) None)
             (scoped tbl sc (id_name (fd_name fieldDef)))) as Hin.
  { unfold tbl, collect. rewrite Hfile, for_all_app.
    change (for_all (collectStatement uri) (SClassDef classDef :: after) ?st)
      with (for_all (collectStatement uri) after
              (collectStatement uri (SClassDef classDef) st)).
    eapply grown_scoped_In.
    { apply collected_grown, collected_statements. }
    by apply collect_class_field. }
  assert (sc <> "") as Hsc by done.
  rewrite findDefinition_consulted. unfold consulted.
  rewrite decide_False by done.
  destruct (scoped tbl sc (id_name (fd_name fieldDef))) as [|x rest] eqn:Hlist;
    [done|].
  destruct (prefer_definition_is_Some (x :: rest) x ltac:(by left))
    as [found Hfound].
  exists found. split; [done|].
  apply prefer_definition_In in Hfound. rewrite <- Hlist in Hfound.
  destruct (scoped_entry_filed tbl sc _ found
              (reachable_filed_exactly tbl Hreach) Hfound) as [Hfiled Hlisted].
  apply bool_decide_eq_true in Hfiled as [Htruthy Hfname].
  split; [done|]. split.
  - unfold truthy_scope in Htruthy. destruct (sym_scope found) as [sc'|]; [|done].
    destruct (decide (sc' = "")); [done|]. done.
  - destruct (decide (sym_uri found = uri)) as [|Hother]; [done|]. exfalso.
    destruct (collected_grown uri init _ Hcollected) as (_ & _ & _ & Hfs & _).
    unfold getAllSymbolsInFile in Hlisted.
    change (table (for_all (collectStatement uri) (pf_statements file) init))
      with tbl in Hfs.
    rewrite (Hfs _ Hother) in Hlisted.
    simpl in Hlisted. by rewrite lookup_empty in Hlisted.
Qed.

End ScopeAtPosition.

Section ScopeAtPositionExamples.
Import SymbolTable SymbolCollector ServerScopes Examples.

Definition parsed_file (text : string) : ParsedFile :=
  mkParsedFile uri_composite (statements_of text) [] [].

Definition scoped_text : string := "def D; class C { int F; }".

Definition scoped_statements : list Statement :=
  Eval vm_compute in statements_of scoped_text.

Definition scoped_file : ParsedFile :=
  mkParsedFile uri_composite scoped_statements [] [].

Definition scoped_class : ClassDef :=
  Eval vm_compute in class_at 1 scoped_statements.

Definition field_of (stmt : Statement) : option FieldDef :=
  match stmt with SFieldDef f => Some f | _ => None end.

Definition no_field : FieldDef :=
  mkFieldDef "" no_identifier None (range_at 0 0 0).

Definition scoped_field : FieldDef :=
  Eval vm_compute in default no_field (head (cd_body scoped_class) ≫= field_of).

Lemma scoped_statements_parsed :
  statements_of scoped_text = scoped_statements /\
  id_name (cd_name scoped_class) = "C" /\ id_name (fd_name scoped_field) = "F".
Proof. vm_compute. done. Qed.

Lemma findScopeAtPosition_finds_class_fields_witness :
  findScopeAtPosition scoped_file 0 20
  = Some ("class:" +:+ id_name (cd_name scoped_class)) /\
  exists found,
    findDefinition (collect uri_composite scoped_file SymbolTable.empty)
      (id_name (fd_name scoped_field)) (findScopeAtPosition scoped_file 0 20)
    = Some found /\
    sym_name found = id_name (fd_name scoped_field) /\
    sym_scope found = Some ("class:" +:+ id_name (cd_name scoped_class)) /\
    sym_uri found = uri_composite.
Proof.
  apply (findScopeAtPosition_finds_class_fields uri_composite
           scoped_file (take 1 scoped_statements) [] scoped_class scoped_field
           0 20).
  - reflexivity.
  - repeat constructor.
  - reflexivity.
  - repeat constructor.
  - left. reflexivity.
  - discriminate.
Defined.

(** The scopes of a position in a def, in a multiclass, in a [let]
    around a def, and in a [defset], whose body is not looked into. *)
Lemma findScopeAtPosition_kinds :
  findScopeAtPosition (parsed_file "def D : B { int F; }") 0 14 = Some "def:D" /\
  findScopeAtPosition (parsed_file "multiclass M { def X; }") 0 12
  = Some "multiclass:M" /\
  findScopeAtPosition (parsed_file "multiclass M { def X; }") 0 17 = Some "def:X" /\
  findScopeAtPosition (parsed_file "let A = 1 in { def D : B; }") 0 5
  = Some "class:B" /\
  findScopeAtPosition (parsed_file "defset list<B> S = { def D : B; }") 0 24
  = None.
Proof. vm_compute. repeat split. Qed.

End ScopeAtPositionExamples.
(* ===================================================================== *)
(** * resolutionHelpers.ts: defvar lookup, cast types, symbol groups *)
(* ===================================================================== *)

Section ResolutionHelperFacts.
Import ResolutionHelpers.

(** ** [findDefvarInStatements] *)

(** The [defvar]s of a statement in document order: itself, or those of
    its body, or those of both branches of an [if]. *)
Fixpoint defvars_of (stmt : Statement) : list DefvarDef :=
  match stmt with
  | SDefvarDef s => [s]
  | SClassDef s => flat_map defvars_of (cd_body s)
  | SRecordDef s => flat_map defvars_of (rd_body s)
  | SMultiClassDef s => flat_map defvars_of (mc_body s)
  | SDefsetDef s => flat_map defvars_of (ds_body s)
  | SLetStatement s => flat_map defvars_of (ls_body s)
  | SForeachStatement s => flat_map defvars_of (fe_body s)
  | SIfStatement s =>
      flat_map defvars_of (if_thenBody s) ++ flat_map defvars_of (if_elseBody s)
  | _ => []
  end.

Definition is_target (defvarName : string) (targetRange : option Range)
    (d : DefvarDef) : bool :=
  String.eqb (id_name (dv_name d)) defvarName &&
  match targetRange with
  | None => true
  | Some range => isSameRange (id_range (dv_name d)) range
  end.

Lemma isSameRange_eq a b : isSameRange a b = true <-> a = b.
Proof.
  unfold isSameRange. rewrite !andb_true_iff, !Nat.eqb_eq.
  destruct a as [[l1 c1] [l2 c2]], b as [[l1' c1'] [l2' c2']]. simpl.
  split; [intros [[[-> ->] ->] ->]; done|]. by intros [= -> -> -> ->].
Qed.

Lemma find_app_first {A} (p : A -> bool) l1 l2 :
  List.find p (l1 ++ l2)
  = match List.find p l1 with Some x => Some x | None => List.find p l2 end.
Proof.
  induction l1 as [|x l1 IH]; simpl; [done|]. by destruct (p x).
Qed.

Lemma first_found_flat_map {A B} (one : A -> option B) (p : B -> bool)
    (f : A -> list B) xs :
  Forall (fun x => one x = List.find p (f x)) xs ->
  first_found one xs = List.find p (flat_map f xs).
Proof.
  induction 1 as [|x xs Hx _ IH]; simpl; [done|].
  rewrite find_app_first, <- Hx, IH. done.
Qed.

Lemma findDefvarInStatement_first name range stmt :
  findDefvarInStatement name range stmt
  = List.find (is_target name range) (defvars_of stmt).
Proof.
  induction stmt as [s IH|s IH|s IH|s|s IH|s|s|s IH|s IH|s IHt IHe|s|s]
    using Statement_nested_ind; try done.
  - destruct s; simpl in *. by apply first_found_flat_map.
  - destruct s; simpl in *. by apply first_found_flat_map.
  - destruct s; simpl in *. by apply first_found_flat_map.
  - destruct s; simpl in *. by apply first_found_flat_map.
  - simpl. unfold is_target.
    destruct (String.eqb _ _); simpl; [|done].
    destruct range as [r|]; [|done]. by destruct (isSameRange _ _).
  - destruct s; simpl in *. by apply first_found_flat_map.
  - destruct s; simpl in *. by apply first_found_flat_map.
  - destruct s; simpl in *. rewrite find_app_first.
    rewrite <- (first_found_flat_map _ _ _ _ IHt).
    rewrite <- (first_found_flat_map _ _ _ _ IHe).
    by destruct (first_found _ _).
Qed.

(** X11. [findDefvarInStatements] returns the first [defvar] in document
    order that has the name asked and, when a range is given, whose name
    is at exactly that range; it looks into the bodies of classes, defs,
    multiclasses, defsets, lets and foreachs and into both branches of
    an [if], and returns nothing exactly when no such [defvar] is
    there. *)
Theorem findDefvarInStatements_first_in_document_order
    (statements : list Statement) (defvarName : string)
    (targetRange : option Range) :
  let wanted d :=
    id_name (dv_name d) = defvarName /\
    forall range, targetRange = Some range -> id_range (dv_name d) = range in
  match findDefvarInStatements statements defvarName targetRange with
  | Some found =>
      first_such wanted (flat_map defvars_of statements) found
  | None => Forall (fun d => ~ wanted d) (flat_map defvars_of statements)
  end.
Proof.
  intros wanted. unfold findDefvarInStatements.
  rewrite (first_found_flat_map _ (is_target defvarName targetRange) defvars_of).
  2: { apply Forall_forall. intros stmt _. apply findDefvarInStatement_first. }
  assert (forall d, is_target defvarName targetRange d = true <-> wanted d)
    as Htarget.
  { intros d. unfold is_target, wanted.
    rewrite andb_true_iff, String.eqb_eq.
    destruct targetRange as [r|].
    - rewrite isSameRange_eq. split; [|naive_solver].
      intros [? ->]. split; [done|]. by intros ? [= ->].
    - naive_solver. }
  pose proof (find_first_such (is_target defvarName targetRange) wanted
                (flat_map defvars_of statements) Htarget) as Hfind.
  by destruct (List.find _ _).
Qed.

(** ** The groups of [computeCompositeDefmSymbols] *)

(** The names of the named [defm]s that the walk reaches, in document
    order: at top level and inside defsets, foreachs, lets and both
    branches of an [if]. *)
Fixpoint named_defms_of (stmt : Statement) : list Identifier :=
  match stmt with
  | SDefmDef s => match dm_name s with Some name => [name] | None => [] end
  | SDefsetDef s => flat_map named_defms_of (ds_body s)
  | SForeachStatement s => flat_map named_defms_of (fe_body s)
  | SLetStatement s => flat_map named_defms_of (ls_body s)
  | SIfStatement s =>
      flat_map named_defms_of (if_thenBody s)
      ++ flat_map named_defms_of (if_elseBody s)
  | _ => []
  end.

Definition in_order (x y : string) : Prop := String.leb x y = true.

Definition starts_with (prefix s : string) : Prop :=
  exists suffix, s = prefix +:+ suffix.

(** What the symbols of one [defm] have in common: the name starts with
    the name of the [defm]; the symbol is a [def] of the file [uri],
    located at the name of the [defm], with no scope and no mark of a
    forward declaration. *)
Definition composite_of (uri : string) (d : Identifier) (s : Symbol) : Prop :=
  starts_with (id_name d) (sym_name s) /\
  sym_kind s = SKdef /\
  sym_location s = {| loc_uri := uri; loc_range := id_range d |} /\
  sym_scope s = None /\ sym_isForwardDeclaration s = None.

(** One group of symbols per [defm], in the order of the [defm]s: the
    names of the symbols of a group are different and in ascending
    order, and each symbol is a composite symbol of the [defm]. *)
Inductive grouped (uri : string) : list Identifier -> list Symbol -> Prop :=
| grouped_nil : grouped uri [] []
| grouped_cons d ds group rest :
    NoDup (map sym_name group) -> Sorted in_order (map sym_name group) ->
    Forall (composite_of uri d) group ->
    grouped uri ds rest ->
    grouped uri (d :: ds) (group ++ rest).

Lemma composite_symbol_names uri range names :
  map sym_name (map (composite_symbol uri range) names) = names.
Proof. induction names as [|x names IH]; simpl; [done|]. by rewrite IH. Qed.

Lemma grouped_app uri ds1 ds2 out1 out2 :
  grouped uri ds1 out1 -> grouped uri ds2 out2 ->
  grouped uri (ds1 ++ ds2) (out1 ++ out2).
Proof.
  induction 1 as [|d ds group rest Hnd Hs Hp _ IH]; intros H2; [done|].
  simpl. rewrite <- app_assoc. constructor; auto.
Qed.

Lemma set_add_elem x s y : y ∈ set_add x s <-> y ∈ s \/ y = x.
Proof. unfold set_add. case_bool_decide; set_solver. Qed.

Lemma set_add_NoDup x s : NoDup s -> NoDup (set_add x s).
Proof.
  unfold set_add. case_bool_decide as Hin; [done|]. intros Hnd.
  apply NoDup_app. split; [done|]. split; [|apply NoDup_singleton].
  intros y Hy Hy'. apply list_elem_of_singleton in Hy'. by subst.
Qed.

Lemma set_add_all_NoDup xs : forall s, NoDup s -> NoDup (set_add_all xs s).
Proof.
  induction xs as [|x xs IH]; intros s Hnd; [done|].
  apply IH. by apply set_add_NoDup.
Qed.

Lemma set_add_all_Forall (P : string -> Prop) xs :
  Forall P xs -> forall s, Forall P s -> Forall P (set_add_all xs s).
Proof.
  induction 1 as [|x xs Hx _ IH]; intros s Hs; [done|].
  apply IH. apply Forall_forall. intros y Hy.
  apply set_add_elem in Hy as [Hy| ->]; [|done].
  by eapply Forall_forall in Hs.
Qed.

Lemma composite_names_shape find fuel defmName ps :
  forall names c names' c',
    composite_names find fuel defmName ps names c = Some (names', c') ->
    NoDup names -> Forall (starts_with defmName) names ->
    NoDup names' /\ Forall (starts_with defmName) names'.
Proof.
  induction ps as [|p ps IH]; intros names c names' c'; simpl.
  - by intros [= <- <-].
  - destruct (find (id_name (cr_name p))) as [mc|]; [|apply IH].
    destruct (collectDefSuffixes _ _ _ _) as [[suffixes st1]|]; [|done].
    intros Hrest Hnd Hall. eapply IH; [exact Hrest| |].
    + by apply set_add_all_NoDup.
    + apply set_add_all_Forall; [|done].
      apply Forall_forall. intros y Hy. apply list_elem_of_fmap in Hy.
      destruct Hy as (suffix & -> & _). by exists suffix.
Qed.

Lemma insert_sorted_Permutation x l : insert_sorted x l ≡ₚ x :: l.
Proof.
  induction l as [|y l IH]; simpl; [done|].
  destruct (String.leb x y); [done|]. rewrite IH. apply Permutation_swap.
Qed.

Lemma sort_Permutation l : sort l ≡ₚ l.
Proof.
  induction l as [|x l IH]; simpl; [done|].
  unfold sort in *. rewrite insert_sorted_Permutation. by rewrite IH.
Qed.

Lemma insert_sorted_Sorted x l :
  Sorted in_order l -> Sorted in_order (insert_sorted x l).
Proof.
  induction 1 as [|y l Hsorted IH Hhd]; simpl; [by repeat constructor|].
  destruct (String.leb x y) eqn:Hxy.
  - constructor; [by constructor|]. by constructor.
  - constructor; [done|].
    assert (in_order y x) as Hyx.
    { unfold in_order. destruct (String.leb_total x y); congruence. }
    destruct l as [|z l]; simpl; [by constructor|].
    destruct (String.leb x z); constructor; [done|].
    by inversion Hhd.
Qed.

Lemma sort_Sorted l : Sorted in_order (sort l).
Proof.
  induction l as [|x l IH]; simpl; [constructor|].
  by apply insert_sorted_Sorted.
Qed.

Lemma for_each_grouped uri
    (one : Statement -> gmap string (list string) * list Symbol
           -> option (gmap string (list string) * list Symbol)) body :
  Forall (fun stmt => forall acc acc', one stmt acc = Some acc' ->
            exists out, acc'.2 = acc.2 ++ out /\
                        grouped uri (named_defms_of stmt) out) body ->
  forall acc acc', for_each one body acc = Some acc' ->
    exists out, acc'.2 = acc.2 ++ out /\
                grouped uri (flat_map named_defms_of body) out.
Proof.
  induction 1 as [|stmt body Hstmt _ IH]; intros acc acc'; simpl.
  - intros [= <-]. exists []. split; [by rewrite app_nil_r|constructor].
  - destruct (one stmt acc) as [acc1|] eqn:Hone; [|done]. intros Hrest.
    destruct (Hstmt _ _ Hone) as (out1 & Heq1 & Hg1).
    destruct (IH _ _ Hrest) as (out2 & Heq2 & Hg2).
    exists (out1 ++ out2). split; [by rewrite Heq2, Heq1, app_assoc|].
    by apply grouped_app.
Qed.

Lemma collectCompositeDefmSymbolsFromStatement_grouped find fuel uri stmt :
  forall acc acc',
    collectCompositeDefmSymbolsFromStatement find fuel uri stmt acc = Some acc' ->
    exists out, acc'.2 = acc.2 ++ out /\ grouped uri (named_defms_of stmt) out.
Proof.
  induction stmt as [s IH|s IH|s IH|s|s IH|s|s|s IH|s IH|s IHt IHe|s|s]
    using Statement_nested_ind; intros acc acc';
    try (simpl; intros [= <-]; exists []; split;
         [by rewrite app_nil_r|constructor]).
  - simpl. destruct (dm_name s) as [name|].
    + destruct (composite_names _ _ _ _ _ _) as [[names c1]|] eqn:Hnames;
        [|done].
      intros [= <-]. simpl. eexists. split; [reflexivity|].
      destruct (composite_names_shape _ _ _ _ _ _ _ _ Hnames) as [Hnd Hall];
        [constructor|constructor|].
      rewrite <- (app_nil_r (map _ _)). constructor; [| | |constructor].
      * rewrite composite_symbol_names. by rewrite sort_Permutation.
      * rewrite composite_symbol_names. apply sort_Sorted.
      * apply Forall_forall. intros sym Hsym.
        apply list_elem_of_fmap in Hsym as (suffixed & -> & Hin).
        split; [|done]. simpl.
        rewrite sort_Permutation in Hin. by eapply Forall_forall in Hall.
    + intros [= <-]. exists []. split; [by rewrite app_nil_r|constructor].
  - destruct s; simpl in *. by apply for_each_grouped.
  - destruct s; simpl in *. by apply for_each_grouped.
  - destruct s; simpl in *. by apply for_each_grouped.
  - destruct s as [c t e r]; simpl in *.
    destruct (for_each _ t acc) as [acc1|] eqn:Ht; [|done]. intros He.
    destruct (for_each_grouped uri _ _ IHt _ _ Ht) as (out1 & Heq1 & Hg1).
    destruct (for_each_grouped uri _ _ IHe _ _ He) as (out2 & Heq2 & Hg2).
    exists (out1 ++ out2). split; [by rewrite Heq2, Heq1, app_assoc|].
    by apply grouped_app.
Qed.

(** X10. Whatever [computeCompositeDefmSymbols] returns is one group of
    symbols per named [defm] that the walk reaches, in document order of
    the [defm]s: within a group the names of the symbols are different
    and in ascending order, the name of each symbol starts with the name
    of the [defm], and each symbol is a [def] of the file asked, located
    at the range of the name of the [defm], with no scope. *)
Theorem computeCompositeDefmSymbols_grouped
    (find : string -> option MultiClassDef) (fuel : nat)
    (statements : list Statement) (uri : string) (symbols : list Symbol) :
  computeCompositeDefmSymbols find fuel statements uri = Some symbols ->
  grouped uri (flat_map named_defms_of statements) symbols.
Proof.
  unfold computeCompositeDefmSymbols, collectCompositeDefmSymbolsFromStatements.
  destruct (for_each _ _ _) as [acc'|] eqn:Hrun; [|done]. intros [= <-].
  destruct (for_each_grouped uri _ statements
              ltac:(apply Forall_forall; intros stmt _;
                    apply collectCompositeDefmSymbolsFromStatement_grouped)
              _ _ Hrun) as (out & Heq & Hgrouped).
  simpl in Heq. by rewrite Heq.
Qed.

(** ** [normalizeCastTypeName] *)

(** A letter or underscore, then letters, digits and underscores. *)
Definition is_identifier (l : list ascii) : Prop :=
  match l with
  | c :: rest =>
      Lexer.is_ident_start c = true /\
      Forall (fun c => Lexer.is_ident_char c = true) rest
  | [] => False
  end.

Definition blank (l : list ascii) : Prop :=
  Forall (fun c => is_trimmed_char c = true) l.

Definition strip_end (l : list ascii) : list ascii :=
  rev (drop_while is_trimmed_char (rev l)).

Lemma trim_strip l : trim l = strip_end (drop_while is_trimmed_char l).
Proof. done. Qed.

Lemma trimmed_not_ident c :
  is_trimmed_char c = true ->
  Lexer.is_ident_start c = false /\ Lexer.is_ident_char c = false /\
  Ascii.eqb c "<" = false.
Proof.
  unfold is_trimmed_char. rewrite !orb_true_iff, !Ascii.eqb_eq.
  intros [[[[[-> | ->] | ->] | ->] | ->] | ->]; by vm_compute.
Qed.

Lemma ident_start_char c :
  Lexer.is_ident_start c = true ->
  Lexer.is_ident_char c = true /\ Ascii.eqb c "<" = false /\
  is_trimmed_char c = false.
Proof.
  intros H. split; [|split].
  - unfold Lexer.is_ident_start, Lexer.is_ident_char in *.
    apply orb_true_iff in H as [-> | ->]; [done|]. by rewrite orb_true_r.
  - destruct (Ascii.eqb c "<") eqn:Heq; [|done].
    apply Ascii.eqb_eq in Heq. subst. by vm_compute in H.
  - destruct (is_trimmed_char c) eqn:Heq; [|done].
    apply trimmed_not_ident in Heq as [Heq _]. congruence.
Qed.

Lemma ident_char_not_angle c :
  Lexer.is_ident_char c = true ->
  Ascii.eqb c "<" = false /\ is_trimmed_char c = false.
Proof.
  intros H. split.
  - destruct (Ascii.eqb c "<") eqn:Heq; [|done].
    apply Ascii.eqb_eq in Heq. subst. by vm_compute in H.
  - destruct (is_trimmed_char c) eqn:Heq; [|done].
    apply trimmed_not_ident in Heq as (_ & Heq & _). congruence.
Qed.

(** [strip_end] takes a blank end off. *)
Lemma drop_while_rev_split (p : ascii -> bool) r :
  exists m w, rev r = m ++ w /\ Forall (fun c => p c = true) w /\
              rev (drop_while p r) = m.
Proof.
  induction r as [|c r IH].
  - exists [], []. repeat split. constructor.
  - simpl. destruct (p c) eqn:Hc.
    + destruct IH as (m & w & -> & Hw & Hm).
      exists m, (w ++ [c]). split; [by rewrite app_assoc|].
      split; [|done]. apply Forall_app. split; [done|by repeat constructor].
    + exists (rev r ++ [c]), []. split; [by rewrite app_nil_r|].
      split; [constructor|done].
Qed.

Lemma strip_end_split l :
  exists w, blank w /\ l = strip_end l ++ w.
Proof.
  destruct (drop_while_rev_split is_trimmed_char (rev l)) as (m & w & Hl & Hw & Hm).
  rewrite rev_involutive in Hl.
  exists w. split; [done|]. unfold strip_end. by rewrite Hm.
Qed.

Lemma take_while_app_blank m w :
  blank w ->
  take_while Lexer.is_ident_char (m ++ w) = take_while Lexer.is_ident_char m.
Proof.
  intros Hw. induction m as [|c m IH]; simpl.
  - destruct Hw as [|d w Hd _]; [done|]. simpl.
    apply trimmed_not_ident in Hd as (_ & -> & _). done.
  - destruct (Lexer.is_ident_char c); [by rewrite IH|done].
Qed.

Lemma match_identifier_app_blank m w :
  blank w -> match_identifier (m ++ w) = match_identifier m.
Proof.
  intros Hw. unfold match_identifier. induction m as [|c m IH]; simpl.
  - induction Hw as [|d w Hd _ IHw]; [done|]. simpl.
    apply trimmed_not_ident in Hd as (-> & _). simpl. apply IHw.
  - destruct (Lexer.is_ident_start c); simpl; [|apply IH].
    by rewrite take_while_app_blank.
Qed.

Lemma match_identifier_drop_blank l :
  match_identifier (drop_while is_trimmed_char l) = match_identifier l.
Proof.
  unfold match_identifier. induction l as [|c l IH]; simpl; [done|].
  destruct (is_trimmed_char c) eqn:Hc; [|done].
  apply trimmed_not_ident in Hc as (-> & _). simpl. apply IH.
Qed.

Lemma match_identifier_strip_end l :
  match_identifier (strip_end l) = match_identifier l.
Proof.
  destruct (strip_end_split l) as (w & Hw & Hl).
  rewrite Hl at 2. by rewrite match_identifier_app_blank.
Qed.

Lemma match_identifier_trim l : match_identifier (trim l) = match_identifier l.
Proof.
  by rewrite trim_strip, match_identifier_strip_end, match_identifier_drop_blank.
Qed.

Lemma before_angle_blank w : blank w -> before_angle w = w.
Proof.
  unfold before_angle. induction 1 as [|c w Hc _ IH]; simpl; [done|].
  apply trimmed_not_ident in Hc as (_ & _ & ->). simpl. by rewrite IH.
Qed.

Lemma before_angle_app_blank m w :
  blank w -> exists w', blank w' /\ before_angle (m ++ w) = before_angle m ++ w'.
Proof.
  intros Hw. unfold before_angle. induction m as [|c m IH]; simpl.
  - exists w. split; [done|]. by apply before_angle_blank.
  - destruct (Ascii.eqb c "<"); simpl.
    + exists []. split; [constructor|done].
    + destruct IH as (w' & Hw' & ->). by exists w'.
Qed.

Lemma before_angle_drop_blank l :
  before_angle (drop_while is_trimmed_char l)
  = drop_while is_trimmed_char (before_angle l).
Proof.
  unfold before_angle. induction l as [|c l IH]; simpl; [done|].
  destruct (is_trimmed_char c) eqn:Hc.
  - apply trimmed_not_ident in Hc as Hc'. destruct Hc' as (_ & _ & ->).
    simpl. by rewrite Hc.
  - simpl. destruct (Ascii.eqb c "<"); simpl; [done|]. by rewrite Hc.
Qed.

Lemma match_identifier_before_angle_trim l :
  match_identifier (before_angle (trim l)) = match_identifier (before_angle l).
Proof.
  rewrite trim_strip.
  destruct (strip_end_split (drop_while is_trimmed_char l)) as (w & Hw & Hl).
  rewrite <- (match_identifier_drop_blank (before_angle l)).
  rewrite <- before_angle_drop_blank. rewrite Hl at 2.
  destruct (before_angle_app_blank
              (strip_end (drop_while is_trimmed_char l)) w Hw) as (w' & Hw' & ->).
  by rewrite match_identifier_app_blank.
Qed.

(** The two calls of [trim] change nothing in the answer: it is the
    leftmost identifier of the text before the first ['<']. *)
Lemma normalizeCastTypeName_match text :
  normalizeCastTypeName text
  = string_of_list_ascii
      <$> match_identifier (before_angle (list_ascii_of_string text)).
Proof.
  unfold normalizeCastTypeName.
  rewrite <- (match_identifier_before_angle_trim (list_ascii_of_string text)).
  destruct (trim (list_ascii_of_string text)) as [|c l] eqn:Htrim; [done|].
  by rewrite match_identifier_trim.
Qed.

Lemma take_while_all (p : ascii -> bool) l :
  Forall (fun c => p c = true) (take_while p l).
Proof.
  induction l as [|c l IH]; simpl; [constructor|].
  destruct (p c) eqn:Hc; by constructor.
Qed.

Lemma match_identifier_is_identifier l r :
  match_identifier l = Some r -> is_identifier r.
Proof.
  unfold match_identifier. induction l as [|c l IH]; simpl; [done|].
  destruct (Lexer.is_ident_start c) eqn:Hc; simpl; [|done].
  intros [= <-]. split; [done|]. apply take_while_all.
Qed.

Lemma match_identifier_None l :
  match_identifier l = None <->
  Forall (fun c => Lexer.is_ident_start c = false) l.
Proof.
  unfold match_identifier. induction l as [|c l IH]; simpl; [done|].
  destruct (Lexer.is_ident_start c) eqn:Hc; simpl.
  - split; [done|]. intros H. inversion H. congruence.
  - rewrite IH. split; [by constructor|]. by inversion 1.
Qed.

(** An identifier, then something that does not continue it. *)
Lemma match_identifier_identity r rest :
  is_identifier r ->
  match rest with c :: _ => Lexer.is_ident_char c = false | [] => True end ->
  match_identifier (r ++ rest) = Some r.
Proof.
  destruct r as [|c r]; [done|]. intros [Hc Hr] Hrest.
  unfold match_identifier. simpl. rewrite Hc. simpl. do 2 f_equal.
  induction Hr as [|d r Hd _ IH]; simpl.
  - destruct rest as [|e rest]; [done|]. simpl. by rewrite Hrest.
  - by rewrite Hd, IH.
Qed.

Lemma identifier_then_blank_no_angle r pad :
  is_identifier r -> blank pad ->
  Forall (fun c => Ascii.eqb c "<" = false) (r ++ pad).
Proof.
  intros Hr Hpad. apply Forall_app. split.
  - destruct r as [|c r]; [done|]. destruct Hr as [Hc Hr]. constructor.
    + by apply ident_start_char in Hc as (_ & ? & _).
    + eapply Forall_impl; [exact Hr|]. intros d Hd.
      by apply ident_char_not_angle in Hd as [? _].
  - eapply Forall_impl; [exact Hpad|]. intros d Hd.
    by apply trimmed_not_ident in Hd as (_ & _ & ?).
Qed.

Lemma before_angle_whole l :
  Forall (fun c => Ascii.eqb c "<" = false) l -> before_angle l = l.
Proof.
  unfold before_angle. induction 1 as [|c l Hc _ IH]; simpl; [done|].
  by rewrite Hc, IH.
Qed.

Lemma before_angle_cut l rest :
  Forall (fun c => Ascii.eqb c "<" = false) l ->
  before_angle (l ++ "<"%char :: rest) = l.
Proof.
  unfold before_angle. induction 1 as [|c l Hc _ IH]; simpl; [done|].
  by rewrite Hc, IH.
Qed.

Lemma list_ascii_of_string_app s1 s2 :
  list_ascii_of_string (s1 +:+ s2)
  = list_ascii_of_string s1 ++ list_ascii_of_string s2.
Proof. induction s1 as [|c s1 IH]; simpl; [done|]. by rewrite IH. Qed.

Lemma string_app_nil_r (s : string) : s +:+ "" = s.
Proof.
  induction s as [|c s IH]; [done|].
  change (String c s +:+ "") with (String c (s +:+ "")). by rewrite IH.
Qed.

(** X12. [normalizeCastTypeName] answers with the leftmost identifier of
    the text before the first ['<'], so the two calls of [trim] change
    nothing; what it returns is an identifier (a letter or underscore,
    then letters, digits and underscores) and is returned unchanged when
    given again; a type name with blanks around it and template
    arguments after it gives the type name; and it returns nothing
    exactly when no letter or underscore comes before the first ['<'].
    [inferTypeFromExpression] gives a type only for a [!cast] with a type
    argument, and then the class of that normalized name, which
    [hasClass] accepts. *)
Theorem normalizeCastTypeName_outer_type_name :
  (forall text name,
     normalizeCastTypeName text = Some name ->
     is_identifier (list_ascii_of_string name) /\
     normalizeCastTypeName name = Some name) /\
  (forall name pad1 pad2 rest,
     is_identifier (list_ascii_of_string name) ->
     blank (list_ascii_of_string pad1) -> blank (list_ascii_of_string pad2) ->
     normalizeCastTypeName (pad1 +:+ name +:+ pad2) = Some name /\
     normalizeCastTypeName (pad1 +:+ name +:+ pad2 +:+ "<" +:+ rest) = Some name) /\
  (forall text,
     normalizeCastTypeName text = None <->
     Forall (fun c => Lexer.is_ident_start c = false)
            (before_angle (list_ascii_of_string text))) /\
  (forall expr hasClass ty,
     inferTypeFromExpression expr hasClass = Some ty ->
     exists text args range name,
       expr = EBangOperator "!cast" (Some text) args range /\
       normalizeCastTypeName text = Some name /\ hasClass name = true /\
       ty = TypeSystem.mkTypeInfo TypeSystem.TKclass name None None).
Proof.
  assert (forall name pad1 pad2 tail,
     is_identifier (list_ascii_of_string name) ->
     blank (list_ascii_of_string pad1) -> blank (list_ascii_of_string pad2) ->
     (tail = "" \/ exists rest, tail = "<" +:+ rest) ->
     normalizeCastTypeName (pad1 +:+ name +:+ pad2 +:+ tail) = Some name)
    as Hpadded.
  { intros name pad1 pad2 tail Hname Hpad1 Hpad2 Htail.
    rewrite normalizeCastTypeName_match.
    rewrite !list_ascii_of_string_app.
    rewrite <- match_identifier_drop_blank, <- before_angle_drop_blank.
    assert (forall l, drop_while is_trimmed_char
                        (list_ascii_of_string pad1
                         ++ list_ascii_of_string name ++ l)
                      = list_ascii_of_string name ++ l) as ->.
    { intros l. induction Hpad1 as [|c p Hc _ IH]; simpl.
      - destruct (list_ascii_of_string name) as [|c n]; [done|].
        destruct Hname as [Hc _]. simpl.
        by apply ident_start_char in Hc as (_ & _ & ->).
      - by rewrite Hc. }
    assert (before_angle (list_ascii_of_string name
                          ++ list_ascii_of_string pad2
                          ++ list_ascii_of_string tail)
            = list_ascii_of_string name ++ list_ascii_of_string pad2) as ->.
    { pose proof (identifier_then_blank_no_angle _ _ Hname Hpad2) as Hall.
      rewrite app_assoc. destruct Htail as [-> | (rest & ->)].
      - simpl. rewrite app_nil_r. by apply before_angle_whole.
      - rewrite list_ascii_of_string_app. simpl. by apply before_angle_cut. }
    rewrite match_identifier_identity; [|done|].
    - simpl. by rewrite string_of_list_ascii_of_string.
    - destruct Hpad2 as [|c p Hc _]; [done|].
      by apply trimmed_not_ident in Hc as (_ & ? & _). }
  split; [|split; [|split]].
  - intros text name. rewrite normalizeCastTypeName_match.
    destruct (match_identifier _) as [r|] eqn:Hmatch; [|done].
    simpl. intros [= <-]. rewrite list_ascii_of_string_of_list_ascii.
    pose proof (match_identifier_is_identifier _ _ Hmatch) as Hr.
    split; [done|].
    specialize (Hpadded (string_of_list_ascii r) "" "" "").
    rewrite list_ascii_of_string_of_list_ascii in Hpadded.
    change ("" +:+ string_of_list_ascii r +:+ "" +:+ "")
      with (string_of_list_ascii r +:+ "") in Hpadded.
    rewrite string_app_nil_r in Hpadded.
    apply Hpadded; [done|constructor|constructor|by left].
  - intros name pad1 pad2 rest Hname Hpad1 Hpad2. split.
    + specialize (Hpadded name pad1 pad2 "" Hname Hpad1 Hpad2 (or_introl eq_refl)).
      by rewrite string_app_nil_r in Hpadded.
    + apply Hpadded; [done..|]. right. by exists rest.
  - intros text. rewrite normalizeCastTypeName_match.
    rewrite <- match_identifier_None.
    by destruct (match_identifier _).
  - intros expr hasClass ty. unfold inferTypeFromExpression.
    destruct expr as [| | | | | |operator typeArgText args range| | | |];
      try done.
    destruct (String.eqb operator "!cast") eqn:Hop; simpl; [|done].
    apply String.eqb_eq in Hop as ->.
    destruct typeArgText as [[|c text]|]; try done.
    destruct (normalizeCastTypeName _) as [name|] eqn:Hname; [|done].
    destruct (hasClass name) eqn:Hclass; [|done]. intros [= <-].
    by exists (String c text), args, range, name.
Qed.

End ResolutionHelperFacts.

Section ResolutionHelperExamples.
Import ResolutionHelpers Examples.

(** The symbols of [defm Z : B;], with [B : A]: the names [Z_a] and
    [Z_b] at the range of [Z]. *)
Definition Z_symbols : list Symbol :=
  [ {| sym_name := "Z_a"; sym_kind := SKdef;
       sym_location := {| loc_uri := uri_composite;
                          loc_range := range_at 0 73 74 |};
       sym_scope := None; sym_isForwardDeclaration := None |};
    {| sym_name := "Z_b"; sym_kind := SKdef;
       sym_location := {| loc_uri := uri_composite;
                          loc_range := range_at 0 73 74 |};
       sym_scope := None; sym_isForwardDeclaration := None |} ].

Lemma computeCompositeDefmSymbols_grouped_witness :
  computeCompositeDefmSymbols (buildMulticlassFinder inherited_statements) 3
    inherited_statements uri_composite = Some Z_symbols /\
  (flat_map named_defms_of inherited_statements
   = [ {| id_name := "Z"; id_range := range_at 0 73 74 |} ]) /\
  grouped uri_composite (flat_map named_defms_of inherited_statements)
    Z_symbols.
Proof.
  assert (computeCompositeDefmSymbols (buildMulticlassFinder inherited_statements)
            3 inherited_statements uri_composite = Some Z_symbols)
    as Hrun by (vm_compute; reflexivity).
  split; [exact Hrun|]. split; [reflexivity|].
  exact (computeCompositeDefmSymbols_grouped _ _ _ _ _ Hrun).
Defined.

(** A list that drops the names, or that holds them in another order, is
    not such a group. *)
Lemma grouped_pins_names :
  ~ grouped uri_composite [ {| id_name := "Z"; id_range := range_at 0 73 74 |} ]
      (rev Z_symbols) /\
  ~ grouped uri_composite [ {| id_name := "Z"; id_range := range_at 0 73 74 |} ]
      (map (fun s => {| sym_name := ""; sym_kind := sym_kind s;
                        sym_location := sym_location s;
                        sym_scope := sym_scope s;
                        sym_isForwardDeclaration := sym_isForwardDeclaration s |})
           Z_symbols).
Proof.
  split; intros H; inversion H as [|d ds group rest Hnd Hsorted Hall Hrest Hd Heq];
    subst; inversion Hrest; subst; rewrite app_nil_r in Heq; subst group.
  - simpl in Hsorted. inversion Hsorted as [|x l _ Hhd]; subst.
    inversion Hhd as [|y l' Hle]; subst. discriminate Hle.
  - simpl in Hnd. apply NoDup_cons in Hnd as [Hnotin _]. apply Hnotin.
    apply list_elem_of_here.
Qed.

(** The outer type name of a cast, and texts without one. *)
Lemma normalizeCastTypeName_examples :
  normalizeCastTypeName "Foo" = Some "Foo" /\
  normalizeCastTypeName " Foo<Bar<Baz>> " = Some "Foo" /\
  normalizeCastTypeName "_Internal42<T>" = Some "_Internal42" /\
  normalizeCastTypeName "   " = None /\
  normalizeCastTypeName "123bad" = Some "bad" /\
  normalizeCastTypeName "@@@" = None /\
  normalizeCastTypeName "<Foo>" = None.
Proof. vm_compute. repeat split. Qed.

Definition defvar_values (text : string) : list Expression :=
  flat_map (fun stmt => match stmt with
                        | SDefvarDef d => [dv_value d]
                        | _ => []
                        end) (statements_of text).

(** A cast as the parser returns it. *)
Lemma inferTypeFromExpression_parsed_cast :
  (fun expr => inferTypeFromExpression expr
                 (String.eqb "VOP3PWMMA_Profile"))
    <$> defvar_values "defvar P = !cast<VOP3PWMMA_Profile>(ProfileName);"
  = [Some (TypeSystem.mkTypeInfo TypeSystem.TKclass "VOP3PWMMA_Profile"
             None None)] /\
  (fun expr => inferTypeFromExpression expr (fun _ => false))
    <$> defvar_values "defvar P = !cast<VOP3PWMMA_Profile>(ProfileName);"
  = [None].
Proof. vm_compute. repeat split. Qed.

(** Two [defvar]s of one name: the first by name, the nested one by its
    range. *)
Lemma findDefvarInStatements_nested :
  let statements :=
    statements_of "defvar P = !cast<Foo>(Top); let A = 0 in { defvar P = !cast<Bar>(Inner); }" in
  (id_range ∘ dv_name) <$> findDefvarInStatements statements "P" None
  = Some (range_at 0 7 8) /\
  (id_range ∘ dv_name)
    <$> findDefvarInStatements statements "P" (Some (range_at 0 50 51))
  = Some (range_at 0 50 51) /\
  findDefvarInStatements statements "Q" None = None.
Proof. vm_compute. repeat split. Qed.

End ResolutionHelperExamples.
